(** * Session recorder: capture, storage and replay

  A shallow embedding of the TypeScript sources of the session recorder,
  followed by the properties proved of it.

  The model:
  - [Js]: the string functions of the JavaScript library that the sources
    call.
  - [Numbers]: JavaScript numbers as IEEE 754 binary64 values.
  - [Artifact]: the session artifact of types/events.ts
    ([RecordingSession], [SessionEvent] and their payloads).
  - [Replay]: [ReplayController], the [SessionReplayer] facade and the
    content fields of [IframeManager].
  - [Capture]: [EventCollector] and [EventHandler].
  - [Player]: the duration, the time display and the timeline of
    [SessionPlayer].
  - [Resources]: the recorder's options,
    [ResourceHelper.isResourceFromAllowedDomain] and
    [ResourceHelper.isElementVisible].
  - [Snapshot]: [ResourceHelper.resolveUrl] and [fetchResource],
    [StylesheetProcessor], [ScriptProcessor], and [HtmlCaptureHelper]
    from the clone of the document to the string it returns.
  - [Storage]: [LocalStorageAdapter] and the textual form of dates.
  - [Recorder]: [SessionRecorder].
  - [Helpers]: [generateUniqueId] and [throttle] of utils/helpers.ts.

  The properties: [NumbersProps], [ReplayProps], [CaptureProps],
  [PlayerProps], [ResourcesProps], [SnapshotProps], [StorageProps],
  [RecorderProps], [HelpersProps].

  Modelling conventions.  A JavaScript [number] that is finite is a
  rational ([Q]) or, where the source only has whole numbers, an integer
  ([Z]); a value that is not a finite number ([NaN], an infinity) is
  [None] of an option type.  The target of a seek, where the rounding of
  a sum decides the result, is computed on the binary64 values
  themselves ([Numbers]).  A [Date] is its time value (whole milliseconds
  since the epoch) or the invalid date.  The timeouts that the modelled
  code sets are explicit state: [setTimeout] records the time of the call
  and the requested delay, a timer fires when the clock reaches its due
  time, and a callback runs to completion before anything else.  A
  thrown exception or a rejected promise is a value of [Completion].  A
  call of an [async] function that nobody awaits is split where it first
  suspends: what it does before returns with the call, the rest waits
  in the state until it is resumed. *)

From Stdlib Require Import ZArith QArith Qminmax Qround Lqa String Ascii List Bool Lia.
From Stdlib Require Import SpecFloat Zpower Qpower.
From stdpp Require Import gmap strings pretty.
Import ListNotations.

Local Open Scope Z_scope.

(* ===================================================================== *)
(** ** Strings of the JavaScript library *)
(* ===================================================================== *)

Module Js.

(** [String.prototype.startsWith] *)
Fixpoint startsWith (s searchString : string) {struct searchString} : bool :=
  match searchString, s with
  | EmptyString, _ => true
  | String a rest, String b s' => Ascii.eqb a b && startsWith s' rest
  | String _ _, EmptyString => false
  end.

(** [String.prototype.includes] *)
Fixpoint includes (s searchString : string) : bool :=
  startsWith s searchString ||
  match s with
  | EmptyString => false
  | String _ s' => includes s' searchString
  end.

(** The lower-case form of an ASCII letter. *)
Definition lowerAscii (c : ascii) : ascii :=
  let n := nat_of_ascii c in
  if ((65 <=? n) && (n <=? 90))%nat then ascii_of_nat (n + 32) else c.

(** [String.prototype.toLowerCase], on ASCII letters. *)
Fixpoint toLowerCase (s : string) : string :=
  match s with
  | EmptyString => EmptyString
  | String c rest => String (lowerAscii c) (toLowerCase rest)
  end.

(** [s.split(" ").filter(cls => cls)]: the maximal runs without a space;
    [cur] is the run being read, reversed. *)
Fixpoint classNames (cur : list ascii) (s : string) : list string :=
  let flush := match cur with
               | [] => []
               | _ => [string_of_list_ascii (rev cur)]
               end in
  match s with
  | EmptyString => flush
  | String c rest =>
      if Ascii.eqb c " "%char then flush ++ classNames [] rest
      else classNames (c :: cur) rest
  end.

(** [Array.prototype.join] *)
Fixpoint join (sep : string) (l : list string) : string :=
  match l with
  | [] => EmptyString
  | [x] => x
  | x :: rest => x +:+ sep +:+ join sep rest
  end.

(** A JavaScript string used as a condition, and [s || undefined]. *)
Definition truthy (s : string) : bool :=
  match s with EmptyString => false | _ => true end.

Definition orUndefined (s : string) : option string :=
  if truthy s then Some s else None.

(** [String.prototype.padStart] with a filler of one character. *)
Definition padStart (targetLength : nat) (fill : ascii) (s : string) : string :=
  string_of_list_ascii (repeat fill (targetLength - String.length s)) +:+ s.

End Js.

(* ===================================================================== *)
(** ** Numbers of the JavaScript language *)
(* ===================================================================== *)

Module Numbers.

(** A [number] is an IEEE 754 binary64 value: 53 binary digits, exponents
    below 1024, every result rounded to the nearest value with ties to
    even.  [spec_float] at that precision is its representation. *)

(** The number nearest to the integer [z]: [z] itself when [|z| < 2^53],
    as for every time value a [Date] can hold. *)
Definition numberOfZ (z : Z) : spec_float := binary_normalize 53 1024 z 0 false.

(** The result of [getTime()] as a number; [None] is [NaN]. *)
Definition numberOfTime (t : option Z) : spec_float :=
  match t with
  | Some z => numberOfZ z
  | None => S754_nan
  end.

(** [a + b] *)
Definition js_add (a b : spec_float) : spec_float := SFadd 53 1024 a b.

(** [a <= b]: false when either is [NaN]. *)
Definition js_leb (a b : spec_float) : bool := SFleb a b.

(** The integer [z] is at most the number [x], both taken at their exact
    values; nothing is at most [NaN]. *)
Definition atMost (z : Z) (x : spec_float) : Prop :=
  match x with
  | S754_nan => False
  | S754_infinity negative => negative = false
  | S754_zero _ => z <= 0
  | S754_finite s m e =>
      (inject_Z z <= inject_Z (cond_Zopp s (Zpos m)) * Qpower 2 e)%Q
  end.

End Numbers.

(* ===================================================================== *)
(** ** The session artifact (types/events.ts) *)
(* ===================================================================== *)

Module Artifact.

Inductive EventType :=
| MOUSE_MOVE | MOUSE_CLICK | MOUSE_SCROLL | KEY_PRESS | KEY_DOWN | KEY_UP
| NAVIGATION | RESIZE | CUSTOM.

(** A [Date] object: a time value in milliseconds, or the invalid date. *)
Inductive JsDate :=
| ValidDate (tv : Z)
| InvalidDate.

(** [Date.prototype.getTime]; [None] stands for [NaN]. *)
Definition getTime (d : JsDate) : option Z :=
  match d with
  | ValidDate tv => Some tv
  | InvalidDate => None
  end.

(** The [target] descriptor shared by mouse and keyboard payloads. *)
Record ElementInfo := mkElementInfo {
  info_tagName : string;
  info_id : option string;
  info_className : option string;
  info_path : option string
}.

Record Modifiers := mkModifiers {
  ctrl : bool; alt : bool; shift : bool; meta : bool
}.

(** Values of the open-ended fields of [CustomEventData]. *)
Inductive FieldValue :=
| FNum (q : Q)
| FStr (s : string)
| FTarget (t : option ElementInfo).

Inductive EventData :=
| MouseEventData (x y : Q) (target : option ElementInfo)
                 (button : option Z) (scrollDelta : option (Q * Q))
| KeyboardEventData (key : string) (keyCode : Z) (modifiers : Modifiers)
                    (target : option ElementInfo)
| NavigationEventData (from to : string) (title : option string)
| CustomEventData (type : string) (fields : list (string * FieldValue)).

(** [SessionEvent] and [RecordingSession], parameterised by the
    representation [D] of time values: [JsDate] in memory, the textual
    encoding on the wire. *)
Record SessionEvent (D : Type) := mkEvent {
  timestamp : D;
  type : EventType;
  data : EventData
}.
Arguments mkEvent {D}.
Arguments timestamp {D}.
Arguments type {D}.
Arguments data {D}.

Record RecordingSession (D : Type) := mkSession {
  id : string;
  startTime : D;
  endTime : D;
  events : list (SessionEvent D);
  pageUrl : option string;
  pageHtml : option string
}.
Arguments mkSession {D}.
Arguments id {D}.
Arguments startTime {D}.
Arguments endTime {D}.
Arguments events {D}.
Arguments pageUrl {D}.
Arguments pageHtml {D}.

(** Time value of an event, as [event.timestamp.getTime()]. *)
Definition eventTime (e : SessionEvent JsDate) : option Z :=
  getTime (timestamp e).

(** The largest time value a [Date] can hold. *)
Definition maxTime : Z := 8640000000000000.

Definition inRange (t : Z) : bool := (- maxTime <=? t) && (t <=? maxTime).

(** A date is invalid, or its time value is within the range of [Date]
    (as the time value of every [Date] object is). *)
Definition dateInRange (d : JsDate) : bool :=
  match d with
  | ValidDate t => inRange t
  | InvalidDate => true
  end.

(** The date of every event is invalid, or has its time value within
    the range of [Date]. *)
Definition eventsInRange (s : RecordingSession JsDate) : bool :=
  forallb (fun e => dateInRange (timestamp e)) (events s).

End Artifact.

(* ===================================================================== *)
(** ** Replay: ReplayController and SessionReplayer *)
(* ===================================================================== *)

Module Replay.
Import Artifact Numbers.

Local Open Scope Q_scope.

(** *** Numbers and timers *)

(** JavaScript division of finite numbers: dividing by zero gives an
    infinity or [NaN], neither of which is a finite number. *)
Definition js_div (a b : Q) : option Q :=
  if Qeq_bool b 0 then None else Some (a / b).

(** The delay a timer really waits: [setTimeout] treats a delay that is
    not a finite number, or is negative, as zero. *)
Definition effectiveDelay (delayMs : option Q) : Q :=
  match delayMs with
  | Some d => Qmax 0 d
  | None => 0
  end.

Record Timer := mkTimer {
  setAt : Q;                 (* clock value when setTimeout was called *)
  delayMs : option Q         (* the delay argument *)
}.

Definition dueTime (t : Timer) : Q := setAt t + effectiveDelay (delayMs t).

(** *** ReplayController *)

Record ReplayController := mkController {
  playing : bool;
  currentIndex : nat;
  speed : Q;
  nextTimer : option positive
}.

(** The replayer together with the part of the browser it acts on:
    the clock, the timeouts it sets for its deliveries, and the
    observable calls it makes ([onEvent] deliveries with the time they
    happen at, [onComplete]).

    [timers] holds the pending timeouts that [ReplayController.scheduleNext]
    has set, and no others.  The event processor sets a timeout of its
    own when it replays a click with the cursor shown
    ([CursorManager.animateClick], 200 ms): its callback restyles the
    cursor and calls nothing of the replayer, and neither the controller
    nor the replayer ever holds its handle.  Those timeouts, like the
    rest of what the event processor does to the page, are outside this
    state. *)
Record Replayer := mkReplayer {
  session : option (RecordingSession JsDate);
  optLoop : bool;                               (* options.loop *)
  controller : ReplayController;
  now : Q;                                      (* the clock, ms *)
  timers : gmap positive Timer;                 (* pending delivery timeouts *)
  freshId : positive;                           (* next timer handle *)
  delivered : list (Q * SessionEvent JsDate);   (* onEvent calls *)
  completions : nat                             (* onComplete calls *)
}.

Definition withController (f : ReplayController -> ReplayController)
           (r : Replayer) : Replayer :=
  mkReplayer (session r) (optLoop r) (f (controller r)) (now r)
             (timers r) (freshId r) (delivered r) (completions r).

(** [new ReplayController(speed, loop, onComplete)] inside
    [new SessionReplayer(options)], at clock value [t0]. *)
Definition newReplayer (optSpeed : Q) (loop : bool) (t0 : Q) : Replayer :=
  mkReplayer None loop (mkController false 0 optSpeed None) t0 ∅ 1%positive [] 0.

(** The methods of [ReplayController].  They act on the whole
    [Replayer] because cancelling and scheduling touch the timer table. *)
Module ReplayController.

(** [isPlaying] *)
Definition isPlaying (r : Replayer) : bool := playing (controller r).

(** [getCurrentIndex] *)
Definition getCurrentIndex (r : Replayer) : nat := currentIndex (controller r).

(** [getSpeed] *)
Definition getSpeed (r : Replayer) : Q := speed (controller r).

(** [cancelNextTimer]: clear the timeout whose handle is held, if any. *)
Definition cancelNextTimer (r : Replayer) : Replayer :=
  match nextTimer (controller r) with
  | Some h =>
      mkReplayer (session r) (optLoop r)
                 (mkController (playing (controller r))
                               (currentIndex (controller r))
                               (speed (controller r)) None)
                 (now r) (delete h (timers r)) (freshId r)
                 (delivered r) (completions r)
  | None => r
  end.

(** [ReplayController.play] *)
Definition play (r : Replayer) : Replayer :=
  withController (fun c => mkController true (currentIndex c) (speed c) (nextTimer c)) r.

(** [ReplayController.pause] *)
Definition pause (r : Replayer) : Replayer :=
  cancelNextTimer
    (withController (fun c => mkController false (currentIndex c) (speed c) (nextTimer c)) r).

(** [ReplayController.stop] *)
Definition stop (r : Replayer) : Replayer :=
  cancelNextTimer
    (withController (fun c => mkController false 0 (speed c) (nextTimer c)) r).

(** [ReplayController.reset] *)
Definition reset (r : Replayer) : Replayer := stop r.

(** [ReplayController.complete] *)
Definition complete (r : Replayer) : Replayer :=
  let r1 := withController
              (fun c => mkController false (currentIndex c) (speed c) (nextTimer c)) r in
  mkReplayer (session r1) (optLoop r1) (controller r1) (now r1)
             (timers r1) (freshId r1) (delivered r1) (S (completions r1)).

(** [ReplayController.setCurrentIndex] *)
Definition setCurrentIndex (index : nat) (r : Replayer) : Replayer :=
  withController (fun c => mkController (playing c) index (speed c) (nextTimer c)) r.

(** [ReplayController.incrementIndex] *)
Definition incrementIndex (r : Replayer) : Replayer :=
  withController
    (fun c => mkController (playing c) (S (currentIndex c)) (speed c) (nextTimer c)) r.

(** [ReplayController.setSpeed] *)
Definition setSpeed (factor : Q) (r : Replayer) : Replayer :=
  withController
    (fun c => mkController (playing c) (currentIndex c) factor (nextTimer c)) r.

(** [ReplayController.scheduleNext]: the callback is always the
    continuation of [processNextEvent], so a timer only needs its times. *)
Definition scheduleNext (delay : option Q) (r : Replayer) : Replayer :=
  let r1 := cancelNextTimer r in
  let h := freshId r1 in
  mkReplayer (session r1) (optLoop r1)
             (mkController (playing (controller r1))
                           (currentIndex (controller r1))
                           (speed (controller r1)) (Some h))
             (now r1) (<[h := mkTimer (now r1) delay]> (timers r1))
             (Pos.succ h) (delivered r1) (completions r1).

End ReplayController.
Export ReplayController.

(** *** SessionReplayer *)

Module SessionReplayer.

(** [calculateDelay] *)
Definition calculateDelay (r : Replayer) (currentEvent nextEvent : SessionEvent JsDate)
  : option Q :=
  match eventTime currentEvent, eventTime nextEvent with
  | Some currentTime, Some nextTime =>
      js_div (inject_Z nextTime - inject_Z currentTime) (getSpeed r)
  | _, _ => None
  end.

(** [options.onEvent(currentEvent); eventProcessor.processEvent(currentEvent)]:
    the delivery is logged.  What [processEvent] does to the page (the
    cursor, the simulated DOM events, the 200 ms timeout of the click
    animation) leaves the fields of this state as they are. *)
Definition deliver (e : SessionEvent JsDate) (r : Replayer) : Replayer :=
  mkReplayer (session r) (optLoop r) (controller r) (now r) (timers r)
             (freshId r) (delivered r ++ [(now r, e)]) (completions r).

(** [processNextEvent].  The source recurses on the replayer's state;
    [fuel] bounds the depth of the recursion ([processNextEvent_total]
    shows that depth three is never exceeded). *)
Fixpoint processNextEvent (fuel : nat) (r : Replayer) : option Replayer :=
  match fuel with
  | O => None
  | S fuel' =>
      match session r with
      | None => Some r
      | Some s =>
          if negb (isPlaying r) then Some r
          else
            let currentIndex := getCurrentIndex r in
            if (length (events s) <=? currentIndex)%nat then
              if optLoop r then processNextEvent fuel' (ReplayController.reset r)
              else Some (ReplayController.complete r)
            else
              match events s !! currentIndex with
              | None => Some r (* unreachable: the index is in range *)
              | Some currentEvent =>
                  let r1 := deliver currentEvent r in
                  match events s !! S currentIndex with
                  | Some nextEvent =>
                      Some (scheduleNext
                              (calculateDelay r1 currentEvent nextEvent) r1)
                  | None => processNextEvent fuel' (incrementIndex r1)
                  end
              end
      end
  end.

Definition enoughFuel : nat := 3.

(** [SessionReplayer.stop] (hiding the cursor and clearing the hover
    state act on the page only). *)
Definition stop (r : Replayer) : Replayer := ReplayController.stop r.

(** [SessionReplayer.pause] *)
Definition pause (r : Replayer) : Replayer := ReplayController.pause r.

(** [SessionReplayer.play] *)
Definition play (r : Replayer) : option Replayer :=
  match session r with
  | None => Some r
  | Some _ =>
      if isPlaying r then Some r
      else processNextEvent enoughFuel (ReplayController.play r)
  end.

(** [SessionReplayer.loadSession] (the choice of page content and the
    iframe set-up act on the page only). *)
Definition loadSession (s : RecordingSession JsDate) (r : Replayer) : Replayer :=
  let r1 := stop r in
  ReplayController.reset
    (mkReplayer (Some s) (optLoop r1) (controller r1) (now r1)
                (timers r1) (freshId r1) (delivered r1) (completions r1)).

(** The [for] loop of [findClosestEventIndex], from position [i] on with
    the remaining events [evs]; [index] is the loop's result variable.
    The loop compares [event.timestamp.getTime()] with the target as
    numbers. *)
Fixpoint findLoop (targetTime : spec_float) (evs : list (SessionEvent JsDate))
         (i index : nat) : nat :=
  match evs with
  | [] => index
  | e :: rest =>
      if js_leb (numberOfTime (eventTime e)) targetTime
      then findLoop targetTime rest (S i) i
      else index
  end.

(** [findClosestEventIndex] *)
Definition findClosestEventIndex (targetTime : spec_float) (r : Replayer) : nat :=
  match session r with
  | None => 0%nat
  | Some s => findLoop targetTime (events s) 0 0
  end.

(** [this.session.startTime.getTime() + timeInMs]: an addition of
    numbers, rounded as such. *)
Definition seekTarget (s : RecordingSession JsDate) (timeInMs : spec_float)
  : spec_float :=
  js_add (numberOfTime (getTime (startTime s))) timeInMs.

(** [SessionReplayer.seekTo] *)
Definition seekTo (timeInMs : spec_float) (r : Replayer) : option Replayer :=
  match session r with
  | None => Some r
  | Some s =>
      let wasPlaying := isPlaying r in
      let r1 := stop r in
      let targetTime := seekTarget s timeInMs in
      let eventIndex := findClosestEventIndex targetTime r1 in
      let r2 := setCurrentIndex eventIndex r1 in
      if wasPlaying then play r2 else Some r2
  end.

(** [SessionReplayer.setSpeed] *)
Definition setSpeed (speed : Q) (r : Replayer) : Replayer :=
  ReplayController.setSpeed speed r.

End SessionReplayer.
Export SessionReplayer.

(** *** The event loop *)

(** The pending timeout [h], whose record is [t], expires: the clock
    moves to its due time (it never runs backwards) and the handle leaves
    the timer table.  The controller still holds the stale handle. *)
Definition expire (h : positive) (t : Timer) (r : Replayer) : Replayer :=
  mkReplayer (session r) (optLoop r) (controller r)
             (Qmax (now r) (dueTime t)) (delete h (timers r))
             (freshId r) (delivered r) (completions r).

(** One turn of the event loop: the pending timeout [h] fires and the
    callback given to [scheduleNext] runs:
    [incrementIndex(); processNextEvent()]. *)
Definition fire (h : positive) (r : Replayer) : option Replayer :=
  match timers r !! h with
  | None => None
  | Some t => processNextEvent enoughFuel (incrementIndex (expire h t r))
  end.

(** Time passes without any timer firing. *)
Definition advance (dt : Q) (r : Replayer) : Replayer :=
  mkReplayer (session r) (optLoop r) (controller r) (now r + Qmax 0 dt)
             (timers r) (freshId r) (delivered r) (completions r).

(** The calls a client can make on the replayer, and what the browser
    can do to it. *)
Inductive Op :=
| OpLoad (s : RecordingSession JsDate)
| OpPlay
| OpPause
| OpStop
| OpSeek (timeInMs : spec_float)
| OpSetSpeed (factor : Q)
| OpFire (h : positive)       (* a pending timeout expires *)
| OpAdvance (dt : Q).         (* time passes *)

(** A call that has not returned within [enoughFuel], or the expiry of a
    timeout that is not pending, leaves the state as it is. *)
Definition applyOp (op : Op) (r : Replayer) : Replayer :=
  match op with
  | OpLoad s => loadSession s r
  | OpPlay => default r (play r)
  | OpPause => pause r
  | OpStop => stop r
  | OpSeek timeInMs => default r (seekTo timeInMs r)
  | OpSetSpeed factor => setSpeed factor r
  | OpFire h => default r (fire h r)
  | OpAdvance dt => advance dt r
  end.

Definition run (ops : list Op) (r : Replayer) : Replayer :=
  fold_left (fun acc op => applyOp op acc) ops r.

(** *** Vocabulary for the statements about the replayer *)

(** Delivery records compared up to equality of rationals. *)
Definition sameDeliveries (a b : list (Q * SessionEvent JsDate)) : Prop :=
  Forall2 (fun x y => fst x == fst y /\ snd x = snd y) a b.

(** The factors of the [setSpeed] calls in a list of operations. *)
Definition speedFactors (ops : list Op) : list Q :=
  omap (fun op => match op with OpSetSpeed f => Some f | _ => None end) ops.

(** Offset of an event from the start of its session, in ms. *)
Definition offsetOf (s : RecordingSession JsDate) (e : SessionEvent JsDate)
  : option Z :=
  match getTime (startTime s), eventTime e with
  | Some st, Some t => Some (t - st)%Z
  | _, _ => None
  end.

(** The offset of [e] from the start of the session is at most the
    number [timeInMs], both taken at their exact values. *)
Definition atOrBefore (s : RecordingSession JsDate) (timeInMs : spec_float)
           (e : SessionEvent JsDate) : Prop :=
  exists o, offsetOf s e = Some o /\ atMost o timeInMs.

(** The time value of [e] is at most [target] as the loop of
    [findClosestEventIndex] compares them. *)
Definition notAfter (target : spec_float) (e : SessionEvent JsDate) : Prop :=
  js_leb (numberOfTime (eventTime e)) target = true.

(** [k] is the highest index of an event of [evs] that satisfies [P]. *)
Definition highest (P : SessionEvent JsDate -> Prop)
           (evs : list (SessionEvent JsDate)) (k : nat) : Prop :=
  (exists e, evs !! k = Some e /\ P e) /\
  forall j e, evs !! j = Some e -> P e -> (j <= k)%nat.

(** No event of [evs] satisfies [P]. *)
Definition noneWith (P : SessionEvent JsDate -> Prop)
           (evs : list (SessionEvent JsDate)) : Prop :=
  forall j e, evs !! j = Some e -> ~ P e.

(** [k] is the highest index of an event of [s] whose offset from the
    start of the session is at most [timeInMs]. *)
Definition highestAtOrBefore (s : RecordingSession JsDate) (timeInMs : spec_float)
           (k : nat) : Prop :=
  highest (atOrBefore s timeInMs) (events s) k.

(** [k] is where the run of events satisfying [P] that starts the list
    ends: the events up to [k] satisfy [P] and the one after [k], if
    there is one, does not; [k] is 0 when the list is empty or its first
    event does not satisfy [P]. *)
Definition endOfLeadingRun (P : SessionEvent JsDate -> Prop)
           (evs : list (SessionEvent JsDate)) (k : nat) : Prop :=
  (is_Some (evs !! k) /\
   (forall j e, evs !! j = Some e -> (j <= k)%nat -> P e) /\
   (forall e, evs !! S k = Some e -> ~ P e)) \/
  (k = 0%nat /\ forall e, evs !! 0%nat = Some e -> ~ P e).

(** The events carry valid dates in non-decreasing order. *)
Fixpoint sortedTimes (evs : list (SessionEvent JsDate)) : bool :=
  match evs with
  | [] => true
  | e :: rest =>
      match eventTime e with
      | None => false
      | Some t =>
          match rest with
          | [] => true
          | e' :: _ =>
              match eventTime e' with
              | Some t' => (t <=? t')%Z && sortedTimes rest
              | None => false
              end
          end
      end
  end.

(** Number of leading events whose time is at most [target]. *)
Fixpoint leading (target : spec_float) (evs : list (SessionEvent JsDate)) : nat :=
  match evs with
  | [] => 0
  | e :: rest =>
      if js_leb (numberOfTime (eventTime e)) target
      then S (leading target rest) else 0
  end.

(** What the specification says of [seek]: the cursor ends on the
    highest index at or before the requested time, and the play/pause
    state is as it was before the call. *)
Definition seekAsSpecified (timeInMs : spec_float) (r : Replayer) : Prop :=
  forall s r', session r = Some s -> seekTo timeInMs r = Some r' ->
    highestAtOrBefore s timeInMs (getCurrentIndex r') /\
    isPlaying r' = isPlaying r.

(** The session of the specification's scenario: a navigation at 0 ms, a
    click at (10,10) at 500 ms and a move to (20,20) at 1500 ms. *)
Definition demoStart : Z := 1700000000000.

Definition demoSession : RecordingSession JsDate :=
  mkSession "demo"%string (ValidDate demoStart) (ValidDate (demoStart + 1500))
    [ mkEvent (ValidDate demoStart) NAVIGATION
              (NavigationEventData "direct" "https://example.org/" None);
      mkEvent (ValidDate (demoStart + 500)) MOUSE_CLICK
              (MouseEventData 10 10 None (Some 0%Z) None);
      mkEvent (ValidDate (demoStart + 1500)) MOUSE_MOVE
              (MouseEventData 20 20 None None None) ]
    None None.

(** The demo session loaded, and loaded then played, at speed 1. *)
Definition demoLoaded : Replayer := run [OpLoad demoSession] (newReplayer 1 false 0).
Definition demoPlaying : Replayer :=
  run [OpLoad demoSession; OpPlay] (newReplayer 1 false 0).

(** The number nearest to 499.99999: 8796092846286140 * 2^-44, a little
    above 499.99999 and below 500. *)
Definition justBelow500 : spec_float :=
  S754_finite false 8796092846286140 (-44).

(** The demo session with its last two events exchanged: the event at
    index 1 is the latest. *)
Definition demoUnordered : RecordingSession JsDate :=
  mkSession "unordered"%string (ValidDate demoStart) (ValidDate (demoStart + 1500))
    [ mkEvent (ValidDate demoStart) NAVIGATION
              (NavigationEventData "direct" "https://example.org/" None);
      mkEvent (ValidDate (demoStart + 1500)) MOUSE_MOVE
              (MouseEventData 20 20 None None None);
      mkEvent (ValidDate (demoStart + 500)) MOUSE_CLICK
              (MouseEventData 10 10 None (Some 0%Z) None) ]
    None None.

(** A session whose second event has an invalid date, with a click at
    500 ms after it. *)
Definition demoUndatedEvent : RecordingSession JsDate :=
  mkSession "undated"%string (ValidDate demoStart) (ValidDate (demoStart + 1500))
    [ mkEvent (ValidDate demoStart) NAVIGATION
              (NavigationEventData "direct" "https://example.org/" None);
      mkEvent InvalidDate MOUSE_MOVE
              (MouseEventData 20 20 None None None);
      mkEvent (ValidDate (demoStart + 500)) MOUSE_CLICK
              (MouseEventData 10 10 None (Some 0%Z) None) ]
    None None.

(** Two replayer states that differ at most in the speed and in the
    delays recorded for their pending timeouts. *)
Definition agreeUpToSpeed (a b : Replayer) : Prop :=
  session a = session b /\ optLoop a = optLoop b /\
  isPlaying a = isPlaying b /\ getCurrentIndex a = getCurrentIndex b /\
  nextTimer (controller a) = nextTimer (controller b) /\
  now a = now b /\ freshId a = freshId b /\
  delivered a = delivered b /\ completions a = completions b /\
  dom (timers a) = dom (timers b).

(** *** The event loop left alone *)

(** One turn of the event loop while the page does nothing else: a
    pending delivery timeout, if there is one, fires. *)
Definition fireNext (r : Replayer) : option Replayer :=
  match map_to_list (timers r) with
  | (h, _) :: _ => fire h r
  | [] => None
  end.

(** At most [n] such turns, stopping when no delivery timeout is
    pending. *)
Fixpoint drain (n : nat) (r : Replayer) : Replayer :=
  match n with
  | O => r
  | S n' =>
      match fireNext r with
      | Some r' => drain n' r'
      | None => r
      end
  end.

(** No delivery timeout is pending, or exactly one is and the
    controller holds its handle. *)
Definition oneTimerAtMost (r : Replayer) : Prop :=
  timers r = ∅ \/
  exists h t, timers r = {[h := t]} /\ nextTimer (controller r) = Some h.

(** The events delivered so far, without the times. *)
Definition deliveredEvents (r : Replayer) : list (SessionEvent JsDate) :=
  map snd (delivered r).

(** The time at which playback at a constant [speed], started at clock
    value [c0] on an event with time value [t0], delivers an event with
    time value [t]. *)
Definition scheduledAt (c0 : Q) (t0 : Z) (speed : Q) (t : Z) : Q :=
  c0 + (inject_Z t - inject_Z t0) / speed.

(** Every delivery of [ds] is the event of [evs] at the same position,
    made at the time playback from [c0] at [speed] gives it; [t0] is the
    time value of the first event played. *)
Definition onSchedule (c0 : Q) (t0 : Z) (speed : Q)
           (ds : list (Q * SessionEvent JsDate))
           (evs : list (SessionEvent JsDate)) : Prop :=
  Forall2 (fun d e =>
             snd d = e /\
             exists t, eventTime e = Some t /\ fst d == scheduledAt c0 t0 speed t)
          ds evs.

(** The time value of the event at position [k], or 0 when there is no
    such event or its date is invalid. *)
Definition timeAt (s : RecordingSession JsDate) (k : nat) : Z :=
  default 0%Z (events s !! k ≫= eventTime).

(** The demo session loaded into a replayer built with [loop: true]. *)
Definition demoLooping : Replayer := run [OpLoad demoSession] (newReplayer 1 true 0).

(** The first two events of the demo session. *)
Definition demoFirstEvent : SessionEvent JsDate :=
  mkEvent (ValidDate demoStart) NAVIGATION
          (NavigationEventData "direct" "https://example.org/" None).

Definition demoSecondEvent : SessionEvent JsDate :=
  mkEvent (ValidDate (demoStart + 500)) MOUSE_CLICK
          (MouseEventData 10 10 None (Some 0%Z) None).

(** *** The page shown in the iframe *)

(** The fields that decide what the iframe shows: two options of the
    replayer and two fields of its [IframeManager]. *)
Record Content := mkContent {
  optOriginalUrl : string;       (* options.originalUrl *)
  optContentHtml : string;       (* options.contentHtml *)
  managerOriginalUrl : string;   (* IframeManager.originalUrl *)
  managerContentHtml : string    (* IframeManager.contentHtml *)
}.

(** An optional string used as a condition. *)
Definition truthyOpt (s : option string) : bool :=
  match s with
  | Some x => Js.truthy x
  | None => false
  end.

(** What [prepareIframe] puts into the iframe. *)
Inductive IframeLoad :=
| LoadHtml (html : string)     (* [loadHtmlContent(html)] *)
| LoadUrl (url : string)       (* [iframe.src = url] *)
| LoadNothing.

Module IframeManager.

(** [IframeManager.setOriginalUrl] *)
Definition setOriginalUrl (url : string) (c : Content) : Content :=
  mkContent (optOriginalUrl c) (optContentHtml c) url (managerContentHtml c).

(** [IframeManager.setContentHtml] *)
Definition setContentHtml (html : string) (c : Content) : Content :=
  mkContent (optOriginalUrl c) (optContentHtml c) (managerOriginalUrl c) html.

(** [IframeManager.prepareIframe], for a manager that has an iframe
    whose [src] is [src]. *)
Definition prepareIframe (src : string) (c : Content) : IframeLoad :=
  if Js.truthy (managerContentHtml c) then LoadHtml (managerContentHtml c)
  else if Js.truthy (managerOriginalUrl c) &&
          negb (String.eqb src (managerOriginalUrl c))
       then LoadUrl (managerOriginalUrl c)
       else LoadNothing.

End IframeManager.

(** The options and the manager of [new SessionReplayer(options)]. *)
Definition newContent (originalUrl contentHtml : string) : Content :=
  mkContent originalUrl contentHtml originalUrl contentHtml.

(** [SessionReplayer.setOriginalUrl] *)
Definition setOriginalUrl (url : string) (c : Content) : Content :=
  IframeManager.setContentHtml ""
    (IframeManager.setOriginalUrl url
       (mkContent url "" (managerOriginalUrl c) (managerContentHtml c))).

(** [SessionReplayer.setContentHtml] *)
Definition setContentHtml (html : string) (c : Content) : Content :=
  IframeManager.setOriginalUrl ""
    (IframeManager.setContentHtml html
       (mkContent "" html (managerOriginalUrl c) (managerContentHtml c))).

(** The part of [SessionReplayer.loadSession] that chooses the content. *)
Definition loadSessionContent {D : Type} (session : RecordingSession D)
           (c : Content) : Content :=
  let useUrl := optOriginalUrl c in
  let useHtml := optContentHtml c in
  let useHtml :=
    if negb (Js.truthy useUrl) && negb (Js.truthy useHtml) &&
       truthyOpt (pageHtml session)
    then default EmptyString (pageHtml session) else useHtml in
  let useUrl :=
    if negb (Js.truthy useUrl) && negb (Js.truthy useHtml) &&
       truthyOpt (pageUrl session)
    then default EmptyString (pageUrl session) else useUrl in
  if Js.truthy useHtml then IframeManager.setContentHtml useHtml c
  else if Js.truthy useUrl then IframeManager.setOriginalUrl useUrl c
       else c.

(** A session recorded with its HTML, and one recorded with its URL
    only. *)
Definition demoHtmlSession : RecordingSession JsDate :=
  mkSession "a"%string (ValidDate demoStart) (ValidDate (demoStart + 1500)) []
            (Some "https://example.org/a"%string) (Some "<html>A</html>"%string).

Definition demoUrlSession : RecordingSession JsDate :=
  mkSession "b"%string (ValidDate demoStart) (ValidDate (demoStart + 1500)) []
            (Some "https://example.org/b"%string) None.

End Replay.

(* ===================================================================== *)
(** ** Capture: EventCollector and EventHandler *)
(* ===================================================================== *)

Module Capture.
Import Js Artifact.

Local Open Scope Q_scope.

(** *** The part of the DOM the handlers read *)

(** An element with the properties the collector reads; [parentElement]
    gives the chain of ancestors. *)
#[local] Set Warnings "-register-all".
Inductive Element := mkElement {
  tagName : string;            (* upper case for HTML elements *)
  elemId : string;             (* [element.id], empty when absent *)
  className : string;          (* the class names, as one string *)
  inputType : string;          (* [(target as HTMLInputElement).type] *)
  isBody : bool;               (* [element === document.body] *)
  sameTagSiblings : nat;       (* children of the parent with this tag name *)
  indexAmongThem : nat;        (* [siblings.indexOf(element)] *)
  parentElement : option Element
}.

(** *** EventCollector *)

Section Collector.

(** [element.matches(selector)], for the selectors of the configuration
    (all assumed well formed: the DOM throws on a malformed selector). *)
Variable matchesSelector : string -> Element -> bool.

(** [element.closest(selector) !== null] *)
Fixpoint closest (selector : string) (element : Element) : bool :=
  matchesSelector selector element ||
  match element with
  | mkElement _ _ _ _ _ _ _ (Some parent) => closest selector parent
  | mkElement _ _ _ _ _ _ _ None => false
  end.

(** [shouldExcludeElement] *)
Definition shouldExcludeElement (excludeElements : list string)
           (element : Element) : bool :=
  existsb (fun selector =>
             matchesSelector selector element || closest selector element)
          excludeElements.

(** [getClassNameAsString] *)
Definition getClassNameAsString (element : Element) : string :=
  className element.

(** The selector built for one element inside the loop of
    [getElementPath], when the element has no id. *)
Definition stepSelector (currentElement : Element) : string :=
  let selector := toLowerCase (tagName currentElement) in
  let classNameStr := getClassNameAsString currentElement in
  let selector :=
    if truthy classNameStr then
      let classes := join "." (classNames [] classNameStr) in
      if truthy classes then selector +:+ "." +:+ classes else selector
    else selector in
  if (1 <? sameTagSiblings currentElement)%nat then
    selector +:+ ":nth-of-type(" +:+ pretty (indexAmongThem currentElement + 1)%nat +:+ ")"
  else selector.

(** The [while] loop of [getElementPath]; [room] is [5 - path.length]. *)
Fixpoint pathLoop (room : nat) (currentElement : option Element)
         (path : list string) : list string :=
  match room, currentElement with
  | S room', Some el =>
      if isBody el then path
      else if truthy (elemId el) then
             (toLowerCase (tagName el) +:+ "#" +:+ elemId el) :: path
           else pathLoop room' (parentElement el) (stepSelector el :: path)
  | _, _ => path
  end.

(** [getElementPath] *)
Definition getElementPath (element : Element) : string :=
  join " > " (pathLoop 5 (Some element) []).

(** [getElementInfo] *)
Definition getElementInfo (element : Element) : ElementInfo :=
  let path := getElementPath element in
  mkElementInfo (toLowerCase (tagName element))
                (orUndefined (elemId element))
                (orUndefined (getClassNameAsString element))
                (orUndefined path).

(** *** The recorder's page: clock, timeouts, collector and callback log *)

Record Timeout := mkTimeout {
  handle : positive;
  due : Q;                  (* clock value at which it expires *)
  eventTypeKey : string     (* its callback deletes this throttle entry *)
}.

Record Page := mkPage {
  clock : Q;
  pending : list Timeout;                     (* timeouts not yet expired *)
  freshHandle : positive;
  throttleTimers : gmap string positive;      (* EventCollector.throttleTimers *)
  emitted : list (EventType * EventData)      (* calls of eventCallback *)
}.

Definition newPage (t0 : Q) : Page := mkPage t0 [] 1%positive ∅ [].

(** [throttle(eventType, duration)]: the answer and the new state.  A
    timeout handle is a positive integer, hence truthy. *)
Definition throttle (eventType : string) (duration : Q) (p : Page) : bool * Page :=
  match throttleTimers p !! eventType with
  | Some _ => (false, p)
  | None =>
      let h := freshHandle p in
      (true,
       mkPage (clock p)
              (pending p ++ [mkTimeout h (clock p + Qmax 0 duration) eventType])
              (Pos.succ h)
              (<[eventType := h]> (throttleTimers p))
              (emitted p))
  end.

(** [clearThrottles] *)
Definition clearThrottles (p : Page) : Page :=
  mkPage (clock p)
         (filter (fun t => throttleTimers p !! eventTypeKey t ≠ Some (handle t))
                 (pending p))
         (freshHandle p) ∅ (emitted p).

(** [eventCallback(type, data)] *)
Definition emit (type : EventType) (data : EventData) (p : Page) : Page :=
  mkPage (clock p) (pending p) (freshHandle p) (throttleTimers p)
         (emitted p ++ [(type, data)]).

(** The callbacks of the timeouts in [ts] run: each deletes its entry
    of [throttleTimers]. *)
Definition runExpired (ts : list Timeout) (m : gmap string positive)
  : gmap string positive :=
  fold_left (fun acc t => delete (eventTypeKey t) acc) ts m.

Definition isDue (t : Q) (x : Timeout) : bool :=
  if Qle_bool (due x) t then true else false.

(** The clock reaches [t]: every timeout due by then expires first. *)
Definition advanceTo (t : Q) (p : Page) : Page :=
  mkPage (Qmax (clock p) t)
         (List.filter (fun x => negb (isDue t x)) (pending p))
         (freshHandle p)
         (runExpired (List.filter (isDue t) (pending p)) (throttleTimers p))
         (emitted p).

(** *** EventHandler *)

Record HandlerOptions := mkHandlerOptions {
  captureMouseMove : bool;
  throttleMouseMove : Q;
  excludeElements : list string
}.

Record MouseSignal := mkMouseSignal {
  clientX : Q;
  clientY : Q;
  button : Z;
  mouseTarget : option Element
}.

Record KeyboardSignal := mkKeyboardSignal {
  key : string;
  keyCode : Z;
  ctrlKey : bool;
  altKey : bool;
  shiftKey : bool;
  metaKey : bool;
  keyTarget : option Element
}.

(** [target && this.collector.shouldExcludeElement(target)] *)
Definition excluded (o : HandlerOptions) (target : option Element) : bool :=
  match target with
  | Some el => shouldExcludeElement (excludeElements o) el
  | None => false
  end.

(** [target ? this.collector.getElementInfo(target) : undefined] *)
Definition targetInfo (target : option Element) : option ElementInfo :=
  match target with
  | Some el => Some (getElementInfo el)
  | None => None
  end.

(** The payload of a recorded mouse move. *)
Definition mouseMoveData (e : MouseSignal) : EventData :=
  MouseEventData (clientX e) (clientY e) (targetInfo (mouseTarget e)) None None.

(** [handleMouseClick] *)
Definition handleMouseClick (o : HandlerOptions) (e : MouseSignal) (p : Page) : Page :=
  if excluded o (mouseTarget e) then p
  else emit MOUSE_CLICK
            (MouseEventData (clientX e) (clientY e) (targetInfo (mouseTarget e))
                            (Some (button e)) None) p.

(** [handleMouseMove]: the throttle gate comes first, the exclusion test
    second. *)
Definition handleMouseMove (o : HandlerOptions) (e : MouseSignal) (p : Page) : Page :=
  let (pass, p1) := throttle "mousemove" (throttleMouseMove o) p in
  if negb pass then p1
  else if excluded o (mouseTarget e) then p1
       else emit MOUSE_MOVE (mouseMoveData e) p1.

(** The payload of a recorded scroll, from [window.scrollX] and
    [window.scrollY]. *)
Definition scrollData (scrollX scrollY : Q) : EventData :=
  MouseEventData scrollX scrollY None None (Some (scrollX, scrollY)).

(** [handleScroll] *)
Definition handleScroll (scrollX scrollY : Q) (p : Page) : Page :=
  let (pass, p1) := throttle "scroll" 100 p in
  if negb pass then p1
  else emit MOUSE_SCROLL (scrollData scrollX scrollY) p1.

Definition modifiersOf (e : KeyboardSignal) : Modifiers :=
  mkModifiers (ctrlKey e) (altKey e) (shiftKey e) (metaKey e).

(** [target.tagName === "INPUT" && target.type === "password"] *)
Definition isPasswordInput (el : Element) : bool :=
  String.eqb (tagName el) "INPUT" && String.eqb (inputType el) "password".

(** [handleKeyDown].  With no target, reading [target.tagName] throws
    and nothing is emitted. *)
Definition handleKeyDown (o : HandlerOptions) (e : KeyboardSignal) (p : Page) : Page :=
  if excluded o (keyTarget e) then p
  else
    match keyTarget e with
    | None => p
    | Some target =>
        if isPasswordInput target then
          emit KEY_DOWN
               (KeyboardEventData "*" 0 (modifiersOf e) (Some (getElementInfo target))) p
        else
          emit KEY_DOWN
               (KeyboardEventData (key e) (keyCode e) (modifiersOf e)
                                  (targetInfo (keyTarget e))) p
    end.

(** [handleKeyUp] *)
Definition handleKeyUp (o : HandlerOptions) (e : KeyboardSignal) (p : Page) : Page :=
  if excluded o (keyTarget e) then p
  else
    match keyTarget e with
    | None => p
    | Some target =>
        if isPasswordInput target then p
        else
          emit KEY_UP
               (KeyboardEventData (key e) (keyCode e) (modifiersOf e)
                                  (targetInfo (keyTarget e))) p
    end.

(** A run of mouse-move signals, each arriving at its time: the clock
    reaches that time (expired timeouts run first), then the handler. *)
Definition moveAt (o : HandlerOptions) (p : Page) (s : Q * MouseSignal) : Page :=
  handleMouseMove o (snd s) (advanceTo (fst s) p).

Definition recordMoves (o : HandlerOptions) (signals : list (Q * MouseSignal))
           (p : Page) : Page :=
  fold_left (moveAt o) signals p.

(** The same for scroll signals, which carry the scroll position. *)
Definition scrollAt (p : Page) (s : Q * (Q * Q)) : Page :=
  handleScroll (fst (snd s)) (snd (snd s)) (advanceTo (fst s) p).

Definition recordScrolls (signals : list (Q * (Q * Q))) (p : Page) : Page :=
  fold_left scrollAt signals p.

(** [handleNavigation], with [document.referrer], [window.location.href]
    and [document.title]. *)
Definition handleNavigation (referrer href title : string) (p : Page) : Page :=
  emit NAVIGATION (NavigationEventData referrer href (Some title)) p.

(** [handleFormSubmit]; [formAction] is [form.action]. *)
Definition handleFormSubmit (o : HandlerOptions) (form : option Element)
           (formAction : string) (p : Page) : Page :=
  match form with
  | Some f =>
      if shouldExcludeElement (excludeElements o) f then p
      else emit CUSTOM
                (CustomEventData "form_submit"
                   [("formId", FStr (elemId f)); ("formAction", FStr formAction)]%string)
                p
  | None => p
  end.

(** The sizes [handleResize] reads from [window]. *)
Record WindowSize := mkWindowSize {
  innerWidth : Q;
  innerHeight : Q;
  devicePixelRatio : Q;
  screenWidth : Q;
  screenHeight : Q
}.

(** [window.devicePixelRatio || 1] *)
Definition orOne (q : Q) : Q := if Qeq_bool q 0 then 1 else q.

Definition resizeData (w : WindowSize) : EventData :=
  CustomEventData "viewport_resize"
    [("width", FNum (innerWidth w)); ("height", FNum (innerHeight w));
     ("devicePixelRatio", FNum (orOne (devicePixelRatio w)));
     ("screenWidth", FNum (screenWidth w));
     ("screenHeight", FNum (screenHeight w))]%string.

(** [handleResize] *)
Definition handleResize (w : WindowSize) (p : Page) : Page :=
  let (pass, p1) := throttle "resize" 100 p in
  if negb pass then p1
  else emit RESIZE (resizeData w) p1.

(** A run of resize signals, each arriving at its time with the sizes
    the window has then. *)
Definition resizeAt (p : Page) (s : Q * WindowSize) : Page :=
  handleResize (snd s) (advanceTo (fst s) p).

Definition recordResizes (signals : list (Q * WindowSize)) (p : Page) : Page :=
  fold_left resizeAt signals p.

(** The payload of [handleMouseOver] and [handleMouseOut]. *)
Definition hoverData (kind : string) (e : MouseSignal) : EventData :=
  CustomEventData kind
    [("x", FNum (clientX e)); ("y", FNum (clientY e));
     ("target", FTarget (targetInfo (mouseTarget e)))]%string.

(** [handleMouseOver] *)
Definition handleMouseOver (o : HandlerOptions) (e : MouseSignal) (p : Page) : Page :=
  if excluded o (mouseTarget e) then p
  else emit CUSTOM (hoverData "mouseover" e) p.

(** [handleMouseOut] *)
Definition handleMouseOut (o : HandlerOptions) (e : MouseSignal) (p : Page) : Page :=
  if excluded o (mouseTarget e) then p
  else emit CUSTOM (hoverData "mouseout" e) p.

(** The events of the document that [setupEventListeners] listens to,
    each with what its handler reads. *)
Inductive DomEvent :=
| Click (e : MouseSignal)
| Scroll (scrollX scrollY : Q)
| MouseMove (e : MouseSignal)
| KeyDown (e : KeyboardSignal)
| KeyUp (e : KeyboardSignal)
| PopState (referrer href title : string)
| Submit (form : option Element) (formAction : string)
| Resize (w : WindowSize)
| MouseOver (e : MouseSignal)
| MouseOut (e : MouseSignal).

(** What an event does once [setupEventListeners] has attached the
    handlers and the event reaches the listener for its type:
    [mousemove] has a listener only with the [captureMouseMove] option.
    Which events the browser delivers to the document is its business. *)
Definition dispatch (o : HandlerOptions) (ev : DomEvent) (p : Page) : Page :=
  match ev with
  | Click e => handleMouseClick o e p
  | Scroll x y => handleScroll x y p
  | MouseMove e => if captureMouseMove o then handleMouseMove o e p else p
  | KeyDown e => handleKeyDown o e p
  | KeyUp e => handleKeyUp o e p
  | PopState referrer href title => handleNavigation referrer href title p
  | Submit form formAction => handleFormSubmit o form formAction p
  | Resize w => handleResize w p
  | MouseOver e => handleMouseOver o e p
  | MouseOut e => handleMouseOut o e p
  end.

(** [removeEventListeners]: the listeners leave the document, and the
    collector clears its throttles. *)
Definition removeEventListeners (p : Page) : Page := clearThrottles p.

(** A run of events of the document, each arriving at its time. *)
Definition eventAt (o : HandlerOptions) (p : Page) (s : Q * DomEvent) : Page :=
  dispatch o (snd s) (advanceTo (fst s) p).

Definition recordEvents (o : HandlerOptions) (evs : list (Q * DomEvent))
           (p : Page) : Page :=
  fold_left (eventAt o) evs p.

End Collector.

(** *** Vocabulary for the statements about the throttle gate *)

(** The gate as the specification words it: the first signal of a window
    passes and opens a window of length [W]; a later signal passes only
    if the window has elapsed.  [openUntil] is the end of the window in
    force, if any; the result marks the signals that pass. *)
Fixpoint gate (W : Q) (openUntil : option Q) (times : list Q) : list bool :=
  match times with
  | [] => []
  | t :: rest =>
      match openUntil with
      | Some limit =>
          if Qle_bool limit t then true :: gate W (Some (t + Qmax 0 W)) rest
          else false :: gate W openUntil rest
      | None => true :: gate W (Some (t + Qmax 0 W)) rest
      end
  end.

(** Arrival times in non-decreasing order, none before [from]. *)
Fixpoint ascending (from : Q) (times : list Q) : bool :=
  match times with
  | [] => true
  | t :: rest => (if Qle_bool from t then true else false) && ascending t rest
  end.

(** All arrival times fall in the window of length [W] opened at [t0]. *)
Definition withinWindow (t0 W : Q) (times : list Q) : bool :=
  forallb (fun t => if Qle_bool (t0 + W) t then false else true) times.

(** A handler that consults the gate for [eventTypeKey] and then either
    emits [out] or, when [out] is [None], emits nothing: the common shape
    of [handleMouseMove], [handleScroll] and [handleResize]. *)
Definition gatedHandler (eventTypeKey : string) (W : Q)
           (out : option (EventType * EventData)) (p : Page) : Page :=
  let (pass, p1) := throttle eventTypeKey W p in
  if negb pass then p1
  else match out with
       | Some (ty, d) => emit ty d p1
       | None => p1
       end.

(** The outputs selected by the marks of the gate. *)
Fixpoint selected {A : Type} (marks : list bool) (outs : list (option A)) : list A :=
  match marks, outs with
  | true :: marks', Some a :: outs' => a :: selected marks' outs'
  | _ :: marks', _ :: outs' => selected marks' outs'
  | _, _ => []
  end.

(** What a mouse-move signal records when it passes the gate. *)
Definition moveOutput (matchesSelector : string -> Element -> bool)
           (o : HandlerOptions) (e : MouseSignal) : option (EventType * EventData) :=
  if excluded matchesSelector o (mouseTarget e) then None
  else Some (MOUSE_MOVE, mouseMoveData e).

Definition scrollOutput (xy : Q * Q) : option (EventType * EventData) :=
  Some (MOUSE_SCROLL, scrollData (fst xy) (snd xy)).

(** What a resize signal records when it passes the gate. *)
Definition resizeOutput (w : WindowSize) : option (EventType * EventData) :=
  Some (RESIZE, resizeData w).

(** The state of the gate for one key, seen from outside: no timeout
    and no entry, or one timeout [h] due at [d] and the entry naming it. *)
Definition idleFor (k : string) (p : Page) : Prop :=
  pending p = [] /\ throttleTimers p !! k = None.

Definition openFor (k : string) (d : Q) (p : Page) : Prop :=
  exists h, pending p = [mkTimeout h d k] /\ throttleTimers p !! k = Some h.

(** The page is in the state the worded gate is in: idle, or inside a
    window that ends at [limit]. *)
Definition gateState (k : string) (openUntil : option Q) (p : Page) : Prop :=
  match openUntil with
  | None => idleFor k p
  | Some limit => exists d, d == limit /\ openFor k d p
  end.

(** A run of signals through a gated handler; [outf] gives what a signal
    records when it passes. *)
Definition gatedRun {A : Type} (k : string) (W : Q)
           (outf : A -> option (EventType * EventData))
           (signals : list (Q * A)) (p : Page) : Page :=
  fold_left (fun p s => gatedHandler k W (outf (snd s)) (advanceTo (fst s) p))
            signals p.

(** What one passing signal adds to the callback log. *)
Definition outList (out : option (EventType * EventData)) : list (EventType * EventData) :=
  match out with Some x => [x] | None => [] end.

(** What the specification says of a burst: a non-empty run of
    mouse-move signals, all inside the window opened by the first one,
    records exactly one event. *)
Definition burstEmitsOnce (matchesSelector : string -> Element -> bool)
           (o : HandlerOptions) (burst : list (Q * MouseSignal)) : Prop :=
  match burst with
  | [] => True
  | (t0, _) :: rest =>
      ascending t0 (map fst rest) = true ->
      withinWindow t0 (throttleMouseMove o) (map fst rest) = true ->
      length (emitted (recordMoves matchesSelector o burst (newPage t0))) = 1%nat
  end.

(** A selector engine for examples: [".name"] matches the elements whose
    class string is [name]. *)
Definition demoMatches (selector : string) (el : Element) : bool :=
  String.eqb selector ("." +:+ className el).

Definition demoOptions : HandlerOptions :=
  mkHandlerOptions true 50 [".no-record"; "[data-private]"]%string.

Definition demoDiv (cls : string) : Element :=
  mkElement "DIV" "" cls "" false 1 0
            (Some (mkElement "BODY" "" "" "" true 1 0 None)).

(** Two moves 10 ms apart, the first over an excluded element. *)
Definition demoBurst : list (Q * MouseSignal) :=
  [ (0, mkMouseSignal 5 5 0 (Some (demoDiv "no-record")));
    (10, mkMouseSignal 6 6 0 (Some (demoDiv "content"))) ].

Definition demoPasswordInput : Element :=
  mkElement "INPUT" "pw" "field" "password" false 1 0
            (Some (mkElement "FORM" "login" "" "" false 1 0
                             (Some (mkElement "BODY" "" "" "" true 1 0 None)))).

(** *** Vocabulary for the statements about the handlers *)

(** An element and its ancestors, innermost first. *)
Fixpoint ancestorsOrSelf (el : Element) : list Element :=
  el :: match el with
        | mkElement _ _ _ _ _ _ _ (Some parent) => ancestorsOrSelf parent
        | mkElement _ _ _ _ _ _ _ None => []
        end.

(** The element an event is aimed at, for the events that have one. *)
Definition targetOf (ev : DomEvent) : option Element :=
  match ev with
  | Click e | MouseMove e | MouseOver e | MouseOut e => mouseTarget e
  | KeyDown e | KeyUp e => keyTarget e
  | Submit form _ => form
  | Scroll _ _ | PopState _ _ _ | Resize _ => None
  end.

(** A keyboard event is aimed at a password input (or at nothing). *)
Definition keysGoToPasswords (ev : DomEvent) : bool :=
  match ev with
  | KeyDown e | KeyUp e =>
      match keyTarget e with
      | Some el => isPasswordInput el
      | None => true
      end
  | _ => true
  end.

(** A recorded event that carries no key: not a keyboard event, or a
    keyboard event with the placeholder. *)
Definition masked (recorded : EventType * EventData) : bool :=
  match snd recorded with
  | KeyboardEventData k c _ _ => String.eqb k "*" && (c =? 0)%Z
  | _ => true
  end.

Definition isMouseMove (recorded : EventType * EventData) : bool :=
  match fst recorded with
  | MOUSE_MOVE => true
  | _ => false
  end.

(** The selector [getElementPath] writes for the element itself. *)
Definition ownSelector (el : Element) : string :=
  if truthy (elemId el) then toLowerCase (tagName el) +:+ "#" +:+ elemId el
  else stepSelector el.

(** Every pending timeout is the one its throttle entry names, and no
    two pending timeouts are for the same key. *)
Definition throttlesConsistent (p : Page) : Prop :=
  Forall (fun t => throttleTimers p !! eventTypeKey t = Some (handle t)) (pending p) /\
  NoDup (map eventTypeKey (pending p)).

(** A run of events for examples: a click, two moves, a key in a
    password field and a resize. *)
Definition demoEvents : list (Q * DomEvent) :=
  [ (0, Click (mkMouseSignal 5 5 0 (Some (demoDiv "content"))));
    (10, MouseMove (mkMouseSignal 6 6 0 (Some (demoDiv "content"))));
    (20, MouseMove (mkMouseSignal 7 7 0 (Some (demoDiv "content"))));
    (30, KeyDown (mkKeyboardSignal "s" 83 false false false false
                                   (Some demoPasswordInput)));
    (40, KeyUp (mkKeyboardSignal "s" 83 false false false false
                                 (Some demoPasswordInput)));
    (50, Resize (mkWindowSize 800 600 2 1920 1080)) ].

End Capture.

(* ===================================================================== *)
(** ** Player: the duration shown by SessionPlayer *)
(* ===================================================================== *)

Module Player.
Import Artifact.

(** A session as [SessionPlayer.loadSession] receives it: a date field
    may be missing (falsy); when present it is a [Date], or a string
    that [new Date] turns into one. *)
Definition LoadedSession : Type := RecordingSession (option JsDate).

(** [new Date(value)] for a value that may be missing. *)
Definition newDate (value : option JsDate) : JsDate :=
  match value with
  | Some d => d
  | None => InvalidDate
  end.

(** Subtraction of time values; [None] stands for [NaN]. *)
Definition js_sub (a b : option Z) : option Z :=
  match a, b with
  | Some x, Some y => Some (x - y)
  | _, _ => None
  end.

(** The computation of [this.duration] in [SessionPlayer.loadSession]. *)
Definition loadSessionDuration (session : LoadedSession) : option Z :=
  match startTime session, endTime session with
  | Some st, Some en =>
      js_sub (getTime (newDate (Some st))) (getTime (newDate (Some en)))
  | _, _ =>
      if (1 <? length (events session))%nat then
        match events session !! 0%nat, last (events session) with
        | Some firstEvent, Some lastEvent =>
            js_sub (getTime (newDate (timestamp lastEvent)))
                   (getTime (newDate (timestamp firstEvent)))
        | _, _ => None
        end
      else Some 0
  end.

(** A session that lasted one and a half seconds. *)
Definition demoLoadedSession : LoadedSession :=
  mkSession "demo"%string (Some (ValidDate 1700000000000))
            (Some (ValidDate 1700000001500)) [] None None.

(** The part of [SessionPlayer.loadSession] that sets the content of the
    replayer and then loads the session into it; [originalUrl] and
    [contentHtml] are the optional arguments. *)
Definition loadSessionContent {D : Type} (session : RecordingSession D)
           (originalUrl contentHtml : option string)
           (c : Replay.Content) : Replay.Content :=
  let c1 :=
    if Replay.truthyOpt contentHtml
    then Replay.setContentHtml (default EmptyString contentHtml) c
    else if Replay.truthyOpt originalUrl
         then Replay.setOriginalUrl (default EmptyString originalUrl) c
         else if Replay.truthyOpt (pageHtml session)
              then Replay.setContentHtml (default EmptyString (pageHtml session)) c
              else if Replay.truthyOpt (pageUrl session)
                   then Replay.setOriginalUrl (default EmptyString (pageUrl session)) c
                   else c in
  Replay.loadSessionContent session c1.

(** [iframe.src = url], unless the iframe is already there. *)
Definition loadUrlUnlessThere (src url : string) : Replay.IframeLoad :=
  if String.eqb src url then Replay.LoadNothing else Replay.LoadUrl url.

(** The content the comment in [SessionPlayer.loadSession] promises:
    the HTML given, else the URL given, else the HTML of the session,
    else the URL of the session. *)
Definition contentByPriority {D : Type} (session : RecordingSession D)
           (originalUrl contentHtml : option string) (src : string)
  : option Replay.IframeLoad :=
  if Replay.truthyOpt contentHtml
  then Some (Replay.LoadHtml (default EmptyString contentHtml))
  else if Replay.truthyOpt originalUrl
       then Some (loadUrlUnlessThere src (default EmptyString originalUrl))
       else if Replay.truthyOpt (pageHtml session)
            then Some (Replay.LoadHtml (default EmptyString (pageHtml session)))
            else if Replay.truthyOpt (pageUrl session)
                 then Some (loadUrlUnlessThere src (default EmptyString (pageUrl session)))
                 else None.

(** *** The time display and the timeline *)

(** [formatTime] of [updateTimeDisplay]; [None] is [NaN].  Whole numbers
    are written in decimal, as [Number.prototype.toString] writes them
    below 10^21. *)
Definition formatTime (ms : option Q) : string :=
  match ms with
  | None => "NaN:NaN"
  | Some q =>
      let seconds := Qfloor (q / 1000) in
      let minutes := seconds / 60 in
      let remainingSeconds := Z.rem seconds 60 in
      pretty minutes +:+ ":" +:+ Js.padStart 2 "0" (pretty remainingSeconds)
  end.

(** The width of the progress bar in percent, as
    [updateTimelineProgress] computes it from [this.duration] and
    [this.currentTime]. *)
Definition timelineProgress (duration : option Z) (currentTime : option Q)
  : option Q :=
  match duration with
  | Some d =>
      if 0 <? d then
        match currentTime with
        | Some c => Some (c / inject_Z d * 100)%Q
        | None => None
        end
      else Some 0%Q
  | None => Some 0%Q
  end.

(** [Math.max(0, Math.min(1, (e.clientX - rect.left) / rect.width))]: a
    timeline of width 0 gives an infinity, which the bounds turn into 1
    or 0, or [NaN]. *)
Definition seekPercentage (clientX left width : Q) : option Q :=
  if Qeq_bool width 0 then
    if Qlt_le_dec 0 (clientX - left) then Some 1%Q
    else if Qlt_le_dec (clientX - left) 0 then Some 0%Q
         else None
  else Some (Qmax 0 (Qmin 1 ((clientX - left) / width)))%Q.

(** [this.duration * percentage] in [handleTimelineSeek]. *)
Definition seekTime (duration : option Z) (clientX left width : Q) : option Q :=
  match duration, seekPercentage clientX left width with
  | Some d, Some percentage => Some (inject_Z d * percentage)%Q
  | _, _ => None
  end.

(** The time sought by a click in the middle of a timeline 100 pixels
    wide, for a duration of 1500 ms. *)
Definition demoSeekTime : Q := default 0%Q (seekTime (Some 1500) 150 100 100).

(** The character of a decimal digit. *)
Definition digit (d : Z) : ascii := ascii_of_nat (48 + Z.to_nat d).

Definition twoDigits (n : Z) : string :=
  String (digit (n / 10)) (String (digit (n mod 10)) EmptyString).

End Player.

(* ===================================================================== *)
(** ** Snapshot resources: ResourceHelper *)
(* ===================================================================== *)

Module Resources.
Import Js.

(** The option [scriptHandling]. *)
Inductive ScriptHandling := RemoveScripts | KeepSafe | KeepAll.

(** The options [ResourceHelper], the processors and [HtmlCaptureHelper]
    read.  The allow list may be missing, as the optional chaining in
    the source allows. *)
Record RecorderOptions := mkRecorderOptions {
  allowedResourceDomains : option (list string);
  inlineCss : bool;
  inlineJs : bool;
  keepExternalResources : bool;
  optimizationLevel : nat;
  excludeElements : list string;
  scriptHandling : ScriptHandling;
  removeInlineScripts : bool;          (* inlineScriptHandling === "remove" *)
  keepFonts : bool;
  removeIframes : bool;
  removeMedia : bool;
  removeInvisibleElements : bool;
  usePlaceholdersForImages : bool
}.

(** The defaults of [SessionRecorder]. *)
Definition defaultOptions : RecorderOptions :=
  mkRecorderOptions (Some ["cdn.jsdelivr.net"; "cdnjs.cloudflare.com"]%string)
                    true true true 1
                    [".no-record"; "[data-private]"]%string
                    RemoveScripts true true true true true true.

(** [isDataUrl] *)
Definition isDataUrl (url : string) : bool := startsWith url "data:".

(** [allowedResourceDomains?.length], as a condition. *)
Definition hasDomains (o : RecorderOptions) : bool :=
  match allowedResourceDomains o with
  | Some (_ :: _) => true
  | _ => false
  end.

(** [isResourceFromAllowedDomain] *)
Definition isResourceFromAllowedDomain (o : RecorderOptions) (url : string) : bool :=
  if isDataUrl url || negb (startsWith url "http") then true
  else if negb (hasDomains o) then false
       else existsb (fun domain => includes url domain)
                    (default [] (allowedResourceDomains o)).

(** [sub] occurs somewhere inside [s]. *)
Definition occursIn (sub s : string) : Prop :=
  exists before after, s = before +:+ sub +:+ after.

(** What [getBoundingClientRect] returns, as far as [isElementVisible]
    reads it. *)
Record DomRect := mkDomRect {
  rectWidth : Q;
  rectHeight : Q;
  rectTop : Q;
  rectBottom : Q;
  rectLeft : Q;
  rectRight : Q
}.

(** [a > b] on finite numbers. *)
Definition Qgtb (a b : Q) : bool := negb (Qle_bool a b).

(** [isElementVisible], in a viewport [innerWidth] wide and
    [innerHeight] high. *)
Definition isElementVisible (rect : DomRect) (innerWidth innerHeight : Q) : bool :=
  Qgtb (rectWidth rect) 0 &&
  Qgtb (rectHeight rect) 0 &&
  Qgtb innerHeight (rectTop rect) &&
  Qgtb (rectBottom rect) 0 &&
  Qgtb innerWidth (rectLeft rect) &&
  Qgtb (rectRight rect) 0.

(** The rectangle and the viewport have a point in common that is
    inside both. *)
Definition overlapsViewport (rect : DomRect) (innerWidth innerHeight : Q) : Prop :=
  exists x y : Q,
    (rectLeft rect < x /\ x < rectRight rect /\
     rectTop rect < y /\ y < rectBottom rect /\
     0 < x /\ x < innerWidth /\ 0 < y /\ y < innerHeight)%Q.

(** A box of 10 by 10 pixels at (5, 5). *)
Definition demoRect : DomRect := mkDomRect 10 10 5 15 5 15.

End Resources.

(* ===================================================================== *)
(** ** Snapshot: fetching and inlining stylesheets *)
(* ===================================================================== *)

Module Snapshot.
Import Js Resources.

(** *** Exceptions and promises *)

(** A thrown value: an [Error] object with its message, or something
    that is not an [Error]. *)
Inductive Thrown :=
| ErrorObject (message : string)
| OtherValue.

(** How a call ends, or how a promise settles. *)
Inductive Completion (A : Type) :=
| Normal (a : A)
| Throw (error : Thrown).
Arguments Normal {A}.
Arguments Throw {A}.

Definition bind {A B : Type} (c : Completion A) (k : A -> Completion B)
  : Completion B :=
  match c with
  | Normal a => k a
  | Throw e => Throw e
  end.

(** [try { body } catch (error) { handler }] *)
Definition tryCatch {A : Type} (body : Completion A)
           (handler : Thrown -> Completion A) : Completion A :=
  match body with
  | Normal a => Normal a
  | Throw e => handler e
  end.

(** *** The network, as the capture sees it *)

Inductive Body :=
| BodyText (content : string)     (* [response.text()] resolves *)
| BodyFails (error : Thrown).     (* [response.text()] rejects *)

(** A request, as far as it varies between the calls of
    [fetchResource]: the absolute URL, the [Accept] header and the
    mode. *)
Record Request := mkRequest {
  requestUrl : string;
  accept : string;
  cors : bool               (* mode ["cors"], otherwise ["same-origin"] *)
}.

(** What [fetch] leads to. *)
Inductive FetchOutcome :=
| Rejected (error : Thrown)       (* [fetch] rejects *)
| Responded (ok : bool) (status : nat) (body : Body).

(** *** The cloned document *)

#[local] Set Warnings "-register-all".
Inductive Node :=
| Element (tag : string) (attrs : list (string * string)) (children : list Node)
| Text (content : string).

(** [element.getAttribute(name)] *)
Fixpoint getAttribute (name : string) (attrs : list (string * string))
  : option string :=
  match attrs with
  | [] => None
  | (n, v) :: rest => if String.eqb n name then Some v else getAttribute name rest
  end.

(** The selector [link[rel="stylesheet"]]. *)
Definition isStylesheetLink (tag : string) (attrs : list (string * string)) : bool :=
  String.eqb tag "link" &&
  match getAttribute "rel" attrs with
  | Some rel => String.eqb rel "stylesheet"
  | None => false
  end.

(** A [style] element created by the processor for the link [href]. *)
Definition styleElement (href text : string) : Node :=
  Element "style" [("data-loading-stylesheet", href)] [Text text].

(** Apply [f] to every node of a list and concatenate the results, as
    promises: the first rejection rejects the whole. *)
Fixpoint mapKids (f : Node -> Completion (list Node)) (l : list Node)
  : Completion (list Node) :=
  match l with
  | [] => Normal []
  | k :: rest =>
      bind (f k) (fun a => bind (mapKids f rest) (fun b => Normal (a ++ b)))
  end.

Section Capture.

(** [new URL(url, window.location.href).href] on the page being
    captured: the absolute form of [url], or what the constructor
    throws. *)
Variable absoluteUrl : string -> Completion string.

(** What the network answers to a request. *)
Variable network : Request -> FetchOutcome.

Variable o : RecorderOptions.

(** *** ResourceHelper.fetchResource *)

(** [resolveUrl] *)
Definition resolveUrl (url : string) : Completion string :=
  if startsWith url "http" then Normal url else absoluteUrl url.

(** The request [fetchResource] makes for [url] once it has the
    absolute URL. *)
Definition requestFor (url contentType fullUrl : string) : Request :=
  mkRequest fullUrl contentType (startsWith url "http").

(** The body of the [try] block. *)
Definition fetchBody (url contentType : string) : Completion string :=
  bind (resolveUrl url)
       (fun fullUrl =>
          match network (requestFor url contentType fullUrl) with
          | Rejected error => Throw error
          | Responded ok status body =>
              if negb ok then
                Throw (ErrorObject ("Falha ao buscar recurso: " +:+ pretty status))
              else
                match body with
                | BodyText content => Normal content
                | BodyFails error => Throw error
                end
          end).

(** [error instanceof Error ? error.message : "Erro desconhecido"] *)
Definition errorMsg (error : Thrown) : string :=
  match error with
  | ErrorObject message => message
  | OtherValue => "Erro desconhecido"
  end.

(** The comment returned in place of the content. *)
Definition failureComment (url : string) (error : Thrown) : string :=
  "/* Erro ao buscar " +:+ url +:+ ": " +:+ errorMsg error +:+ " */".

(** [fetchResource] *)
Definition fetchResource (url contentType : string) : Completion string :=
  tryCatch (fetchBody url contentType)
           (fun error => Normal (failureComment url error)).

(** *** StylesheetProcessor *)

(** [createTemporaryStylePlaceholder] *)
Definition createTemporaryStylePlaceholder (href : string) : Node :=
  styleElement href ("/* Carregando " +:+ href +:+ "... */").

(** The text set by [replacePlaceholderWithContent]. *)
Definition inlinedText (href cssContent : string) : string :=
  "/* Inlined from " +:+ href +:+ " */" +:+ String "010"%char cssContent.

(** [replacePlaceholderWithContent] *)
Definition replacePlaceholderWithContent (href cssContent : string) : Node :=
  styleElement href (inlinedText href cssContent).

(** [inlineStylesheet], for a link in the document: the node that stands
    in its place once the promise has settled. *)
Definition inlineStylesheet (href : string) : Completion Node :=
  tryCatch
    (bind (fetchResource href "text/css,*/*;q=0.1")
          (fun cssContent => Normal (replacePlaceholderWithContent href cssContent)))
    (fun _ => Normal (createTemporaryStylePlaceholder href)).

(** What [processStylesheets] makes of one node and its descendants: the
    nodes that stand in its place. *)
Fixpoint styleNode (n : Node) : Completion (list Node) :=
  match n with
  | Text _ => Normal [n]
  | Element tag attrs kids =>
      let keepIt :=
        bind (mapKids styleNode kids) (fun ks => Normal [Element tag attrs ks]) in
      if isStylesheetLink tag attrs then
        match getAttribute "href" attrs with
        | None => keepIt
        | Some href =>
            if negb (truthy href) then keepIt
            else if isResourceFromAllowedDomain o href && inlineCss o then
                   bind (inlineStylesheet href) (fun st => Normal [st])
                 else if negb (keepExternalResources o) then Normal []
                      else keepIt
        end
      else keepIt
  end.

(** [processStylesheets(htmlClone)]: [querySelectorAll] looks at the
    descendants of the clone's root. *)
Definition processStylesheets (htmlClone : Node) : Completion Node :=
  match htmlClone with
  | Text _ => Normal htmlClone
  | Element tag attrs kids =>
      bind (mapKids styleNode kids) (fun ks => Normal (Element tag attrs ks))
  end.

(** [node.textContent] *)
Fixpoint textContent (n : Node) : string :=
  match n with
  | Text s => s
  | Element _ _ kids =>
      (fix all (l : list Node) : string :=
         match l with
         | [] => EmptyString
         | k :: rest => textContent k +:+ all rest
         end) kids
  end.

(** What [removeUnusedCss] makes of one node and its descendants: every
    [style] element gets its text back with a leading comment. *)
Fixpoint optimizedCss (n : Node) : Node :=
  match n with
  | Text _ => n
  | Element tag attrs kids =>
      if String.eqb tag "style" then
        Element tag attrs
                [Text ("/* Optimized CSS */" +:+ String "010"%char (textContent n))]
      else Element tag attrs (map optimizedCss kids)
  end.

(** [removeUnusedCss(htmlClone)] *)
Definition removeUnusedCss (htmlClone : Node) : Node :=
  match htmlClone with
  | Text _ => htmlClone
  | Element tag attrs kids => Element tag attrs (map optimizedCss kids)
  end.

(** *** The outcome in words *)

(** The text that ends up for [href]: the content, or the comment that
    documents the failure. *)
Definition fetchedText (href : string) : string :=
  match fetchBody href "text/css,*/*;q=0.1" with
  | Normal content => content
  | Throw error => failureComment href error
  end.

(** The nodes that stand in place of a node after the stylesheet pass. *)
Fixpoint expectedNode (n : Node) : list Node :=
  match n with
  | Text _ => [n]
  | Element tag attrs kids =>
      let keepIt := [Element tag attrs (flat_map expectedNode kids)] in
      if isStylesheetLink tag attrs then
        match getAttribute "href" attrs with
        | None => keepIt
        | Some href =>
            if negb (truthy href) then keepIt
            else if isResourceFromAllowedDomain o href && inlineCss o then
                   [styleElement href (inlinedText href (fetchedText href))]
                 else if negb (keepExternalResources o) then []
                      else keepIt
        end
      else keepIt
  end.

Definition expectedDocument (htmlClone : Node) : Node :=
  match htmlClone with
  | Text _ => htmlClone
  | Element tag attrs kids => Element tag attrs (flat_map expectedNode kids)
  end.

(** *** ScriptProcessor *)

(** The attributes [createTemporaryScriptPlaceholder] copies from the
    script, in the order it sets them. *)
Definition preservedAttributes (attrs : list (string * string))
  : list (string * string) :=
  flat_map (fun attr => match getAttribute attr attrs with
                        | Some v => [(attr, v)]
                        | None => []
                        end)
           ["async"; "defer"; "crossorigin"; "type"]%string.

(** A [script] element created by the processor for the script [src]. *)
Definition scriptElement (src : string) (attrs : list (string * string))
           (text : string) : Node :=
  Element "script" (("data-loading-script", src) :: preservedAttributes attrs)
          [Text text].

(** [createTemporaryScriptPlaceholder] *)
Definition createTemporaryScriptPlaceholder (src : string)
           (attrs : list (string * string)) : Node :=
  scriptElement src attrs ("/* Carregando " +:+ src +:+ "... */").

(** [ScriptProcessor.replacePlaceholderWithContent] *)
Definition replaceScriptPlaceholder (src : string) (attrs : list (string * string))
           (jsContent : string) : Node :=
  scriptElement src attrs (inlinedText src jsContent).

(** [inlineScript], for a script in the document: the node that stands
    in its place once the promise has settled. *)
Definition inlineScript (src : string) (attrs : list (string * string))
  : Completion Node :=
  tryCatch
    (bind (fetchResource src "text/javascript,application/javascript,*/*;q=0.1")
          (fun jsContent => Normal (replaceScriptPlaceholder src attrs jsContent)))
    (fun _ => Normal (createTemporaryScriptPlaceholder src attrs)).

(** What [ScriptProcessor.processScripts] makes of one node and its
    descendants. *)
Fixpoint scriptNode (n : Node) : Completion (list Node) :=
  match n with
  | Text _ => Normal [n]
  | Element tag attrs kids =>
      let keepIt :=
        bind (mapKids scriptNode kids) (fun ks => Normal [Element tag attrs ks]) in
      if String.eqb tag "script" then
        match getAttribute "src" attrs with
        | None => keepIt
        | Some src =>
            if negb (truthy src) then keepIt
            else if isResourceFromAllowedDomain o src && inlineJs o then
                   bind (inlineScript src attrs) (fun sc => Normal [sc])
                 else if negb (keepExternalResources o) then Normal []
                      else keepIt
        end
      else keepIt
  end.

(** [ScriptProcessor.processScripts(htmlClone)] *)
Definition processExternalScripts (htmlClone : Node) : Completion Node :=
  match htmlClone with
  | Text _ => Normal htmlClone
  | Element tag attrs kids =>
      bind (mapKids scriptNode kids) (fun ks => Normal (Element tag attrs ks))
  end.

(** The text that ends up for the script [src]: the content, or the
    comment that documents the failure. *)
Definition fetchedScript (src : string) : string :=
  match fetchBody src "text/javascript,application/javascript,*/*;q=0.1" with
  | Normal content => content
  | Throw error => failureComment src error
  end.

(** The nodes that stand in place of a node after the script pass. *)
Fixpoint expectedScriptNode (n : Node) : list Node :=
  match n with
  | Text _ => [n]
  | Element tag attrs kids =>
      let keepIt := [Element tag attrs (flat_map expectedScriptNode kids)] in
      if String.eqb tag "script" then
        match getAttribute "src" attrs with
        | None => keepIt
        | Some src =>
            if negb (truthy src) then keepIt
            else if isResourceFromAllowedDomain o src && inlineJs o then
                   [scriptElement src attrs (inlinedText src (fetchedScript src))]
                 else if negb (keepExternalResources o) then []
                      else keepIt
        end
      else keepIt
  end.

Definition expectedScripts (htmlClone : Node) : Node :=
  match htmlClone with
  | Text _ => htmlClone
  | Element tag attrs kids => Element tag attrs (flat_map expectedScriptNode kids)
  end.

(** The two passes of [optimizeExternalResources] that fetch:
    stylesheets, then scripts. *)
Definition inlineResources (htmlClone : Node) : Completion Node :=
  bind (processStylesheets htmlClone) processExternalScripts.

End Capture.

(** Two documents that are the same except, possibly, for what is inside
    the [style] elements made for the links whose address is
    [affected]. *)
Fixpoint sameExcept (affected : string -> bool) (a b : Node) {struct a} : Prop :=
  match a, b with
  | Text s, Text s' => s = s'
  | Element tag attrs kids, Element tag' attrs' kids' =>
      tag = tag' /\ attrs = attrs' /\
      ((exists href, attrs = [("data-loading-stylesheet", href)] /\
                     affected href = true /\ tag = "style"%string) \/
       (fix all2 (l l' : list Node) {struct l} : Prop :=
          match l, l' with
          | [], [] => True
          | x :: r, x' :: r' => sameExcept affected x x' /\ all2 r r'
          | _, _ => False
          end) kids kids')
  | _, _ => False
  end.

Fixpoint sameExceptAll (affected : string -> bool) (l l' : list Node) {struct l}
  : Prop :=
  match l, l' with
  | [], [] => True
  | x :: r, x' :: r' => sameExcept affected x x' /\ sameExceptAll affected r r'
  | _, _ => False
  end.

(** A page with two stylesheets and a script. *)
Definition demoPage : Node :=
  Element "html" []
    [ Element "head" []
        [ Element "link" [("rel", "stylesheet"); ("href", "https://cdn.jsdelivr.net/a.css")] [];
          Element "link" [("rel", "stylesheet"); ("href", "/local.css")] [];
          Element "script" [("src", "https://cdn.jsdelivr.net/app.js")] [] ];
      Element "body" [] [ Text "hello" ] ]%string.

(** The addresses of a page at [https://example.org/], for examples:
    only paths from the root are resolved. *)
Definition demoAbsoluteUrl (url : string) : Completion string :=
  if startsWith url "/" then Normal ("https://example.org" +:+ url)
  else Throw (ErrorObject "Invalid URL").

(** A network on which the first stylesheet cannot be fetched. *)
Definition demoNetwork (request : Request) : FetchOutcome :=
  if String.eqb (requestUrl request) "https://cdn.jsdelivr.net/a.css"
  then Responded false 404 (BodyText "")
  else if String.eqb (requestUrl request) "https://example.org/local.css"
       then Responded true 200 (BodyText "body{margin:0}")
       else Rejected (ErrorObject "Failed to fetch").

(** *** HtmlCaptureHelper: the elements removed *)

(** [querySelectorAll(selector).forEach((el) => el.remove())] on the
    descendants of a node, for a selector that looks at the element
    alone: what is left of one node. *)
Fixpoint removeWhere (drop : string -> list (string * string) -> bool) (n : Node)
  : list Node :=
  match n with
  | Text _ => [n]
  | Element tag attrs kids =>
      if drop tag attrs then []
      else [Element tag attrs (flat_map (removeWhere drop) kids)]
  end.

Definition removeBelow (drop : string -> list (string * string) -> bool)
           (htmlClone : Node) : Node :=
  match htmlClone with
  | Text _ => htmlClone
  | Element tag attrs kids => Element tag attrs (flat_map (removeWhere drop) kids)
  end.

(** The scripts [processSafeScripts] removes; [removeInline] is
    [inlineScriptHandling === "remove"]. *)
Definition unsafeScript (o : RecorderOptions) (removeInline : bool)
           (tag : string) (attrs : list (string * string)) : bool :=
  String.eqb tag "script" &&
  match getAttribute "src" attrs with
  | Some src =>
      if truthy src then negb (isResourceFromAllowedDomain o src) else removeInline
  | None => removeInline
  end.

(** [HtmlCaptureHelper.processScripts] *)
Definition processScripts (o : RecorderOptions) (scriptHandling : ScriptHandling)
           (removeInline : bool) (htmlClone : Node) : Node :=
  match scriptHandling with
  | RemoveScripts => removeBelow (fun tag _ => String.eqb tag "script") htmlClone
  | KeepSafe => removeBelow (unsafeScript o removeInline) htmlClone
  | KeepAll => htmlClone
  end.

(** *** HtmlCaptureHelper: the capture *)

(** What the capture asks of the browser besides fetching.  The
    selectors of [excludeElements] are arbitrary, so the selector engine
    is taken as it is: [querySelectorAll selector htmlClone] gives the
    positions of the matching descendants of the clone (each the child
    indices on the way down from the clone's root), or what is thrown
    for a selector that is not valid.  What the browser knows of an
    image is a function of the image's attributes.  (The clone is not
    part of the rendered page, so that in a browser no image of it is
    visible; nothing here depends on that.) *)
Record Browser := mkBrowser {
  querySelectorAll : string -> Node -> Completion (list (list nat));
  isVisible : list (string * string) -> bool;     (* [isElementVisible(img)] *)
  imageSrc : list (string * string) -> string;    (* [img.src] *)
  imageWidth : list (string * string) -> nat;     (* [img.naturalWidth || img.width] *)
  imageHeight : list (string * string) -> nat;    (* [img.naturalHeight || img.height] *)
  timeStamp : string;                             (* [new Date().toISOString()] *)
  escapeText : string -> string;       (* a text node in the serialisation *)
  escapeAttribute : string -> string   (* an attribute value in the serialisation *)
}.

(** The positions of [paths] that lie below child [i], seen from that
    child. *)
Definition belowChild (i : nat) (paths : list (list nat)) : list (list nat) :=
  omap (fun path => match path with
                    | j :: rest => if Nat.eqb i j then Some rest else None
                    | [] => None
                    end) paths.

(** One of the positions is the node itself. *)
Definition selectedHere (paths : list (list nat)) : bool :=
  existsb (fun path => match path with [] => true | _ => false end) paths.

(** [elements.forEach((el) => el.remove())] for the elements at the
    positions [paths] below [n]: each goes with everything inside it. *)
Fixpoint removeAt (paths : list (list nat)) (n : Node) : Node :=
  match n with
  | Text _ => n
  | Element tag attrs kids =>
      Element tag attrs
        ((fix each (i : nat) (l : list Node) {struct l} : list Node :=
            match l with
            | [] => []
            | k :: rest =>
                if selectedHere (belowChild i paths) then each (S i) rest
                else removeAt (belowChild i paths) k :: each (S i) rest
            end) 0%nat kids)
  end.

(** [element.setAttribute(name, value)] *)
Fixpoint setAttribute (name value : string) (attrs : list (string * string))
  : list (string * string) :=
  match attrs with
  | [] => [(name, value)]
  | (n, v) :: rest =>
      if String.eqb n name then (n, value) :: rest
      else (n, v) :: setAttribute name value rest
  end.

(** The image [optimizeImageSource] puts in place of the source. *)
Definition placeholderImage : string :=
  "data:image/svg+xml;base64,PHN2ZyB3aWR0aD0iMTYiIGhlaWdodD0iMTYiIHhtbG5zPSJodHRwOi8vd3d3LnczLm9yZy8yMDAwL3N2ZyI+PHJlY3Qgd2lkdGg9IjEwMCUiIGhlaWdodD0iMTAwJSIgZmlsbD0iI2VlZSIvPjwvc3ZnPg==".

(** The selectors of [optimizeOtherResources]. *)
Definition isFontLink (tag : string) (attrs : list (string * string)) : bool :=
  isStylesheetLink tag attrs &&
  match getAttribute "href" attrs with
  | Some href => includes href "fonts"
  | None => false
  end.

Definition isIframe (tag : string) (attrs : list (string * string)) : bool :=
  String.eqb tag "iframe".

Definition isMedia (tag : string) (attrs : list (string * string)) : bool :=
  String.eqb tag "video" || String.eqb tag "audio".

(** The first element of the list for which [f] has a result, replaced
    by that result. *)
Fixpoint replaceFirst (f : Node -> option Node) (l : list Node)
  : option (list Node) :=
  match l with
  | [] => None
  | k :: rest =>
      match f k with
      | Some k' => Some (k' :: rest)
      | None => cons k <$> replaceFirst f rest
      end
  end.

(** [extra] appended to the first [head] element in document order,
    the node itself included; [None] when there is no such element. *)
Fixpoint appendToHead (extra : list Node) (n : Node) : option Node :=
  match n with
  | Text _ => None
  | Element tag attrs kids =>
      if String.eqb tag "head" then Some (Element tag attrs (kids ++ extra))
      else Element tag attrs <$> replaceFirst (appendToHead extra) kids
  end.

(** The elements that the serialisation writes without content and
    without end tag, and those whose text it writes as it is. *)
Definition voidElements : list string :=
  ["area"; "base"; "basefont"; "bgsound"; "br"; "col"; "embed"; "frame"; "hr";
   "img"; "input"; "keygen"; "link"; "meta"; "param"; "source"; "track"; "wbr"]%string.

Definition rawTextElements : list string :=
  ["style"; "script"; "xmp"; "iframe"; "noembed"; "noframes"; "plaintext";
   "noscript"]%string.

Definition isVoid (tag : string) : bool := existsb (String.eqb tag) voidElements.

Definition isRawText (tag : string) : bool := existsb (String.eqb tag) rawTextElements.

(** The concatenation of a list of strings. *)
Fixpoint concatAll (l : list string) : string :=
  match l with
  | [] => EmptyString
  | x :: rest => x +:+ concatAll rest
  end.

Section Helper.

Variable absoluteUrl : string -> Completion string.
Variable network : Request -> FetchOutcome.
Variable o : RecorderOptions.
Variable b : Browser.

(** [removeExcludedElements] *)
Definition removeExcludedElements (htmlClone : Node) : Node :=
  fold_left (fun clone selector =>
               match querySelectorAll b selector clone with
               | Normal paths => removeAt paths clone
               | Throw _ => clone     (* invalid selector, skip *)
               end)
            (excludeElements o) htmlClone.

(** [optimizeImageSource] *)
Definition optimizeImageSource (attrs : list (string * string))
  : list (string * string) :=
  let attrs1 := setAttribute "data-optimized" "true" attrs in
  if usePlaceholdersForImages o then
    let originalSrc := imageSrc b attrs1 in
    setAttribute "data-original-src" originalSrc
                 (setAttribute "src" placeholderImage attrs1)
  else attrs1.

(** What [processImages] makes of one node and its descendants. *)
Fixpoint imageNode (n : Node) : list Node :=
  match n with
  | Text _ => [n]
  | Element tag attrs kids =>
      let kids' := flat_map imageNode kids in
      if String.eqb tag "img" then
        match getAttribute "src" attrs with
        | None => [Element tag attrs kids']
        | Some src =>
            if negb (truthy src) || isResourceFromAllowedDomain o src
            then [Element tag attrs kids']
            else if negb (isVisible b attrs) && removeInvisibleElements o then []
                 else if negb (keepExternalResources o) && negb (isDataUrl src)
                      then [Element tag (optimizeImageSource attrs) kids']
                      else [Element tag attrs kids']
        end
      else [Element tag attrs kids']
  end.

(** [processImages] *)
Definition processImages (htmlClone : Node) : Node :=
  match htmlClone with
  | Text _ => htmlClone
  | Element tag attrs kids => Element tag attrs (flat_map imageNode kids)
  end.

(** [optimizeOtherResources] *)
Definition optimizeOtherResources (htmlClone : Node) : Node :=
  let c1 := if negb (keepFonts o) then removeBelow isFontLink htmlClone
            else htmlClone in
  let c2 := if removeIframes o then removeBelow isIframe c1 else c1 in
  if removeMedia o then removeBelow isMedia c2 else c2.

(** [optimizeExternalResources] *)
Definition optimizeExternalResources (htmlClone : Node) : Completion Node :=
  bind (processStylesheets absoluteUrl network o htmlClone)
       (fun c1 =>
          bind (processExternalScripts absoluteUrl network o c1)
               (fun c2 => Normal (optimizeOtherResources (processImages c2)))).

(** What [optimizeImages] makes of one node and its descendants. *)
Fixpoint sizedImage (n : Node) : Node :=
  match n with
  | Text _ => n
  | Element tag attrs kids =>
      let kids' := map sizedImage kids in
      if String.eqb tag "img" then
        let width := imageWidth b attrs in
        let height := imageHeight b attrs in
        let attrs1 :=
          if negb (Nat.eqb width 0) && negb (Nat.eqb height 0)
          then setAttribute "height" (pretty height)
                            (setAttribute "width" (pretty width) attrs)
          else attrs in
        let attrs2 :=
          if negb (isVisible b attrs) then setAttribute "loading" "lazy" attrs1
          else attrs1 in
        Element tag attrs2 kids'
      else Element tag attrs kids'
  end.

(** [optimizeImages] *)
Definition optimizeImages (htmlClone : Node) : Node :=
  match htmlClone with
  | Text _ => htmlClone
  | Element tag attrs kids => Element tag attrs (map sizedImage kids)
  end.

(** The two elements [addCaptureMetadata] creates. *)
Definition captureMetadata : list Node :=
  [ Element "meta" [("name", "session-recorder-capture"); ("content", "true")] [];
    Element "meta" [("name", "session-recorder-timestamp");
                    ("content", timeStamp b)] [] ]%string.

(** [addCaptureMetadata]: [querySelector("head")] is the first [head]
    among the descendants. *)
Definition addCaptureMetadata (htmlClone : Node) : Node :=
  match htmlClone with
  | Text _ => htmlClone
  | Element tag attrs kids =>
      Element tag attrs
              (default kids (replaceFirst (appendToHead captureMetadata) kids))
  end.

(** The serialisation of an attribute list. *)
Fixpoint attributesText (attrs : list (string * string)) : string :=
  match attrs with
  | [] => EmptyString
  | (name, value) :: rest =>
      " " +:+ name +:+ "=" +:+ String "034"%char
          (escapeAttribute b value +:+ String "034"%char (attributesText rest))
  end.

(** The serialisation of a node; [raw] says that the parent is an
    element whose text is written as it is. *)
Fixpoint serialize (raw : bool) (n : Node) : string :=
  match n with
  | Text s => if raw then s else escapeText b s
  | Element tag attrs kids =>
      "<" +:+ tag +:+ attributesText attrs +:+ ">" +:+
      (if isVoid tag then EmptyString
       else concatAll (map (serialize (isRawText tag)) kids)
            +:+ "</" +:+ tag +:+ ">")
  end.

(** [element.outerHTML] *)
Definition outerHTML (element : Node) : string := serialize false element.

(** [capturePageHtml], for a page whose [document.documentElement] is
    [documentElement]. *)
Definition capturePageHtml (documentElement : Node) : Completion string :=
  let htmlClone := documentElement in
  let htmlClone :=
    processScripts o (scriptHandling o) (removeInlineScripts o) htmlClone in
  let htmlClone := removeExcludedElements htmlClone in
  bind (optimizeExternalResources htmlClone)
       (fun htmlClone =>
          let htmlClone :=
            if (0 <? optimizationLevel o)%nat then removeUnusedCss htmlClone
            else htmlClone in
          let htmlClone :=
            if (1 <? optimizationLevel o)%nat then optimizeImages htmlClone
            else htmlClone in
          Normal (outerHTML (addCaptureMetadata htmlClone))).

(** The clone as the passes that fetch find it. *)
Definition preparedClone (documentElement : Node) : Node :=
  removeExcludedElements
    (processScripts o (scriptHandling o) (removeInlineScripts o) documentElement).

(** The clone after [optimizeExternalResources]. *)
Definition expectedResources (htmlClone : Node) : Node :=
  optimizeOtherResources
    (processImages
       (expectedScripts absoluteUrl network o
          (expectedDocument absoluteUrl network o htmlClone))).

(** What [capturePageHtml] does once [optimizeExternalResources] has
    settled; none of it looks at the network. *)
Definition finishCapture (htmlClone : Node) : string :=
  let htmlClone :=
    if (0 <? optimizationLevel o)%nat then removeUnusedCss htmlClone
    else htmlClone in
  let htmlClone :=
    if (1 <? optimizationLevel o)%nat then optimizeImages htmlClone
    else htmlClone in
  outerHTML (addCaptureMetadata htmlClone).

End Helper.

(** The [Accept] header of the request for a stylesheet. *)
Definition cssAccept : string := "text/css,*/*;q=0.1".

(** The address of a stylesheet link: the [href] of an element that
    [link[rel="stylesheet"]] selects, when it is not empty. *)
Definition stylesheetAddress (n : Node) : option string :=
  match n with
  | Element tag attrs _ =>
      if isStylesheetLink tag attrs then
        match getAttribute "href" attrs with
        | Some href => if truthy href then Some href else None
        | None => None
        end
      else None
  | Text _ => None
  end.

(** The elements below which the capture keeps what it finds where it
    is, and which the serialisation writes with their content: those
    that no pass selects and that are not void. *)
Definition plainTag (tag : string) : bool :=
  negb (existsb (String.eqb tag)
                (["script"; "style"; "iframe"; "video"; "audio"]%string
                 ++ voidElements)).

(** [x] is a descendant of [n], and [n] and every element between them
    are plain. *)
Inductive reaches (x : Node) : Node -> Prop :=
| reaches_child (tag : string) (attrs : list (string * string)) (kids : list Node) :
    plainTag tag = true -> In x kids -> reaches x (Element tag attrs kids)
| reaches_below (tag : string) (attrs : list (string * string)) (kids : list Node)
                (k : Node) :
    plainTag tag = true -> In k kids -> reaches x k ->
    reaches x (Element tag attrs kids).

(** The descendants of a node, in document order. *)
Fixpoint descendants (n : Node) : list Node :=
  match n with
  | Text _ => []
  | Element _ _ kids => flat_map (fun k => k :: descendants k) kids
  end.

(** The links [href'] for which [fetchResource] makes the same request
    as for [href]. *)
Definition sameRequest (absoluteUrl : string -> Completion string)
           (href href' : string) : bool :=
  match resolveUrl absoluteUrl href, resolveUrl absoluteUrl href' with
  | Normal fullUrl, Normal fullUrl' =>
      String.eqb fullUrl fullUrl' &&
      Bool.eqb (startsWith href "http") (startsWith href' "http")
  | _, _ => false
  end.

(** Two networks that answer alike every request made for an address
    that passes the allow test. *)
Definition alikeWhereAllowed (absoluteUrl : string -> Completion string)
           (o : RecorderOptions) (n1 n2 : Request -> FetchOutcome) : Prop :=
  forall url contentType fullUrl,
    isResourceFromAllowedDomain o url = true ->
    resolveUrl absoluteUrl url = Normal fullUrl ->
    n1 (requestFor url contentType fullUrl) = n2 (requestFor url contentType fullUrl).

(** What the specification says of a stylesheet that cannot be fetched:
    the capture returns a string in which the comment that documents the
    failure is found. *)
Definition captureAsSpecified (absoluteUrl : string -> Completion string)
           (network : Request -> FetchOutcome) (o : RecorderOptions) (b : Browser)
           (documentElement : Node) : Prop :=
  forall link href error,
    In link (descendants (preparedClone o b documentElement)) ->
    stylesheetAddress link = Some href ->
    isResourceFromAllowedDomain o href = true -> inlineCss o = true ->
    fetchBody absoluteUrl network href cssAccept = Throw error ->
    exists html,
      capturePageHtml absoluteUrl network o b documentElement = Normal html /\
      occursIn (failureComment href error) html.

(** A browser for examples: no element matches an excluded selector, no
    image is visible or has a size, and nothing needs escaping. *)
Definition demoBrowser : Browser :=
  mkBrowser (fun _ _ => Normal []) (fun _ => false)
            (fun attrs => default EmptyString (getAttribute "src" attrs))
            (fun _ => 0%nat) (fun _ => 0%nat)
            "2023-11-14T22:13:20.000Z" (fun s => s) (fun s => s).

(** A page whose stylesheet is the fallback content of a video. *)
Definition demoVideoPage : Node :=
  Element "html" []
    [ Element "head" [] [];
      Element "body" []
        [ Element "video" [("src", "/clip.mp4")]
            [ Element "link" [("rel", "stylesheet");
                              ("href", "https://cdn.jsdelivr.net/a.css")] [] ] ] ]%string.

(** *** Vocabulary for the statements about the snapshot *)

(** No element of the node, the node included, satisfies [bad]. *)
Fixpoint free (bad : string -> list (string * string) -> bool) (n : Node) : bool :=
  match n with
  | Text _ => true
  | Element tag attrs kids => negb (bad tag attrs) && forallb (free bad) kids
  end.

(** No descendant of the node satisfies [bad]. *)
Definition freeBelow (bad : string -> list (string * string) -> bool) (n : Node)
  : bool :=
  match n with
  | Text _ => true
  | Element _ _ kids => forallb (free bad) kids
  end.

Definition isScript (tag : string) (attrs : list (string * string)) : bool :=
  String.eqb tag "script".

(** An element that makes the browser fetch a stylesheet or a script. *)
Definition fetchesResource (tag : string) (attrs : list (string * string)) : bool :=
  isStylesheetLink tag attrs &&
    match getAttribute "href" attrs with Some href => truthy href | None => false end
  || String.eqb tag "script" &&
    match getAttribute "src" attrs with Some src => truthy src | None => false end.

(** A script with a source that is not on the allow list. *)
Definition foreignScript (o : RecorderOptions) (tag : string)
           (attrs : list (string * string)) : bool :=
  String.eqb tag "script" &&
  match getAttribute "src" attrs with
  | Some src => truthy src && negb (isResourceFromAllowedDomain o src)
  | None => false
  end.

(** The options of the defaults, except that external resources are not
    kept. *)
Definition selfContainedOptions : RecorderOptions :=
  mkRecorderOptions (Some ["cdn.jsdelivr.net"; "cdnjs.cloudflare.com"]%string)
                    true true false 1
                    [".no-record"; "[data-private]"]%string
                    RemoveScripts true true true true true true.

(** A network that answers every request with the same text. *)
Definition demoQuietNetwork (request : Request) : FetchOutcome :=
  Responded true 200 (BodyText "/* ok */").

(** A script that is on no allow list, and a network that differs from
    [demoNetwork] only in what it answers for that script. *)
Definition demoTracker : string := "https://tracker.example/t.js".

Definition demoOtherNetwork (request : Request) : FetchOutcome :=
  if String.eqb (requestUrl request) demoTracker
  then Responded true 200 (BodyText "track()")
  else demoNetwork request.

End Snapshot.

(* ===================================================================== *)
(** ** Storage: LocalStorageAdapter and the wire format *)
(* ===================================================================== *)

Module Storage.
Import Artifact.

(** *** Dates as text: [Date.prototype.toISOString] and [Date.parse] *)

Definition msPerDay : Z := 86400000.

(** Year, month and day of a day number counted from the epoch, in the
    proleptic Gregorian calendar (eras of 400 years starting on
    1 March). *)
Definition civilFromDays (day : Z) : Z * Z * Z :=
  let z := day + 719468 in
  let era := z / 146097 in
  let doe := z mod 146097 in
  let yoe := (doe - doe / 1460 + doe / 36524 - doe / 146096) / 365 in
  let doy := doe - (365 * yoe + yoe / 4 - yoe / 100) in
  let mp := (5 * doy + 2) / 153 in
  let d := doy - (153 * mp + 2) / 5 + 1 in
  let m := if mp <? 10 then mp + 3 else mp - 9 in
  let y := yoe + era * 400 in
  (if m <=? 2 then y + 1 else y, m, d).

(** The day number of a year, month and day. *)
Definition daysFromCivil (y m d : Z) : Z :=
  let y' := if m <=? 2 then y - 1 else y in
  let era := y' / 400 in
  let yoe := y' mod 400 in
  let mp := if 2 <? m then m - 3 else m + 9 in
  let doy := (153 * mp + 2) / 5 + d - 1 in
  let doe := yoe * 365 + yoe / 4 - yoe / 100 + doy in
  era * 146097 + doe - 719468.

Definition digitChar (d : Z) : ascii := ascii_of_nat (48 + Z.to_nat d).

Definition digitValue (c : ascii) : option Z :=
  let n := nat_of_ascii c in
  if ((48 <=? n) && (n <=? 57))%nat then Some (Z.of_nat n - 48) else None.

(** [n] written with exactly [width] decimal digits. *)
Fixpoint padDigits (width : nat) (n : Z) : string :=
  match width with
  | O => EmptyString
  | S w => String (digitChar (n / 10 ^ Z.of_nat w)) (padDigits w (n mod 10 ^ Z.of_nat w))
  end.

(** Read exactly [width] decimal digits; the number read so far is
    [acc]. *)
Fixpoint readDigits (width : nat) (acc : Z) (s : string) : option (Z * string) :=
  match width with
  | O => Some (acc, s)
  | S w =>
      match s with
      | String c rest =>
          match digitValue c with
          | Some d => readDigits w (10 * acc + d) rest
          | None => None
          end
      | EmptyString => None
      end
  end.

(** Read the character [c]. *)
Definition expect (c : ascii) (s : string) : option string :=
  match s with
  | String c' rest => if Ascii.eqb c c' then Some rest else None
  | EmptyString => None
  end.

(** The year of an ISO string: four digits, or a sign and six digits
    outside 0..9999. *)
Definition yearString (y : Z) : string :=
  if (0 <=? y) && (y <=? 9999) then padDigits 4 y
  else String (if y <? 0 then "-"%char else "+"%char) (padDigits 6 (Z.abs y)).

(** [Date.prototype.toISOString] of a valid date with time value [t]. *)
Definition toISOString (t : Z) : string :=
  let '(y, m, d) := civilFromDays (t / msPerDay) in
  let ms := t mod msPerDay in
  yearString y +:+
  String "-" (padDigits 2 m +:+
  String "-" (padDigits 2 d +:+
  String "T" (padDigits 2 (ms / 3600000) +:+
  String ":" (padDigits 2 (ms / 60000 mod 60) +:+
  String ":" (padDigits 2 (ms / 1000 mod 60) +:+
  String "." (padDigits 3 (ms mod 1000) +:+ "Z")))))).

Definition readYear (s : string) : option (Z * string) :=
  match s with
  | String "+" rest => readDigits 6 0 rest
  | String "-" rest =>
      '(y, rest') ← readDigits 6 0 rest;
      if y =? 0 then None else Some (- y, rest')
  | _ => readDigits 4 0 s
  end.

(** [Date.parse] on the format [toISOString] writes; [None] is [NaN].
    Other spellings of a date, which [Date.parse] may also accept, are
    not recognised here. *)
Definition parseISO (s : string) : option Z :=
  '(y, s) ← readYear s;
  s ← expect "-" s;
  '(m, s) ← readDigits 2 0 s;
  s ← expect "-" s;
  '(d, s) ← readDigits 2 0 s;
  s ← expect "T" s;
  '(hh, s) ← readDigits 2 0 s;
  s ← expect ":" s;
  '(mm, s) ← readDigits 2 0 s;
  s ← expect ":" s;
  '(ss, s) ← readDigits 2 0 s;
  s ← expect "." s;
  '(ms, s) ← readDigits 3 0 s;
  s ← expect "Z" s;
  match s with
  | EmptyString =>
      if (1 <=? m) && (m <=? 12) && (1 <=? d) && (d <=? 31) &&
         (hh <=? 23) && (mm <=? 59) && (ss <=? 59)
      then
        let t := daysFromCivil y m d * msPerDay
                 + hh * 3600000 + mm * 60000 + ss * 1000 + ms in
        if inRange t then Some t else None
      else None
  | _ => None
  end.

(** *** Sessions on the wire *)

(** A date field in the stored JSON text. *)
Inductive WireDate :=
| WString (s : string)
| WNull
| WOther (d : JsDate).   (* any other JSON value, with the date [new Date] makes of it *)

(** A date field of a value of unknown type handed to
    [prepareSessionFromStorage]: a [Date] object, or a parsed JSON
    value. *)
Inductive DateLike :=
| OfDate (d : JsDate)
| OfWire (w : WireDate).

(** [Date.prototype.toJSON], as [JSON.stringify] applies it. *)
Definition toJSON (d : JsDate) : WireDate :=
  match d with
  | ValidDate t => WString (toISOString t)
  | InvalidDate => WNull
  end.

(** [new Date(value)] *)
Definition newDate (value : DateLike) : JsDate :=
  match value with
  | OfDate d => d
  | OfWire (WString s) =>
      match parseISO s with
      | Some t => ValidDate t
      | None => InvalidDate
      end
  | OfWire WNull => ValidDate 0
  | OfWire (WOther d) => d
  end.

Definition mapDates {A B : Type} (f : A -> B) (s : RecordingSession A)
  : RecordingSession B :=
  mkSession (id s) (f (startTime s)) (f (endTime s))
            (map (fun e => mkEvent (f (timestamp e)) (type e) (data e)) (events s))
            (pageUrl s) (pageHtml s).

(** What is kept under a key of [localStorage]: the JSON text of an
    array of sessions, or any other text (empty, not JSON, or of a shape
    on which [getAllSessions] throws). *)
Inductive StoredText :=
| SessionArray (sessions : list (RecordingSession WireDate))
| OtherText.

(** [JSON.stringify(sessions)].  Payloads are taken to be JSON values,
    which the text preserves. *)
Definition stringify (sessions : list (RecordingSession JsDate)) : StoredText :=
  SessionArray (map (mapDates toJSON) sessions).

(** *** LocalStorageAdapter *)

(** [prepareSessionForStorage] *)
Definition prepareSessionForStorage (session : RecordingSession JsDate)
  : RecordingSession JsDate :=
  mapDates (fun d => d) session.

(** [prepareSessionFromStorage] *)
Definition prepareSessionFromStorage (session : RecordingSession DateLike)
  : RecordingSession JsDate :=
  mapDates newDate session.

Section Adapter.

Variable storageKey : string.

(** [getAllSessions] *)
Definition getAllSessions (localStorage : gmap string StoredText)
  : list (RecordingSession JsDate) :=
  match localStorage !! storageKey with
  | Some (SessionArray sessions) =>
      map (fun s => prepareSessionFromStorage (mapDates OfWire s)) sessions
  | Some OtherText => []
  | None => []
  end.

(** [Array.prototype.findIndex]; [None] is [-1]. *)
Fixpoint findIndex {A : Type} (p : A -> bool) (l : list A) : option nat :=
  match l with
  | [] => None
  | x :: rest => if p x then Some 0%nat else S <$> findIndex p rest
  end.

(** [saveSession]: the storage after the call.  [setItem] is taken to
    succeed. *)
Definition saveSession (session : RecordingSession JsDate)
           (localStorage : gmap string StoredText) : gmap string StoredText :=
  let sessions := getAllSessions localStorage in
  let sessions' :=
    match findIndex (fun s => String.eqb (id s) (id session)) sessions with
    | Some existingIndex =>
        <[existingIndex := prepareSessionForStorage session]> sessions
    | None => sessions ++ [prepareSessionForStorage session]
    end in
  <[storageKey := stringify sessions']> localStorage.

(** [saveSession] from its [await] on.  The call has read the stored
    sessions as [sessions]; when it resumes, in a later microtask, it
    puts the session among them and writes them to the storage as it is
    then.  [saveSession] above is the whole call when nothing touches
    the storage in between. *)
Definition resumeSaveSession (sessions : list (RecordingSession JsDate))
           (session : RecordingSession JsDate)
           (localStorage : gmap string StoredText) : gmap string StoredText :=
  let sessions' :=
    match findIndex (fun s => String.eqb (id s) (id session)) sessions with
    | Some existingIndex =>
        <[existingIndex := prepareSessionForStorage session]> sessions
    | None => sessions ++ [prepareSessionForStorage session]
    end in
  <[storageKey := stringify sessions']> localStorage.

(** [getSession] *)
Definition getSession (sid : string) (localStorage : gmap string StoredText)
  : option (RecordingSession JsDate) :=
  match List.find (fun s => String.eqb (id s) sid) (getAllSessions localStorage) with
  | None => None
  | Some session => Some (prepareSessionFromStorage (mapDates OfDate session))
  end.

(** [deleteSession]: the storage after the call.  [setItem] is taken to
    succeed. *)
Definition deleteSession (sid : string) (localStorage : gmap string StoredText)
  : gmap string StoredText :=
  let sessions := getAllSessions localStorage in
  let filteredSessions :=
    List.filter (fun s => negb (String.eqb (id s) sid)) sessions in
  <[storageKey := stringify filteredSessions]> localStorage.

(** The ids of the stored sessions, in the order [getAllSessions] gives
    them. *)
Definition storedIds (localStorage : gmap string StoredText) : list string :=
  map id (getAllSessions localStorage).

(** The calls that change the storage. *)
Inductive StorageOp :=
| OpSave (session : RecordingSession JsDate)
| OpDelete (sid : string).

Definition applyStorageOp (op : StorageOp) (localStorage : gmap string StoredText)
  : gmap string StoredText :=
  match op with
  | OpSave session => saveSession session localStorage
  | OpDelete sid => deleteSession sid localStorage
  end.

Definition runStorage (ops : list StorageOp) (localStorage : gmap string StoredText)
  : gmap string StoredText :=
  fold_left (fun acc op => applyStorageOp op acc) ops localStorage.

End Adapter.

(** *** Vocabulary for the round trip *)

(** One session written as text and read back by [getAllSessions]. *)
Definition throughText (s : RecordingSession JsDate) : RecordingSession JsDate :=
  prepareSessionFromStorage (mapDates OfWire (mapDates toJSON s)).

(** An event written as text, read back by [getAllSessions] and copied
    by [getSession]. *)
Definition reloadEvent (e : SessionEvent JsDate) : SessionEvent JsDate :=
  mkEvent (newDate (OfDate (newDate (OfWire (toJSON (timestamp e))))))
          (type e) (data e).

(** A session of three events for examples, saved under the key of the
    adapter's default. *)
Definition demoStored : RecordingSession JsDate :=
  mkSession "s-1"%string (ValidDate 1700000000000) (ValidDate 1700000001500)
    [ mkEvent (ValidDate 1700000000000) NAVIGATION
              (NavigationEventData "direct" "https://example.org/" None);
      mkEvent (ValidDate 1700000000500) MOUSE_CLICK
              (MouseEventData 10 10 None (Some 0) None);
      mkEvent (ValidDate 1700000001500) MOUSE_MOVE
              (MouseEventData 20 20 None None None) ]
    None None.

(** Every event carries a valid date within the range of [Date]. *)
Definition validTimes (s : RecordingSession JsDate) : bool :=
  forallb (fun e => match timestamp e with
                    | ValidDate t => inRange t
                    | InvalidDate => false
                    end) (events s).

(** The differences between the time values of adjacent events; [None]
    is [NaN]. *)
Fixpoint deltas (evs : list (SessionEvent JsDate)) : list (option Z) :=
  match evs with
  | e1 :: rest =>
      match rest with
      | e2 :: _ =>
          match eventTime e2, eventTime e1 with
          | Some t2, Some t1 => Some (t2 - t1)
          | _, _ => None
          end :: deltas rest
      | [] => []
      end
  | [] => []
  end.

(** The date that comes back for a date written to the text: an invalid
    date is written as [null], which [new Date] reads as the epoch. *)
Definition reloadDate (d : JsDate) : JsDate :=
  match d with
  | ValidDate t => ValidDate t
  | InvalidDate => ValidDate 0
  end.

Definition datesInRange (s : RecordingSession JsDate) : bool :=
  dateInRange (startTime s) && dateInRange (endTime s) &&
  forallb (fun e => dateInRange (timestamp e)) (events s).

Definition isValidDate (d : JsDate) : bool :=
  match d with
  | ValidDate _ => true
  | InvalidDate => false
  end.

(** No date of the session is the invalid date. *)
Definition datesValid (s : RecordingSession JsDate) : bool :=
  isValidDate (startTime s) && isValidDate (endTime s) &&
  forallb (fun e => isValidDate (timestamp e)) (events s).

(** What the specification says of the round trip: the session read back
    has as many events, of the same kinds in the same order, with the
    same difference between every two adjacent timestamps. *)
Definition roundTripAsSpecified (storageKey : string)
           (session : RecordingSession JsDate)
           (localStorage : gmap string StoredText) : Prop :=
  exists loaded,
    getSession storageKey (id session)
               (saveSession storageKey session localStorage) = Some loaded /\
    length (events loaded) = length (events session) /\
    map type (events loaded) = map type (events session) /\
    deltas (events loaded) = deltas (events session).

(** A session whose first event carries an invalid date. *)
Definition demoUndated : RecordingSession JsDate :=
  mkSession "s-3"%string (ValidDate 1700000000000) (ValidDate 1700000000500)
    [ mkEvent InvalidDate NAVIGATION
              (NavigationEventData "direct" "https://example.org/" None);
      mkEvent (ValidDate 1700000000500) MOUSE_CLICK
              (MouseEventData 10 10 None (Some 0) None) ]
    None None.

(** A second session for examples, with an invalid end date. *)
Definition demoUnfinished : RecordingSession JsDate :=
  mkSession "s-2"%string (ValidDate 1700000002000) InvalidDate
    [ mkEvent (ValidDate 1700000002000) NAVIGATION
              (NavigationEventData "direct" "https://example.org/b" None) ]
    (Some "https://example.org/b"%string) None.

End Storage.

(* ===================================================================== *)
(** ** Recorder: SessionRecorder *)
(* ===================================================================== *)

Module Recorder.
Import Artifact Storage.

(** The options of the recorder that decide what follows. *)
Record Options := mkOptions {
  storageKey : string;
  maxDuration : Z;          (* seconds *)
  captureHtml : bool
}.

(** What the recorder reads from the page when it starts. *)
Record PageInfo := mkPageInfo {
  href : string;            (* [window.location.href] *)
  referrer : string;        (* [document.referrer] *)
  title : string            (* [document.title] *)
}.

(** The session object that a call of [saveSession] was given. *)
Inductive SavedObject :=
| CurrentObject                                  (* the object [currentSession] refers to *)
| EarlierObject (s : RecordingSession JsDate).   (* an object replaced since *)

(** A call of [LocalStorageAdapter.saveSession] that waits at its
    [await]: the sessions it has read from the storage, and the session
    object it will write.  The object is shared with the recorder, which
    may still change it before the call resumes. *)
Record PendingSave := mkPendingSave {
  sessionsRead : list (RecordingSession JsDate);
  savedObject : SavedObject
}.

(** A [SessionRecorder], the storage it writes to and the calls of
    [saveSession] that have not resumed yet, oldest first (they resume
    in that order, as jobs of the microtask queue). *)
Record SessionRecorder := mkRecorder {
  options : Options;
  isRecording : bool;
  currentSession : option (RecordingSession JsDate);
  saveIntervalId : bool;    (* the auto-save interval is set *)
  sessionTimeout : bool;    (* the maximum-duration timeout is set *)
  htmlPending : nat;        (* captures of the page's HTML that have not settled *)
  localStorage : gmap string StoredText;
  pendingSaves : list PendingSave
}.

(** [new SessionRecorder(options)] with [autoStart: false]. *)
Definition newRecorder (o : Options) (storage : gmap string StoredText)
  : SessionRecorder :=
  mkRecorder o false None false false 0 storage [].

(** The current session object changes in place. *)
Definition withSession (s : RecordingSession JsDate) (r : SessionRecorder)
  : SessionRecorder :=
  mkRecorder (options r) (isRecording r) (Some s) (saveIntervalId r)
             (sessionTimeout r) (htmlPending r) (localStorage r) (pendingSaves r).

(** [recordEvent], called when the clock shows [t]. *)
Definition recordEvent (t : Z) (type : EventType) (data : EventData)
           (r : SessionRecorder) : SessionRecorder :=
  match currentSession r with
  | Some s =>
      if isRecording r then
        withSession (mkSession (id s) (startTime s) (endTime s)
                               (events s ++ [mkEvent (ValidDate t) type data])
                               (pageUrl s) (pageHtml s)) r
      else r
  | None => r
  end.

(** [saveCurrentSession], which nobody awaits.  The call runs as far as
    the [await] in [LocalStorageAdapter.saveSession]: [getAllSessions]
    has read the storage by then, and the rest waits. *)
Definition saveCurrentSession (r : SessionRecorder) : SessionRecorder :=
  match currentSession r with
  | Some _ =>
      mkRecorder (options r) (isRecording r) (currentSession r) (saveIntervalId r)
                 (sessionTimeout r) (htmlPending r) (localStorage r)
                 (pendingSaves r ++
                  [mkPendingSave (getAllSessions (storageKey (options r))
                                                 (localStorage r))
                                 CurrentObject])
  | None => r
  end.

(** The oldest waiting [saveSession] resumes: it writes the sessions it
    had read, with its session object as that is now.  [setItem] is
    taken to succeed. *)
Definition resumeSave (r : SessionRecorder) : SessionRecorder :=
  match pendingSaves r with
  | [] => r
  | p :: rest =>
      let session := match savedObject p with
                     | CurrentObject => currentSession r
                     | EarlierObject s => Some s
                     end in
      mkRecorder (options r) (isRecording r) (currentSession r) (saveIntervalId r)
                 (sessionTimeout r) (htmlPending r)
                 (match session with
                  | Some s => resumeSaveSession (storageKey (options r))
                                                (sessionsRead p) s (localStorage r)
                  | None => localStorage r
                  end)
                 rest
  end.

(** [currentSession] is about to refer to a new object: a waiting save
    of the object it refers to now keeps that object, which nothing
    changes any more. *)
Definition detach (current : option (RecordingSession JsDate)) (p : PendingSave)
  : PendingSave :=
  match savedObject p, current with
  | CurrentObject, Some s => mkPendingSave (sessionsRead p) (EarlierObject s)
  | _, _ => p
  end.

(** [initializeSession]; [newId] is what [generateUniqueId] returns. *)
Definition initializeSession (t : Z) (newId : string) (page : PageInfo)
           (r : SessionRecorder) : SessionRecorder :=
  mkRecorder (options r) (isRecording r)
             (Some (mkSession newId (ValidDate t) (ValidDate t) []
                              (Some (href page)) None))
             (saveIntervalId r) (sessionTimeout r) (htmlPending r) (localStorage r)
             (map (detach (currentSession r)) (pendingSaves r)).

(** [startSessionEventCapture] *)
Definition startSessionEventCapture (r : SessionRecorder) : SessionRecorder :=
  mkRecorder (options r) true (currentSession r) true
             (0 <? maxDuration (options r)) (htmlPending r) (localStorage r)
             (pendingSaves r).

(** [recordNavigationEvent] *)
Definition recordNavigationEvent (t : Z) (page : PageInfo) (r : SessionRecorder)
  : SessionRecorder :=
  recordEvent t NAVIGATION
              (NavigationEventData
                 (if Js.truthy (referrer page) then referrer page else "direct")
                 (href page) (Some (title page))) r.

(** [startRecording] *)
Definition startRecording (t : Z) (newId : string) (page : PageInfo)
           (r : SessionRecorder) : SessionRecorder :=
  if isRecording r then r
  else
    let r1 := initializeSession t newId page r in
    let r2 := if captureHtml (options r1)
              then mkRecorder (options r1) (isRecording r1) (currentSession r1)
                              (saveIntervalId r1) (sessionTimeout r1)
                              (S (htmlPending r1)) (localStorage r1)
                              (pendingSaves r1)
              else r1 in
    recordNavigationEvent t page (startSessionEventCapture r2).

(** [cleanupSession] *)
Definition cleanupSession (r : SessionRecorder) : SessionRecorder :=
  mkRecorder (options r) false (currentSession r) false false (htmlPending r)
             (localStorage r) (pendingSaves r).

(** [stopRecording] *)
Definition stopRecording (t : Z) (r : SessionRecorder) : SessionRecorder :=
  match currentSession r with
  | Some _ =>
      if isRecording r then
        let r1 := cleanupSession r in
        match currentSession r1 with
        | Some s =>
            saveCurrentSession
              (withSession (mkSession (id s) (startTime s) (ValidDate t) (events s)
                                      (pageUrl s) (pageHtml s)) r1)
        | None => r1
        end
      else r
  | None => r
  end.

(** A capture of the page's HTML settles with [html]:
    [this.currentSession!.pageHtml = html]. *)
Definition htmlCaptured (html : string) (r : SessionRecorder) : SessionRecorder :=
  match htmlPending r with
  | S pending =>
      match currentSession r with
      | Some s =>
          mkRecorder (options r) (isRecording r)
                     (Some (mkSession (id s) (startTime s) (endTime s) (events s)
                                      (pageUrl s) (Some html)))
                     (saveIntervalId r) (sessionTimeout r) pending (localStorage r)
                     (pendingSaves r)
      | None => r
      end
  | O => r
  end.

(** What can happen to a recorder: the calls of its client and of the
    event handlers, and the callbacks and jobs of the browser. *)
Inductive RecorderOp :=
| OpStart (newId : string) (page : PageInfo)
| OpStop
| OpEvent (type : EventType) (data : EventData)   (* a handler calls [recordEvent] *)
| OpAutoSave                                      (* the interval ticks *)
| OpMaxDuration                                   (* the timeout fires *)
| OpBeforeUnload
| OpHtmlCaptured (html : string)
| OpResumeSave.                                   (* a waiting [saveSession] resumes *)

Definition applyRecorderOp (r : SessionRecorder) (op : Z * RecorderOp)
  : SessionRecorder :=
  let t := fst op in
  match snd op with
  | OpStart newId page => startRecording t newId page r
  | OpStop => stopRecording t r
  | OpEvent type data => recordEvent t type data r
  | OpAutoSave => if saveIntervalId r then saveCurrentSession r else r
  | OpMaxDuration => if sessionTimeout r then stopRecording t r else r
  | OpBeforeUnload => if isRecording r then stopRecording t r else r
  | OpHtmlCaptured html => htmlCaptured html r
  | OpResumeSave => resumeSave r
  end.

(** A run of operations, each with the time the clock shows. *)
Definition runRecorder (ops : list (Z * RecorderOp)) (r : SessionRecorder)
  : SessionRecorder :=
  fold_left applyRecorderOp ops r.

(** *** Vocabulary for the statements about the recorder *)

(** The clock never runs backwards over the run. *)
Fixpoint clockAscends (from : Z) (times : list Z) : bool :=
  match times with
  | [] => true
  | t :: rest => (from <=? t) && clockAscends t rest
  end.

(** Every event of the list has a valid date between [lo] and [hi]. *)
Definition eventsWithin (lo hi : Z) (evs : list (SessionEvent JsDate)) : Prop :=
  Forall (fun e => exists t, timestamp e = ValidDate t /\ lo <= t <= hi) evs.

(** The events handed to [recordEvent], as the session keeps them. *)
Definition asRecorded (evs : list (Z * (EventType * EventData)))
  : list (SessionEvent JsDate) :=
  map (fun x => mkEvent (ValidDate (fst x)) (fst (snd x)) (snd (snd x))) evs.

Definition recordAll (evs : list (Z * (EventType * EventData))) (r : SessionRecorder)
  : SessionRecorder :=
  fold_left (fun acc x => recordEvent (fst x) (fst (snd x)) (snd (snd x)) acc) evs r.

(** The event [startRecording] records first. *)
Definition navigationEvent (t : Z) (page : PageInfo) : SessionEvent JsDate :=
  mkEvent (ValidDate t) NAVIGATION
          (NavigationEventData
             (if Js.truthy (referrer page) then referrer page else "direct")
             (href page) (Some (title page))).

Definition demoOptions : Options := mkOptions "session_recordings" 3600 false.

Definition demoPage : PageInfo := mkPageInfo "https://example.org/" "" "Example".

Definition demoRecorded : list (Z * (EventType * EventData)) :=
  [ (1700000000500, (MOUSE_CLICK, MouseEventData 10 10 None (Some 0) None));
    (1700000001500, (MOUSE_MOVE, MouseEventData 20 20 None None None)) ].

(** The time the clock shows after a run that started at [t0]. *)
Definition finalClock (t0 : Z) (ops : list (Z * RecorderOp)) : Z :=
  fold_left (fun _ t => t) (map fst ops) t0.

(** The session the recorder holds is in order when the clock shows
    [T]: it started and ended by then, its events are in chronological
    order and lie between the start and [T], and once the recording has
    stopped they lie between the start and the end. *)
Definition chronological (T : Z) (r : SessionRecorder) : Prop :=
  match currentSession r with
  | None => True
  | Some s =>
      exists st en,
        startTime s = ValidDate st /\ endTime s = ValidDate en /\
        st <= en <= T /\
        Replay.sortedTimes (events s) = true /\
        eventsWithin st T (events s) /\
        (isRecording r = false -> eventsWithin st en (events s))
  end.

(** A short recording: start, a click, a move, stop. *)
Definition demoRun : list (Z * RecorderOp) :=
  [ (1700000000000, OpStart "s-1" demoPage);
    (1700000000500, OpEvent MOUSE_CLICK (MouseEventData 10 10 None (Some 0) None));
    (1700000001500, OpEvent MOUSE_MOVE (MouseEventData 20 20 None None None));
    (1700000002000, OpStop) ].

Definition demoRunSession : RecordingSession JsDate :=
  mkSession "s-1"%string (ValidDate 1700000000000) (ValidDate 1700000002000)
            (navigationEvent 1700000000000 demoPage :: asRecorded demoRecorded)
            (Some "https://example.org/"%string) None.

End Recorder.

(* ===================================================================== *)
(** ** Helpers: utils/helpers.ts *)
(* ===================================================================== *)

Module Helpers.

(** *** generateUniqueId *)

(** [(Math.random() * 16) | 0], for a result [u] of [Math.random]. *)
Definition nibble (u : Q) : Z := Qfloor (u * 16).

(** [v.toString(16)] for a number from 0 to 15. *)
Definition hexDigit (v : Z) : ascii :=
  if v <? 10 then ascii_of_nat (48 + Z.to_nat v) else ascii_of_nat (87 + Z.to_nat v).

(** The callback of [replace]: the digit for the character [c], which
    is ["x"] or ["y"], from the result [u] of [Math.random]. *)
Definition replacement (c : ascii) (u : Q) : ascii :=
  let r := nibble u in
  let v := if Ascii.eqb c "x" then r else Z.lor (Z.land r 3) 8 in
  hexDigit v.

(** [template.replace(/[xy]/g, callback)]; [random i] is the result of
    the call of [Math.random] numbered [i], and [i] counts the calls
    made so far. *)
Fixpoint replaceXY (template : string) (i : nat) (random : nat -> Q) : string :=
  match template with
  | EmptyString => EmptyString
  | String c rest =>
      if Ascii.eqb c "x" || Ascii.eqb c "y"
      then String (replacement c (random i)) (replaceXY rest (S i) random)
      else String c (replaceXY rest i random)
  end.

(** [generateUniqueId] *)
Definition generateUniqueId (random : nat -> Q) : string :=
  replaceXY "xxxxxxxx-xxxx-4xxx-yxxx-xxxxxxxxxxxx" 0 random.

(** *** throttle *)

(** The state of a function returned by [throttle(func, delay)]: the
    variable [lastCall] of the closure, and the calls of [func] made so
    far, each with the time and the arguments. *)
Record Throttled (A : Type) := mkThrottled {
  lastCall : Z;
  executed : list (Z * A)
}.
Arguments mkThrottled {A}.
Arguments lastCall {A}.
Arguments executed {A}.

(** [throttle(func, delay)] *)
Definition throttle {A : Type} : Throttled A := mkThrottled 0 [].

(** One call of the returned function with the arguments [args], when
    [Date.now()] is [now]. *)
Definition call {A : Type} (delay : Q) (th : Throttled A) (c : Z * A) : Throttled A :=
  let now := fst c in
  if Qle_bool delay (inject_Z (now - lastCall th))
  then mkThrottled now (executed th ++ [c])
  else th.

Definition callAll {A : Type} (delay : Q) (calls : list (Z * A)) (th : Throttled A)
  : Throttled A :=
  fold_left (call delay) calls th.

(** *** Vocabulary *)

Definition isHex (c : ascii) : bool :=
  let n := nat_of_ascii c in
  ((48 <=? n) && (n <=? 57) || (97 <=? n) && (n <=? 102))%nat.

(** The digits a UUID of the RFC 4122 variant has in that place. *)
Definition isVariant (c : ascii) : bool :=
  Ascii.eqb c "8" || Ascii.eqb c "9" || Ascii.eqb c "a" || Ascii.eqb c "b".

(** [s] has the shape [shape], in which ["h"] stands for a hexadecimal
    digit in lower case, ["v"] for a variant digit and every other
    character for itself. *)
Fixpoint hasShape (shape s : string) : bool :=
  match shape, s with
  | EmptyString, EmptyString => true
  | String p shape', String c s' =>
      (if Ascii.eqb p "h" then isHex c
       else if Ascii.eqb p "v" then isVariant c
            else Ascii.eqb p c) && hasShape shape' s'
  | _, _ => false
  end.

(** The shape of a version 4 UUID. *)
Definition uuid4Shape : string := "hhhhhhhh-hhhh-4hhh-vhhh-hhhhhhhhhhhh".

(** Any two adjacent times of the list are at least [delay] apart. *)
Fixpoint spaced (delay : Q) (times : list Z) : Prop :=
  match times with
  | t1 :: rest =>
      match rest with
      | t2 :: _ => (delay <= inject_Z (t2 - t1))%Q /\ spaced delay rest
      | [] => True
      end
  | [] => True
  end.

(** A source of random numbers for examples. *)
Definition demoRandom (i : nat) : Q := inject_Z (Z.of_nat (i * 7 mod 16)) / 16.

End Helpers.

(* ===================================================================== *)
(** ** Properties of the numbers *)
(* ===================================================================== *)

Module NumbersProps.
Import Numbers.

Lemma digits2_bounds (m : positive) :
  2 ^ (Zpos (digits2_pos m) - 1) <= Zpos m < 2 ^ Zpos (digits2_pos m).
Proof.
  induction m as [m IH|m IH|]; cbn [digits2_pos].
  - rewrite Pos2Z.inj_succ.
    replace (Z.succ (Zpos (digits2_pos m)) - 1) with (Z.succ (Zpos (digits2_pos m) - 1)) by lia.
    rewrite !Z.pow_succ_r by lia. lia.
  - rewrite Pos2Z.inj_succ.
    replace (Z.succ (Zpos (digits2_pos m)) - 1) with (Z.succ (Zpos (digits2_pos m) - 1)) by lia.
    rewrite !Z.pow_succ_r by lia. lia.
  - cbn. lia.
Qed.

Lemma digits2_unique (m : positive) (d : Z) :
  2 ^ (d - 1) <= Zpos m < 2 ^ d -> Zpos (digits2_pos m) = d.
Proof.
  intros [Hlo Hhi]. pose proof (digits2_bounds m) as [Hlo' Hhi'].
  assert (0 < d).
  { destruct (Z.ltb_spec 0 d); [assumption|].
    exfalso. destruct (Z.eq_dec d 0) as [->|]; [cbn in Hhi; lia|].
    rewrite Z.pow_neg_r in Hhi by lia. lia. }
  destruct (Z.lt_trichotomy (Zpos (digits2_pos m)) d) as [Hlt|[Heq|Hgt]]; [|exact Heq|].
  - exfalso. assert (2 ^ Zpos (digits2_pos m) <= 2 ^ (d - 1)) by (apply Z.pow_le_mono_r; lia). lia.
  - exfalso. assert (2 ^ d <= 2 ^ (Zpos (digits2_pos m) - 1)) by (apply Z.pow_le_mono_r; lia). lia.
Qed.

Lemma iter_xO (m d : positive) : Zpos (Pos.iter xO m d) = Zpos m * 2 ^ Zpos d.
Proof.
  change (Pos.iter xO m d) with (shift_pos d m).
  rewrite shift_pos_correct, Z.pow_pos_fold. lia.
Qed.

Lemma digits_iter_xO (m d : positive) :
  Zpos (digits2_pos (Pos.iter xO m d)) = Zpos (digits2_pos m) + Zpos d.
Proof.
  apply digits2_unique. rewrite iter_xO.
  pose proof (digits2_bounds m) as [Hlo Hhi].
  replace (Zpos (digits2_pos m) + Zpos d - 1) with ((Zpos (digits2_pos m) - 1) + Zpos d) by lia.
  rewrite !Z.pow_add_r by lia.
  assert (0 < 2 ^ Zpos d) by (apply Z.pow_pos_nonneg; lia).
  split; nia.
Qed.

(** A mantissa of 53 digits with an exponent in range is what rounding returns. *)
Lemma binary_round_aux_normal (s : bool) (m : positive) (e : Z) :
  Zpos (digits2_pos m) = 53 -> -1074 <= e <= 971 ->
  binary_round_aux 53 1024 s (Zpos m) e loc_Exact = S754_finite s m e.
Proof.
  intros Hd He. unfold binary_round_aux, shr_fexp, fexp, emin.
  cbn [Zdigits2 shr_record_of_loc]. rewrite Hd.
  replace (Z.max (53 + e - 53) (3 - 1024 - 53) - e) with 0 by lia.
  cbn [shr shr_m loc_of_shr_record round_nearest_even Zdigits2]. rewrite Hd.
  replace (Z.max (53 + e - 53) (3 - 1024 - 53) - e) with 0 by lia.
  cbn [shr shr_m].
  destruct (Z.leb_spec e (1024 - 53)); [reflexivity|lia].
Qed.

Lemma binary_round_small (s : bool) (m : positive) (e : Z) :
  Zpos (digits2_pos m) <= 53 -> -1074 <= Zpos (digits2_pos m) + e - 53 <= 971 ->
  binary_round 53 1024 s m e =
  match 53 - Zpos (digits2_pos m) with
  | Zpos k => S754_finite s (Pos.iter xO m k) (Zpos (digits2_pos m) + e - 53)
  | _ => S754_finite s m (Zpos (digits2_pos m) + e - 53)
  end.
Proof.
  intros Hd He. unfold binary_round, shl_align, fexp, emin.
  replace (Z.max (Zpos (digits2_pos m) + e - 53) (3 - 1024 - 53))
    with (Zpos (digits2_pos m) + e - 53) by lia.
  replace (Zpos (digits2_pos m) + e - 53 - e) with (- (53 - Zpos (digits2_pos m))) by lia.
  destruct (53 - Zpos (digits2_pos m)) as [|k|k] eqn:Ek; cbn [Z.opp].
  - replace (Zpos (digits2_pos m) + e - 53) with e by lia.
    apply binary_round_aux_normal; lia.
  - apply binary_round_aux_normal; [|lia].
    rewrite digits_iter_xO. lia.
  - lia.
Qed.
Lemma SFleb_trans (x y z : spec_float) :
  SFleb x y = true -> SFleb y z = true -> SFleb x z = true.
Proof.
  unfold SFleb, SFcompare.
  destruct x as [sx|sx| |sx mx ex], y as [sy|sy| |sy my ey], z as [sz|sz| |sz mz ez];
    try discriminate; try reflexivity;
    repeat match goal with
           | s : bool |- _ => destruct s
           end; try discriminate; try reflexivity;
    repeat match goal with
           | |- context [PosDef.Pos.compare_cont Eq ?a ?b] =>
               change (PosDef.Pos.compare_cont Eq a b) with (Pos.compare a b)
           end;
    repeat match goal with
           | |- context [Z.compare ?a ?b] => destruct (Z.compare_spec a b)
           | |- context [Pos.compare ?a ?b] => destruct (Pos.compare_spec a b)
           end; cbn; try discriminate; try reflexivity; intros; exfalso; subst; lia.
Qed.

Lemma digits_le_53 (m : positive) : Zpos m < 2 ^ 53 -> Zpos (digits2_pos m) <= 53.
Proof.
  intros H. pose proof (digits2_bounds m) as [Hlo _].
  destruct (Z.leb_spec (Zpos (digits2_pos m)) 53) as [|Hgt]; [assumption|].
  assert (2 ^ 53 <= 2 ^ (Zpos (digits2_pos m) - 1)) by (apply Z.pow_le_mono_r; lia).
  lia.
Qed.

(** The double of a non-zero integer of magnitude below 2^53: its
    mantissa is the magnitude shifted to 53 digits. *)
Lemma binary_round_integer (s : bool) (m : positive) :
  Zpos m < 2 ^ 53 ->
  exists M, binary_round 53 1024 s m 0 = S754_finite s M (Zpos (digits2_pos m) - 53) /\
            Zpos M = Zpos m * 2 ^ (53 - Zpos (digits2_pos m)).
Proof.
  intros H. pose proof (digits_le_53 m H) as Hd.
  pose proof (Pos2Z.is_pos (digits2_pos m)) as Hd0.
  rewrite binary_round_small by lia.
  replace (Zpos (digits2_pos m) + 0 - 53) with (Zpos (digits2_pos m) - 53) by lia.
  destruct (53 - Zpos (digits2_pos m)) as [|k|k] eqn:Ek.
  - exists m. split; [reflexivity|]. cbn. lia.
  - exists (Pos.iter xO m k). split; [reflexivity|]. apply iter_xO.
  - lia.
Qed.

Lemma compare_integers (m1 m2 M1 M2 : positive) :
  Zpos m1 < 2 ^ 53 -> Zpos m2 < 2 ^ 53 ->
  Zpos M1 = Zpos m1 * 2 ^ (53 - Zpos (digits2_pos m1)) ->
  Zpos M2 = Zpos m2 * 2 ^ (53 - Zpos (digits2_pos m2)) ->
  match Zpos (digits2_pos m1) - 53 ?= Zpos (digits2_pos m2) - 53 with
  | Lt => Lt
  | Gt => Gt
  | Eq => Pos.compare_cont Eq M1 M2
  end = (Zpos m1 ?= Zpos m2).
Proof.
  intros H1 H2 E1 E2.
  pose proof (digits2_bounds m1) as [Hlo1 Hhi1].
  pose proof (digits2_bounds m2) as [Hlo2 Hhi2].
  set (d1 := Zpos (digits2_pos m1)) in *. set (d2 := Zpos (digits2_pos m2)) in *.
  assert (0 < d1) by (unfold d1; lia). assert (0 < d2) by (unfold d2; lia).
  destruct (Z.compare_spec (d1 - 53) (d2 - 53)) as [Heq|Hlt|Hgt].
  - assert (Hd : d1 = d2) by lia.
    change (Pos.compare_cont Eq M1 M2) with (Zpos M1 ?= Zpos M2).
    rewrite E1, E2, Hd. symmetry. apply Zmult_compare_compat_r.
    pose proof (digits_le_53 m2 H2) as Hle. fold d2 in Hle.
    assert (0 < 2 ^ (53 - d2)) by (apply Z.pow_pos_nonneg; lia). lia.
  - symmetry. apply Z.compare_lt_iff.
    assert (2 ^ d1 <= 2 ^ (d2 - 1)) by (apply Z.pow_le_mono_r; lia). lia.
  - symmetry. apply Z.compare_gt_iff.
    assert (2 ^ d2 <= 2 ^ (d1 - 1)) by (apply Z.pow_le_mono_r; lia). lia.
Qed.

(** On integers of magnitude below 2^53 the comparison of doubles is
    the comparison of integers. *)
Lemma SFcompare_numberOfZ (a b : Z) :
  Z.abs a < 2 ^ 53 -> Z.abs b < 2 ^ 53 ->
  SFcompare (numberOfZ a) (numberOfZ b) = Some (a ?= b).
Proof.
  intros Ha Hb. unfold numberOfZ, binary_normalize.
  destruct a as [|ma|ma], b as [|mb|mb]; try reflexivity;
    repeat match goal with
           | |- context [binary_round 53 1024 ?s ?m 0] =>
               let M := fresh "M" in
               let E := fresh "E" in
               let V := fresh "V" in
               destruct (binary_round_integer s m) as (M & E & V);
               [cbn in Ha, Hb; lia|rewrite E; clear E]
           end; cbn [SFcompare]; try reflexivity.
  - f_equal. apply compare_integers; cbn in Ha, Hb; try lia; assumption.
  - f_equal.
    pose proof (compare_integers ma mb M M0) as H.
    cbn in Ha, Hb. specialize (H ltac:(lia) ltac:(lia) V V0).
    change (Z.neg ma ?= Z.neg mb) with (CompOpp (Zpos ma ?= Zpos mb)).
    rewrite <- H.
    now destruct (Zpos (digits2_pos ma) - 53 ?= Zpos (digits2_pos mb) - 53).
Qed.

Lemma SFleb_numberOfZ (a b : Z) :
  Z.abs a < 2 ^ 53 -> Z.abs b < 2 ^ 53 ->
  SFleb (numberOfZ a) (numberOfZ b) = (a <=? b).
Proof.
  intros Ha Hb. unfold SFleb. rewrite SFcompare_numberOfZ by assumption.
  unfold Z.leb. now destruct (a ?= b).
Qed.

(** Shifting out zeros loses nothing. *)
Lemma shr_zeros (p q : positive) :
  SpecFloat.iter_pos shr_1 p (Build_shr_record (Zpos (Pos.iter xO q p)) false false) =
  Build_shr_record (Zpos q) false false.
Proof.
  revert q. induction p as [p IH|p IH|]; intros q; cbn [SpecFloat.iter_pos Pos.iter].
  - change (shr_1 {| shr_m := Zpos (Pos.iter xO (Pos.iter xO q p) p)~0;
                     shr_r := false; shr_s := false |})
      with {| shr_m := Zpos (Pos.iter xO (Pos.iter xO q p) p);
              shr_r := false; shr_s := false |}.
    now rewrite IH, IH.
  - now rewrite IH, IH.
  - reflexivity.
Qed.

Lemma binary_round_aux_shifted (s : bool) (q p : positive) (e : Z) :
  Zpos (digits2_pos q) = 53 -> -1074 <= e + Zpos p <= 971 ->
  binary_round_aux 53 1024 s (Zpos (Pos.iter xO q p)) e loc_Exact =
  S754_finite s q (e + Zpos p).
Proof.
  intros Hd He. unfold binary_round_aux, shr_fexp, fexp, emin.
  cbn [Zdigits2 shr_record_of_loc]. rewrite digits_iter_xO, Hd.
  replace (Z.max (53 + Zpos p + e - 53) (3 - 1024 - 53) - e) with (Zpos p) by lia.
  cbn [shr]. rewrite shr_zeros.
  cbn [shr_m loc_of_shr_record round_nearest_even Zdigits2]. rewrite Hd.
  replace (Z.max (53 + (e + Zpos p) - 53) (3 - 1024 - 53) - (e + Zpos p)) with 0 by lia.
  cbn [shr shr_m].
  destruct (Z.leb_spec (e + Zpos p) (1024 - 53)); [reflexivity|lia].
Qed.

Lemma Zpos_inj_iff (a b : positive) : Zpos a = Zpos b -> a = b.
Proof. now intros [=]. Qed.

(** A positive integer below 2^53, written with a mantissa and a
    negative exponent, rounds to the double of that integer. *)
Lemma binary_round_exact (s : bool) (M mz : positive) (k : positive) :
  Zpos mz < 2 ^ 53 -> M = Pos.iter xO mz k -> Zpos k <= 1074 ->
  binary_round 53 1024 s M (Zneg k) = binary_round 53 1024 s mz 0.
Proof.
  intros Hz -> Hk.
  pose proof (digits_le_53 mz Hz) as Hd.
  pose proof (Pos2Z.is_pos (digits2_pos mz)) as Hd0.
  rewrite (binary_round_small s mz 0) by lia.
  unfold binary_round, shl_align, fexp, emin.
  rewrite digits_iter_xO.
  replace (Z.max (Zpos (digits2_pos mz) + Zpos k + Zneg k - 53) (3 - 1024 - 53))
    with (Zpos (digits2_pos mz) - 53) by lia.
  replace (Zpos (digits2_pos mz) + 0 - 53) with (Zpos (digits2_pos mz) - 53) by lia.
  destruct (Zpos (digits2_pos mz) - 53 - Zneg k) as [|j|j] eqn:Ej.
  - (* the mantissa has 53 digits as it is *)
    rewrite binary_round_aux_normal; [|rewrite digits_iter_xO; lia|lia].
    destruct (53 - Zpos (digits2_pos mz)) as [|k'|k'] eqn:Ek; try lia.
    assert (k' = k) by lia. subst k'. f_equal. lia.
  - (* more than 53 digits: the zeros at the end are shifted out *)
    destruct (53 - Zpos (digits2_pos mz)) as [|k'|k'] eqn:Ek; try lia.
    + assert (j = k) by lia. subst j.
      rewrite binary_round_aux_shifted; [f_equal; lia|lia|lia].
    + assert (Hsplit : Pos.iter xO mz k = Pos.iter xO (Pos.iter xO mz k') j).
      { apply Zpos_inj_iff. rewrite !iter_xO, <- Z.mul_assoc, <- Z.pow_add_r by lia.
        f_equal. f_equal. lia. }
      rewrite Hsplit.
      rewrite binary_round_aux_shifted; [f_equal; lia|rewrite digits_iter_xO; lia|lia].
  - (* fewer than 53 digits: zeros are added *)
    destruct (53 - Zpos (digits2_pos mz)) as [|k'|k'] eqn:Ek; try lia.
    rewrite binary_round_aux_normal; [|rewrite !digits_iter_xO; lia|lia].
    f_equal. apply Zpos_inj_iff. rewrite !iter_xO, <- Z.mul_assoc, <- Z.pow_add_r by lia.
    f_equal. f_equal. lia.
Qed.

Lemma shl_align_value (m : positive) (ex ex' : Z) :
  ex' <= ex -> Zpos (fst (shl_align m ex ex')) = Zpos m * 2 ^ (ex - ex').
Proof.
  intros H. unfold shl_align. destruct (ex' - ex) as [|d|d] eqn:E; cbn [fst]; try lia.
  - replace (ex - ex') with 0 by lia. cbn. lia.
  - rewrite iter_xO. f_equal. f_equal. lia.
Qed.

(** The double of a non-zero integer, with the integer it stands for. *)
Lemma numberOfZ_nonzero (a : Z) :
  a <> 0 -> Z.abs a < 2 ^ 53 ->
  exists s M e,
    numberOfZ a = S754_finite s M e /\ -52 <= e <= 0 /\
    cond_Zopp s (Zpos M) = a * 2 ^ (- e).
Proof.
  intros Hnz Ha. unfold numberOfZ, binary_normalize.
  destruct a as [|m|m]; [congruence| |].
  - destruct (binary_round_integer false m) as (M & E & V); [cbn in Ha; lia|].
    pose proof (digits_le_53 m ltac:(cbn in Ha; lia)) as Hd.
    pose proof (Pos2Z.is_pos (digits2_pos m)) as Hd0.
    exists false, M, (Zpos (digits2_pos m) - 53). split; [exact E|]. split; [lia|].
    cbn [cond_Zopp]. rewrite V. f_equal. f_equal. lia.
  - destruct (binary_round_integer true m) as (M & E & V); [cbn in Ha; lia|].
    pose proof (digits_le_53 m ltac:(cbn in Ha; lia)) as Hd.
    pose proof (Pos2Z.is_pos (digits2_pos m)) as Hd0.
    exists true, M, (Zpos (digits2_pos m) - 53). split; [exact E|]. split; [lia|].
    cbn [cond_Zopp]. rewrite V.
    replace (- (Zpos (digits2_pos m) - 53)) with (53 - Zpos (digits2_pos m)) by lia.
    lia.
Qed.

Lemma binary_normalize_scaled (z : Z) (e : Z) :
  Z.abs z < 2 ^ 53 -> -1074 <= e <= 0 ->
  binary_normalize 53 1024 (z * 2 ^ (- e)) e false = numberOfZ z.
Proof.
  intros Hz He. unfold numberOfZ.
  destruct e as [|k|k]; [|lia|].
  - change (- 0) with 0. rewrite Z.pow_0_r, Z.mul_1_r. reflexivity.
  - change (- Z.neg k) with (Z.pos k). assert (Hp : 0 < 2 ^ Zpos k) by (apply Z.pow_pos_nonneg; lia).
    destruct z as [|mz|mz].
    + reflexivity.
    + unfold binary_normalize.
      destruct (Zpos mz * 2 ^ Zpos k) as [|M|M] eqn:EM; try lia.
      apply binary_round_exact; [cbn in Hz; lia| |lia].
      apply Zpos_inj_iff. rewrite iter_xO. lia.
    + unfold binary_normalize.
      destruct (Zneg mz * 2 ^ Zpos k) as [|M|M] eqn:EM; try lia.
      apply binary_round_exact; [cbn in Hz; lia| |lia].
      apply Zpos_inj_iff. rewrite iter_xO. lia.
Qed.

(** Adding the doubles of two integers is exact as long as the operands and
    the sum stay below 2^53 in magnitude. *)
Lemma SFadd_numberOfZ (a b : Z) :
  Z.abs a < 2 ^ 53 -> Z.abs b < 2 ^ 53 -> Z.abs (a + b) < 2 ^ 53 ->
  SFadd 53 1024 (numberOfZ a) (numberOfZ b) = numberOfZ (a + b).
Proof.
  intros Ha Hb Hab.
  destruct (Z.eq_dec a 0) as [->|Hna].
  { rewrite Z.add_0_l. destruct (Z.eq_dec b 0) as [->|Hnb]; [reflexivity|].
    destruct (numberOfZ_nonzero b Hnb Hb) as (s & M & e & -> & _). reflexivity. }
  destruct (Z.eq_dec b 0) as [->|Hnb].
  { rewrite Z.add_0_r. destruct (numberOfZ_nonzero a Hna Ha) as (s & M & e & -> & _).
    reflexivity. }
  destruct (numberOfZ_nonzero a Hna Ha) as (sa & Ma & ea & Ea & Hea & Va).
  destruct (numberOfZ_nonzero b Hnb Hb) as (sb & Mb & eb & Eb & Heb & Vb).
  rewrite Ea, Eb. cbn [SFadd].
  set (ez := Z.min ea eb).
  rewrite <- (binary_normalize_scaled (a + b) ez) by (subst ez; lia).
  f_equal.
  assert (Hs : forall s m k, cond_Zopp s (Zpos m) * k = cond_Zopp s (Zpos m * k))
    by (intros [] m k; cbn [cond_Zopp]; lia).
  assert (Hc : forall s m, cond_Zopp s (Zpos m) = cond_Zopp s 1 * Zpos m)
    by (intros [] m; cbn [cond_Zopp]; lia).
  rewrite (Hc sa (fst _)), (Hc sb (fst _)).
  rewrite !shl_align_value by (subst ez; lia).
  rewrite !Z.mul_assoc, <- !Hc, Va, Vb.
  rewrite <- !Z.mul_assoc, <- !Z.pow_add_r by (subst ez; lia).
  replace (- ea + (ea - ez)) with (- ez) by lia.
  replace (- eb + (eb - ez)) with (- ez) by lia. lia.
Qed.

(** The exact value of the double of an integer below 2^53 in
    magnitude is that integer. *)
Lemma atMost_numberOfZ (z a : Z) :
  Z.abs a < 2 ^ 53 -> (atMost z (numberOfZ a) <-> z <= a).
Proof.
  intros Ha. destruct (Z.eq_dec a 0) as [->|Hna]; [reflexivity|].
  destruct (numberOfZ_nonzero a Hna Ha) as (s & M & e & -> & He & V).
  cbn [atMost]. rewrite V.
  assert (Hq : (inject_Z (a * 2 ^ (- e)) * Qpower 2 e == inject_Z a)%Q).
  { rewrite inject_Z_mult, Zpower_Qpower by lia.
    change (inject_Z 2) with 2%Q.
    rewrite <- Qmult_assoc, <- Qpower_plus by discriminate.
    replace (- e + e) with 0 by lia. cbn [Qpower]. apply Qmult_1_r. }
  rewrite Hq, <- Zle_Qle. reflexivity.
Qed.

End NumbersProps.

(* ===================================================================== *)
(** ** Properties of the replay scheduler *)
(* ===================================================================== *)

Module ReplayProps.
Import Artifact Numbers Replay.

Local Open Scope Q_scope.

(** *** What the controller's operations leave alone *)

Lemma cancelNextTimer_frame (r : Replayer) :
  session (cancelNextTimer r) = session r /\
  optLoop (cancelNextTimer r) = optLoop r /\
  isPlaying (cancelNextTimer r) = isPlaying r /\
  getCurrentIndex (cancelNextTimer r) = getCurrentIndex r /\
  getSpeed (cancelNextTimer r) = getSpeed r /\
  now (cancelNextTimer r) = now r /\
  delivered (cancelNextTimer r) = delivered r /\
  nextTimer (controller (cancelNextTimer r)) = None.
Proof.
  unfold cancelNextTimer, isPlaying, getCurrentIndex, getSpeed.
  destruct (nextTimer (controller r)) eqn:E; cbn; auto 10.
Qed.

Lemma controller_stop_frame (r : Replayer) :
  session (ReplayController.stop r) = session r /\
  optLoop (ReplayController.stop r) = optLoop r /\
  isPlaying (ReplayController.stop r) = false /\
  getCurrentIndex (ReplayController.stop r) = 0%nat /\
  getSpeed (ReplayController.stop r) = getSpeed r /\
  now (ReplayController.stop r) = now r /\
  delivered (ReplayController.stop r) = delivered r /\
  nextTimer (controller (ReplayController.stop r)) = None.
Proof.
  unfold ReplayController.stop.
  destruct (cancelNextTimer_frame
              (withController
                 (fun c => mkController false 0 (speed c) (nextTimer c)) r))
    as (-> & -> & -> & -> & -> & -> & -> & ->).
  cbn. auto 10.
Qed.

(** *** One call of [processNextEvent], case by case *)

Lemma processNextEvent_idle (fuel : nat) (r : Replayer) :
  session r = None \/ isPlaying r = false ->
  processNextEvent (S fuel) r = Some r.
Proof.
  intros H. cbn [processNextEvent].
  destruct (session r); [|reflexivity].
  destruct H as [H|H]; [discriminate|]. now rewrite H.
Qed.

Lemma processNextEvent_end (fuel : nat) (r : Replayer) (s : RecordingSession JsDate) :
  session r = Some s -> isPlaying r = true ->
  (length (events s) <= getCurrentIndex r)%nat ->
  processNextEvent (S (S fuel)) r =
  Some (if optLoop r then ReplayController.reset r else ReplayController.complete r).
Proof.
  intros Hs Hp Hlen.
  change (processNextEvent (S (S fuel)) r) with
    (match session r with
     | None => Some r
     | Some s =>
         if negb (isPlaying r) then Some r
         else if (length (events s) <=? getCurrentIndex r)%nat then
                if optLoop r then processNextEvent (S fuel) (ReplayController.reset r)
                else Some (ReplayController.complete r)
              else
                match events s !! getCurrentIndex r with
                | None => Some r
                | Some currentEvent =>
                    let r1 := deliver currentEvent r in
                    match events s !! S (getCurrentIndex r) with
                    | Some nextEvent =>
                        Some (scheduleNext
                                (calculateDelay r1 currentEvent nextEvent) r1)
                    | None => processNextEvent (S fuel) (incrementIndex r1)
                    end
                end
     end).
  rewrite Hs, Hp. cbn [negb].
  apply Nat.leb_le in Hlen. rewrite Hlen.
  destruct (optLoop r); [|reflexivity].
  apply processNextEvent_idle. right. unfold ReplayController.reset. apply controller_stop_frame.
Qed.

Lemma processNextEvent_mid (fuel : nat) (r : Replayer) (s : RecordingSession JsDate)
      (e e' : SessionEvent JsDate) :
  session r = Some s -> isPlaying r = true ->
  events s !! getCurrentIndex r = Some e ->
  events s !! S (getCurrentIndex r) = Some e' ->
  processNextEvent (S fuel) r =
  Some (scheduleNext (calculateDelay r e e') (deliver e r)).
Proof.
  intros Hs Hp He He'. cbn [processNextEvent].
  rewrite Hs, Hp. cbn [negb].
  assert (Hlt : (getCurrentIndex r < length (events s))%nat)
    by (eapply lookup_lt_Some; eauto).
  apply Nat.leb_gt in Hlt. rewrite Hlt, He, He'. reflexivity.
Qed.

Lemma processNextEvent_last (r : Replayer) (s : RecordingSession JsDate)
      (e : SessionEvent JsDate) :
  session r = Some s -> isPlaying r = true ->
  events s !! getCurrentIndex r = Some e ->
  events s !! S (getCurrentIndex r) = None ->
  processNextEvent enoughFuel r =
  Some (let r1 := incrementIndex (deliver e r) in
        if optLoop r then ReplayController.reset r1 else ReplayController.complete r1).
Proof.
  intros Hs Hp He He'. unfold enoughFuel.
  change (processNextEvent 3 r) with
    (match session r with
     | None => Some r
     | Some s =>
         if negb (isPlaying r) then Some r
         else if (length (events s) <=? getCurrentIndex r)%nat then
                if optLoop r then processNextEvent 2 (ReplayController.reset r)
                else Some (ReplayController.complete r)
              else
                match events s !! getCurrentIndex r with
                | None => Some r
                | Some currentEvent =>
                    let r1 := deliver currentEvent r in
                    match events s !! S (getCurrentIndex r) with
                    | Some nextEvent =>
                        Some (scheduleNext
                                (calculateDelay r1 currentEvent nextEvent) r1)
                    | None => processNextEvent 2 (incrementIndex r1)
                    end
                end
     end).
  rewrite Hs, Hp. cbn [negb].
  assert (Hlt : (getCurrentIndex r < length (events s))%nat)
    by (eapply lookup_lt_Some; eauto).
  apply Nat.leb_gt in Hlt. rewrite Hlt, He, He'. cbv zeta.
  apply lookup_ge_None in He'.
  exact (processNextEvent_end 0 (incrementIndex (deliver e r)) s Hs Hp He').
Qed.

(** Every call of [processNextEvent] returns: the recursion is at most
    three deep (deliver the last event, move past it, restart or
    complete). *)
Lemma processNextEvent_total (r : Replayer) :
  exists r', processNextEvent enoughFuel r = Some r'.
Proof.
  destruct (session r) as [s|] eqn:Hs;
    [|eexists; apply processNextEvent_idle; now left].
  destruct (isPlaying r) eqn:Hp;
    [|eexists; apply processNextEvent_idle; now right].
  destruct (le_lt_dec (length (events s)) (getCurrentIndex r)) as [Hge|Hlt].
  - eexists. now apply (processNextEvent_end 1 _ s).
  - destruct (lookup_lt_is_Some_2 _ _ Hlt) as [e He].
    destruct (events s !! S (getCurrentIndex r)) as [e'|] eqn:He'.
    + eexists. now apply (processNextEvent_mid 2 _ s e e').
    + eexists. now apply (processNextEvent_last _ s e).
Qed.

(** *** Scheduling the next delivery *)

Lemma scheduleNext_spec (d : option Q) (r : Replayer) :
  session (scheduleNext d r) = session r /\
  optLoop (scheduleNext d r) = optLoop r /\
  isPlaying (scheduleNext d r) = isPlaying r /\
  getCurrentIndex (scheduleNext d r) = getCurrentIndex r /\
  getSpeed (scheduleNext d r) = getSpeed r /\
  now (scheduleNext d r) = now r /\
  delivered (scheduleNext d r) = delivered r /\
  completions (scheduleNext d r) = completions r /\
  nextTimer (controller (scheduleNext d r)) = Some (freshId r) /\
  timers (scheduleNext d r) !! freshId r = Some (mkTimer (now r) d).
Proof.
  unfold scheduleNext, cancelNextTimer, isPlaying, getCurrentIndex, getSpeed.
  destruct (nextTimer (controller r)); cbn; rewrite lookup_insert_eq; auto 12.
Qed.

Lemma calculateDelay_valid (r : Replayer) (e e' : SessionEvent JsDate) (t t' : Z) :
  eventTime e = Some t -> eventTime e' = Some t' -> ~ getSpeed r == 0 ->
  calculateDelay r e e' = Some ((inject_Z t' - inject_Z t) / getSpeed r).
Proof.
  intros He He' Hspd. unfold calculateDelay, js_div. rewrite He, He'.
  destruct (Qeq_bool (getSpeed r) 0) eqn:E; [|reflexivity].
  apply Qeq_bool_iff in E. contradiction.
Qed.

(** Whenever the cursor is on an event during playback,
    [processNextEvent] returns and has delivered exactly that event, at
    the current clock value. *)
Lemma processNextEvent_delivers (r : Replayer) (s : RecordingSession JsDate)
      (e : SessionEvent JsDate) :
  session r = Some s -> isPlaying r = true ->
  events s !! getCurrentIndex r = Some e ->
  exists r', processNextEvent enoughFuel r = Some r' /\
             delivered r' = delivered r ++ [(now r, e)].
Proof.
  intros Hs Hp He.
  destruct (events s !! S (getCurrentIndex r)) as [e'|] eqn:He'.
  - eexists. split; [now apply (processNextEvent_mid _ _ s e e')|].
    now destruct (scheduleNext_spec (calculateDelay r e e') (deliver e r))
      as (_ & _ & _ & _ & _ & _ & -> & _).
  - eexists. split; [now apply (processNextEvent_last _ s e)|].
    cbv zeta. destruct (optLoop r).
    + unfold ReplayController.reset.
      now destruct (controller_stop_frame (incrementIndex (deliver e r)))
        as (_ & _ & _ & _ & _ & _ & -> & _).
    + reflexivity.
Qed.

Lemma Qmax_due (c d : Q) : Qmax c (c + Qmax 0 d) == c + Qmax 0 d.
Proof.
  apply Q.max_r. pose proof (Q.le_max_l 0 d). lra.
Qed.

Lemma delay_to_next_delivery (r : Replayer) (s : RecordingSession JsDate)
      (e e' : SessionEvent JsDate) (t t' : Z) :
  session r = Some s -> isPlaying r = true ->
  events s !! getCurrentIndex r = Some e ->
  events s !! S (getCurrentIndex r) = Some e' ->
  eventTime e = Some t -> eventTime e' = Some t' -> ~ getSpeed r == 0 ->
  exists r' h r'' due,
    processNextEvent enoughFuel r = Some r' /\
    delivered r' = delivered r ++ [(now r, e)] /\
    nextTimer (controller r') = Some h /\
    timers r' !! h =
      Some (mkTimer (now r) (Some ((inject_Z t' - inject_Z t) / getSpeed r))) /\
    fire h r' = Some r'' /\
    due == now r + Qmax 0 ((inject_Z t' - inject_Z t) / getSpeed r) /\
    delivered r'' = delivered r ++ [(now r, e); (due, e')].
Proof.
  intros Hs Hp He He' Ht Ht' Hspd.
  pose proof (processNextEvent_mid 2 r s e e' Hs Hp He He') as Hstep.
  rewrite (calculateDelay_valid _ _ _ _ _ Ht Ht' Hspd) in Hstep.
  set (delay := (inject_Z t' - inject_Z t) / getSpeed r) in *.
  set (r' := scheduleNext (Some delay) (deliver e r)) in *.
  destruct (scheduleNext_spec (Some delay) (deliver e r))
    as (Hs' & _ & Hp' & Hi' & _ & Hn' & Hd' & _ & Hh' & Ht'').
  fold r' in Hs', Hp', Hi', Hn', Hd', Hh', Ht''.
  cbn [deliver session now delivered freshId] in Hs', Hn', Hd', Hh', Ht''.
  set (tm := mkTimer (now r) (Some delay)) in *.
  destruct (processNextEvent_delivers (incrementIndex (expire (freshId r) tm r')) s e')
    as (r'' & Hfire & Hd'').
  { cbn [incrementIndex expire withController session]. now rewrite Hs'. }
  { change (isPlaying (incrementIndex (expire (freshId r) tm r')))
      with (isPlaying r'). now rewrite Hp'. }
  { change (getCurrentIndex (incrementIndex (expire (freshId r) tm r')))
      with (S (getCurrentIndex r')).
    rewrite Hi'. exact He'. }
  exists r', (freshId r), r'', (Qmax (now r) (dueTime tm)).
  repeat split; try assumption.
  - unfold fire. rewrite Ht''. exact Hfire.
  - unfold dueTime, tm. cbn [setAt delayMs effectiveDelay]. apply Qmax_due.
  - rewrite Hd''. cbn [incrementIndex expire withController delivered now].
    rewrite Hd', Hn'. now rewrite <- app_assoc.
Qed.

(** The scenario of the specification: events at 0 ms, 500 ms and
    1500 ms, speed 2.  [play], then the two timeouts in turn. *)
Lemma scenario_speed_two (t0 : Z) (c0 : Q) (s : RecordingSession JsDate)
      (e0 e1 e2 : SessionEvent JsDate) :
  events s = [e0; e1; e2] ->
  eventTime e0 = Some t0 ->
  eventTime e1 = Some (t0 + 500)%Z ->
  eventTime e2 = Some (t0 + 1500)%Z ->
  exists r1 h1 r2 h2 r3,
    play (loadSession s (newReplayer 2 false c0)) = Some r1 /\
    nextTimer (controller r1) = Some h1 /\ fire h1 r1 = Some r2 /\
    nextTimer (controller r2) = Some h2 /\ fire h2 r2 = Some r3 /\
    sameDeliveries (delivered r3) [(c0 + 0, e0); (c0 + 250, e1); (c0 + 750, e2)] /\
    isPlaying r3 = false /\ completions r3 = 1%nat /\ timers r3 = ∅.
Proof.
  intros Hev H0 H1 H2.
  destruct s as [sid st en evs url html]. cbn in Hev. subst evs.
  destruct e0 as [[tv0|] ty0 d0]; [|discriminate].
  destruct e1 as [[tv1|] ty1 d1]; [|discriminate].
  destruct e2 as [[tv2|] ty2 d2]; [|discriminate].
  injection H0 as ->. injection H1 as ->. injection H2 as ->.
  do 5 eexists.
  split; [cbv -[Qmax Qplus Qminus Qdiv inject_Z Z.add]; reflexivity|].
  split; [cbv -[Qmax Qplus Qminus Qdiv inject_Z Z.add]; reflexivity|].
  split; [cbv -[Qmax Qplus Qminus Qdiv inject_Z Z.add]; reflexivity|].
  split; [cbv -[Qmax Qplus Qminus Qdiv inject_Z Z.add]; reflexivity|].
  split; [cbv -[Qmax Qplus Qminus Qdiv inject_Z Z.add]; reflexivity|].
  assert (D1 : Qmax 0 ((inject_Z (t0 + 500) - inject_Z t0) / 2) == 250).
  { assert (E : (inject_Z (t0 + 500) - inject_Z t0) / 2 == 250)
      by (rewrite inject_Z_plus; field).
    rewrite E. apply Q.max_r. discriminate. }
  assert (D2 : Qmax 0 ((inject_Z (t0 + 1500) - inject_Z (t0 + 500)) / 2) == 500).
  { assert (E : (inject_Z (t0 + 1500) - inject_Z (t0 + 500)) / 2 == 500)
      by (rewrite !inject_Z_plus; field).
    rewrite E. apply Q.max_r. discriminate. }
  split.
  { cbv -[Qmax Qplus Qminus Qdiv inject_Z Z.add Qeq].
    repeat constructor; cbv beta iota.
    - ring.
    - rewrite Qmax_due, D1. reflexivity.
    - rewrite !Qmax_due, D1, D2. ring. }
  repeat split; cbv -[Qmax Qplus Qminus Qdiv inject_Z Z.add]; reflexivity.
Qed.


(** *** The speed multiplier *)

Lemma processNextEvent_speed (fuel : nat) (r r' : Replayer) :
  processNextEvent fuel r = Some r' -> getSpeed r' = getSpeed r.
Proof.
  revert r r'. induction fuel as [|fuel IH]; intros r r' H; [discriminate|].
  cbn [processNextEvent] in H.
  destruct (session r) as [s|]; [|now injection H as <-].
  destruct (negb (isPlaying r)); [now injection H as <-|].
  destruct (length (events s) <=? getCurrentIndex r)%nat.
  - destruct (optLoop r).
    + apply IH in H. rewrite H. unfold ReplayController.reset. apply controller_stop_frame.
    + now injection H as <-.
  - destruct (events s !! getCurrentIndex r) as [e|]; [|now injection H as <-].
    destruct (events s !! S (getCurrentIndex r)) as [e'|].
    + injection H as <-.
      now destruct (scheduleNext_spec (calculateDelay (deliver e r) e e')
                                      (deliver e r)) as (_ & _ & _ & _ & -> & _).
    + apply IH in H. now rewrite H.
Qed.

Lemma play_speed (r r' : Replayer) : play r = Some r' -> getSpeed r' = getSpeed r.
Proof.
  unfold play. destruct (session r); [|now intros [= <-]].
  destruct (isPlaying r); [now intros [= <-]|].
  intros H. now apply processNextEvent_speed in H.
Qed.

Lemma stop_speed (r : Replayer) : getSpeed (stop r) = getSpeed r.
Proof. unfold stop. apply controller_stop_frame. Qed.

Lemma pause_speed (r : Replayer) : getSpeed (pause r) = getSpeed r.
Proof.
  unfold pause, ReplayController.pause.
  now destruct (cancelNextTimer_frame
                  (withController
                     (fun c => mkController false (currentIndex c) (speed c) (nextTimer c)) r))
    as (_ & _ & _ & _ & -> & _).
Qed.

Lemma loadSession_speed (s : RecordingSession JsDate) (r : Replayer) :
  getSpeed (loadSession s r) = getSpeed r.
Proof.
  unfold loadSession, ReplayController.reset.
  match goal with |- getSpeed (ReplayController.stop ?x) = _ =>
    destruct (controller_stop_frame x) as (_ & _ & _ & _ & -> & _) end.
  change (getSpeed (stop r) = getSpeed r). apply stop_speed.
Qed.

Lemma seekTo_speed (ms : spec_float) (r r' : Replayer) :
  seekTo ms r = Some r' -> getSpeed r' = getSpeed r.
Proof.
  unfold seekTo. destruct (session r) as [s|]; [|now intros [= <-]].
  destruct (isPlaying r).
  - intros H. apply play_speed in H. rewrite H.
    change (getSpeed (stop r) = getSpeed r). apply stop_speed.
  - intros [= <-]. change (getSpeed (stop r) = getSpeed r). apply stop_speed.
Qed.

Lemma fire_speed (h : positive) (r r' : Replayer) :
  fire h r = Some r' -> getSpeed r' = getSpeed r.
Proof.
  unfold fire. destruct (timers r !! h) as [t|]; [|discriminate].
  intros H. now apply processNextEvent_speed in H.
Qed.

(** Only [setSpeed] changes the speed, and it stores its argument as
    it is. *)
Lemma applyOp_speed (op : Op) (r : Replayer) :
  getSpeed (applyOp op r) =
  match op with OpSetSpeed factor => factor | _ => getSpeed r end.
Proof.
  destruct op; cbn [applyOp].
  - apply loadSession_speed.
  - destruct (play r) eqn:E; cbn; [now apply play_speed|reflexivity].
  - apply pause_speed.
  - apply stop_speed.
  - destruct (seekTo timeInMs r) eqn:E; cbn; [now apply seekTo_speed in E|reflexivity].
  - reflexivity.
  - destruct (fire h r) eqn:E; cbn; [now apply fire_speed in E|reflexivity].
  - reflexivity.
Qed.

Lemma run_speed_positive (ops : list Op) (r : Replayer) :
  0 < getSpeed r -> Forall (fun f => 0 < f) (speedFactors ops) ->
  0 < getSpeed (run ops r).
Proof.
  revert r. induction ops as [|op ops IH]; intros r Hr Hops; [exact Hr|].
  cbn [run fold_left]. apply IH.
  - rewrite applyOp_speed. destruct op; try exact Hr.
    cbn in Hops. now apply Forall_cons in Hops as [Hf _].
  - destruct op; try exact Hops.
    cbn in Hops. now apply Forall_cons in Hops as [_ Hrest].
Qed.

(** *** A change of speed and the deliveries already scheduled *)

Ltac agree_destruct a b H :=
  destruct a as [sa la [pa ia spa na] ca ta fa da ka];
  destruct b as [sb lb [pb ib spb nb] cb tb fb db kb];
  unfold agreeUpToSpeed, isPlaying, getCurrentIndex in H; cbn in H;
  destruct H as (-> & -> & -> & -> & -> & -> & -> & -> & -> & H).

Ltac agree_solve :=
  unfold agreeUpToSpeed, isPlaying, getCurrentIndex; cbn;
  repeat split; try reflexivity; try assumption.

Lemma agree_cancelNextTimer (a b : Replayer) :
  agreeUpToSpeed a b -> agreeUpToSpeed (cancelNextTimer a) (cancelNextTimer b).
Proof.
  intros H. agree_destruct a b H. unfold cancelNextTimer. cbn.
  destruct nb; agree_solve. rewrite !dom_delete_L. now rewrite H.
Qed.

Lemma agree_controller_stop (a b : Replayer) :
  agreeUpToSpeed a b -> agreeUpToSpeed (ReplayController.stop a) (ReplayController.stop b).
Proof.
  intros H. unfold ReplayController.stop. apply agree_cancelNextTimer.
  agree_destruct a b H. agree_solve.
Qed.

Lemma agree_controller_complete (a b : Replayer) :
  agreeUpToSpeed a b -> agreeUpToSpeed (ReplayController.complete a) (ReplayController.complete b).
Proof. intros H. agree_destruct a b H. agree_solve. Qed.

Lemma agree_deliver (e : SessionEvent JsDate) (a b : Replayer) :
  agreeUpToSpeed a b -> agreeUpToSpeed (deliver e a) (deliver e b).
Proof. intros H. agree_destruct a b H. agree_solve. Qed.

Lemma agree_incrementIndex (a b : Replayer) :
  agreeUpToSpeed a b -> agreeUpToSpeed (incrementIndex a) (incrementIndex b).
Proof. intros H. agree_destruct a b H. agree_solve. Qed.

Lemma agree_scheduleNext (d d' : option Q) (a b : Replayer) :
  agreeUpToSpeed a b -> agreeUpToSpeed (scheduleNext d a) (scheduleNext d' b).
Proof.
  intros H. apply agree_cancelNextTimer in H.
  unfold scheduleNext.
  set (a1 := cancelNextTimer a) in *. set (b1 := cancelNextTimer b) in *.
  clearbody a1 b1. agree_destruct a1 b1 H. agree_solve.
  rewrite !dom_insert_L. now rewrite H.
Qed.

Lemma agree_processNextEvent (fuel : nat) (a b a' : Replayer) :
  agreeUpToSpeed a b -> processNextEvent fuel a = Some a' ->
  exists b', processNextEvent fuel b = Some b' /\ agreeUpToSpeed a' b'.
Proof.
  revert a b a'. induction fuel as [|fuel IH]; intros a b a' Hab H; [discriminate|].
  cbn [processNextEvent] in *.
  pose proof Hab as (Hs & Hl & Hp & Hi & _).
  rewrite <- Hs, <- Hp, <- Hi, <- Hl.
  destruct (session a) as [s|]; [|injection H as <-; eauto].
  destruct (negb (isPlaying a)); [injection H as <-; eauto|].
  destruct (length (events s) <=? getCurrentIndex a)%nat.
  - destruct (optLoop a).
    + eapply IH; [|exact H]. now apply agree_controller_stop.
    + injection H as <-. eexists. split; [reflexivity|]. now apply agree_controller_complete.
  - destruct (events s !! getCurrentIndex a) as [e|]; [|injection H as <-; eauto].
    destruct (events s !! S (getCurrentIndex a)) as [e'|].
    + injection H as <-. eexists. split; [reflexivity|].
      now apply agree_scheduleNext, agree_deliver.
    + eapply IH; [|exact H]. now apply agree_incrementIndex, agree_deliver.
Qed.

Lemma agree_setSpeed (factor : Q) (r : Replayer) :
  agreeUpToSpeed r (setSpeed factor r).
Proof. destruct r as [? ? [? ? ? ?] ? ? ? ? ?]. agree_solve. Qed.

(** C8.  [setSpeed(factor)] during playback stores the new divisor and
    touches nothing else: the timer table and the handle of the pending
    timeout are as before, so the pending timeout is neither cancelled nor
    recomputed.  When the timeout [h] scheduled before the call fires, it
    does so at the clock value and with the deliveries it would have had
    without the call; the delay computed during that firing, for the
    delivery after it, is divided by the new factor. *)
Theorem setSpeed_affects_only_later_delays
        (factor : Q) (r : Replayer) (h : positive) (tm : Timer) :
  timers r !! h = Some tm ->
  getSpeed (setSpeed factor r) = factor /\
  timers (setSpeed factor r) = timers r /\
  nextTimer (controller (setSpeed factor r)) = nextTimer (controller r) /\
  timers (setSpeed factor r) !! h = Some tm /\
  exists r1 r2,
    fire h r = Some r1 /\ fire h (setSpeed factor r) = Some r2 /\
    now r2 = Qmax (now r) (dueTime tm) /\ now r2 = now r1 /\
    delivered r2 = delivered r1 /\
    forall s e e' t t',
      session r = Some s -> isPlaying r = true ->
      events s !! S (getCurrentIndex r) = Some e ->
      events s !! S (S (getCurrentIndex r)) = Some e' ->
      eventTime e = Some t -> eventTime e' = Some t' -> ~ factor == 0 ->
      exists h',
        nextTimer (controller r2) = Some h' /\
        timers r2 !! h' =
          Some (mkTimer (now r2) (Some ((inject_Z t' - inject_Z t) / factor))).
Proof.
  intros Hh.
  split; [reflexivity|]. split; [reflexivity|]. split; [reflexivity|].
  split; [exact Hh|].
  destruct (processNextEvent_total (incrementIndex (expire h tm r))) as [r1 H1].
  assert (Hagree : agreeUpToSpeed (incrementIndex (expire h tm r))
                                  (incrementIndex (expire h tm (setSpeed factor r)))).
  { destruct r as [? ? [? ? ? ?] ? ? ? ? ?]. unfold agreeUpToSpeed, isPlaying, getCurrentIndex.
    cbn. repeat split; reflexivity. }
  destruct (agree_processNextEvent _ _ _ _ Hagree H1) as (r2 & H2 & Hag).
  exists r1, r2.
  assert (F1 : fire h r = Some r1) by (unfold fire; now rewrite Hh).
  assert (F2 : fire h (setSpeed factor r) = Some r2).
  { unfold fire. change (timers (setSpeed factor r)) with (timers r). now rewrite Hh. }
  destruct Hag as (_ & _ & _ & _ & _ & Hnow & _ & Hdel & _).
  assert (Hclock : forall fuel x y, processNextEvent fuel x = Some y -> now y = now x).
  { clear. induction fuel as [|fuel IH]; intros x y H; [discriminate|].
    cbn [processNextEvent] in H.
    destruct (session x) as [s|]; [|now injection H as <-].
    destruct (negb (isPlaying x)); [now injection H as <-|].
    destruct (length (events s) <=? getCurrentIndex x)%nat.
    - destruct (optLoop x).
      + apply IH in H. rewrite H. unfold ReplayController.reset. apply controller_stop_frame.
      + now injection H as <-.
    - destruct (events s !! getCurrentIndex x) as [e|]; [|now injection H as <-].
      destruct (events s !! S (getCurrentIndex x)) as [e'|].
      + injection H as <-.
        now destruct (scheduleNext_spec (calculateDelay (deliver e x) e e')
                                        (deliver e x)) as (_ & _ & _ & _ & _ & -> & _).
      + apply IH in H. now rewrite H. }
  repeat split; try assumption.
  - now rewrite (Hclock _ _ _ H2).
  - congruence.
  - congruence.
  - intros s e e' t t' Hs Hp He He' Ht Ht' Hf.
    set (x := incrementIndex (expire h tm (setSpeed factor r))) in *.
    assert (Hx : processNextEvent enoughFuel x =
                 Some (scheduleNext (calculateDelay x e e') (deliver e x))).
    { apply (processNextEvent_mid _ _ s); assumption. }
    rewrite Hx in H2. injection H2 as <-.
    rewrite (calculateDelay_valid x _ _ _ _ Ht Ht' Hf).
    change (getSpeed x) with factor.
    exists (freshId (deliver e x)).
    destruct (scheduleNext_spec (Some ((inject_Z t' - inject_Z t) / factor)) (deliver e x))
      as (_ & _ & _ & _ & _ & Hn & _ & _ & Hnt & Htm).
    split; [exact Hnt|]. rewrite Htm. now rewrite Hn.
Qed.

(** *** Seeking *)

Lemma findLoop_leading (target : spec_float) (evs : list (SessionEvent JsDate))
      (i index : nat) :
  findLoop target evs i index =
  match leading target evs with
  | O => index
  | S n => (i + n)%nat
  end.
Proof.
  revert i index. induction evs as [|e rest IH]; intros i index; [reflexivity|].
  cbn [findLoop leading].
  destruct (js_leb (numberOfTime (eventTime e)) target); [|reflexivity].
  rewrite IH. destruct (leading target rest); lia.
Qed.

Lemma leading_le_length (target : spec_float) (evs : list (SessionEvent JsDate)) :
  (leading target evs <= length evs)%nat.
Proof.
  induction evs as [|e rest IH]; cbn [leading length]; [lia|].
  destruct (js_leb (numberOfTime (eventTime e)) target); lia.
Qed.

(** The first [leading target evs] events are not after the target. *)
Lemma leading_run (target : spec_float) (evs : list (SessionEvent JsDate)) :
  forall j e, evs !! j = Some e -> (j < leading target evs)%nat -> notAfter target e.
Proof.
  induction evs as [|e0 rest IH]; intros j e Hj Hlt; [discriminate|].
  cbn [leading] in Hlt.
  destruct (js_leb (numberOfTime (eventTime e0)) target) eqn:E; [|lia].
  destruct j as [|j]; cbn in Hj.
  - injection Hj as <-. exact E.
  - apply (IH j e Hj). lia.
Qed.

(** The event after them, if there is one, is after the target. *)
Lemma leading_stop (target : spec_float) (evs : list (SessionEvent JsDate)) :
  forall e, evs !! leading target evs = Some e -> ~ notAfter target e.
Proof.
  induction evs as [|e0 rest IH]; intros e He; [discriminate|].
  cbn [leading] in He. unfold notAfter.
  destruct (js_leb (numberOfTime (eventTime e0)) target) eqn:E.
  - cbn in He. exact (IH e He).
  - cbn in He. injection He as <-. congruence.
Qed.

(** The index computed by [findClosestEventIndex] ends the leading run
    of events that are not after the target. *)
Lemma findLoop_endOfLeadingRun (target : spec_float)
      (evs : list (SessionEvent JsDate)) :
  endOfLeadingRun (notAfter target) evs (findLoop target evs 0 0).
Proof.
  rewrite findLoop_leading.
  pose proof (leading_le_length target evs) as Hlen.
  pose proof (leading_run target evs) as Hrun.
  pose proof (leading_stop target evs) as Hstop.
  destruct (leading target evs) as [|n].
  - right. split; [reflexivity|exact Hstop].
  - left. cbn [Nat.add]. split; [apply lookup_lt_is_Some_2; lia|]. split.
    + intros j e Hj Hle. apply (Hrun j e Hj). lia.
    + exact Hstop.
Qed.

Lemma inRange_safe (t : Z) : inRange t = true -> (Z.abs t < 2 ^ 53)%Z.
Proof.
  unfold inRange, maxTime. intros H. apply andb_prop in H as [H1 H2].
  apply Z.leb_le in H1, H2. change (2 ^ 53)%Z with 9007199254740992%Z. lia.
Qed.

(** An event no later than one that is not after the target is not
    after it either. *)
Lemma notAfter_earlier (target : spec_float) (t t' : Z) :
  inRange t = true -> inRange t' = true -> (t <= t')%Z ->
  js_leb (numberOfZ t') target = true -> js_leb (numberOfZ t) target = true.
Proof.
  intros Ht Ht' Hle H. unfold js_leb in *.
  apply NumbersProps.SFleb_trans with (numberOfZ t'); [|exact H].
  rewrite NumbersProps.SFleb_numberOfZ by (apply inRange_safe; assumption).
  now apply Z.leb_le.
Qed.

Lemma sortedTimes_tail (e : SessionEvent JsDate) (rest : list (SessionEvent JsDate)) :
  sortedTimes (e :: rest) = true -> sortedTimes rest = true.
Proof.
  cbn [sortedTimes]. destruct (eventTime e); [|discriminate].
  destruct rest as [|e' rest']; [reflexivity|].
  destruct (eventTime e'); [|discriminate].
  intros H. now apply andb_prop in H as [_ H].
Qed.

Lemma sortedTimes_head_least (e : SessionEvent JsDate) (rest : list (SessionEvent JsDate))
      (t : Z) :
  sortedTimes (e :: rest) = true -> eventTime e = Some t ->
  forall j e' t', rest !! j = Some e' -> eventTime e' = Some t' -> (t <= t')%Z.
Proof.
  revert e t. induction rest as [|e1 rest IH]; intros e t Hs Ht j e' t' Hj Ht';
    [discriminate|].
  pose proof (sortedTimes_tail _ _ Hs) as Hs1.
  cbn [sortedTimes] in Hs. rewrite Ht in Hs.
  destruct (eventTime e1) as [t1|] eqn:Ht1; [|discriminate].
  apply andb_prop in Hs as [Hle _]. apply Z.leb_le in Hle.
  destruct j as [|j]; cbn in Hj.
  - injection Hj as <-. rewrite Ht1 in Ht'. injection Ht' as <-. exact Hle.
  - pose proof (IH e1 t1 Hs1 Ht1 j e' t' Hj Ht'). lia.
Qed.

Lemma eventTime_inRange (e : SessionEvent JsDate) (t : Z) :
  eventTime e = Some t -> dateInRange (timestamp e) = true -> inRange t = true.
Proof.
  unfold eventTime. destruct (timestamp e) as [tv|]; [|discriminate].
  cbn. now intros [= <-].
Qed.

(** In a chronological list, the events that are not after [target] are
    exactly the first [leading target evs] ones. *)
Lemma leading_spec (target : spec_float) (evs : list (SessionEvent JsDate)) :
  sortedTimes evs = true ->
  forallb (fun e => dateInRange (timestamp e)) evs = true ->
  forall j e, evs !! j = Some e ->
              (notAfter target e <-> (j < leading target evs)%nat).
Proof.
  induction evs as [|e0 rest IH]; intros Hs Hr j e Hj; [discriminate|].
  pose proof (sortedTimes_tail _ _ Hs) as Hs1.
  cbn [forallb] in Hr. apply andb_prop in Hr as [Hr0 Hr1].
  destruct (eventTime e0) as [t0|] eqn:Ht0;
    [|cbn [sortedTimes] in Hs; rewrite Ht0 in Hs; discriminate].
  cbn [leading].
  destruct (js_leb (numberOfTime (eventTime e0)) target) eqn:E.
  - destruct j as [|j]; cbn in Hj.
    + injection Hj as <-. unfold notAfter. split; [lia|auto].
    + rewrite (IH Hs1 Hr1 j e Hj). lia.
  - split; [|lia]. intros Hn. exfalso.
    destruct j as [|j]; cbn in Hj.
    + injection Hj as <-. unfold notAfter in Hn. congruence.
    + assert (Hin : dateInRange (timestamp e) = true).
      { rewrite forallb_forall in Hr1. apply Hr1.
        apply list_elem_of_In. eapply list_elem_of_lookup_2. exact Hj. }
      unfold notAfter in Hn.
      destruct (eventTime e) as [t|] eqn:Ht; [|discriminate Hn].
      pose proof (sortedTimes_head_least _ _ _ Hs Ht0 j e t Hj Ht) as Hle.
      rewrite Ht0 in E. cbn [numberOfTime] in E, Hn.
      rewrite (notAfter_earlier target t0 t) in E;
        [discriminate| | |exact Hle|exact Hn].
      * exact (eventTime_inRange e0 t0 Ht0 Hr0).
      * exact (eventTime_inRange e t Ht Hin).
Qed.

Lemma sortedTimes_valid (evs : list (SessionEvent JsDate)) :
  sortedTimes evs = true ->
  forall j e, evs !! j = Some e -> exists t, eventTime e = Some t.
Proof.
  induction evs as [|e0 rest IH]; intros Hs j e Hj; [discriminate|].
  destruct j as [|j]; cbn in Hj.
  - injection Hj as <-. cbn [sortedTimes] in Hs.
    destruct (eventTime e0); [eauto|discriminate].
  - eapply IH; [eapply sortedTimes_tail|]; eauto.
Qed.

(** The index computed by [findClosestEventIndex] on a chronological
    list: the highest index that is not after the target, and 0 when
    every event is after it. *)
Lemma findLoop_highest (target : spec_float) (evs : list (SessionEvent JsDate)) :
  sortedTimes evs = true ->
  forallb (fun e => dateInRange (timestamp e)) evs = true ->
  let k := findLoop target evs 0 0 in
  highest (notAfter target) evs k \/
  (noneWith (notAfter target) evs /\ k = 0%nat).
Proof.
  intros Hsorted Hrange k. subst k. rewrite findLoop_leading.
  pose proof (leading_spec target evs Hsorted Hrange) as Hlead.
  pose proof (leading_le_length target evs) as Hlen.
  destruct (leading target evs) as [|n] eqn:E.
  - right. split; [|reflexivity]. intros j e Hj Hn.
    apply (Hlead j e Hj) in Hn. lia.
  - left. cbn [Nat.add]. split.
    + destruct (lookup_lt_is_Some_2 evs n) as [e He]; [lia|].
      exists e. split; [exact He|]. apply (Hlead n e He). lia.
    + intros j e Hj Hn. apply (Hlead j e Hj) in Hn. lia.
Qed.

Lemma highest_ext (P Q : SessionEvent JsDate -> Prop)
      (evs : list (SessionEvent JsDate)) (k : nat) :
  (forall j e, evs !! j = Some e -> (P e <-> Q e)) ->
  highest P evs k \/ (noneWith P evs /\ k = 0%nat) ->
  highest Q evs k \/ (noneWith Q evs /\ k = 0%nat).
Proof.
  intros Hext [[(e & He & HP) Hmax]|[Hnone Hk]].
  - left. split.
    + exists e. split; [exact He|]. now apply (Hext k e He).
    + intros j e' Hj HQ. apply (Hmax j e' Hj). now apply (Hext j e' Hj).
  - right. split; [|exact Hk]. intros j e Hj HQ.
    apply (Hnone j e Hj). now apply (Hext j e Hj).
Qed.

(** The target of a seek to a whole number of milliseconds is exact. *)
Lemma seekTarget_whole (s : RecordingSession JsDate) (st ms : Z) :
  getTime (startTime s) = Some st -> inRange st = true ->
  (Z.abs ms < 2 ^ 53)%Z -> inRange (st + ms) = true ->
  seekTarget s (numberOfZ ms) = numberOfZ (st + ms).
Proof.
  intros Hst Hr Hms Hsum. unfold seekTarget, js_add. rewrite Hst.
  cbn [numberOfTime].
  apply NumbersProps.SFadd_numberOfZ; [apply inRange_safe| |apply inRange_safe];
    assumption.
Qed.

(** For such a seek the comparison the loop makes is the comparison of
    the event's offset with the requested time. *)
Lemma notAfter_atOrBefore (s : RecordingSession JsDate) (st ms : Z)
      (e : SessionEvent JsDate) :
  getTime (startTime s) = Some st -> inRange st = true ->
  (Z.abs ms < 2 ^ 53)%Z -> inRange (st + ms) = true ->
  dateInRange (timestamp e) = true ->
  (notAfter (seekTarget s (numberOfZ ms)) e <-> atOrBefore s (numberOfZ ms) e).
Proof.
  intros Hst Hr Hms Hsum He.
  rewrite (seekTarget_whole s st ms Hst Hr Hms Hsum).
  unfold notAfter, atOrBefore, offsetOf. rewrite Hst.
  destruct (eventTime e) as [t|] eqn:Ht.
  - pose proof (eventTime_inRange e t Ht He) as Hrt.
    cbn [numberOfTime]. unfold js_leb.
    rewrite NumbersProps.SFleb_numberOfZ by (apply inRange_safe; assumption).
    rewrite Z.leb_le. split.
    + intros Hle. eexists. split; [reflexivity|].
      apply NumbersProps.atMost_numberOfZ; [exact Hms|lia].
    + intros (o & [= <-] & Hle).
      apply NumbersProps.atMost_numberOfZ in Hle; [lia|exact Hms].
  - cbn [numberOfTime]. split; [discriminate|]. now intros (o & [=] & _).
Qed.

Lemma seek_state_before_play (k : nat) (r : Replayer) :
  let x := ReplayController.play (setCurrentIndex k (stop r)) in
  session x = session r /\ optLoop x = optLoop r /\ isPlaying x = true /\
  getCurrentIndex x = k /\ now x = now r /\ delivered x = delivered r.
Proof.
  cbv zeta. unfold stop.
  destruct (controller_stop_frame r) as (Hs & Hl & _ & _ & _ & Hn & Hd & _).
  unfold ReplayController.play, setCurrentIndex, withController, isPlaying, getCurrentIndex.
  cbn. auto 10.
Qed.

(** C3, as the code has it.  [seekTo] adds the requested time to the
    start of the session as numbers and puts the cursor where the
    leading run of events that are not after that target ends: on the
    last event of the run, and on 0 when the session has no event or its
    first event is after the target.  On a session whose events are in
    chronological order that is the highest index of an event not after
    the target, and 0 when there is none.  When moreover the requested
    time is a whole number of milliseconds and the target is within the
    range of dates, the addition is exact and the cursor is the highest
    index whose offset from the start of the session is at most the
    requested time, and 0 when there is none.  (In both parts the time
    values are taken within the range of [Date], as those of every
    [Date] object are.)  A paused replayer stays
    paused there.  A playing one resumes from that cursor at once: the
    event there is delivered during the call, and playback is still on,
    with the cursor there and the next delivery scheduled, whenever a
    later event exists; after the last event playback has ended. *)
Theorem seekTo_cursor_and_state
        (timeInMs : spec_float) (r : Replayer) (s : RecordingSession JsDate) :
  session r = Some s ->
  exists k,
    endOfLeadingRun (notAfter (seekTarget s timeInMs)) (events s) k /\
    (sortedTimes (events s) = true -> eventsInRange s = true ->
     highest (notAfter (seekTarget s timeInMs)) (events s) k \/
     (noneWith (notAfter (seekTarget s timeInMs)) (events s) /\ k = 0%nat)) /\
    (forall st ms,
        sortedTimes (events s) = true -> eventsInRange s = true ->
        getTime (startTime s) = Some st -> inRange st = true ->
        timeInMs = numberOfZ ms -> (Z.abs ms < 2 ^ 53)%Z ->
        inRange (st + ms) = true ->
        highestAtOrBefore s timeInMs k \/
        (noneWith (atOrBefore s timeInMs) (events s) /\ k = 0%nat)) /\
    (isPlaying r = false ->
     exists r', seekTo timeInMs r = Some r' /\
                getCurrentIndex r' = k /\ isPlaying r' = false /\
                delivered r' = delivered r /\
                nextTimer (controller r') = None) /\
    (isPlaying r = true ->
     forall e, events s !! k = Some e ->
     exists r', seekTo timeInMs r = Some r' /\
                delivered r' = delivered r ++ [(now r, e)] /\
                (is_Some (events s !! S k) ->
                 isPlaying r' = true /\ getCurrentIndex r' = k /\
                 exists h tm, nextTimer (controller r') = Some h /\
                              timers r' !! h = Some tm /\ setAt tm = now r) /\
                (events s !! S k = None -> isPlaying r' = false)).
Proof.
  intros Hs.
  set (k := findLoop (seekTarget s timeInMs) (events s) 0 0).
  assert (Hseek : forall b, isPlaying r = b ->
            seekTo timeInMs r =
            if b then play (setCurrentIndex k (stop r))
            else Some (setCurrentIndex k (stop r))).
  { intros b Hb.
    assert (Hstop : session (stop r) = Some s)
      by (rewrite <- Hs; unfold stop; apply controller_stop_frame).
    unfold seekTo, findClosestEventIndex.
    rewrite Hs, Hb, Hstop. reflexivity. }
  exists k. split; [exact (findLoop_endOfLeadingRun _ _)|].
  split; [intros Hsorted Hrange; exact (findLoop_highest _ _ Hsorted Hrange)|].
  split.
  { intros st ms Hsorted Hrange Hst Hrst -> Hms Hsum.
    apply (highest_ext (notAfter (seekTarget s (numberOfZ ms)))).
    - intros j e Hj. apply (notAfter_atOrBefore s st ms e Hst Hrst Hms Hsum).
      unfold eventsInRange in Hrange. rewrite forallb_forall in Hrange.
      apply Hrange. apply list_elem_of_In. eapply list_elem_of_lookup_2. exact Hj.
    - exact (findLoop_highest _ _ Hsorted Hrange). }
  split.
  - intros Hp. rewrite (Hseek false Hp). eexists. split; [reflexivity|].
    unfold stop. destruct (controller_stop_frame r) as (_ & _ & Hp' & _ & _ & _ & Hd & Hn).
    unfold setCurrentIndex, withController, isPlaying, getCurrentIndex in *.
    cbn. auto.
  - intros Hp e He. rewrite (Hseek true Hp).
    destruct (seek_state_before_play k r) as (Hxs & Hxl & Hxp & Hxi & Hxn & Hxd).
    set (x := ReplayController.play (setCurrentIndex k (stop r))) in *.
    assert (Hplay : play (setCurrentIndex k (stop r)) = processNextEvent enoughFuel x).
    { unfold play.
      replace (session (setCurrentIndex k (stop r))) with (Some s)
        by (symmetry; rewrite <- Hs; unfold stop; apply controller_stop_frame).
      replace (isPlaying (setCurrentIndex k (stop r))) with false
        by (symmetry; unfold stop; apply controller_stop_frame).
      reflexivity. }
    rewrite Hplay. rewrite Hs in Hxs. rewrite <- Hxi in He.
    destruct (events s !! S k) as [e'|] eqn:He'.
    + rewrite <- Hxi in He'.
      change enoughFuel with 3%nat.
      rewrite (processNextEvent_mid 2 x s e e' Hxs Hxp He He').
      eexists. split; [reflexivity|].
      destruct (scheduleNext_spec (calculateDelay x e e') (deliver e x))
        as (_ & _ & Hp1 & Hi1 & _ & Hn1 & Hd1 & _ & Hh1 & Ht1).
      split; [|split; [|discriminate]].
      * rewrite Hd1. cbn [deliver delivered]. now rewrite Hxd, Hxn.
      * intros _. split; [rewrite Hp1; exact Hxp|].
        split; [rewrite Hi1; exact Hxi|].
        do 2 eexists. split; [exact Hh1|]. split; [exact Ht1|].
        cbn [setAt deliver now]. exact Hxn.
    + rewrite <- Hxi in He'.
      rewrite (processNextEvent_last x s e Hxs Hxp He He').
      eexists. split; [reflexivity|]. cbv zeta.
      split; [|split; [intros [? [=]]|intros _]].
      * destruct (optLoop x).
        -- unfold ReplayController.reset.
           destruct (controller_stop_frame (incrementIndex (deliver e x)))
             as (_ & _ & _ & _ & _ & _ & -> & _).
           cbn [incrementIndex deliver withController delivered].
           now rewrite Hxd, Hxn.
        -- cbn [ReplayController.complete incrementIndex deliver withController delivered].
           now rewrite Hxd, Hxn.
      * destruct (optLoop x); [unfold ReplayController.reset; apply controller_stop_frame|reflexivity].
Qed.

(** C3 as the specification states it fails, in five ways.  On the demo
    session, paused, a seek to a time before the first event leaves the
    cursor on index 0 although no event is that early.  Playing, a seek
    onto the last event delivers it and ends the playback within the
    call.  A seek to 499.99999 ms puts the cursor on the click recorded
    at 500 ms: the sum of the start of the session and the requested
    time is rounded to the time value of the click.  On a session whose
    events are not in chronological order, and on one with an event
    whose date is invalid, a seek to 700 ms leaves the cursor on index 0
    although the event at index 2 is no later than that: the loop stops
    at the first event that is after the target. *)
Lemma seekTo_not_as_specified :
  ~ seekAsSpecified (numberOfZ (-1)) demoLoaded /\
  ~ seekAsSpecified (numberOfZ 1500) demoPlaying /\
  (~ seekAsSpecified justBelow500 demoLoaded /\
   seekTarget demoSession justBelow500 = numberOfZ (demoStart + 500) /\
   getCurrentIndex <$> seekTo justBelow500 demoLoaded = Some 1%nat /\
   ~ atMost 500 justBelow500) /\
  (~ seekAsSpecified (numberOfZ 700) (run [OpLoad demoUnordered] (newReplayer 1 false 0)) /\
   getCurrentIndex <$> seekTo (numberOfZ 700)
                              (run [OpLoad demoUnordered] (newReplayer 1 false 0))
   = Some 0%nat) /\
  (~ seekAsSpecified (numberOfZ 700) (run [OpLoad demoUndatedEvent] (newReplayer 1 false 0)) /\
   getCurrentIndex <$> seekTo (numberOfZ 700)
                              (run [OpLoad demoUndatedEvent] (newReplayer 1 false 0))
   = Some 0%nat).
Proof.
  assert (Hlate : forall s e r',
             events s !! 2%nat = Some e -> offsetOf s e = Some 500%Z ->
             session r' = Some s ->
             seekTo (numberOfZ 700) r' = Some (setCurrentIndex 0 (stop r')) ->
             ~ seekAsSpecified (numberOfZ 700) r').
  { intros s e r' He Ho Hs Hseek H.
    destruct (H s _ Hs Hseek) as [[_ Hmax] _].
    assert (Hle : (2 <= getCurrentIndex (setCurrentIndex 0 (stop r')))%nat).
    { apply (Hmax 2%nat e He). exists 500%Z. split; [exact Ho|].
      vm_compute. discriminate. }
    cbn in Hle. lia. }
  split; [|split; [|split; [|split]]].
  - intros H.
    destruct (H demoSession (setCurrentIndex 0 (stop demoLoaded)) eq_refl eq_refl)
      as [[(e & He & o & Ho & Hle) _] _].
    vm_compute in He. injection He as <-.
    vm_compute in Ho. injection Ho as <-.
    vm_compute in Hle. now apply Hle.
  - intros H.
    destruct (seekTo (numberOfZ 1500) demoPlaying) as [r'|] eqn:E;
      [|vm_compute in E; discriminate].
    destruct (H demoSession r' eq_refl E) as [_ Hp].
    vm_compute in E. injection E as <-. vm_compute in Hp. discriminate.
  - split; [|split; [vm_compute; reflexivity|split; [vm_compute; reflexivity|]]].
    + intros H.
      destruct (H demoSession (setCurrentIndex 1 (stop demoLoaded)) eq_refl eq_refl)
        as [[(e & He & o & Ho & Hle) _] _].
      vm_compute in He. injection He as <-.
      vm_compute in Ho. injection Ho as <-.
      vm_compute in Hle. now apply Hle.
    + intros Hle. vm_compute in Hle. now apply Hle.
  - split; [|vm_compute; reflexivity].
    eapply (Hlate demoUnordered); reflexivity.
  - split; [|vm_compute; reflexivity].
    eapply (Hlate demoUndatedEvent); reflexivity.
Qed.

(** *** The claims about delays and speed *)

(** C1.  During playback, once the event under the cursor has been
    delivered, the timeout set for the next event has the delay
    (next timestamp - current timestamp) / speed, and the next event is
    delivered when it expires.  In particular a session with events at
    0 ms, 500 ms and 1500 ms, played at speed 2 from clock value [c0],
    has its three events delivered at [c0], [c0 + 250] and [c0 + 750],
    after which playback has completed. *)
Theorem delay_is_timestamp_gap_over_speed :
  (forall (r : Replayer) (s : RecordingSession JsDate)
          (e e' : SessionEvent JsDate) (t t' : Z),
      session r = Some s -> isPlaying r = true ->
      events s !! getCurrentIndex r = Some e ->
      events s !! S (getCurrentIndex r) = Some e' ->
      eventTime e = Some t -> eventTime e' = Some t' -> ~ getSpeed r == 0 ->
      exists r' h r'' due,
        processNextEvent enoughFuel r = Some r' /\
        delivered r' = delivered r ++ [(now r, e)] /\
        nextTimer (controller r') = Some h /\
        timers r' !! h =
          Some (mkTimer (now r) (Some ((inject_Z t' - inject_Z t) / getSpeed r))) /\
        fire h r' = Some r'' /\
        due == now r + Qmax 0 ((inject_Z t' - inject_Z t) / getSpeed r) /\
        delivered r'' = delivered r ++ [(now r, e); (due, e')]) /\
  (forall (t0 : Z) (c0 : Q) (s : RecordingSession JsDate)
          (e0 e1 e2 : SessionEvent JsDate),
      events s = [e0; e1; e2] ->
      eventTime e0 = Some t0 ->
      eventTime e1 = Some (t0 + 500)%Z ->
      eventTime e2 = Some (t0 + 1500)%Z ->
      exists r1 h1 r2 h2 r3,
        play (loadSession s (newReplayer 2 false c0)) = Some r1 /\
        nextTimer (controller r1) = Some h1 /\ fire h1 r1 = Some r2 /\
        nextTimer (controller r2) = Some h2 /\ fire h2 r2 = Some r3 /\
        sameDeliveries (delivered r3)
                       [(c0 + 0, e0); (c0 + 250, e1); (c0 + 750, e2)] /\
        isPlaying r3 = false /\ completions r3 = 1%nat /\ timers r3 = ∅).
Proof.
  split.
  - exact delay_to_next_delivery.
  - exact scenario_speed_two.
Qed.

(** C1 on the demo session: the delay set after the first delivery at
    speed 1, and the scenario at speed 2 with the clock at 0 when [play]
    is called. *)
Lemma delay_scenario_on_demo_session :
  (exists r' h,
      processNextEvent enoughFuel (ReplayController.play demoLoaded) = Some r' /\
      nextTimer (controller r') = Some h /\
      timers r' !! h =
        Some (mkTimer 0 (Some ((inject_Z (demoStart + 500) - inject_Z demoStart) / 1)))) /\
  (exists r1 h1 r2 h2 r3,
      play (loadSession demoSession (newReplayer 2 false 0)) = Some r1 /\
      nextTimer (controller r1) = Some h1 /\ fire h1 r1 = Some r2 /\
      nextTimer (controller r2) = Some h2 /\ fire h2 r2 = Some r3 /\
      sameDeliveries (delivered r3)
                     [(0 + 0, mkEvent (ValidDate demoStart) NAVIGATION
                                      (NavigationEventData "direct" "https://example.org/" None));
                      (0 + 250, mkEvent (ValidDate (demoStart + 500)) MOUSE_CLICK
                                        (MouseEventData 10 10 None (Some 0%Z) None));
                      (0 + 750, mkEvent (ValidDate (demoStart + 1500)) MOUSE_MOVE
                                        (MouseEventData 20 20 None None None))] /\
      isPlaying r3 = false /\ completions r3 = 1%nat /\ timers r3 = ∅).
Proof.
  split.
  - destruct (proj1 delay_is_timestamp_gap_over_speed (ReplayController.play demoLoaded) demoSession
                _ _ demoStart (demoStart + 500)%Z
                eq_refl eq_refl eq_refl eq_refl eq_refl eq_refl)
      as (r' & h & _ & _ & Hstep & _ & Hh & Htm & _).
    + discriminate.
    + exists r', h. auto.
  - apply (proj2 delay_is_timestamp_gap_over_speed demoStart 0 demoSession);
      reflexivity.
Defined.

(** C7, as the code has it.  [setSpeed] stores its argument unchecked;
    no other operation changes the speed.  Hence the speed is positive in
    every state reached from a replayer created with a positive speed by
    operations whose [setSpeed] factors are all positive. *)
Theorem speed_positive_while_factors_positive :
  (forall (factor : Q) (r : Replayer), getSpeed (setSpeed factor r) = factor) /\
  (forall (op : Op) (r : Replayer),
      getSpeed (applyOp op r) =
      match op with OpSetSpeed factor => factor | _ => getSpeed r end) /\
  (forall (ops : list Op) (optSpeed : Q) (loop : bool) (t0 : Q),
      0 < optSpeed -> Forall (fun f => 0 < f) (speedFactors ops) ->
      0 < getSpeed (run ops (newReplayer optSpeed loop t0))).
Proof.
  split; [reflexivity|]. split; [exact applyOp_speed|].
  intros ops optSpeed loop t0 Hpos Hops. now apply run_speed_positive.
Qed.

Lemma speed_positive_on_demo_run :
  0 < getSpeed (run [OpLoad demoSession; OpSetSpeed (1 # 2); OpPlay;
                     OpFire 1%positive; OpSetSpeed 4; OpSeek (numberOfZ 700); OpPause]
                    (newReplayer 1 false 0)).
Proof.
  apply (proj2 (proj2 speed_positive_while_factors_positive)).
  - reflexivity.
  - repeat constructor.
Defined.

(** C7 as the specification states it fails: a replayer created with
    speed 1 has a non-positive speed after [setSpeed(-1)], and after
    [setSpeed(0)]. *)
Lemma setSpeed_accepts_nonpositive_factor :
  0 < getSpeed (newReplayer 1 false 0) /\
  ~ 0 < getSpeed (run [OpSetSpeed (-1)] (newReplayer 1 false 0)) /\
  ~ 0 < getSpeed (run [OpSetSpeed 0] (newReplayer 1 false 0)).
Proof.
  split; [reflexivity|]. split; intros H; discriminate H.
Qed.

(** C8 on the demo session: the timeout pending after [play] survives
    [setSpeed(2)] unchanged. *)
Lemma setSpeed_keeps_demo_timeout :
  exists tm, timers demoPlaying !! 1%positive = Some tm /\
             timers (setSpeed 2 demoPlaying) !! 1%positive = Some tm /\
             delayMs tm = Some ((inject_Z (demoStart + 500) - inject_Z demoStart) / 1).
Proof.
  eexists. split; [vm_compute; reflexivity|]. split.
  - refine (proj1 (proj2 (proj2 (proj2
              (setSpeed_affects_only_later_delays 2 demoPlaying 1%positive _ _))))).
    vm_compute. reflexivity.
  - vm_compute. reflexivity.
Defined.

(** C3 on the demo session: a seek to 700 ms puts the cursor on the
    click recorded at 500 ms, the highest index whose offset is at most
    700 ms; paused it stays paused, playing it is still playing with the
    click delivered. *)
Lemma seekTo_on_demo_session :
  highestAtOrBefore demoSession (numberOfZ 700) 1 /\
  (exists r', seekTo (numberOfZ 700) demoLoaded = Some r' /\
              getCurrentIndex r' = 1%nat /\ isPlaying r' = false) /\
  (exists r', seekTo (numberOfZ 700) demoPlaying = Some r' /\
              getCurrentIndex r' = 1%nat /\ isPlaying r' = true /\
              delivered r' = delivered demoPlaying ++ [(now demoPlaying, demoSecondEvent)]).
Proof.
  destruct (seekTo_cursor_and_state (numberOfZ 700) demoLoaded demoSession eq_refl)
    as (k & _ & _ & Hwhole & Hpaused & _).
  destruct (Hpaused eq_refl) as (r' & Hseek & Hk & Hp & _).
  assert (Ek : k = 1%nat).
  { rewrite <- Hk. vm_compute in Hseek. injection Hseek as <-. reflexivity. }
  rewrite Ek in Hwhole, Hk. split; [|split].
  - destruct (Hwhole demoStart 700%Z eq_refl eq_refl eq_refl eq_refl eq_refl
                     eq_refl eq_refl) as [H|[_ [=]]].
    exact H.
  - exists r'. auto.
  - destruct (seekTo_cursor_and_state (numberOfZ 700) demoPlaying demoSession eq_refl)
      as (k' & _ & _ & _ & _ & Hplaying).
    destruct (seekTo (numberOfZ 700) demoPlaying) as [r''|] eqn:Hseek';
      [|vm_compute in Hseek'; discriminate].
    exists r''. split; [reflexivity|].
    vm_compute in Hseek'. injection Hseek' as <-. repeat split; reflexivity.
Defined.

(** *** At most one timeout is pending *)

Lemma oneTimer_frame (r r' : Replayer) :
  timers r' = timers r ->
  nextTimer (controller r') = nextTimer (controller r) ->
  oneTimerAtMost r -> oneTimerAtMost r'.
Proof.
  unfold oneTimerAtMost. intros Ht Hn. rewrite Ht, Hn. auto.
Qed.

Lemma oneTimer_empty (r : Replayer) : timers r = ∅ -> oneTimerAtMost r.
Proof. now left. Qed.

Lemma cancelNextTimer_timers (r : Replayer) :
  oneTimerAtMost r -> timers (cancelNextTimer r) = ∅.
Proof.
  unfold oneTimerAtMost, cancelNextTimer. intros [H | (h & t & H & Hh)].
  - destruct (nextTimer (controller r)); cbn [timers]; rewrite H;
      [apply delete_empty | reflexivity].
  - rewrite Hh. cbn [timers]. rewrite H. apply delete_singleton_eq.
Qed.

Lemma controller_stop_timers (r : Replayer) :
  oneTimerAtMost r -> timers (ReplayController.stop r) = ∅.
Proof.
  intros H. unfold ReplayController.stop. apply cancelNextTimer_timers.
  eapply oneTimer_frame; [| |exact H]; reflexivity.
Qed.

Lemma controller_pause_timers (r : Replayer) :
  oneTimerAtMost r -> timers (ReplayController.pause r) = ∅.
Proof.
  intros H. unfold ReplayController.pause. apply cancelNextTimer_timers.
  eapply oneTimer_frame; [| |exact H]; reflexivity.
Qed.

Lemma scheduleNext_timers (d : option Q) (r : Replayer) :
  oneTimerAtMost r ->
  timers (scheduleNext d r) = {[ freshId r := mkTimer (now r) d ]} /\
  nextTimer (controller (scheduleNext d r)) = Some (freshId r).
Proof.
  intros H. pose proof (cancelNextTimer_timers r H) as Hc.
  unfold scheduleNext. cbn [timers controller nextTimer]. rewrite Hc, insert_empty.
  unfold cancelNextTimer. destruct (nextTimer (controller r)); cbn; auto.
Qed.

Lemma processNextEvent_oneTimer (fuel : nat) (r r' : Replayer) :
  processNextEvent fuel r = Some r' -> oneTimerAtMost r -> oneTimerAtMost r'.
Proof.
  revert r r'. induction fuel as [|fuel IH]; intros r r' H Hone; [discriminate|].
  cbn [processNextEvent] in H.
  destruct (session r) as [s|]; [|now inversion H; subst].
  destruct (negb (isPlaying r)); [now inversion H; subst|].
  destruct (length (events s) <=? getCurrentIndex r)%nat.
  - destruct (optLoop r).
    + apply IH in H; [exact H|].
      apply oneTimer_empty, controller_stop_timers, Hone.
    + inversion H; subst. eapply oneTimer_frame; [| |exact Hone]; reflexivity.
  - destruct (events s !! getCurrentIndex r) as [e|]; [|now inversion H; subst].
    cbv zeta in H.
    destruct (events s !! S (getCurrentIndex r)) as [e'|].
    + inversion H; subst. right. eexists _, _. apply scheduleNext_timers.
      eapply oneTimer_frame; [| |exact Hone]; reflexivity.
    + apply IH in H; [exact H|].
      eapply oneTimer_frame; [| |exact Hone]; reflexivity.
Qed.

Lemma play_oneTimer (r r' : Replayer) :
  play r = Some r' -> oneTimerAtMost r -> oneTimerAtMost r'.
Proof.
  unfold play. intros H Hone.
  destruct (session r); [|now inversion H; subst].
  destruct (isPlaying r); [now inversion H; subst|].
  eapply processNextEvent_oneTimer; [exact H|].
  eapply oneTimer_frame; [| |exact Hone]; reflexivity.
Qed.

Lemma loadSession_timers (s : RecordingSession JsDate) (r : Replayer) :
  oneTimerAtMost r -> timers (loadSession s r) = ∅.
Proof.
  intros Hone. unfold loadSession, ReplayController.reset.
  apply controller_stop_timers, oneTimer_empty. cbn [timers].
  apply controller_stop_timers, Hone.
Qed.

Lemma seekTo_oneTimer (ms : spec_float) (r r' : Replayer) :
  seekTo ms r = Some r' -> oneTimerAtMost r -> oneTimerAtMost r'.
Proof.
  unfold seekTo. intros H Hone.
  destruct (session r) as [s|]; [|now inversion H; subst].
  assert (Hidx : forall k, oneTimerAtMost (setCurrentIndex k (stop r))).
  { intros k. apply oneTimer_empty. cbn [setCurrentIndex withController timers].
    apply controller_stop_timers, Hone. }
  destruct (isPlaying r).
  - eapply play_oneTimer; [exact H|apply Hidx].
  - inversion H; subst. apply Hidx.
Qed.

Lemma fire_oneTimer (h : positive) (r r' : Replayer) :
  fire h r = Some r' -> oneTimerAtMost r -> oneTimerAtMost r'.
Proof.
  unfold fire. intros H Hone.
  destruct (timers r !! h) as [t|] eqn:Hh; [|discriminate].
  eapply processNextEvent_oneTimer; [exact H|].
  apply oneTimer_empty. cbn [incrementIndex withController expire timers].
  destruct Hone as [He | (h' & t' & He & _)]; rewrite He in *.
  - apply delete_empty.
  - apply lookup_singleton_Some in Hh as [-> _]. apply delete_singleton_eq.
Qed.

Lemma applyOp_oneTimer (op : Op) (r : Replayer) :
  oneTimerAtMost r -> oneTimerAtMost (applyOp op r).
Proof.
  intros Hone. destruct op as [s| | | |ms|f|h|dt]; cbn [applyOp].
  - apply oneTimer_empty, loadSession_timers, Hone.
  - destruct (play r) as [r'|] eqn:E; cbn [default]; [|exact Hone].
    eapply play_oneTimer; eauto.
  - apply oneTimer_empty, controller_pause_timers, Hone.
  - apply oneTimer_empty, controller_stop_timers, Hone.
  - destruct (seekTo ms r) as [r'|] eqn:E; cbn [default]; [|exact Hone].
    eapply seekTo_oneTimer; eauto.
  - eapply oneTimer_frame; [| |exact Hone]; reflexivity.
  - destruct (fire h r) as [r'|] eqn:E; cbn [default]; [|exact Hone].
    eapply fire_oneTimer; eauto.
  - eapply oneTimer_frame; [| |exact Hone]; reflexivity.
Qed.

Lemma run_oneTimer (ops : list Op) (r : Replayer) :
  oneTimerAtMost r -> oneTimerAtMost (run ops r).
Proof.
  revert r. induction ops as [|op ops IH]; intros r H; [exact H|].
  apply IH, applyOp_oneTimer, H.
Qed.

Lemma drain_idle (n : nat) (r : Replayer) : timers r = ∅ -> drain n r = r.
Proof.
  intros H. destruct n; [reflexivity|].
  cbn [drain]. unfold fireNext. now rewrite H, map_to_list_empty.
Qed.

(** X1.  Of the timeouts that [scheduleNext] sets to deliver events, at
    most one is pending in every state reached from a new replayer by
    any sequence of calls and expiries of such timeouts, and it is the
    one whose handle the controller holds: no delivery is scheduled
    twice, and none escapes [cancelNextTimer].  (The timeouts of the
    click animation are not counted: they are not in [timers].) *)
Theorem at_most_one_timeout_pending
        (ops : list Op) (optSpeed : Q) (loop : bool) (t0 : Q) :
  oneTimerAtMost (run ops (newReplayer optSpeed loop t0)) /\
  (size (timers (run ops (newReplayer optSpeed loop t0))) <= 1)%nat.
Proof.
  assert (H : oneTimerAtMost (run ops (newReplayer optSpeed loop t0)))
    by (apply run_oneTimer, oneTimer_empty; reflexivity).
  split; [exact H|].
  destruct H as [-> | (h & t & -> & _)].
  - rewrite map_size_empty. lia.
  - rewrite map_size_singleton. lia.
Qed.


(** *** Playback to the end *)

Lemma controller_pause_frame (r : Replayer) :
  session (ReplayController.pause r) = session r /\
  optLoop (ReplayController.pause r) = optLoop r /\
  isPlaying (ReplayController.pause r) = false /\
  getCurrentIndex (ReplayController.pause r) = getCurrentIndex r /\
  getSpeed (ReplayController.pause r) = getSpeed r /\
  now (ReplayController.pause r) = now r /\
  delivered (ReplayController.pause r) = delivered r /\
  nextTimer (controller (ReplayController.pause r)) = None.
Proof.
  unfold ReplayController.pause.
  destruct (cancelNextTimer_frame
              (withController
                 (fun c => mkController false (currentIndex c) (speed c) (nextTimer c)) r))
    as (-> & -> & -> & -> & -> & -> & -> & ->).
  cbn. auto 10.
Qed.

Lemma cancelNextTimer_completions (r : Replayer) :
  completions (cancelNextTimer r) = completions r.
Proof.
  unfold cancelNextTimer. now destruct (nextTimer (controller r)).
Qed.

Lemma deliveredEvents_app (r : Replayer) (e : SessionEvent JsDate) (c : Q)
      (l : list (Q * SessionEvent JsDate)) :
  l = delivered r ++ [(c, e)] -> map snd l = deliveredEvents r ++ [e].
Proof.
  intros ->. unfold deliveredEvents. now rewrite map_app.
Qed.

(** What the end of playback leaves: not playing, nothing pending; one
    more call of [onComplete] and the cursor past the last event, or,
    with the [loop] option, no call and the cursor at 0. *)
Lemma end_of_playback (r : Replayer) (s : RecordingSession JsDate) :
  timers r = ∅ -> (length (events s) <= getCurrentIndex r)%nat ->
  let r' := if optLoop r then ReplayController.reset r
            else ReplayController.complete r in
  delivered r' = delivered r /\ isPlaying r' = false /\ timers r' = ∅ /\
  completions r' = (if optLoop r then completions r else S (completions r)) /\
  (if optLoop r then getCurrentIndex r' = 0%nat
   else (length (events s) <= getCurrentIndex r')%nat).
Proof.
  intros Ht Hlen. destruct (optLoop r); cbv zeta.
  - unfold ReplayController.reset.
    pose proof (controller_stop_frame r) as (_ & _ & Hp & Hi & _ & _ & Hd & _).
    repeat split; try assumption.
    + apply controller_stop_timers, oneTimer_empty, Ht.
    + unfold ReplayController.stop. now rewrite cancelNextTimer_completions.
  - repeat split; assumption.
Qed.

Lemma play_out (s : RecordingSession JsDate) (n : nat) (r : Replayer) :
  session r = Some s -> isPlaying r = true -> timers r = ∅ ->
  (length (events s) <= getCurrentIndex r + n)%nat ->
  exists r1, processNextEvent enoughFuel r = Some r1 /\
    let r' := drain n r1 in
    deliveredEvents r' = deliveredEvents r ++ drop (getCurrentIndex r) (events s) /\
    isPlaying r' = false /\ timers r' = ∅ /\
    completions r' = (if optLoop r then completions r else S (completions r)) /\
    (if optLoop r then getCurrentIndex r' = 0%nat
     else (length (events s) <= getCurrentIndex r')%nat).
Proof.
  revert r. induction n as [|n IH]; intros r Hs Hp Ht Hlen.
  - (* the cursor is past the end *)
    assert (Hge : (length (events s) <= getCurrentIndex r)%nat) by lia.
    eexists. split; [now apply (processNextEvent_end 1 _ s)|].
    cbn [drain]. destruct (end_of_playback r s Ht Hge) as (Hd & H).
    split; [|exact H].
    unfold deliveredEvents. rewrite Hd, drop_ge by exact Hge.
    now rewrite app_nil_r.
  - destruct (le_lt_dec (length (events s)) (getCurrentIndex r)) as [Hge|Hlt].
    + eexists. split; [now apply (processNextEvent_end 1 _ s)|].
      destruct (end_of_playback r s Ht Hge) as (Hd & Hq & Hn & H).
      cbv zeta. rewrite drain_idle by exact Hn.
      split; [|auto].
      unfold deliveredEvents. rewrite Hd, drop_ge by exact Hge.
      now rewrite app_nil_r.
    + destruct (lookup_lt_is_Some_2 _ _ Hlt) as [e He].
      rewrite (drop_S _ _ _ He).
      destruct (events s !! S (getCurrentIndex r)) as [e'|] eqn:He'.
      * (* an event follows: one timeout, which the event loop fires *)
        eexists. split; [now apply (processNextEvent_mid 2 _ s e e')|].
        set (d := calculateDelay r e e').
        set (r1 := scheduleNext d (deliver e r)).
        destruct (scheduleNext_spec d (deliver e r))
          as (Hs1 & Hl1 & Hp1 & Hi1 & _ & _ & Hd1 & Hc1 & _ & _).
        destruct (scheduleNext_timers d (deliver e r)) as (Ht1 & _);
          [now apply oneTimer_empty|].
        fold r1 in Hs1, Hl1, Hp1, Hi1, Hd1, Hc1, Ht1.
        set (h := freshId (deliver e r)) in *.
        set (tm := mkTimer (now (deliver e r)) d) in *.
        set (r2 := incrementIndex (expire h tm r1)).
        destruct (IH r2) as (r3 & Hr3 & Hfin).
        { change (session r2) with (session r1). now rewrite Hs1. }
        { change (isPlaying r2) with (isPlaying r1). now rewrite Hp1. }
        { change (timers r2) with (delete h (timers r1)).
          rewrite Ht1. apply delete_singleton_eq. }
        { change (getCurrentIndex r2) with (S (getCurrentIndex r1)).
          rewrite Hi1. change (getCurrentIndex (deliver e r)) with (getCurrentIndex r).
          lia. }
        assert (Hfire : fireNext r1 = Some r3).
        { unfold fireNext, fire. rewrite Ht1, map_to_list_singleton.
          now rewrite lookup_singleton_eq. }
        cbv zeta. cbn [drain]. rewrite Hfire.
        cbv zeta in Hfin. destruct Hfin as (Hev & Hq & Hn & Hc & Hi).
        change (getCurrentIndex r2) with (S (getCurrentIndex r1)) in Hev.
        rewrite Hi1 in Hev.
        change (getCurrentIndex (deliver e r)) with (getCurrentIndex r) in Hev.
        change (optLoop r2) with (optLoop r1) in Hc, Hi.
        rewrite Hl1 in Hc, Hi. change (optLoop (deliver e r)) with (optLoop r) in Hc, Hi.
        change (completions r2) with (completions r1) in Hc. rewrite Hc1 in Hc.
        change (completions (deliver e r)) with (completions r) in Hc.
        repeat split; try assumption.
        rewrite Hev.
        change (deliveredEvents r2) with (map snd (delivered r1)).
        rewrite Hd1. cbn [deliver delivered]. unfold deliveredEvents.
        rewrite map_app. cbn [map snd]. now rewrite <- app_assoc.
      * (* the last event *)
        eexists. split; [now apply (processNextEvent_last _ s e)|].
        set (r1 := incrementIndex (deliver e r)).
        apply lookup_ge_None in He'.
        destruct (end_of_playback r1 s) as (Hd & Hq & Hn & Hc & Hi);
          [exact Ht|exact He'|].
        cbv zeta. change (optLoop r) with (optLoop r1).
        rewrite drain_idle by exact Hn.
        repeat split; try assumption.
        unfold deliveredEvents. rewrite Hd. cbn [r1 incrementIndex withController
                                                  deliver delivered].
        rewrite map_app, drop_ge by exact He'. reflexivity.
Qed.

Lemma play_starts (r : Replayer) (s : RecordingSession JsDate) :
  session r = Some s -> isPlaying r = false ->
  play r = processNextEvent enoughFuel (ReplayController.play r).
Proof.
  intros Hs Hp. unfold play. now rewrite Hs, Hp.
Qed.

(** X3.  Playback without the [loop] option, started on a loaded
    replayer that is not playing and left to the event loop, delivers
    the events from the cursor to the end, each once and in recorded
    order, then calls [onComplete] once and is no longer playing. *)
Theorem playback_delivers_the_rest_once
        (s : RecordingSession JsDate) (r : Replayer) :
  session r = Some s -> isPlaying r = false -> timers r = ∅ ->
  optLoop r = false ->
  exists r1, play r = Some r1 /\
    forall n, (length (events s) <= n)%nat ->
      deliveredEvents (drain n r1) =
        deliveredEvents r ++ drop (getCurrentIndex r) (events s) /\
      completions (drain n r1) = S (completions r) /\
      isPlaying (drain n r1) = false /\ timers (drain n r1) = ∅.
Proof.
  intros Hs Hp Ht Hl. rewrite (play_starts r s Hs Hp).
  destruct (processNextEvent_total (ReplayController.play r)) as [r1 Hr1].
  exists r1. split; [exact Hr1|]. intros n Hn.
  destruct (play_out s n (ReplayController.play r)) as (r1' & Hr1' & H);
    [exact Hs|reflexivity|exact Ht|
     change (getCurrentIndex (ReplayController.play r)) with (getCurrentIndex r); lia|].
  rewrite Hr1 in Hr1'. injection Hr1' as <-.
  cbv zeta in H. destruct H as (Hev & Hq & Hn' & Hc & _).
  change (optLoop (ReplayController.play r)) with (optLoop r) in Hc.
  rewrite Hl in Hc. auto.
Qed.

Lemma playback_of_demo_session :
  exists r1, play demoLoaded = Some r1 /\
    forall n, (length (events demoSession) <= n)%nat ->
      deliveredEvents (drain n r1) =
        deliveredEvents demoLoaded ++ drop (getCurrentIndex demoLoaded) (events demoSession) /\
      completions (drain n r1) = S (completions demoLoaded) /\
      isPlaying (drain n r1) = false /\ timers (drain n r1) = ∅.
Proof.
  apply (playback_delivers_the_rest_once demoSession demoLoaded); reflexivity.
Defined.

(** X4.  With the [loop] option playback does not start over: after
    the last event the replayer is stopped with the cursor at 0, every
    event from the cursor on has been delivered once, [onComplete] has
    not been called, and nothing more happens however long the event
    loop runs. *)
Theorem loop_option_stops_instead_of_restarting
        (s : RecordingSession JsDate) (r : Replayer) :
  session r = Some s -> isPlaying r = false -> timers r = ∅ ->
  optLoop r = true ->
  exists r1, play r = Some r1 /\
    forall n, (length (events s) <= n)%nat ->
      deliveredEvents (drain n r1) =
        deliveredEvents r ++ drop (getCurrentIndex r) (events s) /\
      completions (drain n r1) = completions r /\
      isPlaying (drain n r1) = false /\ getCurrentIndex (drain n r1) = 0%nat /\
      timers (drain n r1) = ∅.
Proof.
  intros Hs Hp Ht Hl. rewrite (play_starts r s Hs Hp).
  destruct (processNextEvent_total (ReplayController.play r)) as [r1 Hr1].
  exists r1. split; [exact Hr1|]. intros n Hn.
  destruct (play_out s n (ReplayController.play r)) as (r1' & Hr1' & H);
    [exact Hs|reflexivity|exact Ht|
     change (getCurrentIndex (ReplayController.play r)) with (getCurrentIndex r); lia|].
  rewrite Hr1 in Hr1'. injection Hr1' as <-.
  cbv zeta in H. destruct H as (Hev & Hq & Hn' & Hc & Hi).
  change (optLoop (ReplayController.play r)) with (optLoop r) in Hc, Hi.
  rewrite Hl in Hc, Hi. auto.
Qed.

Lemma looping_playback_of_demo_session :
  exists r1, play demoLooping = Some r1 /\
    forall n, (length (events demoSession) <= n)%nat ->
      deliveredEvents (drain n r1) =
        deliveredEvents demoLooping ++ drop (getCurrentIndex demoLooping) (events demoSession) /\
      completions (drain n r1) = completions demoLooping /\
      isPlaying (drain n r1) = false /\ getCurrentIndex (drain n r1) = 0%nat /\
      timers (drain n r1) = ∅.
Proof.
  apply (loop_option_stops_instead_of_restarting demoSession demoLooping); reflexivity.
Defined.

(** X5.  Pausing before the next event is due and playing again
    delivers the event under the cursor a second time: the cursor only
    moves when the timeout fires, and [pause] cancels the timeout. *)
Theorem resume_delivers_the_current_event_again
        (s : RecordingSession JsDate) (r : Replayer) (e e' : SessionEvent JsDate) :
  session r = Some s -> isPlaying r = false ->
  events s !! getCurrentIndex r = Some e ->
  events s !! S (getCurrentIndex r) = Some e' ->
  exists r1 r2,
    play r = Some r1 /\ isPlaying r1 = true /\
    deliveredEvents r1 = deliveredEvents r ++ [e] /\
    play (pause r1) = Some r2 /\ isPlaying r2 = true /\
    deliveredEvents r2 = deliveredEvents r ++ [e; e] /\
    getCurrentIndex r2 = getCurrentIndex r.
Proof.
  intros Hs Hp He He'.
  set (d := calculateDelay (ReplayController.play r) e e').
  set (r1 := scheduleNext d (deliver e (ReplayController.play r))).
  destruct (scheduleNext_spec d (deliver e (ReplayController.play r)))
    as (Hs1 & _ & Hp1 & Hi1 & _ & _ & Hd1 & _).
  fold r1 in Hs1, Hp1, Hi1, Hd1.
  cbn [deliver session delivered] in Hs1, Hd1.
  change (isPlaying (deliver e (ReplayController.play r))) with true in Hp1.
  change (getCurrentIndex (deliver e (ReplayController.play r)))
    with (getCurrentIndex r) in Hi1.
  change (session (ReplayController.play r)) with (session r) in Hs1.
  change (delivered (ReplayController.play r)) with (delivered r) in Hd1.
  destruct (controller_pause_frame r1) as (Hs2 & _ & Hp2 & Hi2 & _ & _ & Hd2 & _).
  set (r1p := ReplayController.play (pause r1)).
  set (d2 := calculateDelay r1p e e').
  set (r2 := scheduleNext d2 (deliver e r1p)).
  destruct (scheduleNext_spec d2 (deliver e r1p))
    as (_ & _ & Hp3 & Hi3 & _ & _ & Hd3 & _).
  fold r2 in Hp3, Hi3, Hd3.
  exists r1, r2. split; [|split; [|split; [|split; [|split; [|split]]]]].
  - rewrite (play_starts r s Hs Hp).
    now apply (processNextEvent_mid 2 _ s e e').
  - exact Hp1.
  - now apply (deliveredEvents_app r e (now (ReplayController.play r))).
  - rewrite (play_starts (pause r1) s); [|unfold pause; congruence|exact Hp2].
    apply (processNextEvent_mid 2 _ s e e').
    + change (session (ReplayController.pause r1) = Some s). congruence.
    + reflexivity.
    + change (events s !! getCurrentIndex (ReplayController.pause r1) = Some e).
      now rewrite Hi2, Hi1.
    + change (events s !! S (getCurrentIndex (ReplayController.pause r1)) = Some e').
      now rewrite Hi2, Hi1.
  - rewrite Hp3. reflexivity.
  - unfold deliveredEvents. rewrite Hd3. cbn [deliver delivered].
    change (delivered r1p) with (delivered (ReplayController.pause r1)).
    rewrite Hd2, Hd1, !map_app. cbn [map snd]. now rewrite <- app_assoc.
  - rewrite Hi3.
    change (getCurrentIndex (deliver e r1p))
      with (getCurrentIndex (ReplayController.pause r1)).
    now rewrite Hi2, Hi1.
Qed.

Lemma resume_on_demo_session :
  exists r1 r2,
    play demoLoaded = Some r1 /\ isPlaying r1 = true /\
    deliveredEvents r1 = deliveredEvents demoLoaded ++ [demoFirstEvent] /\
    play (pause r1) = Some r2 /\ isPlaying r2 = true /\
    deliveredEvents r2 = deliveredEvents demoLoaded ++ [demoFirstEvent; demoFirstEvent] /\
    getCurrentIndex r2 = getCurrentIndex demoLoaded.
Proof.
  apply (resume_delivers_the_current_event_again demoSession demoLoaded
           demoFirstEvent demoSecondEvent); reflexivity.
Defined.

(** *** The times of the deliveries *)

Lemma sortedTimes_drop (k : nat) (evs : list (SessionEvent JsDate)) :
  sortedTimes evs = true -> sortedTimes (drop k evs) = true.
Proof.
  revert evs. induction k as [|k IH]; intros evs H; [now rewrite drop_0|].
  destruct evs as [|e rest]; [reflexivity|].
  cbn [drop]. apply IH. exact (sortedTimes_tail _ _ H).
Qed.

Lemma sortedTimes_first (e : SessionEvent JsDate) (rest : list (SessionEvent JsDate)) :
  sortedTimes (e :: rest) = true -> exists t, eventTime e = Some t.
Proof.
  cbn [sortedTimes]. destruct (eventTime e) as [t|]; [eauto|discriminate].
Qed.

Lemma sortedTimes_first_two (e e' : SessionEvent JsDate)
      (rest : list (SessionEvent JsDate)) :
  sortedTimes (e :: e' :: rest) = true ->
  exists t t', eventTime e = Some t /\ eventTime e' = Some t' /\ (t <= t')%Z.
Proof.
  intros H. pose proof (sortedTimes_tail _ _ H) as H'.
  destruct (sortedTimes_first _ _ H) as [t Ht].
  destruct (sortedTimes_first _ _ H') as [t' Ht'].
  exists t, t'. repeat split; try assumption.
  exact (sortedTimes_head_least e (e' :: rest) t H Ht 0%nat e' t' eq_refl Ht').
Qed.

Lemma delay_nonneg (t t' : Z) (sp : Q) :
  (t <= t')%Z -> 0 < sp -> 0 <= (inject_Z t' - inject_Z t) / sp.
Proof.
  intros Hle Hsp. apply Qle_shift_div_l; [exact Hsp|].
  rewrite Zle_Qle in Hle. lra.
Qed.

Lemma next_on_schedule (c c0 : Q) (t0 t t' : Z) (sp : Q) :
  (t <= t')%Z -> 0 < sp -> c == scheduledAt c0 t0 sp t ->
  Qmax c (c + Qmax 0 ((inject_Z t' - inject_Z t) / sp)) == scheduledAt c0 t0 sp t'.
Proof.
  intros Hle Hsp Hc. rewrite Qmax_due.
  assert (E : Qmax 0 ((inject_Z t' - inject_Z t) / sp) == (inject_Z t' - inject_Z t) / sp)
    by (apply Q.max_r, delay_nonneg; assumption).
  rewrite E, Hc. unfold scheduledAt. field. lra.
Qed.

Lemma play_out_timed (s : RecordingSession JsDate) (c0 : Q) (t0 : Z) (sp : Q)
      (n : nat) (r : Replayer) :
  session r = Some s -> isPlaying r = true -> timers r = ∅ ->
  getSpeed r = sp -> 0 < sp ->
  sortedTimes (drop (getCurrentIndex r) (events s)) = true ->
  (forall e t, events s !! getCurrentIndex r = Some e -> eventTime e = Some t ->
               now r == scheduledAt c0 t0 sp t) ->
  (length (events s) <= getCurrentIndex r + n)%nat ->
  exists r1 ds, processNextEvent enoughFuel r = Some r1 /\
    delivered (drain n r1) = delivered r ++ ds /\
    onSchedule c0 t0 sp ds (drop (getCurrentIndex r) (events s)).
Proof.
  revert r. induction n as [|n IH]; intros r Hs Hp Ht Hsp Hpos Hsort Hnow Hlen;
    destruct (le_lt_dec (length (events s)) (getCurrentIndex r)) as [Hge|Hlt];
    try lia.
  1, 2: eexists; exists []; split; [now apply (processNextEvent_end 1 _ s)|];
    destruct (end_of_playback r s Ht Hge) as (Hd & _ & Hn & _);
    rewrite drain_idle by exact Hn; rewrite Hd, app_nil_r, drop_ge by exact Hge;
    split; [reflexivity|constructor].
  destruct (lookup_lt_is_Some_2 _ _ Hlt) as [e He].
  rewrite (drop_S _ _ _ He) in Hsort |- *.
  destruct (sortedTimes_first _ _ Hsort) as [t Het].
  pose proof (Hnow e t He Het) as Hc.
  destruct (events s !! S (getCurrentIndex r)) as [e'|] eqn:He'.
  - rewrite (drop_S _ _ _ He') in Hsort |- *.
    destruct (sortedTimes_first_two _ _ _ Hsort) as (t1 & t' & Het1 & Het' & Hle).
    rewrite Het in Het1. injection Het1 as <-.
    assert (Hne : ~ getSpeed r == 0) by (rewrite Hsp; lra).
    pose proof (processNextEvent_mid 2 r s e e' Hs Hp He He') as Hstep.
    rewrite (calculateDelay_valid _ _ _ _ _ Het Het' Hne), Hsp in Hstep.
    set (d := Some ((inject_Z t' - inject_Z t) / sp)) in *.
    set (r1 := scheduleNext d (deliver e r)) in *.
    destruct (scheduleNext_spec d (deliver e r))
      as (Hs1 & _ & Hp1 & Hi1 & Hv1 & Hn1 & Hd1 & _).
    destruct (scheduleNext_timers d (deliver e r)) as (Ht1 & _);
      [now apply oneTimer_empty|].
    fold r1 in Hs1, Hp1, Hi1, Hv1, Hn1, Hd1, Ht1.
    set (h := freshId (deliver e r)) in *.
    set (tm := mkTimer (now (deliver e r)) d) in *.
    set (r2 := incrementIndex (expire h tm r1)).
    destruct (IH r2) as (r3 & ds & Hr3 & Hdel & Hsched).
    { change (session r2) with (session r1). now rewrite Hs1. }
    { change (isPlaying r2) with (isPlaying r1). now rewrite Hp1. }
    { change (timers r2) with (delete h (timers r1)).
      rewrite Ht1. apply delete_singleton_eq. }
    { change (getSpeed r2) with (getSpeed r1). now rewrite Hv1. }
    { exact Hpos. }
    { change (getCurrentIndex r2) with (S (getCurrentIndex r1)). rewrite Hi1.
      change (getCurrentIndex (deliver e r)) with (getCurrentIndex r).
      rewrite (drop_S _ _ _ He'). exact (sortedTimes_tail _ _ Hsort). }
    { change (getCurrentIndex r2) with (S (getCurrentIndex r1)). rewrite Hi1.
      change (getCurrentIndex (deliver e r)) with (getCurrentIndex r).
      intros e1 t1 He1 Het1. rewrite He' in He1. injection He1 as <-.
      rewrite Het' in Het1. injection Het1 as <-.
      change (now r2) with (Qmax (now r1) (dueTime tm)). rewrite Hn1.
      change (Qmax (now r) (now r + Qmax 0 ((inject_Z t' - inject_Z t) / sp))
              == scheduledAt c0 t0 sp t').
      now apply next_on_schedule. }
    { change (getCurrentIndex r2) with (S (getCurrentIndex r1)). rewrite Hi1.
      change (getCurrentIndex (deliver e r)) with (getCurrentIndex r). lia. }
    assert (Hfire : fireNext r1 = Some r3).
    { unfold fireNext, fire. rewrite Ht1, map_to_list_singleton.
      now rewrite lookup_singleton_eq. }
    exists r1, ((now r, e) :: ds). split; [exact Hstep|].
    cbn [drain]. rewrite Hfire, Hdel.
    change (delivered r2) with (delivered r1). rewrite Hd1.
    cbn [deliver delivered]. rewrite <- app_assoc. split; [reflexivity|].
    change (getCurrentIndex r2) with (S (getCurrentIndex r1)) in Hsched.
    rewrite Hi1 in Hsched.
    change (getCurrentIndex (deliver e r)) with (getCurrentIndex r) in Hsched.
    rewrite (drop_S _ _ _ He') in Hsched.
    constructor; [|exact Hsched].
    split; [reflexivity|]. exists t. split; [exact Het|exact Hc].
  - pose proof (processNextEvent_last r s e Hs Hp He He') as Hstep.
    cbv zeta in Hstep.
    set (r1 := incrementIndex (deliver e r)) in *.
    apply lookup_ge_None in He'.
    destruct (end_of_playback r1 s) as (Hd & _ & Hn & _); [exact Ht|exact He'|].
    cbv zeta in Hd, Hn. change (optLoop r1) with (optLoop r) in Hd, Hn.
    eexists. exists [(now r, e)]. split; [exact Hstep|].
    rewrite drain_idle by exact Hn. rewrite Hd, drop_ge by exact He'.
    split; [reflexivity|].
    constructor; [|constructor].
    split; [reflexivity|]. exists t. split; [exact Het|exact Hc].
Qed.

(** X6.  Played at a constant positive speed from a replayer that is not
    playing, a session whose events are in chronological order is
    delivered on the recorded rhythm: the event with time value [t] is
    delivered [(t - t0) / speed] milliseconds after [play], where [t0]
    is the time value of the event under the cursor. *)
Theorem playback_keeps_the_recorded_rhythm
        (s : RecordingSession JsDate) (r : Replayer) :
  session r = Some s -> isPlaying r = false -> timers r = ∅ ->
  0 < getSpeed r -> sortedTimes (events s) = true ->
  exists r1 ds, play r = Some r1 /\
    delivered (drain (length (events s)) r1) = delivered r ++ ds /\
    onSchedule (now r) (timeAt s (getCurrentIndex r)) (getSpeed r) ds
               (drop (getCurrentIndex r) (events s)).
Proof.
  intros Hs Hp Ht Hpos Hsort. rewrite (play_starts r s Hs Hp).
  apply (play_out_timed s (now r) (timeAt s (getCurrentIndex r)) (getSpeed r)
                        (length (events s)) (ReplayController.play r));
    try assumption; try reflexivity.
  - now apply sortedTimes_drop.
  - change (getCurrentIndex (ReplayController.play r)) with (getCurrentIndex r).
    change (now (ReplayController.play r)) with (now r).
    intros e t He Het. unfold timeAt, scheduledAt. rewrite He. cbn. rewrite Het. cbn.
    field. lra.
  - change (getCurrentIndex (ReplayController.play r)) with (getCurrentIndex r). lia.
Qed.

Lemma rhythm_of_demo_session :
  exists r1 ds, play demoLoaded = Some r1 /\
    delivered (drain (length (events demoSession)) r1) = delivered demoLoaded ++ ds /\
    onSchedule (now demoLoaded) (timeAt demoSession (getCurrentIndex demoLoaded))
               (getSpeed demoLoaded) ds
               (drop (getCurrentIndex demoLoaded) (events demoSession)).
Proof.
  apply (playback_keeps_the_recorded_rhythm demoSession demoLoaded);
    reflexivity.
Defined.

(** *** The content of the iframe *)

(** X8.  [SessionReplayer.loadSession] never clears what the iframe
    manager holds: in a replayer built without content options, once a
    session recorded with its HTML has been loaded, loading a session
    that has only a URL stores that URL but the iframe is still
    prepared with the HTML of the earlier session. *)
Theorem loadSession_keeps_html_of_earlier_session
        {D : Type} (a b : RecordingSession D) (htmlA urlB src : string) :
  pageHtml a = Some htmlA -> Js.truthy htmlA = true ->
  truthyOpt (pageHtml b) = false ->
  pageUrl b = Some urlB -> Js.truthy urlB = true ->
  let c := loadSessionContent b (loadSessionContent a (newContent "" "")) in
  managerOriginalUrl c = urlB /\ managerContentHtml c = htmlA /\
  IframeManager.prepareIframe src c = LoadHtml htmlA.
Proof.
  intros Ha Hta Hb Hub Htb.
  destruct htmlA as [|x h]; [discriminate|].
  destruct urlB as [|y u]; [discriminate|].
  unfold loadSessionContent, IframeManager.prepareIframe,
    IframeManager.setContentHtml, IframeManager.setOriginalUrl, newContent.
  cbn -[String.eqb]. rewrite Ha, Hb, Hub. cbn -[String.eqb]. auto.
Qed.

Lemma earlier_html_on_demo_sessions :
  let c := loadSessionContent demoUrlSession
             (loadSessionContent demoHtmlSession (newContent "" "")) in
  managerOriginalUrl c = "https://example.org/b"%string /\
  managerContentHtml c = "<html>A</html>"%string /\
  IframeManager.prepareIframe "about:blank" c = LoadHtml "<html>A</html>".
Proof.
  apply (loadSession_keeps_html_of_earlier_session
           demoHtmlSession demoUrlSession "<html>A</html>" "https://example.org/b"
           "about:blank"); reflexivity.
Defined.

End ReplayProps.

(* ===================================================================== *)
(** ** Properties of the capture pipeline *)
(* ===================================================================== *)

Module CaptureProps.
Import Js Artifact Capture.

Local Open Scope Q_scope.

(** *** The throttle gate *)

Lemma Qle_bool_proper (a a' b b' : Q) :
  a == a' -> b == b' -> Qle_bool a b = Qle_bool a' b'.
Proof.
  intros Ha Hb.
  destruct (Qle_bool a b) eqn:E, (Qle_bool a' b') eqn:E'; try reflexivity.
  - apply Qle_bool_iff in E. rewrite Ha, Hb in E. apply Qle_bool_iff in E. congruence.
  - apply Qle_bool_iff in E'. rewrite <- Ha, <- Hb in E'. apply Qle_bool_iff in E'.
    congruence.
Qed.

Lemma advanceTo_idle (k : string) (t : Q) (p : Page) :
  idleFor k p -> idleFor k (advanceTo t p).
Proof.
  intros [Hp Hk]. unfold idleFor, advanceTo. cbn. rewrite Hp. cbn. auto.
Qed.

Lemma advanceTo_open (k : string) (d t : Q) (p : Page) :
  openFor k d p ->
  if Qle_bool d t then idleFor k (advanceTo t p) else openFor k d (advanceTo t p).
Proof.
  intros (h & Hp & Hk). unfold idleFor, openFor, advanceTo. cbn. rewrite Hp.
  cbn. unfold isDue. cbn. destruct (Qle_bool d t); cbn.
  - split; [reflexivity|]. apply lookup_delete_eq.
  - exists h. auto.
Qed.

Lemma throttle_idle (k : string) (W : Q) (p : Page) :
  idleFor k p ->
  exists p1, throttle k W p = (true, p1) /\
             openFor k (clock p + Qmax 0 W) p1 /\
             emitted p1 = emitted p /\ clock p1 = clock p.
Proof.
  intros [Hp Hk]. unfold throttle. rewrite Hk. eexists. split; [reflexivity|].
  unfold openFor. cbn. rewrite Hp. split; [|auto].
  eexists. split; [reflexivity|]. apply lookup_insert_eq.
Qed.

Lemma throttle_open (k : string) (W d : Q) (p : Page) :
  openFor k d p -> throttle k W p = (false, p).
Proof. intros (h & _ & Hk). unfold throttle. now rewrite Hk. Qed.

(** One signal at time [t], from a page that agrees with the worded
    gate: the handler decides as the worded gate does, and the page
    agrees with the worded gate afterwards. *)
Lemma gatedHandler_step (k : string) (W t : Q) (out : option (EventType * EventData))
      (ou : option Q) (p : Page) :
  gateState k ou p -> clock p <= t ->
  let p' := gatedHandler k W out (advanceTo t p) in
  clock p' <= t /\
  match ou with
  | Some limit =>
      if Qle_bool limit t
      then gateState k (Some (t + Qmax 0 W)) p' /\ emitted p' = emitted p ++ outList out
      else gateState k ou p' /\ emitted p' = emitted p
  | None => gateState k (Some (t + Qmax 0 W)) p' /\ emitted p' = emitted p ++ outList out
  end.
Proof.
  intros Hst Hclock. cbv zeta.
  assert (Hmax : Qmax (clock p) t == t) by now apply Q.max_r.
  assert (Hidle : idleFor k (advanceTo t p) ->
                  let p' := gatedHandler k W out (advanceTo t p) in
                  clock p' <= t /\
                  gateState k (Some (t + Qmax 0 W)) p' /\
                  emitted p' = emitted p ++ outList out).
  { intros Hi. cbv zeta. unfold gatedHandler.
    destruct (throttle_idle k W _ Hi) as (p1 & -> & Ho & He & Hc). cbn [negb].
    assert (Hc1 : clock p1 <= t) by (rewrite Hc; cbn; rewrite Hmax; apply Qle_refl).
    assert (Hg : gateState k (Some (t + Qmax 0 W)) p1).
    { eexists. split; [|exact Ho]. cbn. now rewrite Hmax. }
    destruct out as [[ty d]|]; cbn [outList].
    - split; [exact Hc1|]. split.
      + destruct Hg as (d0 & Hd0 & h & Hp1 & Hk1). exists d0. split; [exact Hd0|].
        exists h. auto.
      + cbn. now rewrite He.
    - split; [exact Hc1|]. split; [exact Hg|]. rewrite He. cbn. now rewrite app_nil_r. }
  destruct ou as [limit|].
  - destruct Hst as (d & Hd & Ho).
    pose proof (advanceTo_open k d t p Ho) as Ha.
    rewrite (Qle_bool_proper limit d t t) by (try symmetry; auto with qarith).
    destruct (Qle_bool d t).
    + destruct (Hidle Ha) as (H1 & H2 & H3). auto.
    + unfold gatedHandler. rewrite (throttle_open k W d _ Ha). cbn [negb].
      split; [cbn; rewrite Hmax; apply Qle_refl|].
      split; [|reflexivity]. exists d. auto.
  - destruct (Hidle (advanceTo_idle k t p Hst)) as (H1 & H2 & H3). auto.
Qed.

Lemma selected_cons_true {A : Type} (marks : list bool) (o : option A)
      (outs : list (option A)) :
  selected (true :: marks) (o :: outs) =
  match o with Some a => [a] | None => [] end ++ selected marks outs.
Proof. destruct o; reflexivity. Qed.

Lemma selected_cons_false {A : Type} (marks : list bool) (o : option A)
      (outs : list (option A)) :
  selected (false :: marks) (o :: outs) = selected marks outs.
Proof. destruct o; reflexivity. Qed.

(** A whole run: the callback log grows by what the signals marked by
    the worded gate record. *)
Lemma gatedRun_emitted {A : Type} (k : string) (W : Q)
      (outf : A -> option (EventType * EventData)) (signals : list (Q * A)) :
  forall (ou : option Q) (p : Page) (from : Q),
    gateState k ou p -> clock p <= from ->
    ascending from (map fst signals) = true ->
    emitted (gatedRun k W outf signals p) =
    emitted p ++ selected (gate W ou (map fst signals))
                          (map (fun s => outf (snd s)) signals).
Proof.
  induction signals as [|[t a] rest IH]; intros ou p from Hst Hclock Hasc.
  - cbn. now rewrite app_nil_r.
  - cbn [map fst snd ascending] in Hasc.
    apply andb_prop in Hasc as [Hft Hrest].
    assert (Hle : from <= t).
    { destruct (Qle_bool from t) eqn:E; [now apply Qle_bool_iff|discriminate]. }
    assert (Hct : clock p <= t) by (eapply Qle_trans; eauto).
    pose proof (gatedHandler_step k W t (outf a) ou p Hst Hct) as Hstep.
    cbv zeta in Hstep. destruct Hstep as [Hc' Hstep].
    unfold gatedRun. cbn [fold_left fst snd map gate].
    set (p' := gatedHandler k W (outf a) (advanceTo t p)) in *.
    fold (gatedRun k W outf rest p').
    destruct ou as [limit|].
    + destruct (Qle_bool limit t).
      * destruct Hstep as [Hg He].
        rewrite (IH _ p' t Hg Hc' Hrest), He, selected_cons_true.
        unfold outList. now rewrite <- app_assoc.
      * destruct Hstep as [Hg He].
        rewrite (IH _ p' t Hg Hc' Hrest), He, selected_cons_false. reflexivity.
    + destruct Hstep as [Hg He].
      rewrite (IH _ p' t Hg Hc' Hrest), He, selected_cons_true.
      unfold outList. now rewrite <- app_assoc.
Qed.

Lemma handleMouseMove_gated (m : string -> Element -> bool) (o : HandlerOptions)
      (e : MouseSignal) (p : Page) :
  handleMouseMove m o e p =
  gatedHandler "mousemove" (throttleMouseMove o) (moveOutput m o e) p.
Proof.
  unfold handleMouseMove, gatedHandler, moveOutput.
  destruct (throttle "mousemove" (throttleMouseMove o) p) as [[|] p1]; cbn [negb];
    [|reflexivity].
  now destruct (excluded m o (mouseTarget e)).
Qed.

Lemma handleScroll_gated (x y : Q) (p : Page) :
  handleScroll x y p = gatedHandler "scroll" 100 (scrollOutput (x, y)) p.
Proof.
  unfold handleScroll, gatedHandler, scrollOutput.
  now destruct (throttle "scroll" 100 p) as [[|] p1].
Qed.

Lemma recordMoves_gated (m : string -> Element -> bool) (o : HandlerOptions)
      (signals : list (Q * MouseSignal)) (p : Page) :
  recordMoves m o signals p =
  gatedRun "mousemove" (throttleMouseMove o) (moveOutput m o) signals p.
Proof.
  revert p. induction signals as [|s rest IH]; intros p; [reflexivity|].
  unfold recordMoves, gatedRun in *. cbn [fold_left].
  unfold moveAt at 2. rewrite handleMouseMove_gated. apply IH.
Qed.

Lemma recordScrolls_gated (signals : list (Q * (Q * Q))) (p : Page) :
  recordScrolls signals p = gatedRun "scroll" 100 scrollOutput signals p.
Proof.
  revert p. induction signals as [|[t [x y]] rest IH]; intros p; [reflexivity|].
  unfold recordScrolls, gatedRun in *. cbn [fold_left].
  unfold scrollAt at 2. cbn [fst snd]. rewrite handleScroll_gated. apply IH.
Qed.

Lemma handleResize_gated (w : WindowSize) (p : Page) :
  handleResize w p = gatedHandler "resize" 100 (resizeOutput w) p.
Proof.
  unfold handleResize, gatedHandler, resizeOutput.
  now destruct (throttle "resize" 100 p) as [[|] p1].
Qed.

Lemma recordResizes_gated (signals : list (Q * WindowSize)) (p : Page) :
  recordResizes signals p = gatedRun "resize" 100 resizeOutput signals p.
Proof.
  revert p. induction signals as [|[t w] rest IH]; intros p; [reflexivity|].
  unfold recordResizes, gatedRun in *. cbn [fold_left].
  unfold resizeAt at 2. cbn [fst snd]. rewrite handleResize_gated. apply IH.
Qed.

(** Inside the window opened at [t0] the worded gate lets nothing
    through. *)
Lemma gate_closed_in_window (W t0 : Q) (times : list Q) :
  withinWindow t0 W times = true ->
  gate W (Some (t0 + Qmax 0 W)) times = repeat false (length times).
Proof.
  induction times as [|t rest IH]; intros Hw; [reflexivity|].
  cbn [withinWindow forallb] in Hw. apply andb_prop in Hw as [Ht Hrest].
  cbn [gate length repeat].
  assert (Hclosed : Qle_bool (t0 + Qmax 0 W) t = false).
  { destruct (Qle_bool (t0 + Qmax 0 W) t) eqn:E; [|reflexivity].
    apply Qle_bool_iff in E.
    destruct (Qle_bool (t0 + W) t) eqn:E'; [discriminate|].
    assert (t0 + W <= t); [|apply Qle_bool_iff in H; congruence].
    pose proof (Q.le_max_r 0 W). lra. }
  rewrite Hclosed. f_equal. now apply IH.
Qed.

Lemma selected_all_false {A : Type} (outs : list (option A)) :
  selected (repeat false (length outs)) outs = [].
Proof.
  induction outs as [|o outs IH]; [reflexivity|].
  cbn [length repeat]. now rewrite selected_cons_false.
Qed.

Lemma newPage_idle (k : string) (t0 : Q) : gateState k None (newPage t0).
Proof. split; [reflexivity|]. apply lookup_empty. Qed.

(** A burst through a gated handler: only the first signal can record
    anything. *)
Lemma gatedRun_burst {A : Type} (k : string) (W : Q)
      (outf : A -> option (EventType * EventData))
      (c0 t0 : Q) (a0 : A) (rest : list (Q * A)) :
  c0 <= t0 -> ascending t0 (map fst rest) = true ->
  withinWindow t0 W (map fst rest) = true ->
  emitted (gatedRun k W outf ((t0, a0) :: rest) (newPage c0)) = outList (outf a0).
Proof.
  intros Hc Hasc Hw.
  rewrite (gatedRun_emitted k W outf _ None (newPage c0) c0 (newPage_idle k c0)).
  - cbn [map fst snd gate emitted newPage app].
    rewrite selected_cons_true, (gate_closed_in_window _ _ _ Hw).
    replace (length (map fst rest)) with (length (map (fun s => outf (snd s)) rest))
      by now rewrite !length_map.
    rewrite selected_all_false, app_nil_r. reflexivity.
  - apply Qle_refl.
  - cbn [map fst ascending]. rewrite Hasc.
    apply Qle_bool_iff in Hc. now rewrite Hc.
Qed.




(** *** Element descriptors *)

Example getElementInfo_stops_at_id :
  getElementInfo demoPasswordInput =
  mkElementInfo "input" (Some "pw") (Some "field") (Some "input#pw").
Proof. reflexivity. Qed.

Example getElementInfo_nth_of_type :
  getElementInfo
    (mkElement "LI" "" "" "" false 4 2
       (Some (mkElement "UL" "" "menu  top" "" false 1 0
                (Some (mkElement "BODY" "" "" "" true 1 0 None))))) =
  mkElementInfo "li" None None (Some "ul.menu.top > li:nth-of-type(3)").
Proof. reflexivity. Qed.

(** *** Masking of password input *)

(** C5.  A keydown on a password input that is not excluded records a
    KEY_DOWN event whose key is the placeholder and whose key code is 0;
    the page after the handler does not depend on the key that was
    pressed: two signals that differ only in [key] and [keyCode] leave
    the same page, hence the same recorded payload. *)
Theorem password_keydown_is_masked
        (matchesSelector : string -> Element -> bool) (o : HandlerOptions)
        (e : KeyboardSignal) (target : Element) (p : Page) :
  keyTarget e = Some target ->
  isPasswordInput target = true ->
  excluded matchesSelector o (Some target) = false ->
  emitted (handleKeyDown matchesSelector o e p) =
    emitted p ++ [(KEY_DOWN,
                   KeyboardEventData "*" 0 (modifiersOf e)
                                     (Some (getElementInfo target)))] /\
  forall (key' : string) (keyCode' : Z),
    handleKeyDown matchesSelector o
                  (mkKeyboardSignal key' keyCode' (ctrlKey e) (altKey e)
                                    (shiftKey e) (metaKey e) (keyTarget e)) p =
    handleKeyDown matchesSelector o e p.
Proof.
  intros Ht Hpw Hex. unfold handleKeyDown. cbn [keyTarget].
  rewrite Ht, Hex, Hpw. split; reflexivity.
Qed.

Lemma password_keydown_on_demo_input :
  emitted (handleKeyDown demoMatches demoOptions
             (mkKeyboardSignal "s" 83 false false true false (Some demoPasswordInput))
             (newPage 0)) =
  [(KEY_DOWN,
    KeyboardEventData "*" 0 (mkModifiers false false true false)
      (Some (mkElementInfo "input" (Some "pw") (Some "field") (Some "input#pw"))))].
Proof.
  exact (proj1 (password_keydown_is_masked demoMatches demoOptions
                 (mkKeyboardSignal "s" 83 false false true false (Some demoPasswordInput))
                 demoPasswordInput (newPage 0) eq_refl eq_refl eq_refl)).
Defined.

(** *** Exclusion *)

Lemma closest_ancestors (m : string -> Element -> bool) (sel : string) :
  forall el, closest m sel el = existsb (m sel) (ancestorsOrSelf el).
Proof.
  fix IH 1. intros [tn i c ty b n k [parent|]]; cbn [closest ancestorsOrSelf existsb].
  - now rewrite IH.
  - reflexivity.
Qed.

Lemma excluded_inside (m : string -> Element -> bool) (o : HandlerOptions)
      (el a : Element) (sel : string) :
  In sel (excludeElements o) -> In a (ancestorsOrSelf el) -> m sel a = true ->
  shouldExcludeElement m (excludeElements o) el = true.
Proof.
  intros Hsel Ha Hm. unfold shouldExcludeElement. apply existsb_exists.
  exists sel. split; [exact Hsel|]. rewrite closest_ancestors.
  apply orb_true_iff. right. apply existsb_exists. eauto.
Qed.

Lemma throttle_emitted (k : string) (d : Q) (p : Page) :
  emitted (snd (throttle k d p)) = emitted p.
Proof.
  unfold throttle. now destruct (throttleTimers p !! k).
Qed.

(** X14.  An event aimed at an element that matches one of the
    [excludeElements] selectors, or that lies inside such an element,
    records nothing, whichever handler receives it: click, mouse move,
    key down, key up, form submission, mouse over or mouse out. *)
Theorem excluded_subtree_is_never_recorded
        (matchesSelector : string -> Element -> bool) (o : HandlerOptions)
        (ev : DomEvent) (el a : Element) (sel : string) (p : Page) :
  targetOf ev = Some el ->
  In sel (excludeElements o) -> In a (ancestorsOrSelf el) ->
  matchesSelector sel a = true ->
  emitted (dispatch matchesSelector o ev p) = emitted p.
Proof.
  intros Ht Hsel Ha Hm.
  pose proof (excluded_inside matchesSelector o el a sel Hsel Ha Hm) as Hx.
  destruct ev as [e|x y|e|e|e|r h t|form action|w|e|e]; cbn [targetOf] in Ht;
    try discriminate; cbn [dispatch].
  - unfold handleMouseClick, excluded. now rewrite Ht, Hx.
  - destruct (captureMouseMove o); [|reflexivity].
    unfold handleMouseMove, excluded. rewrite Ht, Hx.
    pose proof (throttle_emitted "mousemove" (throttleMouseMove o) p) as He.
    destruct (throttle "mousemove" (throttleMouseMove o) p) as [[|] p1]; exact He.
  - unfold handleKeyDown, excluded. now rewrite Ht, Hx.
  - unfold handleKeyUp, excluded. now rewrite Ht, Hx.
  - unfold handleFormSubmit. now rewrite Ht, Hx.
  - unfold handleMouseOver, excluded. now rewrite Ht, Hx.
  - unfold handleMouseOut, excluded. now rewrite Ht, Hx.
Qed.

Lemma click_inside_excluded_element :
  emitted (dispatch demoMatches demoOptions
             (Click (mkMouseSignal 5 5 0 (Some (demoDiv "no-record")))) (newPage 0)) =
  emitted (newPage 0).
Proof.
  apply (excluded_subtree_is_never_recorded
           demoMatches demoOptions _ (demoDiv "no-record") (demoDiv "no-record")
           ".no-record").
  - reflexivity.
  - left. reflexivity.
  - left. reflexivity.
  - reflexivity.
Defined.

(** *** What a run of events records *)

Lemma advanceTo_emitted (t : Q) (p : Page) : emitted (advanceTo t p) = emitted p.
Proof. reflexivity. Qed.

(** One event records nothing or one event; a key aimed at a password
    input records at most the placeholder, and without the
    [captureMouseMove] option nothing is a mouse move. *)
Lemma dispatch_emits (m : string -> Element -> bool) (o : HandlerOptions)
      (ev : DomEvent) (p : Page) :
  exists l, emitted (dispatch m o ev p) = emitted p ++ l /\
    (keysGoToPasswords ev = true -> forallb masked l = true) /\
    (captureMouseMove o = false -> forallb (fun x => negb (isMouseMove x)) l = true).
Proof.
  assert (Hnil : forall (q : Page) (A B : Prop), emitted q = emitted p ->
            exists l, emitted q = emitted p ++ l /\
              (A -> forallb masked l = true) /\
              (B -> forallb (fun x => negb (isMouseMove x)) l = true)).
  { intros q A B Hq. exists []. now rewrite app_nil_r. }
  destruct ev as [e|x y|e|e|e|r h t|form action|w|e|e]; cbn [dispatch keysGoToPasswords].
  - unfold handleMouseClick. destruct (excluded m o (mouseTarget e)); [now apply Hnil|].
    eexists [_]. split; [reflexivity|]. split; reflexivity.
  - unfold handleScroll.
    pose proof (throttle_emitted "scroll" 100 p) as He.
    destruct (throttle "scroll" 100 p) as [[|] p1]; cbn [negb snd] in *;
      [|now apply Hnil].
    eexists [_]. cbn [emit emitted]. rewrite He. split; [reflexivity|].
    split; reflexivity.
  - destruct (captureMouseMove o) eqn:Hc; [|now apply Hnil].
    unfold handleMouseMove.
    pose proof (throttle_emitted "mousemove" (throttleMouseMove o) p) as He.
    destruct (throttle "mousemove" (throttleMouseMove o) p) as [[|] p1];
      cbn [negb snd] in *; [|now apply Hnil].
    destruct (excluded m o (mouseTarget e)); [now apply Hnil|].
    eexists [_]. cbn [emit emitted]. rewrite He. split; [reflexivity|].
    split; [reflexivity|discriminate].
  - unfold handleKeyDown. destruct (excluded m o (keyTarget e)); [now apply Hnil|].
    destruct (keyTarget e) as [target|]; [|now apply Hnil].
    destruct (isPasswordInput target).
    + eexists [_]. split; [reflexivity|]. split; reflexivity.
    + eexists [_]. split; [reflexivity|]. split; [discriminate|reflexivity].
  - unfold handleKeyUp. destruct (excluded m o (keyTarget e)); [now apply Hnil|].
    destruct (keyTarget e) as [target|]; [|now apply Hnil].
    destruct (isPasswordInput target); [now apply Hnil|].
    eexists [_]. split; [reflexivity|]. split; [discriminate|reflexivity].
  - eexists [_]. split; [reflexivity|]. split; reflexivity.
  - unfold handleFormSubmit. destruct form as [f|]; [|now apply Hnil].
    destruct (shouldExcludeElement m (excludeElements o) f); [now apply Hnil|].
    eexists [_]. split; [reflexivity|]. split; reflexivity.
  - unfold handleResize.
    pose proof (throttle_emitted "resize" 100 p) as He.
    destruct (throttle "resize" 100 p) as [[|] p1]; cbn [negb snd] in *;
      [|now apply Hnil].
    eexists [_]. cbn [emit emitted]. rewrite He. split; [reflexivity|].
    split; reflexivity.
  - unfold handleMouseOver. destruct (excluded m o (mouseTarget e)); [now apply Hnil|].
    eexists [_]. split; [reflexivity|]. split; reflexivity.
  - unfold handleMouseOut. destruct (excluded m o (mouseTarget e)); [now apply Hnil|].
    eexists [_]. split; [reflexivity|]. split; reflexivity.
Qed.

Lemma recordEvents_emits (m : string -> Element -> bool) (o : HandlerOptions)
      (evs : list (Q * DomEvent)) (p : Page) :
  exists l, emitted (recordEvents m o evs p) = emitted p ++ l /\
    (forallb keysGoToPasswords (map snd evs) = true -> forallb masked l = true) /\
    (captureMouseMove o = false -> forallb (fun x => negb (isMouseMove x)) l = true).
Proof.
  revert p. induction evs as [|[t ev] evs IH]; intros p.
  - exists []. cbn. now rewrite app_nil_r.
  - cbn [recordEvents fold_left]. fold (recordEvents m o evs (eventAt m o p (t, ev))).
    destruct (IH (eventAt m o p (t, ev))) as (l2 & He2 & Hk2 & Hm2).
    unfold eventAt in He2. cbn [fst snd] in He2.
    destruct (dispatch_emits m o ev (advanceTo t p)) as (l1 & He1 & Hk1 & Hm1).
    rewrite advanceTo_emitted in He1.
    exists (l1 ++ l2). unfold eventAt. cbn [fst snd].
    rewrite He2, He1, <- app_assoc. split; [reflexivity|]. split.
    + cbn [map snd forallb]. intros H. apply andb_prop in H as [H1 H2].
      rewrite forallb_app, (Hk1 H1), (Hk2 H2). reflexivity.
    + intros H. rewrite forallb_app, (Hm1 H), (Hm2 H). reflexivity.
Qed.

(** X15.  Whatever else happens on the page, as long as the keys typed
    go to password inputs, no recorded event carries a key: every
    keyboard event recorded has the key ["*"] and the key code 0 (key
    releases in a password input are not recorded at all). *)
Theorem password_keys_never_reach_the_recording
        (matchesSelector : string -> Element -> bool) (o : HandlerOptions)
        (evs : list (Q * DomEvent)) (c0 : Q) :
  forallb keysGoToPasswords (map snd evs) = true ->
  forallb masked (emitted (recordEvents matchesSelector o evs (newPage c0))) = true.
Proof.
  intros H.
  destruct (recordEvents_emits matchesSelector o evs (newPage c0)) as (l & -> & Hk & _).
  now apply Hk.
Qed.

Lemma password_keys_in_demo_events :
  forallb masked (emitted (recordEvents demoMatches demoOptions demoEvents (newPage 0)))
  = true.
Proof.
  apply (password_keys_never_reach_the_recording demoMatches demoOptions demoEvents 0).
  reflexivity.
Defined.

(** X18.  Without the [captureMouseMove] option no mouse move is ever
    recorded, whatever events the page sees. *)
Theorem no_mouse_move_without_the_option
        (matchesSelector : string -> Element -> bool) (o : HandlerOptions)
        (evs : list (Q * DomEvent)) (c0 : Q) :
  captureMouseMove o = false ->
  forallb (fun x => negb (isMouseMove x))
          (emitted (recordEvents matchesSelector o evs (newPage c0))) = true.
Proof.
  intros H.
  destruct (recordEvents_emits matchesSelector o evs (newPage c0)) as (l & -> & _ & Hm).
  now apply Hm.
Qed.

Lemma no_mouse_move_in_demo_events :
  forallb (fun x => negb (isMouseMove x))
          (emitted (recordEvents demoMatches
                      (mkHandlerOptions false 50 [".no-record"]%string)
                      demoEvents (newPage 0))) = true.
Proof.
  apply (no_mouse_move_without_the_option
           demoMatches (mkHandlerOptions false 50 [".no-record"]%string) demoEvents 0).
  reflexivity.
Defined.

(** *** The path of an element *)

Lemma pathLoop_step (room : nat) (el : Element) (path : list string) :
  pathLoop (S room) (Some el) path =
  if isBody el then path
  else if truthy (elemId el)
       then (toLowerCase (tagName el) +:+ "#" +:+ elemId el) :: path
       else pathLoop room (parentElement el) (stepSelector el :: path).
Proof. reflexivity. Qed.

Lemma pathLoop_acc (room : nat) (cur : option Element) (path : list string) :
  pathLoop room cur path = pathLoop room cur [] ++ path.
Proof.
  revert cur path. induction room as [|room IH]; intros [el|] path;
    cbn [pathLoop]; try reflexivity.
  destruct (isBody el); [reflexivity|].
  destruct (truthy (elemId el)); [reflexivity|].
  rewrite IH, (IH _ [stepSelector el]). now rewrite <- app_assoc.
Qed.

Lemma pathLoop_length (room : nat) (cur : option Element) :
  (length (pathLoop room cur []) <= room)%nat.
Proof.
  revert cur. induction room as [|room IH]; intros [el|]; cbn [pathLoop length];
    try lia.
  destruct (isBody el); [cbn; lia|].
  destruct (truthy (elemId el)); [cbn; lia|].
  rewrite pathLoop_acc, length_app. cbn [length]. specialize (IH (parentElement el)). lia.
Qed.

(** X16.  The path written for an element other than the body ends with
    the selector of the element itself, preceded by the selectors of at
    most four ancestors; it has no other selector when the element has
    an id. *)
Theorem element_path_ends_with_own_selector (el : Element) :
  isBody el = false ->
  exists front,
    getElementPath el = join " > " (front ++ [ownSelector el]) /\
    (length front <= 4)%nat /\
    (truthy (elemId el) = true -> front = []).
Proof.
  intros Hb. unfold getElementPath, ownSelector.
  rewrite (pathLoop_step 4), Hb.
  destruct (truthy (elemId el)).
  - exists []. split; [reflexivity|]. split; [cbn; lia|reflexivity].
  - exists (pathLoop 4 (parentElement el) []).
    split; [now rewrite pathLoop_acc|]. split; [apply pathLoop_length|discriminate].
Qed.

Lemma path_of_demo_password_input :
  exists front,
    getElementPath demoPasswordInput = join " > " (front ++ [ownSelector demoPasswordInput]) /\
    (length front <= 4)%nat /\
    (truthy (elemId demoPasswordInput) = true -> front = []).
Proof.
  apply (element_path_ends_with_own_selector demoPasswordInput). reflexivity.
Defined.

(** *** Throttle entries and their timeouts *)

Lemma runExpired_lookup (ts : list Timeout) (m : gmap string positive) (k : string) :
  ~ In k (map eventTypeKey ts) -> runExpired ts m !! k = m !! k.
Proof.
  revert m. induction ts as [|t ts IH]; intros m Hk; [reflexivity|].
  cbn [runExpired fold_left]. fold (runExpired ts (delete (eventTypeKey t) m)).
  cbn [map] in Hk. rewrite IH by (intros H; apply Hk; now right).
  apply lookup_delete_ne. intros E. apply Hk. now left.
Qed.

Lemma NoDup_map_same {A B : Type} (f : A -> B) (l : list A) (x y : A) :
  List.NoDup (map f l) -> In x l -> In y l -> f x = f y -> x = y.
Proof.
  induction l as [|z l IH]; intros Hn Hx Hy E; [destruct Hx|].
  cbn [map] in Hn. inversion Hn as [|? ? Hz Hn']; subst.
  destruct Hx as [->|Hx], Hy as [->|Hy].
  - reflexivity.
  - exfalso. apply Hz. rewrite E. now apply in_map.
  - exfalso. apply Hz. rewrite <- E. now apply in_map.
  - now apply IH.
Qed.

Lemma NoDup_map_filter {A B : Type} (f : A -> B) (P : A -> bool) (l : list A) :
  List.NoDup (map f l) -> List.NoDup (map f (List.filter P l)).
Proof.
  induction l as [|z l IH]; intros Hn; [constructor|].
  cbn [map] in Hn. inversion Hn as [|? ? Hz Hn']; subst.
  cbn [List.filter]. destruct (P z); [|now apply IH].
  cbn [map]. constructor; [|now apply IH].
  intros Hin. apply Hz. apply in_map_iff in Hin as (x & Hx & Hin).
  apply filter_In in Hin as [Hin _]. rewrite <- Hx. now apply in_map.
Qed.

Lemma newPage_consistent (c0 : Q) : throttlesConsistent (newPage c0).
Proof. split; constructor. Qed.

Lemma throttle_consistent (k : string) (d : Q) (p : Page) :
  throttlesConsistent p -> throttlesConsistent (snd (throttle k d p)).
Proof.
  intros [Hf Hn]. unfold throttle.
  destruct (throttleTimers p !! k) eqn:Hk; [now split|].
  cbn [snd]. split; cbn [pending throttleTimers].
  - apply Forall_app. split.
    + eapply Forall_impl; [exact Hf|]. intros t Ht. cbn beta in Ht.
      rewrite lookup_insert_ne; [exact Ht|]. intros E. rewrite <- E, Hk in Ht.
      discriminate.
    + constructor; [|constructor]. cbn. apply lookup_insert_eq.
  - rewrite map_app. apply NoDup_app. split; [exact Hn|]. split.
    + intros x Hx Hin. apply list_elem_of_singleton in Hin. cbn in Hin. subst x.
      apply list_elem_of_In, in_map_iff in Hx as (t & Ht & Hin).
      rewrite List.Forall_forall in Hf. specialize (Hf t Hin). cbn beta in Hf.
      rewrite Ht, Hk in Hf. discriminate.
    + apply NoDup_singleton.
Qed.

Lemma advanceTo_consistent (t : Q) (p : Page) :
  throttlesConsistent p -> throttlesConsistent (advanceTo t p).
Proof.
  intros [Hf Hn]. apply NoDup_ListNoDup in Hn.
  rewrite List.Forall_forall in Hf.
  split; cbn [advanceTo pending throttleTimers].
  - apply List.Forall_forall. intros x Hx.
    apply filter_In in Hx as [Hx Hdue].
    rewrite runExpired_lookup; [now apply Hf|].
    intros Hin. apply in_map_iff in Hin as (y & Hy & Hin).
    apply filter_In in Hin as [Hin Hy'].
    rewrite (NoDup_map_same eventTypeKey (pending p) y x Hn Hin Hx Hy) in Hy'.
    rewrite Hy' in Hdue. discriminate.
  - apply NoDup_ListNoDup. now apply NoDup_map_filter.
Qed.

Lemma dispatch_consistent (m : string -> Element -> bool) (o : HandlerOptions)
      (ev : DomEvent) (p : Page) :
  throttlesConsistent p -> throttlesConsistent (dispatch m o ev p).
Proof.
  intros H.
  assert (Hemit : forall ty d q, throttlesConsistent q -> throttlesConsistent (emit ty d q))
    by (intros ty d q Hq; exact Hq).
  destruct ev as [e|x y|e|e|e|r h t|form action|w|e|e]; cbn [dispatch].
  - unfold handleMouseClick. destruct (excluded m o (mouseTarget e)); auto.
  - unfold handleScroll. pose proof (throttle_consistent "scroll" 100 p H) as Ht.
    destruct (throttle "scroll" 100 p) as [[|] p1]; cbn [negb snd] in *; auto.
  - destruct (captureMouseMove o); [|exact H]. unfold handleMouseMove.
    pose proof (throttle_consistent "mousemove" (throttleMouseMove o) p H) as Ht.
    destruct (throttle "mousemove" (throttleMouseMove o) p) as [[|] p1];
      cbn [negb snd] in *; auto.
    destruct (excluded m o (mouseTarget e)); auto.
  - unfold handleKeyDown. destruct (excluded m o (keyTarget e)); auto.
    destruct (keyTarget e) as [target|]; auto.
    destruct (isPasswordInput target); auto.
  - unfold handleKeyUp. destruct (excluded m o (keyTarget e)); auto.
    destruct (keyTarget e) as [target|]; auto.
    destruct (isPasswordInput target); auto.
  - apply Hemit, H.
  - unfold handleFormSubmit. destruct form as [f|]; auto.
    destruct (shouldExcludeElement m (excludeElements o) f); auto.
  - unfold handleResize. pose proof (throttle_consistent "resize" 100 p H) as Ht.
    destruct (throttle "resize" 100 p) as [[|] p1]; cbn [negb snd] in *; auto.
  - unfold handleMouseOver. destruct (excluded m o (mouseTarget e)); auto.
  - unfold handleMouseOut. destruct (excluded m o (mouseTarget e)); auto.
Qed.

Lemma recordEvents_consistent (m : string -> Element -> bool) (o : HandlerOptions)
      (evs : list (Q * DomEvent)) (p : Page) :
  throttlesConsistent p -> throttlesConsistent (recordEvents m o evs p).
Proof.
  revert p. induction evs as [|[t ev] evs IH]; intros p H; [exact H|].
  cbn [recordEvents fold_left]. apply IH. unfold eventAt.
  apply dispatch_consistent, advanceTo_consistent, H.
Qed.

(** X17.  However the recording went, [removeEventListeners] leaves no
    throttle timeout pending and no throttle entry, keeps what was
    recorded, and the gate of every kind of event is open again. *)
Theorem removing_listeners_leaves_no_timeout
        (matchesSelector : string -> Element -> bool) (o : HandlerOptions)
        (evs : list (Q * DomEvent)) (c0 : Q) :
  let p := recordEvents matchesSelector o evs (newPage c0) in
  pending (removeEventListeners p) = [] /\
  throttleTimers (removeEventListeners p) = ∅ /\
  emitted (removeEventListeners p) = emitted p /\
  forall k d, fst (throttle k d (removeEventListeners p)) = true.
Proof.
  intros p.
  assert (H : throttlesConsistent p)
    by apply recordEvents_consistent, newPage_consistent.
  destruct H as [Hf _].
  split; [|split; [reflexivity|split; [reflexivity|]]].
  - unfold removeEventListeners, clearThrottles. cbn [pending].
    induction Hf as [|t l Ht _ IH]; [reflexivity|].
    rewrite filter_cons_False; [exact IH|]. intros Hne. now apply Hne.
  - intros k d. unfold removeEventListeners, clearThrottles, throttle.
    cbn [throttleTimers]. now rewrite lookup_empty.
Qed.

End CaptureProps.

(* ===================================================================== *)
(** ** Properties of the player and of the resource helper *)
(* ===================================================================== *)

Module PlayerProps.
Import Artifact Player.

(** C9.  When both dates are present, the duration computed on load is
    the start time minus the end time; for a session that ended after it
    started this is the negative of the elapsed time, not the elapsed
    time. *)
Theorem duration_is_start_minus_end
        (session : LoadedSession) (st en : Z) :
  startTime session = Some (ValidDate st) ->
  endTime session = Some (ValidDate en) ->
  loadSessionDuration session = Some (st - en) /\
  (st < en ->
   exists d, loadSessionDuration session = Some d /\ d < 0 /\ d = - (en - st)).
Proof.
  intros Hst Hen. unfold loadSessionDuration. rewrite Hst, Hen. cbn.
  split; [reflexivity|]. intros Hlt. exists (st - en). repeat split; lia.
Qed.

Lemma duration_of_demo_session :
  loadSessionDuration demoLoadedSession = Some (-1500).
Proof.
  exact (proj1 (duration_is_start_minus_end demoLoadedSession
                  1700000000000 1700000001500 eq_refl eq_refl)).
Defined.

(** *** The content of the iframe *)

(** X7.  After [SessionPlayer.loadSession(session, originalUrl,
    contentHtml)] the iframe is prepared with the content the priority
    order names: the HTML given, else the URL given, else the session's
    HTML, else the session's URL (a URL is not loaded again when the
    iframe is already there); the choice [SessionReplayer.loadSession]
    makes afterwards never overrides it.  When none of the four is
    present the replayer's own options decide. *)
Theorem player_content_follows_the_priority_order
        {D : Type} (session : RecordingSession D)
        (originalUrl contentHtml : option string) (c : Replay.Content) (src : string) :
  Replay.IframeManager.prepareIframe
    src (loadSessionContent session originalUrl contentHtml c) =
  match contentByPriority session originalUrl contentHtml src with
  | Some load => load
  | None => Replay.IframeManager.prepareIframe src (Replay.loadSessionContent session c)
  end.
Proof.
  unfold loadSessionContent, contentByPriority, loadUrlUnlessThere,
    Replay.loadSessionContent, Replay.IframeManager.prepareIframe,
    Replay.setContentHtml, Replay.setOriginalUrl,
    Replay.IframeManager.setContentHtml, Replay.IframeManager.setOriginalUrl.
  destruct contentHtml as [[|a1 h1]|], originalUrl as [[|a2 h2]|],
    (pageHtml session) as [[|a3 h3]|], (pageUrl session) as [[|a4 h4]|];
    cbn -[String.eqb];
    repeat match goal with
           | |- context [String.eqb ?a ?b] => destruct (String.eqb a b)
           end;
    reflexivity.
Qed.

(** *** The time display and the timeline *)

Lemma padStart_two_digits (s : Z) :
  0 <= s < 60 -> Js.padStart 2 "0" (pretty s) = twoDigits s.
Proof.
  intros H.
  assert (Hall : forallb (fun n => String.eqb (Js.padStart 2 "0" (pretty (Z.of_nat n)))
                                              (twoDigits (Z.of_nat n)))
                         (seq 0 60) = true) by (vm_compute; reflexivity).
  rewrite forallb_forall in Hall. specialize (Hall (Z.to_nat s)).
  rewrite Z2Nat.id in Hall by lia. apply String.eqb_eq, Hall. apply in_seq. lia.
Qed.

Lemma whole_seconds_nonneg (ms : Q) : (0 <= ms)%Q -> 0 <= Qfloor (ms / 1000).
Proof.
  intros H. change 0 with (Qfloor 0). apply Qfloor_resp_le.
  apply Qle_shift_div_l; [reflexivity|]. lra.
Qed.

Lemma whole_seconds_neg (ms : Q) : (ms < 0)%Q -> Qfloor (ms / 1000) < 0.
Proof.
  intros H. rewrite Zlt_Qlt. change (inject_Z 0) with 0%Q.
  eapply Qle_lt_trans; [apply Qfloor_le|].
  apply Qlt_shift_div_r; [reflexivity|]. lra.
Qed.

(** X19.  For a time that is not negative the display shows the whole
    minutes, a colon, and the remaining whole seconds, below 60, in
    exactly two digits. *)
Theorem formatTime_minutes_and_seconds (ms : Q) :
  (0 <= ms)%Q ->
  exists m s,
    0 <= m /\ 0 <= s < 60 /\ 60 * m + s = Qfloor (ms / 1000) /\
    formatTime (Some ms) = pretty m +:+ ":" +:+ twoDigits s.
Proof.
  intros H. pose proof (whole_seconds_nonneg ms H) as Hs.
  set (total := Qfloor (ms / 1000)) in *.
  exists (total / 60), (total mod 60).
  split; [apply Z.div_pos; lia|].
  split; [apply Z.mod_pos_bound; lia|].
  split; [Z.to_euclidean_division_equations; lia|].
  unfold formatTime. cbv zeta. fold total.
  rewrite Z.rem_mod_nonneg by lia.
  rewrite padStart_two_digits by (apply Z.mod_pos_bound; lia). reflexivity.
Qed.

Lemma formatTime_of_a_minute_and_a_half :
  exists m s,
    0 <= m /\ 0 <= s < 60 /\ 60 * m + s = Qfloor (90500 / 1000) /\
    formatTime (Some 90500%Q) = pretty m +:+ ":" +:+ twoDigits s.
Proof.
  apply (formatTime_minutes_and_seconds 90500). discriminate.
Defined.

Lemma seekPercentage_bounds (clientX left width pc : Q) :
  seekPercentage clientX left width = Some pc -> (0 <= pc /\ pc <= 1)%Q.
Proof.
  unfold seekPercentage. destruct (Qeq_bool width 0).
  - destruct (Qlt_le_dec 0 (clientX - left)); [intros [= <-]; lra|].
    destruct (Qlt_le_dec (clientX - left) 0); [intros [= <-]; lra|discriminate].
  - intros [= <-]. split; [apply Q.le_max_l|].
    apply Q.max_lub; [lra|apply Q.le_min_l].
Qed.

Lemma timeline_seek_bounds (d : Z) (clientX left width t : Q) :
  seekTime (Some d) clientX left width = Some t ->
  (0 <= d -> (0 <= t /\ t <= inject_Z d)%Q) /\
  (d <= 0 -> (inject_Z d <= t /\ t <= 0)%Q).
Proof.
  unfold seekTime. destruct (seekPercentage clientX left width) as [pc|] eqn:E;
    [|discriminate].
  intros [= <-]. apply seekPercentage_bounds in E as [H0 H1].
  split; intros Hd; rewrite Zle_Qle in Hd; change (inject_Z 0) with 0%Q in Hd; nra.
Qed.

(** X20.  Wherever the timeline is clicked, the time sought lies
    between 0 and the duration: the position is bounded to the interval
    from 0 to 1 before it is multiplied by the duration. *)
Theorem timeline_seek_stays_within_the_duration
        (d : Z) (clientX left width t : Q) :
  seekTime (Some d) clientX left width = Some t ->
  (0 <= d -> (0 <= t /\ t <= inject_Z d)%Q) /\
  (d <= 0 -> (inject_Z d <= t /\ t <= 0)%Q).
Proof. apply timeline_seek_bounds. Qed.

Lemma seek_in_the_middle_of_the_timeline :
  (0 <= 1500 -> (0 <= demoSeekTime /\ demoSeekTime <= inject_Z 1500)%Q) /\
  (1500 <= 0 -> (inject_Z 1500 <= demoSeekTime /\ demoSeekTime <= 0)%Q).
Proof.
  apply (timeline_seek_stays_within_the_duration 1500 150 100 100 demoSeekTime).
  reflexivity.
Defined.

(** X21.  For a session that ended after it started the duration
    computed on load is negative, and so the progress bar stays at 0
    whatever the current time, every click on the timeline seeks to a
    time that is not after the start, and the duration is displayed with
    a minus sign. *)
Theorem reversed_duration_freezes_the_timeline
        (session : LoadedSession) (st en : Z) :
  startTime session = Some (ValidDate st) ->
  endTime session = Some (ValidDate en) ->
  st < en ->
  (forall currentTime,
      timelineProgress (loadSessionDuration session) currentTime = Some 0%Q) /\
  (forall clientX left width t,
      seekTime (loadSessionDuration session) clientX left width = Some t ->
      (t <= 0)%Q) /\
  exists rest,
    formatTime (inject_Z <$> loadSessionDuration session) = String "-" rest.
Proof.
  intros Hst Hen Hlt.
  assert (Hd : loadSessionDuration session = Some (st - en))
    by (unfold loadSessionDuration; rewrite Hst, Hen; reflexivity).
  rewrite Hd. split; [|split].
  - intros c. unfold timelineProgress.
    destruct (0 <? st - en) eqn:E; [|reflexivity]. apply Z.ltb_lt in E. lia.
  - intros x l w t H.
    apply timeline_seek_bounds in H as [_ H]. apply H. lia.
  - cbn [fmap option_fmap option_map]. unfold formatTime. cbv zeta.
    assert (Hneg : Qfloor (inject_Z (st - en) / 1000) / 60 < 0).
    { assert (H : Qfloor (inject_Z (st - en) / 1000) < 0).
      { apply whole_seconds_neg. change 0%Q with (inject_Z 0).
        rewrite <- Zlt_Qlt. lia. }
      Z.to_euclidean_division_equations. lia. }
    destruct (Qfloor (inject_Z (st - en) / 1000) / 60) as [|m|m]; try lia.
    eexists. reflexivity.
Qed.

Lemma timeline_of_demo_session :
  (forall currentTime,
      timelineProgress (loadSessionDuration demoLoadedSession) currentTime = Some 0%Q) /\
  (forall clientX left width t,
      seekTime (loadSessionDuration demoLoadedSession) clientX left width = Some t ->
      (t <= 0)%Q) /\
  exists rest,
    formatTime (inject_Z <$> loadSessionDuration demoLoadedSession) = String "-" rest.
Proof.
  apply (reversed_duration_freezes_the_timeline
           demoLoadedSession 1700000000000 1700000001500); reflexivity.
Defined.

End PlayerProps.

Module ResourcesProps.
Import Js Resources.

Lemma startsWith_spec (s p : string) :
  startsWith s p = true <-> exists rest, s = p +:+ rest.
Proof.
  revert s. induction p as [|a p IH]; intros s; cbn.
  - split; [eauto|reflexivity].
  - destruct s as [|b s]; cbn.
    + split; [discriminate|intros [rest H]; discriminate].
    + rewrite andb_true_iff, IH. split.
      * intros [Hab [rest ->]]. apply Ascii.eqb_eq in Hab. subst. eauto.
      * intros [rest H]. injection H as -> ->. split; [apply Ascii.eqb_refl|eauto].
Qed.

Lemma includes_spec (s sub : string) :
  includes s sub = true <-> occursIn sub s.
Proof.
  unfold occursIn. induction s as [|c s IH].
  - cbn [includes]. rewrite orb_false_r, startsWith_spec. split.
    + intros [rest H]. exists ""%string, rest. exact H.
    + intros (before & after & H). destruct before; [eauto|discriminate].
  - cbn [includes]. rewrite orb_true_iff, startsWith_spec, IH. split.
    + intros [[rest H]|(before & after & H)].
      * exists ""%string, rest. exact H.
      * exists (String c before), after. cbn. now rewrite H.
    + intros (before & after & H). destruct before as [|b before].
      * left. eauto.
      * right. cbn in H. injection H as -> H. eauto.
Qed.

Lemma http_is_not_data (url : string) :
  startsWith url "http" = true -> isDataUrl url = false.
Proof.
  intros H. apply startsWith_spec in H as [rest ->]. reflexivity.
Qed.

(** C10.  The allowed-domain test accepts every data URL and every URL
    that does not start with "http".  For a URL that starts with "http"
    it answers true exactly when the allow list is present, non-empty,
    and one of its entries occurs somewhere inside the URL as a
    substring; so a URL that only carries an allowed domain name in its
    path is accepted too. *)
Theorem allowed_domain_is_substring_test (o : RecorderOptions) (url : string) :
  (isDataUrl url = true -> isResourceFromAllowedDomain o url = true) /\
  (startsWith url "http" = false -> isResourceFromAllowedDomain o url = true) /\
  (startsWith url "http" = true ->
   (isResourceFromAllowedDomain o url = true <->
    exists domains domain,
      allowedResourceDomains o = Some domains /\ domains <> [] /\
      In domain domains /\ occursIn domain url)) /\
  isResourceFromAllowedDomain defaultOptions
    "http://evil.example/cdn.jsdelivr.net/x.css" = true.
Proof.
  unfold isResourceFromAllowedDomain. repeat split.
  - intros ->. reflexivity.
  - intros ->. now rewrite orb_true_r.
  - pose proof (http_is_not_data url H) as Hd. rewrite Hd, H. cbn [negb orb].
    unfold hasDomains. destruct (allowedResourceDomains o) as [[|d ds]|]; cbn [negb];
      try discriminate.
    intros Hex. apply existsb_exists in Hex as (domain & Hin & Hinc).
    exists (d :: ds), domain. repeat split; try assumption; try discriminate.
    now apply includes_spec.
  - intros (domains & domain & Hdom & Hne & Hin & Hocc).
    pose proof (http_is_not_data url H) as Hd. rewrite Hd, H. cbn [negb orb].
    unfold hasDomains. rewrite Hdom. destruct domains as [|d ds]; [contradiction|].
    cbn [negb default]. apply existsb_exists. exists domain.
    split; [exact Hin|]. now apply includes_spec.
Qed.

(** *** Visibility *)

Lemma Qgtb_true (a b : Q) : Qgtb a b = true <-> (b < a)%Q.
Proof.
  unfold Qgtb. rewrite negb_true_iff. split.
  - intros H. apply Qnot_le_lt. intros Hle. apply Qle_bool_iff in Hle. congruence.
  - intros H. destruct (Qle_bool a b) eqn:E; [|reflexivity].
    apply Qle_bool_iff in E. apply Qlt_not_le in H. contradiction.
Qed.

Lemma between (a1 a2 b1 b2 : Q) :
  (a1 < b1 -> a1 < b2 -> a2 < b1 -> a2 < b2 ->
   exists x, a1 < x /\ a2 < x /\ x < b1 /\ x < b2)%Q.
Proof.
  intros H11 H12 H21 H22.
  exists ((Qmax a1 a2 + Qmin b1 b2) / 2)%Q.
  pose proof (Q.le_max_l a1 a2). pose proof (Q.le_max_r a1 a2).
  pose proof (Q.le_min_l b1 b2). pose proof (Q.le_min_r b1 b2).
  assert (Hlt : (Qmax a1 a2 < Qmin b1 b2)%Q).
  { apply Q.max_lub_lt; apply Q.min_glb_lt; assumption. }
  set (a := Qmax a1 a2) in *. set (b := Qmin b1 b2) in *.
  assert (Hx : (a < (a + b) / 2 /\ (a + b) / 2 < b)%Q).
  { split.
    - apply Qlt_shift_div_l; [reflexivity|]. lra.
    - apply Qlt_shift_div_r; [reflexivity|]. lra. }
  destruct Hx as [Hxa Hxb]. repeat split; lra.
Qed.

(** X30.  For a rectangle whose right and bottom edges are its left
    and top edges plus its width and height, in a viewport that is not
    empty, [isElementVisible] holds exactly when the rectangle has
    positive area and some point lies inside both the rectangle and the
    viewport. *)
Theorem visible_means_overlapping_the_viewport
        (rect : DomRect) (innerWidth innerHeight : Q) :
  (rectRight rect == rectLeft rect + rectWidth rect)%Q ->
  (rectBottom rect == rectTop rect + rectHeight rect)%Q ->
  (0 < innerWidth)%Q -> (0 < innerHeight)%Q ->
  isElementVisible rect innerWidth innerHeight = true <->
  overlapsViewport rect innerWidth innerHeight.
Proof.
  intros Hr Hb HW HH. unfold isElementVisible, overlapsViewport.
  rewrite !andb_true_iff, !Qgtb_true. split.
  - intros (((((Hw & Hh) & Ht) & Hbo) & Hl) & Hri).
    destruct (between (rectLeft rect) 0 (rectRight rect) innerWidth) as (x & Hx);
      try assumption; [lra|].
    destruct (between (rectTop rect) 0 (rectBottom rect) innerHeight) as (y & Hy);
      try assumption; [lra|].
    exists x, y. tauto.
  - intros (x & y & H1 & H2 & H3 & H4 & H5 & H6 & H7 & H8).
    repeat split; lra.
Qed.

Lemma demo_box_is_visible :
  isElementVisible demoRect 100 100 = true <-> overlapsViewport demoRect 100 100.
Proof.
  apply (visible_means_overlapping_the_viewport demoRect 100 100); reflexivity.
Defined.

End ResourcesProps.

(* ===================================================================== *)
(** ** Properties of the stylesheet pass of the snapshot *)
(* ===================================================================== *)

Module SnapshotProps.
Import Js Resources Snapshot.

(** Induction on documents, with the hypothesis for every child. *)
Lemma Node_induction (P : Node -> Prop) :
  (forall s, P (Text s)) ->
  (forall tag attrs kids, Forall P kids -> P (Element tag attrs kids)) ->
  forall n, P n.
Proof.
  intros HT HE. fix IH 1. intros [tag attrs kids|s]; [|apply HT].
  apply HE. induction kids as [|k kids IHk]; constructor; [apply IH|exact IHk].
Qed.

Lemma append_assoc (a b d : string) : (a +:+ b) +:+ d = a +:+ (b +:+ d).
Proof.
  induction a as [|x a IH]; [reflexivity|].
  change (String x ((a +:+ b) +:+ d) = String x (a +:+ (b +:+ d))). now rewrite IH.
Qed.

Lemma append_nil_r (a : string) : a +:+ "" = a.
Proof.
  induction a as [|x a IH]; [reflexivity|].
  change (String x (a +:+ "") = String x a). now rewrite IH.
Qed.

Section Pass.

Variable absoluteUrl : string -> Completion string.
Variable network : Request -> FetchOutcome.
Variable o : RecorderOptions.

(** [fetchResource] never throws: it returns the content, or the
    comment that documents the failure. *)
Lemma fetchResource_normal (url contentType : string) :
  fetchResource absoluteUrl network url contentType =
  Normal (match fetchBody absoluteUrl network url contentType with
          | Normal content => content
          | Throw error => failureComment url error
          end).
Proof.
  unfold fetchResource, tryCatch. now destruct (fetchBody absoluteUrl network url contentType).
Qed.

Lemma inlineStylesheet_normal (href : string) :
  inlineStylesheet absoluteUrl network href =
  Normal (styleElement href (inlinedText href (fetchedText absoluteUrl network href))).
Proof.
  unfold inlineStylesheet. rewrite fetchResource_normal. reflexivity.
Qed.

Lemma mapKids_expected (kids : list Node) :
  Forall (fun k => styleNode absoluteUrl network o k = Normal (expectedNode absoluteUrl network o k)) kids ->
  mapKids (styleNode absoluteUrl network o) kids = Normal (flat_map (expectedNode absoluteUrl network o) kids).
Proof.
  induction 1 as [|k kids Hk _ IH]; [reflexivity|].
  cbn [mapKids flat_map]. rewrite Hk, IH. reflexivity.
Qed.

Lemma styleNode_expected (n : Node) :
  styleNode absoluteUrl network o n = Normal (expectedNode absoluteUrl network o n).
Proof.
  induction n as [s|tag attrs kids IH] using Node_induction; [reflexivity|].
  cbn [styleNode expectedNode]. rewrite (mapKids_expected kids IH). cbn [bind].
  destruct (isStylesheetLink tag attrs); [|reflexivity].
  destruct (getAttribute "href" attrs) as [href|]; [|reflexivity].
  destruct (negb (truthy href)); [reflexivity|].
  destruct (isResourceFromAllowedDomain o href && inlineCss o).
  - now rewrite inlineStylesheet_normal.
  - now destruct (negb (keepExternalResources o)).
Qed.

Lemma processStylesheets_expected (doc : Node) :
  processStylesheets absoluteUrl network o doc = Normal (expectedDocument absoluteUrl network o doc).
Proof.
  destruct doc as [tag attrs kids|s]; [|reflexivity].
  cbn [processStylesheets expectedDocument].
  rewrite mapKids_expected; [reflexivity|].
  apply Forall_forall. intros k _. apply styleNode_expected.
Qed.

Lemma failure_is_documented (href : string) (error : Thrown) :
  occursIn (failureComment href error)
           (inlinedText href (failureComment href error)).
Proof.
  exists ("/* Inlined from " +:+ href +:+ " */" +:+ String "010"%char ""), ""%string.
  unfold inlinedText.
  generalize (failureComment href error). intros c.
  rewrite append_nil_r, !append_assoc. reflexivity.
Qed.

End Pass.

(** *** Documents compared *)

Lemma sameExcept_all (affected : string -> bool) (tag : string)
      (attrs : list (string * string)) (kids kids' : list Node) :
  sameExceptAll affected kids kids' ->
  sameExcept affected (Element tag attrs kids) (Element tag attrs kids').
Proof.
  intros H. cbn [sameExcept]. split; [reflexivity|]. split; [reflexivity|].
  right. revert kids' H. induction kids as [|k kids IH]; intros [|k' kids'] H;
    cbn in *; try tauto.
  destruct H as [Hk Hr]. split; [exact Hk|]. now apply IH.
Qed.

Lemma sameExcept_inv (affected : string -> bool) (tag tag' : string)
      (attrs attrs' : list (string * string)) (kids kids' : list Node) :
  sameExcept affected (Element tag attrs kids) (Element tag' attrs' kids') ->
  tag = tag' /\ attrs = attrs' /\
  ((exists href, attrs = [("data-loading-stylesheet", href)]%string /\
                 affected href = true /\ tag = "style"%string) \/
   sameExceptAll affected kids kids').
Proof.
  cbn [sameExcept]. intros (Ht & Ha & [H|H]); [auto|].
  split; [exact Ht|]. split; [exact Ha|]. right.
  revert kids' H. induction kids as [|k kids IH]; intros [|k' kids'] H;
    cbn in *; try tauto.
  destruct H as [Hk Hr]. split; [exact Hk|]. now apply IH.
Qed.

Lemma sameExcept_exempt (affected : string -> bool) (href : string)
      (kids kids' : list Node) :
  affected href = true ->
  sameExcept affected
    (Element "style" [("data-loading-stylesheet", href)]%string kids)
    (Element "style" [("data-loading-stylesheet", href)]%string kids').
Proof.
  intros H. cbn [sameExcept]. split; [reflexivity|]. split; [reflexivity|].
  left. eauto.
Qed.

Lemma sameExcept_refl (affected : string -> bool) (n : Node) :
  sameExcept affected n n.
Proof.
  induction n as [s|tag attrs kids IH] using Node_induction; [reflexivity|].
  apply sameExcept_all. induction IH as [|k kids Hk _ IHk]; cbn; auto.
Qed.

Lemma sameExceptAll_app (affected : string -> bool) (a a' b b' : list Node) :
  sameExceptAll affected a a' -> sameExceptAll affected b b' ->
  sameExceptAll affected (a ++ b) (a' ++ b').
Proof.
  revert a'. induction a as [|x a IH]; intros [|x' a'] Ha Hb; cbn in *; try tauto.
  destruct Ha as [Hx Ha]. split; [exact Hx|]. now apply IH.
Qed.

Lemma sameExceptAll_flat_map (affected : string -> bool) (f g : Node -> list Node)
      (kids : list Node) :
  Forall (fun k => sameExceptAll affected (f k) (g k)) kids ->
  sameExceptAll affected (flat_map f kids) (flat_map g kids).
Proof.
  induction 1 as [|k kids Hk _ IH]; cbn; [exact I|]. now apply sameExceptAll_app.
Qed.

Lemma sameExceptAll_flat_map2 (affected : string -> bool) (f g : Node -> list Node)
      (kids : list Node) :
  Forall (fun k => forall k', sameExcept affected k k' ->
                              sameExceptAll affected (f k) (g k')) kids ->
  forall kids', sameExceptAll affected kids kids' ->
                sameExceptAll affected (flat_map f kids) (flat_map g kids').
Proof.
  induction 1 as [|k kids Hk _ IH]; intros [|k' kids'] H; cbn in *; try tauto.
  destruct H as [Hkk Hr]. apply sameExceptAll_app; auto.
Qed.

(** An element that a pass keeps, with attributes that do not depend on
    what is inside it, and whose children the pass goes through. *)
Lemma sameExcept_kept (affected : string -> bool) (f g : Node -> list Node)
      (tag : string) (attrs attrs2 : list (string * string))
      (kids kids' : list Node) :
  (tag = "style"%string -> attrs2 = attrs) ->
  Forall (fun k => forall k', sameExcept affected k k' ->
                              sameExceptAll affected (f k) (g k')) kids ->
  sameExcept affected (Element tag attrs kids) (Element tag attrs kids') ->
  sameExceptAll affected [Element tag attrs2 (flat_map f kids)]
                         [Element tag attrs2 (flat_map g kids')].
Proof.
  intros Hstyle IH H.
  apply sameExcept_inv in H as (_ & _ & [(href & Ha & Haff & Ht)|H]).
  - rewrite (Hstyle Ht). subst tag attrs. split; [|exact I].
    now apply sameExcept_exempt.
  - split; [|exact I]. apply sameExcept_all. now apply sameExceptAll_flat_map2.
Qed.

(** The same for the root of the clone, which no pass touches. *)
Lemma sameExcept_below (affected : string -> bool) (f g : Node -> list Node)
      (tag : string) (attrs : list (string * string)) (kids kids' : list Node) :
  (forall k k', sameExcept affected k k' -> sameExceptAll affected (f k) (g k')) ->
  sameExcept affected (Element tag attrs kids) (Element tag attrs kids') ->
  sameExcept affected (Element tag attrs (flat_map f kids))
                      (Element tag attrs (flat_map g kids')).
Proof.
  intros Hf H.
  destruct (sameExcept_kept affected f g tag attrs attrs kids kids') as [Hr _];
    [reflexivity| |exact H|exact Hr].
  apply Forall_forall. intros k _. apply Hf.
Qed.

Lemma sameExcept_shape (affected : string -> bool) (a b : Node) :
  sameExcept affected a b ->
  match a, b with
  | Text s, Text s' => s = s'
  | Element tag attrs _, Element tag' attrs' _ => tag = tag' /\ attrs = attrs'
  | _, _ => False
  end.
Proof.
  destruct a as [tag attrs kids|s], b as [tag' attrs' kids'|s']; cbn; tauto.
Qed.

(** *** The script pass *)

Lemma forallb_flat_map {A B : Type} (P : B -> bool) (f : A -> list B) (l : list A) :
  Forall (fun x => forallb P (f x) = true) l -> forallb P (flat_map f l) = true.
Proof.
  induction 1 as [|x l Hx _ IH]; [reflexivity|].
  cbn [flat_map]. now rewrite forallb_app, Hx, IH.
Qed.

Lemma getAttribute_preserved (attrs : list (string * string)) :
  getAttribute "src" (preservedAttributes attrs) = None.
Proof.
  unfold preservedAttributes. cbn [flat_map].
  destruct (getAttribute "async" attrs), (getAttribute "defer" attrs),
    (getAttribute "crossorigin" attrs), (getAttribute "type" attrs); reflexivity.
Qed.

Lemma scriptElement_fetches_nothing (src text : string)
      (attrs : list (string * string)) :
  free fetchesResource (scriptElement src attrs text) = true.
Proof.
  unfold scriptElement. cbn [free forallb]. unfold fetchesResource, isStylesheetLink.
  cbn [String.eqb Ascii.eqb Bool.eqb andb orb getAttribute].
  now rewrite getAttribute_preserved.
Qed.

Section Scripts.

Variable absoluteUrl : string -> Completion string.
Variable network : Request -> FetchOutcome.
Variable o : RecorderOptions.

Lemma inlineScript_normal (src : string) (attrs : list (string * string)) :
  inlineScript absoluteUrl network src attrs =
  Normal (scriptElement src attrs
            (inlinedText src
               (match fetchBody absoluteUrl network src
                        "text/javascript,application/javascript,*/*;q=0.1" with
                | Normal content => content
                | Throw error => failureComment src error
                end))).
Proof.
  unfold inlineScript. rewrite fetchResource_normal. reflexivity.
Qed.

Lemma mapKids_normal (f : Node -> Completion (list Node)) (P : Node -> Prop)
      (Q : list Node -> Prop) (kids : list Node) :
  Q [] -> (forall a b, Q a -> Q b -> Q (a ++ b)) ->
  Forall (fun k => P k -> exists l, f k = Normal l /\ Q l) kids ->
  Forall P kids ->
  exists ls, mapKids f kids = Normal ls /\ Q ls.
Proof.
  intros Hnil Happ H. induction H as [|k kids Hk _ IH]; intros HP.
  - exists []. now split.
  - inversion HP as [|? ? HPk HPs]; subst.
    destruct (Hk HPk) as (a & Ha & Qa). destruct (IH HPs) as (b & Hb & Qb).
    exists (a ++ b). cbn [mapKids]. rewrite Ha, Hb. split; [reflexivity|]. auto.
Qed.

(** The script pass returns, and when external resources are not kept
    its result fetches nothing where its argument had no stylesheet that
    would be fetched. *)
Lemma scriptNode_normal (n : Node) :
  free (fun tag attrs => fetchesResource tag attrs && negb (String.eqb tag "script")) n
  = true \/ keepExternalResources o = true ->
  exists l, scriptNode absoluteUrl network o n = Normal l /\
    (keepExternalResources o = false -> forallb (free fetchesResource) l = true).
Proof.
  induction n as [s|tag attrs kids IH] using Node_induction; intros Hn.
  - exists [Text s]. split; [reflexivity|]. reflexivity.
  - assert (Hkids : exists ks, mapKids (scriptNode absoluteUrl network o) kids = Normal ks /\
              (keepExternalResources o = false ->
               forallb (free fetchesResource) ks = true)).
    { apply (mapKids_normal _
               (fun k => free (fun tag attrs =>
                                 fetchesResource tag attrs &&
                                 negb (String.eqb tag "script")) k = true \/
                         keepExternalResources o = true)).
      - reflexivity.
      - intros a b Ha Hb Hk. now rewrite forallb_app, (Ha Hk), (Hb Hk).
      - exact IH.
      - destruct Hn as [Hn|Hn]; [|apply Forall_forall; intros; now right].
        cbn [free] in Hn. apply andb_prop in Hn as [_ Hn].
        rewrite forallb_forall in Hn. apply Forall_forall. intros k Hk. left.
        apply Hn. now apply list_elem_of_In. }
    destruct Hkids as (ks & Hks & Hfree).
    assert (Hkeep : forall (Hquiet : keepExternalResources o = false ->
                                     fetchesResource tag attrs = false),
               exists l,
                 bind (mapKids (scriptNode absoluteUrl network o) kids)
                      (fun ks => Normal [Element tag attrs ks]) = Normal l /\
                 (keepExternalResources o = false ->
                  forallb (free fetchesResource) l = true)).
    { intros Hquiet. exists [Element tag attrs ks]. rewrite Hks.
      split; [reflexivity|]. intros Hk. cbn [forallb free].
      now rewrite (Hquiet Hk), (Hfree Hk). }
    cbn [scriptNode].
    destruct (String.eqb tag "script") eqn:Htag.
    + assert (Hlink : isStylesheetLink tag attrs = false).
      { unfold isStylesheetLink. apply String.eqb_eq in Htag. now subst tag. }
      destruct (getAttribute "src" attrs) as [src|] eqn:Hsrc.
      * destruct (truthy src) eqn:Htr; cbn [negb].
        -- destruct (isResourceFromAllowedDomain o src && inlineJs o).
           ++ rewrite inlineScript_normal. cbn [bind]. eexists. split; [reflexivity|].
              intros _. cbn [forallb]. now rewrite scriptElement_fetches_nothing.
           ++ destruct (keepExternalResources o) eqn:Hk; cbn [negb].
              ** apply Hkeep. discriminate.
              ** exists []. split; reflexivity.
        -- apply Hkeep. intros _. unfold fetchesResource.
           now rewrite Hlink, Htag, Hsrc, Htr.
      * apply Hkeep. intros _. unfold fetchesResource. now rewrite Hlink, Htag, Hsrc.
    + apply Hkeep. intros Hk. destruct Hn as [Hn|Hn]; [|congruence].
      cbn [free] in Hn. apply andb_prop in Hn as [Hn _].
      rewrite Htag in Hn. cbn [negb] in Hn. rewrite andb_true_r in Hn.
      now apply negb_true_iff in Hn.
Qed.

End Scripts.

Section Passes.

Variable absoluteUrl : string -> Completion string.
Variable o : RecorderOptions.

Lemma mapKids_total (f : Node -> Completion (list Node)) (kids : list Node) :
  Forall (fun k => exists l, f k = Normal l) kids ->
  exists ls, mapKids f kids = Normal ls.
Proof.
  induction 1 as [|k kids (a & Ha) _ (b & Hb)]; [now exists []|].
  exists (a ++ b). cbn [mapKids]. now rewrite Ha, Hb.
Qed.

Lemma scriptNode_total (network : Request -> FetchOutcome) (n : Node) :
  exists l, scriptNode absoluteUrl network o n = Normal l.
Proof.
  induction n as [s|tag attrs kids IH] using Node_induction; [now eexists|].
  destruct (mapKids_total _ kids IH) as (ks & Hks).
  cbn [scriptNode]. rewrite Hks. cbn [bind].
  destruct (String.eqb tag "script"); [|now eexists].
  destruct (getAttribute "src" attrs) as [src|]; [|now eexists].
  destruct (negb (truthy src)); [now eexists|].
  destruct (isResourceFromAllowedDomain o src && inlineJs o).
  - rewrite inlineScript_normal. now eexists.
  - destruct (negb (keepExternalResources o)); now eexists.
Qed.

Lemma processExternalScripts_total (network : Request -> FetchOutcome) (doc : Node) :
  exists doc', processExternalScripts absoluteUrl network o doc = Normal doc'.
Proof.
  destruct doc as [tag attrs kids|s]; [|now eexists].
  destruct (mapKids_total (scriptNode absoluteUrl network o) kids) as (ks & Hks).
  - apply Forall_forall. intros k _. apply scriptNode_total.
  - cbn [processExternalScripts]. rewrite Hks. now eexists.
Qed.

(** With external resources not kept, the stylesheet pass leaves no
    stylesheet to fetch. *)
Lemma expectedNode_fetches_no_stylesheet (network : Request -> FetchOutcome) (n : Node) :
  keepExternalResources o = false ->
  forallb (free (fun tag attrs =>
                   fetchesResource tag attrs && negb (String.eqb tag "script")))
          (expectedNode absoluteUrl network o n) = true.
Proof.
  intros Hk. induction n as [s|tag attrs kids IH] using Node_induction; [reflexivity|].
  assert (Hkids : forallb (free (fun tag attrs =>
                                   fetchesResource tag attrs &&
                                   negb (String.eqb tag "script")))
                          (flat_map (expectedNode absoluteUrl network o) kids) = true)
    by now apply forallb_flat_map.
  assert (Hkeep : (isStylesheetLink tag attrs = true ->
                   match getAttribute "href" attrs with
                   | Some href => truthy href
                   | None => false
                   end = false) ->
                  forallb (free (fun tag attrs =>
                                   fetchesResource tag attrs &&
                                   negb (String.eqb tag "script")))
                          [Element tag attrs (flat_map (expectedNode absoluteUrl network o) kids)]
                  = true).
  { intros H. cbn [forallb free]. rewrite Hkids. unfold fetchesResource.
    destruct (String.eqb tag "script"); cbn [negb]; [now rewrite andb_false_r|].
    destruct (isStylesheetLink tag attrs); [|reflexivity].
    now rewrite (H eq_refl). }
  cbn [expectedNode].
  destruct (isStylesheetLink tag attrs) eqn:Hlink; [|apply Hkeep; discriminate].
  destruct (getAttribute "href" attrs) as [href|] eqn:Hhref; [|now apply Hkeep].
  destruct (truthy href) eqn:Htr; cbn [negb]; [|now apply Hkeep].
  destruct (isResourceFromAllowedDomain o href && inlineCss o); [reflexivity|].
  now rewrite Hk.
Qed.

Lemma mapKids_ext (f g : Node -> Completion (list Node)) (kids : list Node) :
  Forall (fun k => f k = g k) kids -> mapKids f kids = mapKids g kids.
Proof.
  induction 1 as [|k kids Hk _ IH]; [reflexivity|].
  cbn [mapKids]. now rewrite Hk, IH.
Qed.

Lemma fetchResource_ext (n1 n2 : Request -> FetchOutcome) (url contentType : string) :
  (forall fullUrl,
      resolveUrl absoluteUrl url = Normal fullUrl ->
      n1 (requestFor url contentType fullUrl) = n2 (requestFor url contentType fullUrl)) ->
  fetchResource absoluteUrl n1 url contentType =
  fetchResource absoluteUrl n2 url contentType.
Proof.
  intros H. unfold fetchResource, fetchBody.
  destruct (resolveUrl absoluteUrl url) as [fullUrl|e]; [|reflexivity].
  cbn [bind]. now rewrite (H fullUrl eq_refl).
Qed.

Lemma styleNode_ext (n1 n2 : Request -> FetchOutcome) (n : Node) :
  alikeWhereAllowed absoluteUrl o n1 n2 ->
  styleNode absoluteUrl n1 o n = styleNode absoluteUrl n2 o n.
Proof.
  intros H. induction n as [s|tag attrs kids IH] using Node_induction; [reflexivity|].
  cbn [styleNode]. rewrite (mapKids_ext _ _ kids IH).
  destruct (isStylesheetLink tag attrs); [|reflexivity].
  destruct (getAttribute "href" attrs) as [href|]; [|reflexivity].
  destruct (negb (truthy href)); [reflexivity|].
  destruct (isResourceFromAllowedDomain o href) eqn:Ha; [|reflexivity].
  destruct (inlineCss o); [|reflexivity]. cbn [andb].
  unfold inlineStylesheet.
  rewrite (fetchResource_ext n1 n2 href _ (fun fullUrl => H href _ fullUrl Ha)).
  reflexivity.
Qed.

Lemma scriptNode_ext (n1 n2 : Request -> FetchOutcome) (n : Node) :
  alikeWhereAllowed absoluteUrl o n1 n2 ->
  scriptNode absoluteUrl n1 o n = scriptNode absoluteUrl n2 o n.
Proof.
  intros H. induction n as [s|tag attrs kids IH] using Node_induction; [reflexivity|].
  cbn [scriptNode]. rewrite (mapKids_ext _ _ kids IH).
  destruct (String.eqb tag "script"); [|reflexivity].
  destruct (getAttribute "src" attrs) as [src|]; [|reflexivity].
  destruct (negb (truthy src)); [reflexivity|].
  destruct (isResourceFromAllowedDomain o src) eqn:Ha; [|reflexivity].
  destruct (inlineJs o); [|reflexivity]. cbn [andb].
  unfold inlineScript.
  rewrite (fetchResource_ext n1 n2 src _ (fun fullUrl => H src _ fullUrl Ha)).
  reflexivity.
Qed.

(** What is removed is gone, at any depth. *)
Lemma removeWhere_free (drop bad : string -> list (string * string) -> bool)
      (n : Node) :
  (forall tag attrs, bad tag attrs = true -> drop tag attrs = true) ->
  forallb (free bad) (removeWhere drop n) = true.
Proof.
  intros H. induction n as [s|tag attrs kids IH] using Node_induction; [reflexivity|].
  cbn [removeWhere]. destruct (drop tag attrs) eqn:Hd; [reflexivity|].
  cbn [forallb free]. rewrite (forallb_flat_map _ _ kids IH).
  destruct (bad tag attrs) eqn:Hb; [|reflexivity].
  rewrite (H _ _ Hb) in Hd. discriminate.
Qed.

(** The two passes make no script where there was none. *)
Lemma expectedNode_makes_no_script (network : Request -> FetchOutcome) (n : Node) :
  free isScript n = true ->
  forallb (free isScript) (expectedNode absoluteUrl network o n) = true.
Proof.
  induction n as [s|tag attrs kids IH] using Node_induction; intros Hn; [reflexivity|].
  cbn [free] in Hn. apply andb_prop in Hn as [Htag Hkids].
  assert (Hks : forallb (free isScript) (flat_map (expectedNode absoluteUrl network o) kids) = true).
  { apply forallb_flat_map. rewrite forallb_forall in Hkids.
    rewrite List.Forall_forall in IH |- *. intros k Hk. apply IH; auto. }
  assert (Hkeep : forallb (free isScript)
                    [Element tag attrs (flat_map (expectedNode absoluteUrl network o) kids)] = true)
    by (cbn [forallb free]; now rewrite Htag, Hks).
  cbn [expectedNode].
  destruct (isStylesheetLink tag attrs); [|exact Hkeep].
  destruct (getAttribute "href" attrs) as [href|]; [|exact Hkeep].
  destruct (negb (truthy href)); [exact Hkeep|].
  destruct (isResourceFromAllowedDomain o href && inlineCss o); [reflexivity|].
  now destruct (negb (keepExternalResources o)).
Qed.

Lemma scriptNode_makes_no_script (network : Request -> FetchOutcome) (n : Node) :
  free isScript n = true ->
  exists l, scriptNode absoluteUrl network o n = Normal l /\ forallb (free isScript) l = true.
Proof.
  induction n as [s|tag attrs kids IH] using Node_induction; intros Hn;
    [now exists [Text s]|].
  cbn [free] in Hn. apply andb_prop in Hn as [Htag Hkids].
  destruct (mapKids_normal (scriptNode absoluteUrl network o)
              (fun k => free isScript k = true)
              (fun l => forallb (free isScript) l = true) kids) as (ks & Hks & Hfree).
  - reflexivity.
  - intros a b Ha Hb. now rewrite forallb_app, Ha, Hb.
  - exact IH.
  - rewrite forallb_forall in Hkids. apply Forall_forall. intros k Hk.
    apply Hkids. now apply list_elem_of_In.
  - cbn [scriptNode]. unfold isScript in Htag. apply negb_true_iff in Htag.
    rewrite Htag, Hks. cbn [bind]. eexists. split; [reflexivity|].
    cbn [forallb free]. unfold isScript at 1. now rewrite Htag, Hfree.
Qed.

End Passes.

(** *** The whole capture *)

Lemma mapKids_pure (f : Node -> Completion (list Node)) (g : Node -> list Node)
      (kids : list Node) :
  Forall (fun k => f k = Normal (g k)) kids ->
  mapKids f kids = Normal (flat_map g kids).
Proof.
  induction 1 as [|k kids Hk _ IH]; [reflexivity|].
  cbn [mapKids flat_map]. rewrite Hk, IH. reflexivity.
Qed.

Section Whole.

Variable absoluteUrl : string -> Completion string.
Variable network : Request -> FetchOutcome.
Variable o : RecorderOptions.
Variable b : Browser.

Lemma scriptNode_expected (n : Node) :
  scriptNode absoluteUrl network o n =
  Normal (expectedScriptNode absoluteUrl network o n).
Proof.
  induction n as [s|tag attrs kids IH] using Node_induction; [reflexivity|].
  cbn [scriptNode expectedScriptNode].
  rewrite (mapKids_pure _ _ kids IH). cbn [bind].
  destruct (String.eqb tag "script"); [|reflexivity].
  destruct (getAttribute "src" attrs) as [src|]; [|reflexivity].
  destruct (negb (truthy src)); [reflexivity|].
  destruct (isResourceFromAllowedDomain o src && inlineJs o).
  - now rewrite inlineScript_normal.
  - now destruct (negb (keepExternalResources o)).
Qed.

Lemma processExternalScripts_expected (doc : Node) :
  processExternalScripts absoluteUrl network o doc =
  Normal (expectedScripts absoluteUrl network o doc).
Proof.
  destruct doc as [tag attrs kids|s]; [|reflexivity].
  cbn [processExternalScripts expectedScripts].
  rewrite (mapKids_pure _ (expectedScriptNode absoluteUrl network o)); [reflexivity|].
  apply Forall_forall. intros k _. apply scriptNode_expected.
Qed.

Lemma optimizeExternalResources_expected (htmlClone : Node) :
  optimizeExternalResources absoluteUrl network o b htmlClone =
  Normal (expectedResources absoluteUrl network o b htmlClone).
Proof.
  unfold optimizeExternalResources, expectedResources.
  rewrite processStylesheets_expected. cbn [bind].
  rewrite processExternalScripts_expected. reflexivity.
Qed.

(** The capture always completes. *)
Lemma capturePageHtml_expected (documentElement : Node) :
  capturePageHtml absoluteUrl network o b documentElement =
  Normal (finishCapture o b
            (expectedResources absoluteUrl network o b
               (preparedClone o b documentElement))).
Proof.
  unfold capturePageHtml. fold (preparedClone o b documentElement).
  rewrite optimizeExternalResources_expected. reflexivity.
Qed.

(** *** One failure, one style element *)

Lemma requestFor_differs (href href' contentType fullUrl fullUrl' : string) :
  resolveUrl absoluteUrl href = Normal fullUrl ->
  resolveUrl absoluteUrl href' = Normal fullUrl' ->
  sameRequest absoluteUrl href href' = false ->
  requestFor href' contentType fullUrl' <> requestFor href contentType fullUrl.
Proof.
  intros Hr Hr' Hs E.
  assert (Hu : fullUrl' = fullUrl) by exact (f_equal requestUrl E).
  assert (Hc : startsWith href' "http" = startsWith href "http")
    by exact (f_equal cors E).
  unfold sameRequest in Hs. rewrite Hr, Hr', Hu, Hc in Hs.
  rewrite String.eqb_refl in Hs. now destruct (startsWith href "http").
Qed.

Section TwoNetworks.

Variable network' : Request -> FetchOutcome.
Variable href fullUrl : string.
Hypothesis Hresolved : resolveUrl absoluteUrl href = Normal fullUrl.
Hypothesis Hagree :
  forall request, request <> requestFor href cssAccept fullUrl ->
                  network' request = network request.

Lemma fetchedText_agree (href' : string) :
  sameRequest absoluteUrl href href' = false ->
  fetchedText absoluteUrl network' href' = fetchedText absoluteUrl network href'.
Proof.
  intros Hs. unfold fetchedText, fetchBody.
  destruct (resolveUrl absoluteUrl href') as [fullUrl'|e] eqn:Hr'; [|reflexivity].
  cbn [bind]. rewrite Hagree; [reflexivity|].
  now apply (requestFor_differs href href' _ fullUrl fullUrl').
Qed.

Lemma fetchedScript_agree (src : string) :
  fetchedScript absoluteUrl network' src = fetchedScript absoluteUrl network src.
Proof.
  unfold fetchedScript, fetchBody.
  destruct (resolveUrl absoluteUrl src) as [fullUrl'|e]; [|reflexivity].
  cbn [bind]. rewrite Hagree; [reflexivity|].
  intros E. pose proof (f_equal accept E) as Ha. discriminate Ha.
Qed.

(** The stylesheet pass. *)
Lemma expectedNode_sameExcept (n : Node) :
  sameExceptAll (sameRequest absoluteUrl href)
                (expectedNode absoluteUrl network o n)
                (expectedNode absoluteUrl network' o n).
Proof.
  induction n as [s|tag attrs kids IH] using Node_induction; [cbn; auto|].
  cbn [expectedNode].
  assert (Hkeep : sameExceptAll (sameRequest absoluteUrl href)
                    [Element tag attrs
                             (flat_map (expectedNode absoluteUrl network o) kids)]
                    [Element tag attrs
                             (flat_map (expectedNode absoluteUrl network' o) kids)]).
  { cbn [sameExceptAll]. split; [|exact I].
    apply sameExcept_all. now apply sameExceptAll_flat_map. }
  destruct (isStylesheetLink tag attrs); [|exact Hkeep].
  destruct (getAttribute "href" attrs) as [href'|]; [|exact Hkeep].
  destruct (negb (truthy href')); [exact Hkeep|].
  destruct (isResourceFromAllowedDomain o href' && inlineCss o).
  - cbn [sameExceptAll]. split; [|exact I].
    destruct (sameRequest absoluteUrl href href') eqn:Hs.
    + now apply sameExcept_exempt.
    + rewrite (fetchedText_agree href' Hs). apply sameExcept_refl.
  - destruct (negb (keepExternalResources o)); [exact I|exact Hkeep].
Qed.

(** The script pass. *)
Lemma expectedScriptNode_sameExcept (n : Node) :
  forall n', sameExcept (sameRequest absoluteUrl href) n n' ->
             sameExceptAll (sameRequest absoluteUrl href)
                           (expectedScriptNode absoluteUrl network o n)
                           (expectedScriptNode absoluteUrl network' o n').
Proof.
  induction n as [s|tag attrs kids IH] using Node_induction; intros n' H.
  - destruct n' as [|s']; [destruct H|]. cbn in H. subst s'. cbn. auto.
  - destruct n' as [tag' attrs' kids'|]; [|destruct H].
    destruct (sameExcept_shape _ _ _ H) as [<- <-].
    cbn [expectedScriptNode].
    assert (Hkeep : sameExceptAll (sameRequest absoluteUrl href)
              [Element tag attrs
                       (flat_map (expectedScriptNode absoluteUrl network o) kids)]
              [Element tag attrs
                       (flat_map (expectedScriptNode absoluteUrl network' o) kids')])
      by (apply (sameExcept_kept _ _ _ tag attrs attrs kids kids'); auto).
    destruct (String.eqb tag "script"); [|exact Hkeep].
    destruct (getAttribute "src" attrs) as [src|]; [|exact Hkeep].
    destruct (negb (truthy src)); [exact Hkeep|].
    destruct (isResourceFromAllowedDomain o src && inlineJs o).
    + rewrite fetchedScript_agree. split; [apply sameExcept_refl|exact I].
    + destruct (negb (keepExternalResources o)); [exact I|exact Hkeep].
Qed.

End TwoNetworks.

(** The image pass. *)
Lemma imageNode_sameExcept (affected : string -> bool) (n : Node) :
  forall n', sameExcept affected n n' ->
             sameExceptAll affected (imageNode o b n) (imageNode o b n').
Proof.
  induction n as [s|tag attrs kids IH] using Node_induction; intros n' H.
  - destruct n' as [|s']; [destruct H|]. cbn in H. subst s'. cbn. auto.
  - destruct n' as [tag' attrs' kids'|]; [|destruct H].
    destruct (sameExcept_shape _ _ _ H) as [<- <-].
    cbn [imageNode].
    assert (Hkeep : forall attrs2, (tag = "style"%string -> attrs2 = attrs) ->
              sameExceptAll affected
                [Element tag attrs2 (flat_map (imageNode o b) kids)]
                [Element tag attrs2 (flat_map (imageNode o b) kids')])
      by (intros attrs2 H2; apply (sameExcept_kept _ _ _ tag attrs attrs2 kids kids'); auto).
    destruct (String.eqb tag "img") eqn:Htag; [|now apply Hkeep].
    assert (Hns : tag = "style"%string -> False)
      by (intros ->; discriminate).
    destruct (getAttribute "src" attrs) as [src|]; [|now apply Hkeep].
    destruct (negb (truthy src) || isResourceFromAllowedDomain o src);
      [now apply Hkeep|].
    destruct (negb (isVisible b attrs) && removeInvisibleElements o); [exact I|].
    destruct (negb (keepExternalResources o) && negb (isDataUrl src));
      [|now apply Hkeep].
    apply Hkeep. intros Hs. destruct (Hns Hs).
Qed.

End Whole.

(** The removals of [optimizeOtherResources], none of which selects a
    [style] element. *)
Lemma removeWhere_sameExcept (affected : string -> bool)
      (drop : string -> list (string * string) -> bool) (n : Node) :
  (forall attrs, drop "style"%string attrs = false) ->
  forall n', sameExcept affected n n' ->
             sameExceptAll affected (removeWhere drop n) (removeWhere drop n').
Proof.
  intros Hdrop.
  induction n as [s|tag attrs kids IH] using Node_induction; intros n' H.
  - destruct n' as [|s']; [destruct H|]. cbn in H. subst s'. cbn. auto.
  - destruct n' as [tag' attrs' kids'|]; [|destruct H].
    destruct (sameExcept_shape _ _ _ H) as [<- <-].
    cbn [removeWhere]. destruct (drop tag attrs); [exact I|].
    apply (sameExcept_kept _ _ _ tag attrs attrs kids kids'); auto.
Qed.

Lemma removeBelow_sameExcept (affected : string -> bool)
      (drop : string -> list (string * string) -> bool) (a a' : Node) :
  (forall attrs, drop "style"%string attrs = false) ->
  sameExcept affected a a' ->
  sameExcept affected (removeBelow drop a) (removeBelow drop a').
Proof.
  intros Hdrop H.
  destruct a as [tag attrs kids|s], a' as [tag' attrs' kids'|s'];
    try (now destruct H).
  destruct (sameExcept_shape _ _ _ H) as [<- <-].
  cbn [removeBelow]. apply sameExcept_below; [|exact H].
  intros k k'. now apply removeWhere_sameExcept.
Qed.

(** *** Where the style element ends up *)

Lemma occursIn_refl (s : string) : occursIn s s.
Proof. exists ""%string, ""%string. now rewrite append_nil_r. Qed.

Lemma occursIn_trans (a c d : string) : occursIn a c -> occursIn c d -> occursIn a d.
Proof.
  intros (p & q & ->) (p' & q' & ->).
  exists (p' +:+ p), (q +:+ q'). now rewrite !append_assoc.
Qed.

Lemma occursIn_app_l (a p s : string) : occursIn a s -> occursIn a (p +:+ s).
Proof.
  intros (x & y & ->). exists (p +:+ x), y. now rewrite !append_assoc.
Qed.

Lemma occursIn_app_r (a s q : string) : occursIn a s -> occursIn a (s +:+ q).
Proof.
  intros (x & y & ->). exists x, (y +:+ q). now rewrite !append_assoc.
Qed.

Lemma occursIn_cons (a : string) (c : ascii) (s : string) :
  occursIn a s -> occursIn a (String c s).
Proof. apply (occursIn_app_l a (String c "") s). Qed.

Lemma occursIn_concatAll (s : string) (l : list string) :
  In s l -> occursIn s (concatAll l).
Proof.
  induction l as [|x l IH]; intros H; [destruct H|].
  destruct H as [<-|H]; cbn [concatAll].
  - apply occursIn_app_r, occursIn_refl.
  - apply occursIn_app_l, IH, H.
Qed.

Lemma flat_map_singleton (g : Node -> Node) (l : list Node) :
  flat_map (fun n => [g n]) l = map g l.
Proof. induction l as [|x l IH]; [reflexivity|]. cbn. now rewrite IH. Qed.

Lemma plain_differs (tag t : string) :
  plainTag tag = true ->
  In t (["script"; "style"; "iframe"; "video"; "audio"]%string ++ voidElements) ->
  String.eqb tag t = false.
Proof.
  intros Hp Hin. unfold plainTag in Hp. apply negb_true_iff in Hp.
  destruct (String.eqb tag t) eqn:E; [|reflexivity].
  assert (existsb (String.eqb tag)
            (["script"; "style"; "iframe"; "video"; "audio"]%string ++ voidElements)
          = true) by (apply existsb_exists; eauto).
  congruence.
Qed.

Lemma plain_not_void (tag : string) : plainTag tag = true -> isVoid tag = false.
Proof.
  unfold plainTag, isVoid. rewrite existsb_app, negb_true_iff, orb_false_iff.
  now intros [_ H].
Qed.

Ltac differs H t := apply (plain_differs _ t H); cbn; tauto.

Lemma reaches_plain (x n : Node) :
  reaches x n ->
  match n with
  | Element tag _ _ => plainTag tag = true
  | Text _ => False
  end.
Proof. now destruct 1. Qed.

(** A pass that keeps plain elements and goes through their children
    keeps what is reached through them. *)
Lemma reaches_pass (f : Node -> list Node) (x x' : Node) :
  (forall tag attrs kids,
      plainTag tag = true ->
      f (Element tag attrs kids) = [Element tag attrs (flat_map f kids)]) ->
  f x = [x'] ->
  forall n, reaches x n ->
  forall tag attrs kids, n = Element tag attrs kids ->
                         reaches x' (Element tag attrs (flat_map f kids)).
Proof.
  intros Hplain Hx n H.
  induction H as [tag attrs kids Hp Hin|tag attrs kids k Hp Hin Hk IH];
    intros tag0 attrs0 kids0 E; injection E as <- <- <-.
  - apply reaches_child; [exact Hp|]. apply List.in_flat_map. exists x.
    split; [exact Hin|]. rewrite Hx. now left.
  - pose proof (reaches_plain _ _ Hk) as Hpk.
    destruct k as [tagk attrsk kidsk|s]; [|destruct Hpk].
    apply (reaches_below x' tag attrs _ (Element tagk attrsk (flat_map f kidsk)));
      [exact Hp| |now apply IH].
    apply List.in_flat_map. exists (Element tagk attrsk kidsk).
    split; [exact Hin|]. rewrite (Hplain _ _ _ Hpk). now left.
Qed.

Lemma reaches_element (x n : Node) :
  reaches x n -> exists tag attrs kids, n = Element tag attrs kids.
Proof. destruct 1; eauto. Qed.

(** The style element made for [href], with the text [text]. *)
Lemma styleElement_unfold (href text : string) :
  styleElement href text =
  Element "style" [("data-loading-stylesheet", href)]%string [Text text].
Proof. reflexivity. Qed.

Section Reached.

Variable o : RecorderOptions.
Variable b : Browser.

Lemma reaches_removeBelow (drop : string -> list (string * string) -> bool)
      (href text : string) (n : Node) :
  (forall tag attrs, plainTag tag = true -> drop tag attrs = false) ->
  (forall attrs, drop "style"%string attrs = false) ->
  reaches (styleElement href text) n ->
  reaches (styleElement href text) (removeBelow drop n).
Proof.
  intros Hplain Hstyle H.
  destruct (reaches_element _ _ H) as (tag & attrs & kids & ->).
  cbn [removeBelow].
  apply (reaches_pass (removeWhere drop) (styleElement href text)
                      (styleElement href text)) with (n := Element tag attrs kids);
    [| |exact H|reflexivity].
  - intros t a ks Hp. cbn [removeWhere]. now rewrite (Hplain t a Hp).
  - unfold styleElement. cbn [removeWhere]. now rewrite Hstyle.
Qed.

(** The metadata goes to the end of the first [head]: nothing leaves
    its place. *)
Lemma replaceFirst_keeps (f : Node -> option Node) (P : Node -> Prop)
      (kids kids' : list Node) :
  (forall k k', P k -> f k = Some k' -> P k') ->
  replaceFirst f kids = Some kids' ->
  forall k, In k kids -> P k -> exists k', In k' kids' /\ P k'.
Proof.
  intros HP. revert kids'. induction kids as [|y kids IH]; intros kids' H k Hin Hk;
    [destruct Hin|].
  cbn [replaceFirst] in H. destruct (f y) as [y'|] eqn:Hy.
  - injection H as <-. destruct Hin as [->|Hin].
    + exists y'. split; [now left|]. eapply HP; eauto.
    + exists k. split; [now right|exact Hk].
  - destruct (replaceFirst f kids) as [rest|] eqn:Hr; [|discriminate].
    injection H as <-. destruct Hin as [->|Hin].
    + exists k. split; [now left|exact Hk].
    + destruct (IH rest eq_refl k Hin Hk) as (k' & Hin' & Hk').
      exists k'. split; [now right|exact Hk'].
Qed.

Lemma appendToHead_reaches (extra : list Node) (x : Node) :
  appendToHead extra x = None ->
  forall n n', (n = x \/ reaches x n) -> appendToHead extra n = Some n' ->
               n' = x \/ reaches x n'.
Proof.
  intros Hx n.
  induction n as [s|tag attrs kids IH] using Node_induction; intros n' Hn H;
    [discriminate|].
  destruct Hn as [E|Hn]; [rewrite E in H; congruence|]. right.
  assert (Hkids : plainTag tag = true /\
                  exists k, In k kids /\ (k = x \/ reaches x k)).
  { inversion Hn; subst; split; eauto. }
  destruct Hkids as (Hp & k & Hin & Hk).
  cbn [appendToHead] in H. destruct (String.eqb tag "head").
  - injection H as <-.
    destruct Hk as [->|Hk].
    + apply reaches_child; [exact Hp|]. apply in_or_app. now left.
    + apply (reaches_below x tag attrs _ k); [exact Hp| |exact Hk].
      apply in_or_app. now left.
  - destruct (replaceFirst (appendToHead extra) kids) as [kids'|] eqn:Hr;
      [|discriminate].
    injection H as <-.
    assert (Hstep : forall k, In k kids ->
              forall k', (k = x \/ reaches x k) ->
                         appendToHead extra k = Some k' -> k' = x \/ reaches x k').
    { rewrite List.Forall_forall in IH. intros y Hy k'. now apply IH. }
    assert (Hfound : exists k', In k' kids' /\ (k' = x \/ reaches x k')).
    { revert kids' Hr k Hin Hk Hstep. clear. induction kids as [|y kids IHk];
        intros kids' Hr k Hin Hk Hstep; [destruct Hin|].
      cbn [replaceFirst] in Hr. destruct (appendToHead extra y) as [y'|] eqn:Hy.
      - injection Hr as <-. destruct Hin as [->|Hin].
        + exists y'. split; [now left|]. apply (Hstep k); [now left|exact Hk|exact Hy].
        + exists k. split; [now right|exact Hk].
      - destruct (replaceFirst (appendToHead extra) kids) as [rest|] eqn:Hrest;
          [|discriminate].
        injection Hr as <-. destruct Hin as [->|Hin].
        + exists k. split; [now left|exact Hk].
        + destruct (IHk rest eq_refl k Hin Hk) as (k' & Hin' & Hk').
          * intros z Hz. apply Hstep. now right.
          * exists k'. split; [now right|exact Hk']. }
    destruct Hfound as (k' & Hin' & [->|Hk']).
    + now apply reaches_child.
    + now apply (reaches_below x tag attrs kids' k').
Qed.

Lemma reaches_metadata (href text : string) (n : Node) :
  reaches (styleElement href text) n ->
  reaches (styleElement href text) (addCaptureMetadata b n).
Proof.
  intros H. destruct (reaches_element _ _ H) as (tag & attrs & kids & ->).
  cbn [addCaptureMetadata].
  destruct (replaceFirst (appendToHead (captureMetadata b)) kids) as [kids'|] eqn:Hr;
    cbn [default]; [|exact H].
  assert (Hkids : plainTag tag = true /\
                  exists k, In k kids /\
                            (k = styleElement href text \/
                             reaches (styleElement href text) k)).
  { inversion H; subst; split; eauto. }
  destruct Hkids as (Hp & k & Hin & Hk).
  destruct (replaceFirst_keeps (appendToHead (captureMetadata b))
              (fun k => k = styleElement href text \/
                        reaches (styleElement href text) k)
              kids kids') with (k := k) as (k' & Hin' & Hk'); auto.
  - intros y y' Hy Hyy. now apply (appendToHead_reaches (captureMetadata b)
                                     (styleElement href text) eq_refl y y').
  - destruct Hk' as [->|Hk']; [now apply reaches_child|].
    now apply (reaches_below _ tag attrs kids' k').
Qed.

(** What is reached through plain elements is written out. *)
Lemma reaches_serialized (x n : Node) :
  (forall raw, serialize b raw x = outerHTML b x) ->
  reaches x n -> forall raw, occursIn (outerHTML b x) (serialize b raw n).
Proof.
  intros Hx H.
  induction H as [tag attrs kids Hp Hin|tag attrs kids k Hp Hin Hk IH]; intros raw;
    cbn [serialize]; rewrite (plain_not_void tag Hp);
    do 4 apply occursIn_app_l; apply occursIn_app_r.
  - apply occursIn_concatAll. rewrite <- (Hx (isRawText tag)). now apply in_map.
  - apply (occursIn_trans _ (serialize b (isRawText tag) k)); [apply IH|].
    apply occursIn_concatAll. now apply in_map.
Qed.

(** From [optimizeExternalResources] to the string returned. *)
Lemma reaches_finish (comment href text : string) (htmlClone : Node) :
  occursIn comment text ->
  reaches (styleElement href text) htmlClone ->
  occursIn comment (finishCapture o b htmlClone).
Proof.
  intros Hc H. unfold finishCapture.
  set (text' := if (0 <? optimizationLevel o)%nat
                then ("/* Optimized CSS */" +:+ String "010"%char (text +:+ ""))%string
                else text).
  assert (Hc' : occursIn comment text').
  { unfold text'. destruct (0 <? optimizationLevel o)%nat; [|exact Hc].
    apply occursIn_app_l, occursIn_cons, occursIn_app_r, Hc. }
  assert (H1 : reaches (styleElement href text')
                 (if (0 <? optimizationLevel o)%nat then removeUnusedCss htmlClone
                  else htmlClone)).
  { unfold text'. destruct (0 <? optimizationLevel o)%nat; [|exact H].
    destruct (reaches_element _ _ H) as (tag & attrs & kids & ->).
    cbn [removeUnusedCss]. rewrite <- flat_map_singleton.
    apply (reaches_pass (fun n => [optimizedCss n]) (styleElement href text))
      with (n := Element tag attrs kids); [| |exact H|reflexivity].
    - intros t a ks Hp. cbn [optimizedCss].
      assert (E : String.eqb t "style" = false) by differs Hp "style"%string.
      now rewrite E, flat_map_singleton.
    - reflexivity. }
  revert H1.
  generalize (if (0 <? optimizationLevel o)%nat then removeUnusedCss htmlClone
              else htmlClone).
  intros c H1.
  assert (H2 : reaches (styleElement href text')
                 (if (1 <? optimizationLevel o)%nat then optimizeImages b c else c)).
  { destruct (1 <? optimizationLevel o)%nat; [|exact H1].
    destruct (reaches_element _ _ H1) as (tag & attrs & kids & ->).
    cbn [optimizeImages]. rewrite <- flat_map_singleton.
    apply (reaches_pass (fun n => [sizedImage b n]) (styleElement href text'))
      with (n := Element tag attrs kids); [| |exact H1|reflexivity].
    - intros t a ks Hp. cbn [sizedImage].
      assert (E : String.eqb t "img" = false) by differs Hp "img"%string.
      now rewrite E, flat_map_singleton.
    - reflexivity. }
  revert H2. generalize (if (1 <? optimizationLevel o)%nat then optimizeImages b c else c).
  intros c' H2.
  apply (occursIn_trans _ (outerHTML b (styleElement href text'))).
  - unfold outerHTML, styleElement. cbn [serialize isVoid voidElements existsb].
    cbn [String.eqb Ascii.eqb Bool.eqb orb isRawText rawTextElements map concatAll].
    do 4 apply occursIn_app_l. do 2 apply occursIn_app_r. exact Hc'.
  - unfold outerHTML. apply reaches_serialized; [reflexivity|].
    now apply reaches_metadata.
Qed.

End Reached.

(** From the stylesheet pass to the end of [optimizeExternalResources]. *)
Lemma reaches_resources
      (absoluteUrl : string -> Completion string)
      (network : Request -> FetchOutcome) (o : RecorderOptions) (b : Browser)
      (link : Node) (href : string) (error : Thrown) (htmlClone : Node) :
  stylesheetAddress link = Some href ->
  isResourceFromAllowedDomain o href = true -> inlineCss o = true ->
  fetchBody absoluteUrl network href cssAccept = Throw error ->
  reaches link htmlClone ->
  reaches (styleElement href (inlinedText href (failureComment href error)))
          (expectedResources absoluteUrl network o b htmlClone).
Proof.
  intros Haddr Hallowed Hinline Hfail H.
  set (x := styleElement href (inlinedText href (failureComment href error))).
  destruct (reaches_element _ _ H) as (tag & attrs & kids & ->).
  unfold expectedResources. cbn [expectedDocument].
  (* the stylesheet pass *)
  assert (H1 : reaches x (Element tag attrs
                            (flat_map (expectedNode absoluteUrl network o) kids))).
  { apply (reaches_pass (expectedNode absoluteUrl network o) link x)
      with (n := Element tag attrs kids); [| |exact H|reflexivity].
    - intros t a ks Hp. cbn [expectedNode]. unfold isStylesheetLink.
      assert (E : String.eqb t "link" = false) by differs Hp "link"%string.
      now rewrite E.
    - destruct link as [t a ks|s]; [|discriminate].
      cbn [stylesheetAddress] in Haddr. cbn [expectedNode].
      destruct (isStylesheetLink t a); [|discriminate].
      destruct (getAttribute "href" a) as [h|]; [|discriminate].
      destruct (truthy h) eqn:Htr; [|discriminate].
      injection Haddr as ->. cbn [negb]. rewrite Hallowed, Hinline. cbn [andb].
      unfold fetchedText. fold cssAccept. now rewrite Hfail. }
  (* the script pass *)
  cbn [expectedScripts].
  assert (H2 : reaches x
                 (Element tag attrs
                    (flat_map (expectedScriptNode absoluteUrl network o)
                       (flat_map (expectedNode absoluteUrl network o) kids)))).
  { apply (reaches_pass (expectedScriptNode absoluteUrl network o) x x)
      with (n := Element tag attrs
                   (flat_map (expectedNode absoluteUrl network o) kids));
      [| |exact H1|reflexivity].
    - intros t a ks Hp. cbn [expectedScriptNode].
      assert (E : String.eqb t "script" = false) by differs Hp "script"%string.
      now rewrite E.
    - reflexivity. }
  (* the image pass *)
  cbn [processImages].
  assert (H3 : reaches x
                 (Element tag attrs
                    (flat_map (imageNode o b)
                       (flat_map (expectedScriptNode absoluteUrl network o)
                          (flat_map (expectedNode absoluteUrl network o) kids))))).
  { apply (reaches_pass (imageNode o b) x x)
      with (n := Element tag attrs
                   (flat_map (expectedScriptNode absoluteUrl network o)
                      (flat_map (expectedNode absoluteUrl network o) kids)));
      [| |exact H2|reflexivity].
    - intros t a ks Hp. cbn [imageNode].
      assert (E : String.eqb t "img" = false) by differs Hp "img"%string.
      now rewrite E.
    - reflexivity. }
  (* the removals *)
  revert H3.
  generalize (Element tag attrs
                (flat_map (imageNode o b)
                   (flat_map (expectedScriptNode absoluteUrl network o)
                      (flat_map (expectedNode absoluteUrl network o) kids)))).
  intros c H3. unfold optimizeOtherResources.
  assert (H4 : reaches x (if negb (keepFonts o) then removeBelow isFontLink c else c)).
  { destruct (negb (keepFonts o)); [|exact H3].
    apply reaches_removeBelow; [| |exact H3].
    - intros t a Hp. unfold isFontLink, isStylesheetLink.
      assert (E : String.eqb t "link" = false) by differs Hp "link"%string.
      now rewrite E.
    - reflexivity. }
  revert H4. generalize (if negb (keepFonts o) then removeBelow isFontLink c else c).
  intros c1 H4.
  assert (H5 : reaches x (if removeIframes o then removeBelow isIframe c1 else c1)).
  { destruct (removeIframes o); [|exact H4].
    apply reaches_removeBelow; [| |exact H4].
    - intros t a Hp. unfold isIframe. differs Hp "iframe"%string.
    - reflexivity. }
  revert H5. generalize (if removeIframes o then removeBelow isIframe c1 else c1).
  intros c2 H5.
  destruct (removeMedia o); [|exact H5].
  apply reaches_removeBelow; [| |exact H5].
  - intros t a Hp. unfold isMedia.
    assert (E1 : String.eqb t "video" = false) by differs Hp "video"%string.
    assert (E2 : String.eqb t "audio" = false) by differs Hp "audio"%string.
    now rewrite E1, E2.
  - reflexivity.
Qed.


Lemma expectedResources_sameExcept
      (absoluteUrl : string -> Completion string)
      (network network' : Request -> FetchOutcome) (o : RecorderOptions) (b : Browser)
      (href fullUrl : string) (htmlClone : Node) :
  resolveUrl absoluteUrl href = Normal fullUrl ->
  (forall request, request <> requestFor href cssAccept fullUrl ->
                   network' request = network request) ->
  sameExcept (sameRequest absoluteUrl href)
             (expectedResources absoluteUrl network o b htmlClone)
             (expectedResources absoluteUrl network' o b htmlClone).
Proof.
  intros Hresolved Hagree. unfold expectedResources.
  set (affected := sameRequest absoluteUrl href).
  (* the stylesheet pass *)
  assert (H1 : sameExcept affected (expectedDocument absoluteUrl network o htmlClone)
                          (expectedDocument absoluteUrl network' o htmlClone)).
  { destruct htmlClone as [tag attrs kids|s]; [|reflexivity].
    cbn [expectedDocument]. apply sameExcept_all, sameExceptAll_flat_map.
    apply Forall_forall. intros k _.
    now apply (expectedNode_sameExcept absoluteUrl network o network' href fullUrl). }
  revert H1.
  generalize (expectedDocument absoluteUrl network o htmlClone),
             (expectedDocument absoluteUrl network' o htmlClone).
  intros a a' H1.
  (* the script pass *)
  assert (H2 : sameExcept affected (expectedScripts absoluteUrl network o a)
                          (expectedScripts absoluteUrl network' o a')).
  { destruct a as [tag attrs kids|s], a' as [tag' attrs' kids'|s'];
      try (now destruct H1).
    destruct (sameExcept_shape _ _ _ H1) as [<- <-].
    cbn [expectedScripts]. apply sameExcept_below; [|exact H1].
    intros k k'.
    now apply (expectedScriptNode_sameExcept absoluteUrl network o network'
                 href fullUrl). }
  revert H2.
  generalize (expectedScripts absoluteUrl network o a),
             (expectedScripts absoluteUrl network' o a').
  clear a a' H1. intros a a' H2.
  (* the image pass *)
  assert (H3 : sameExcept affected (processImages o b a) (processImages o b a')).
  { destruct a as [tag attrs kids|s], a' as [tag' attrs' kids'|s'];
      try (now destruct H2).
    destruct (sameExcept_shape _ _ _ H2) as [<- <-].
    cbn [processImages]. apply sameExcept_below; [|exact H2].
    intros k k'. apply imageNode_sameExcept. }
  revert H3. generalize (processImages o b a), (processImages o b a').
  clear a a' H2. intros a a' H3.
  (* the removals *)
  unfold optimizeOtherResources.
  assert (H4 : sameExcept affected
                 (if negb (keepFonts o) then removeBelow isFontLink a else a)
                 (if negb (keepFonts o) then removeBelow isFontLink a' else a')).
  { destruct (negb (keepFonts o)); [|exact H3].
    now apply removeBelow_sameExcept. }
  revert H4.
  generalize (if negb (keepFonts o) then removeBelow isFontLink a else a),
             (if negb (keepFonts o) then removeBelow isFontLink a' else a').
  clear a a' H3. intros a a' H4.
  assert (H5 : sameExcept affected
                 (if removeIframes o then removeBelow isIframe a else a)
                 (if removeIframes o then removeBelow isIframe a' else a')).
  { destruct (removeIframes o); [|exact H4]. now apply removeBelow_sameExcept. }
  revert H5.
  generalize (if removeIframes o then removeBelow isIframe a else a),
             (if removeIframes o then removeBelow isIframe a' else a').
  clear a a' H4. intros a a' H5.
  destruct (removeMedia o); [|exact H5]. now apply removeBelow_sameExcept.
Qed.




(** X26.  The script pass never rejects, and a script whose fetch fails
    is replaced all the same: its place is taken by a script element
    whose text is the comment that documents the failure. *)
Theorem script_fetch_failure_is_contained
        (absoluteUrl : string -> Completion string)
        (network : Request -> FetchOutcome) (o : RecorderOptions) (doc : Node) :
  (exists doc', processExternalScripts absoluteUrl network o doc = Normal doc') /\
  (forall src attrs error,
      fetchBody absoluteUrl network src "text/javascript,application/javascript,*/*;q=0.1"
      = Throw error ->
      inlineScript absoluteUrl network src attrs =
        Normal (scriptElement src attrs (inlinedText src (failureComment src error))) /\
      occursIn (failureComment src error)
               (inlinedText src (failureComment src error))).
Proof.
  split; [apply processExternalScripts_total|].
  intros src attrs error H. split; [|apply failure_is_documented].
  rewrite inlineScript_normal. now rewrite H.
Qed.

Lemma script_failure_on_demo_network :
  inlineScript demoAbsoluteUrl demoNetwork demoTracker [("defer", "")]%string =
    Normal (scriptElement demoTracker [("defer", "")]%string
              (inlinedText demoTracker
                 (failureComment demoTracker (ErrorObject "Failed to fetch")))) /\
  occursIn (failureComment demoTracker (ErrorObject "Failed to fetch"))
           (inlinedText demoTracker
              (failureComment demoTracker (ErrorObject "Failed to fetch"))).
Proof.
  apply (proj2 (script_fetch_failure_is_contained demoAbsoluteUrl demoNetwork
                  defaultOptions demoPage)).
  reflexivity.
Defined.

(** X27.  When external resources are not kept, the stylesheet pass
    followed by the script pass leaves nothing to fetch: below the root
    of the result there is no stylesheet link with an address and no
    script with a source, each having been inlined or removed. *)
Theorem no_resource_left_to_fetch
        (absoluteUrl : string -> Completion string)
        (network : Request -> FetchOutcome) (o : RecorderOptions) (doc : Node) :
  keepExternalResources o = false ->
  exists doc', inlineResources absoluteUrl network o doc = Normal doc' /\
               freeBelow fetchesResource doc' = true.
Proof.
  intros Hk. unfold inlineResources. rewrite processStylesheets_expected. cbn [bind].
  destruct doc as [tag attrs kids|s]; [|now eexists].
  cbn [expectedDocument processExternalScripts].
  destruct (mapKids_normal (scriptNode absoluteUrl network o)
              (fun k => free (fun tag attrs =>
                                fetchesResource tag attrs &&
                                negb (String.eqb tag "script")) k = true \/
                        keepExternalResources o = true)
              (fun l => keepExternalResources o = false ->
                        forallb (free fetchesResource) l = true)
              (flat_map (expectedNode absoluteUrl network o) kids)) as (ks & Hks & Hfree).
  - reflexivity.
  - intros a b Ha Hb H. now rewrite forallb_app, (Ha H), (Hb H).
  - apply Forall_forall. intros k _. apply scriptNode_normal.
  - assert (H : forallb (free (fun tag attrs =>
                                 fetchesResource tag attrs &&
                                 negb (String.eqb tag "script")))
                        (flat_map (expectedNode absoluteUrl network o) kids) = true).
    { apply forallb_flat_map, Forall_forall. intros k _.
      now apply expectedNode_fetches_no_stylesheet. }
    rewrite forallb_forall in H. apply Forall_forall. intros k Hin. left.
    apply H. now apply list_elem_of_In.
  - rewrite Hks. cbn [bind]. eexists. split; [reflexivity|]. now apply Hfree.
Qed.

Lemma nothing_left_to_fetch_in_demo_page :
  exists doc', inlineResources demoAbsoluteUrl demoNetwork selfContainedOptions demoPage = Normal doc' /\
               freeBelow fetchesResource doc' = true.
Proof.
  apply (no_resource_left_to_fetch demoAbsoluteUrl demoNetwork selfContainedOptions
           demoPage).
  reflexivity.
Defined.

(** X28.  The stylesheet pass and the script pass fetch only for the
    links and scripts whose address, as the attribute has it, passes
    [isResourceFromAllowedDomain], and they request the address that
    this text resolves to ([resolveUrl]).  Two networks that answer
    those requests alike give the same result, whatever they answer to
    any other request.  (The test reads the attribute and the request
    goes to the resolved address: a relative address passes the test
    whatever it resolves to.) *)
Theorem only_allowed_resources_are_fetched
        (absoluteUrl : string -> Completion string)
        (n1 n2 : Request -> FetchOutcome) (o : RecorderOptions) (doc : Node) :
  (forall url contentType fullUrl,
      isResourceFromAllowedDomain o url = true ->
      resolveUrl absoluteUrl url = Normal fullUrl ->
      n1 (requestFor url contentType fullUrl) =
      n2 (requestFor url contentType fullUrl)) ->
  inlineResources absoluteUrl n1 o doc = inlineResources absoluteUrl n2 o doc.
Proof.
  intros H. unfold inlineResources.
  assert (Hs : processStylesheets absoluteUrl n1 o doc =
               processStylesheets absoluteUrl n2 o doc).
  { destruct doc as [tag attrs kids|s]; [|reflexivity].
    cbn [processStylesheets].
    rewrite (mapKids_ext (styleNode absoluteUrl n1 o) (styleNode absoluteUrl n2 o));
      [reflexivity|].
    apply Forall_forall. intros k _. now apply styleNode_ext. }
  rewrite Hs. destruct (processStylesheets absoluteUrl n2 o doc) as [d|e]; [|reflexivity].
  cbn [bind]. destruct d as [tag attrs kids|s]; [|reflexivity].
  cbn [processExternalScripts].
  rewrite (mapKids_ext (scriptNode absoluteUrl n1 o) (scriptNode absoluteUrl n2 o));
    [reflexivity|].
  apply Forall_forall. intros k _. now apply scriptNode_ext.
Qed.

Lemma tracker_is_not_fetched_from_demo_page :
  inlineResources demoAbsoluteUrl demoNetwork defaultOptions demoPage =
  inlineResources demoAbsoluteUrl demoOtherNetwork defaultOptions demoPage.
Proof.
  apply (only_allowed_resources_are_fetched demoAbsoluteUrl demoNetwork
           demoOtherNetwork defaultOptions demoPage).
  intros url contentType fullUrl Hallowed Hresolve.
  unfold demoOtherNetwork, requestFor. cbn [requestUrl].
  destruct (String.eqb fullUrl demoTracker) eqn:E; [|reflexivity].
  apply String.eqb_eq in E. subst fullUrl. exfalso.
  unfold resolveUrl in Hresolve. destruct (startsWith url "http").
  - injection Hresolve as ->. vm_compute in Hallowed. discriminate.
  - unfold demoAbsoluteUrl in Hresolve.
    destruct (startsWith url "/"); [|discriminate].
    vm_compute in Hresolve. discriminate.
Defined.

(** X29.  [HtmlCaptureHelper.processScripts]: with ["remove"] no script
    element is left below the root, and none appears when the
    stylesheet and script passes run afterwards; with ["keep-safe"]
    every script left that has a source has one that
    [isResourceFromAllowedDomain] accepts (the [safeScriptSources]
    option is not consulted); with ["keep-all"] the document is
    unchanged. *)
Theorem script_handling_policy
        (absoluteUrl : string -> Completion string)
        (network : Request -> FetchOutcome) (o : RecorderOptions)
        (removeInline : bool) (doc : Node) :
  freeBelow isScript (processScripts o RemoveScripts removeInline doc) = true /\
  (exists doc',
      inlineResources absoluteUrl network o (processScripts o RemoveScripts removeInline doc)
      = Normal doc' /\
      freeBelow isScript doc' = true) /\
  freeBelow (foreignScript o) (processScripts o KeepSafe removeInline doc) = true /\
  processScripts o KeepAll removeInline doc = doc.
Proof.
  assert (Hrm : forall kids,
             forallb (free isScript)
                     (flat_map (removeWhere (fun tag _ => String.eqb tag "script")) kids)
             = true).
  { intros kids. apply forallb_flat_map, Forall_forall. intros k _.
    apply removeWhere_free. now intros tag attrs H. }
  split; [|split; [|split]].
  - destruct doc as [tag attrs kids|s]; [|reflexivity]. apply Hrm.
  - unfold inlineResources. rewrite processStylesheets_expected. cbn [bind].
    destruct doc as [tag attrs kids|s]; [|eexists; split; reflexivity].
    cbn [processScripts removeBelow expectedDocument processExternalScripts].
    set (kids1 := flat_map (removeWhere (fun tag _ => String.eqb tag "script")) kids).
    destruct (mapKids_normal (scriptNode absoluteUrl network o)
                (fun k => free isScript k = true)
                (fun l => forallb (free isScript) l = true)
                (flat_map (expectedNode absoluteUrl network o) kids1)) as (ks & Hks & Hfree).
    + reflexivity.
    + intros a b Ha Hb. now rewrite forallb_app, Ha, Hb.
    + apply Forall_forall. intros k _. apply scriptNode_makes_no_script.
    + assert (H : forallb (free isScript) (flat_map (expectedNode absoluteUrl network o) kids1)
                  = true).
      { apply forallb_flat_map, Forall_forall. intros k Hin.
        apply expectedNode_makes_no_script.
        specialize (Hrm kids). fold kids1 in Hrm. rewrite forallb_forall in Hrm.
        apply Hrm. now apply list_elem_of_In. }
      rewrite forallb_forall in H. apply Forall_forall. intros k Hin.
      apply H. now apply list_elem_of_In.
    + rewrite Hks. cbn [bind]. eexists. split; [reflexivity|]. exact Hfree.
  - destruct doc as [tag attrs kids|s]; [|reflexivity].
    cbn [processScripts removeBelow freeBelow].
    apply forallb_flat_map, Forall_forall. intros k _.
    apply removeWhere_free. intros t a H. unfold foreignScript in H.
    unfold unsafeScript. apply andb_prop in H as [Ht Hsrc]. rewrite Ht. cbn [andb].
    destruct (getAttribute "src" a) as [src|]; [|discriminate].
    apply andb_prop in Hsrc as [Htr Hna]. now rewrite Htr.
  - reflexivity.
Qed.

End SnapshotProps.

(* ===================================================================== *)
(** ** Properties of the storage adapter *)
(* ===================================================================== *)

Module StorageProps.
Import Artifact Storage.

Ltac zdiv := Z.to_euclidean_division_equations; lia.

(** *** Digits *)

Lemma digit_cases (d : Z) :
  0 <= d <= 9 ->
  d = 0 \/ d = 1 \/ d = 2 \/ d = 3 \/ d = 4 \/ d = 5 \/ d = 6 \/ d = 7 \/ d = 8 \/ d = 9.
Proof. lia. Qed.

Lemma digitValue_digitChar (d : Z) :
  0 <= d <= 9 -> digitValue (digitChar d) = Some d.
Proof.
  intros H. destruct (digit_cases d H) as [->|[->|[->|[->|[->|[->|[->|[->|[->| ->]]]]]]]]];
    reflexivity.
Qed.

Lemma readDigits_padDigits (width : nat) :
  forall (acc n : Z) (rest : string),
    0 <= n < 10 ^ Z.of_nat width ->
    readDigits width acc (padDigits width n +:+ rest) =
    Some (acc * 10 ^ Z.of_nat width + n, rest).
Proof.
  induction width as [|w IH]; intros acc n rest Hn.
  - cbn in *. f_equal. f_equal. lia.
  - cbn [padDigits].
    change (String ?c ?s +:+ rest) with (String c (s +:+ rest)).
    cbn [readDigits].
    assert (Hpow : 10 ^ Z.of_nat (S w) = 10 * 10 ^ Z.of_nat w)
      by (rewrite Nat2Z.inj_succ, Z.pow_succ_r; lia).
    assert (Hpos : 0 < 10 ^ Z.of_nat w) by (apply Z.pow_pos_nonneg; lia).
    rewrite Hpow in *.
    assert (Hd : 0 <= n / 10 ^ Z.of_nat w <= 9).
    { split; [apply Z.div_pos; lia|].
      assert (n / 10 ^ Z.of_nat w < 10); [|lia].
      apply Z.div_lt_upper_bound; lia. }
    rewrite (digitValue_digitChar _ Hd).
    rewrite IH by (apply Z.mod_pos_bound; lia).
    f_equal. f_equal.
    pose proof (Z.div_mod n (10 ^ Z.of_nat w)) as Hdm. nia.
Qed.

Lemma readDigits_padDigits_0 (width : nat) (n : Z) (rest : string) :
  0 <= n < 10 ^ Z.of_nat width ->
  readDigits width 0 (padDigits width n +:+ rest) = Some (n, rest).
Proof.
  intros Hn. rewrite readDigits_padDigits by exact Hn. f_equal.
Qed.

(** *** The calendar *)

Lemma doe_bounds (doe : Z) :
  0 <= doe < 146097 ->
  let yoe := (doe - doe / 1460 + doe / 36524 - doe / 146096) / 365 in
  let doy := doe - (365 * yoe + yoe / 4 - yoe / 100) in
  0 <= yoe <= 399 /\ 0 <= doy <= 365.
Proof. intros H. cbv zeta. zdiv. Qed.

Lemma mp_bounds (doy : Z) :
  0 <= doy <= 365 ->
  let mp := (5 * doy + 2) / 153 in
  0 <= mp <= 11 /\ 1 <= doy - (153 * mp + 2) / 5 + 1 <= 31.
Proof. intros H. cbv zeta. zdiv. Qed.

(** [daysFromCivil] undoes [civilFromDays], whose month and day are
    those of a calendar date. *)
Lemma civil_roundtrip (day y m d : Z) :
  civilFromDays day = (y, m, d) ->
  daysFromCivil y m d = day /\ 1 <= m <= 12 /\ 1 <= d <= 31 /\
  (-100000000 <= day <= 100000000 -> -999999 <= y <= 999999).
Proof.
  unfold civilFromDays.
  set (z := day + 719468).
  set (era := z / 146097). set (doe := z mod 146097).
  assert (Hdoe : 0 <= doe < 146097) by (apply Z.mod_pos_bound; lia).
  assert (Hz : z = 146097 * era + doe) by (apply Z.div_mod; lia).
  pose proof (doe_bounds doe Hdoe) as Hb. cbv zeta in Hb.
  set (yoe := (doe - doe / 1460 + doe / 36524 - doe / 146096) / 365) in *.
  set (doy := doe - (365 * yoe + yoe / 4 - yoe / 100)) in *.
  destruct Hb as [Hyoe Hdoy].
  pose proof (mp_bounds doy Hdoy) as Hm. cbv zeta in Hm.
  set (mp := (5 * doy + 2) / 153) in *.
  set (dd := doy - (153 * mp + 2) / 5 + 1) in *.
  destruct Hm as [Hmp Hd].
  set (mm := if mp <? 10 then mp + 3 else mp - 9).
  assert (Hmm : 1 <= mm <= 12) by (unfold mm; destruct (Z.ltb_spec mp 10); lia).
  intros [= <- <- <-].
  split; [|split; [|split]]; try assumption.
  - unfold daysFromCivil.
    assert (Hy : (if mm <=? 2
                  then (if mm <=? 2 then yoe + era * 400 + 1 else yoe + era * 400) - 1
                  else (if mm <=? 2 then yoe + era * 400 + 1 else yoe + era * 400))
                 = yoe + era * 400) by (destruct (mm <=? 2); lia).
    rewrite Hy.
    assert (Hera : (yoe + era * 400) / 400 = era) by zdiv.
    assert (Hyoe' : (yoe + era * 400) mod 400 = yoe) by zdiv.
    rewrite Hera, Hyoe'.
    assert (Hmp' : (if 2 <? mm then mm - 3 else mm + 9) = mp).
    { unfold mm. destruct (Z.ltb_spec mp 10);
        [destruct (Z.ltb_spec 2 (mp + 3))|destruct (Z.ltb_spec 2 (mp - 9))]; lia. }
    rewrite Hmp'. unfold dd, doy. unfold z in Hz. lia.
  - intros Hday. assert (-680 <= era <= 690) by (unfold z in Hz; lia).
    destruct (mm <=? 2); lia.
Qed.

(** *** The text of a date *)

Lemma digitChar_not_sign (d : Z) (s rest : string) :
  0 <= d <= 9 ->
  readYear (String (digitChar d) s) = readDigits 4 0 (String (digitChar d) s).
Proof.
  intros H. destruct (digit_cases d H) as [->|[->|[->|[->|[->|[->|[->|[->|[->| ->]]]]]]]]];
    reflexivity.
Qed.

Lemma readYear_yearString (y : Z) (rest : string) :
  -999999 <= y <= 999999 ->
  readYear (yearString y +:+ rest) = Some (y, rest).
Proof.
  intros Hy. unfold yearString.
  destruct ((0 <=? y) && (y <=? 9999)) eqn:E.
  - apply andb_prop in E as [H0 H1]. apply Z.leb_le in H0, H1.
    pose proof (readDigits_padDigits_0 4 y rest) as Hr.
    assert (Hd : 0 <= y / 10 ^ Z.of_nat 3 <= 9) by (change (10 ^ Z.of_nat 3) with 1000; zdiv).
    cbn [padDigits] in *.
    change (String ?c ?s +:+ rest) with (String c (s +:+ rest)) in *.
    rewrite (digitChar_not_sign _ _ rest Hd).
    apply Hr. change (10 ^ Z.of_nat 4) with 10000. lia.
  - assert (Hout : y < 0 \/ 9999 < y).
    { apply andb_false_iff in E as [E|E]; [apply Z.leb_gt in E|apply Z.leb_gt in E]; lia. }
    change (String ?c ?s +:+ rest) with (String c (s +:+ rest)).
    pose proof (readDigits_padDigits_0 6 (Z.abs y) rest) as Hr.
    assert (Habs : 0 <= Z.abs y < 10 ^ Z.of_nat 6)
      by (change (10 ^ Z.of_nat 6) with 1000000; lia).
    destruct (Z.ltb_spec y 0) as [Hneg|Hpos].
    + cbn [readYear]. rewrite (Hr Habs). cbn.
      destruct (Z.eqb_spec (Z.abs y) 0) as [Hz|_]; [lia|]. f_equal. f_equal. lia.
    + cbn [readYear]. rewrite (Hr Habs). f_equal. f_equal. lia.
Qed.

(** [Date.parse] reads back what [toISOString] wrote, for every time
    value a [Date] can hold. *)
Lemma parseISO_toISOString (t : Z) :
  inRange t = true -> parseISO (toISOString t) = Some t.
Proof.
  intros Hr. unfold inRange, maxTime in Hr.
  apply andb_prop in Hr as [Hlo Hhi]. apply Z.leb_le in Hlo, Hhi.
  unfold toISOString, msPerDay.
  destruct (civilFromDays (t / 86400000)) as [[y m] d] eqn:Hc.
  destruct (civil_roundtrip _ _ _ _ Hc) as (Hday & Hm & Hd & Hy).
  assert (Hdays : -100000000 <= t / 86400000 <= 100000000) by zdiv.
  specialize (Hy Hdays).
  set (ms := t mod 86400000).
  assert (Hms : 0 <= ms < 86400000) by (apply Z.mod_pos_bound; lia).
  assert (Hhh : 0 <= ms / 3600000 <= 23) by zdiv.
  assert (Hmi : 0 <= ms / 60000 mod 60 <= 59) by zdiv.
  assert (Hss : 0 <= ms / 1000 mod 60 <= 59) by zdiv.
  assert (Hmil : 0 <= ms mod 1000 <= 999) by zdiv.
  unfold parseISO.
  rewrite readYear_yearString by exact Hy. cbn [mbind option_bind expect Ascii.eqb Bool.eqb].
  rewrite readDigits_padDigits_0 by (change (10 ^ Z.of_nat 2) with 100; lia).
  cbn [mbind option_bind expect Ascii.eqb Bool.eqb].
  rewrite readDigits_padDigits_0 by (change (10 ^ Z.of_nat 2) with 100; lia).
  cbn [mbind option_bind expect Ascii.eqb Bool.eqb].
  rewrite readDigits_padDigits_0 by (change (10 ^ Z.of_nat 2) with 100; lia).
  cbn [mbind option_bind expect Ascii.eqb Bool.eqb].
  rewrite readDigits_padDigits_0 by (change (10 ^ Z.of_nat 2) with 100; lia).
  cbn [mbind option_bind expect Ascii.eqb Bool.eqb].
  rewrite readDigits_padDigits_0 by (change (10 ^ Z.of_nat 2) with 100; lia).
  cbn [mbind option_bind expect Ascii.eqb Bool.eqb].
  rewrite readDigits_padDigits_0 by (change (10 ^ Z.of_nat 3) with 1000; lia).
  cbn [mbind option_bind expect Ascii.eqb Bool.eqb].
  replace ((1 <=? m) && (m <=? 12) && (1 <=? d) && (d <=? 31) &&
           (ms / 3600000 <=? 23) && (ms / 60000 mod 60 <=? 59) &&
           (ms / 1000 mod 60 <=? 59)) with true
    by (symmetry; repeat (apply andb_true_intro; split); apply Z.leb_le; lia).
  rewrite Hday.
  assert (Ht : t / 86400000 * 86400000 + ms / 3600000 * 3600000
               + ms / 60000 mod 60 * 60000 + ms / 1000 mod 60 * 1000 + ms mod 1000 = t).
  { unfold ms. zdiv. }
  unfold msPerDay. rewrite Ht.
  replace (inRange t) with true; [reflexivity|].
  symmetry. unfold inRange, maxTime. apply andb_true_intro.
  split; apply Z.leb_le; lia.
Qed.

(** *** The adapter *)

Lemma newDate_toJSON (t : Z) :
  inRange t = true -> newDate (OfWire (toJSON (ValidDate t))) = ValidDate t.
Proof. intros H. cbn [newDate toJSON]. now rewrite parseISO_toISOString. Qed.

Lemma find_insert_first {A : Type} (P : A -> bool) (p : A) (l : list A) (i : nat) :
  findIndex P l = Some i -> P p = true -> List.find P (<[i := p]> l) = Some p.
Proof.
  revert i. induction l as [|x l IH]; intros i Hi Hp; [discriminate|].
  cbn [findIndex] in Hi. destruct (P x) eqn:Hx.
  - injection Hi as <-. cbn. now rewrite Hp.
  - destruct (findIndex P l) as [j|]; [|discriminate].
    injection Hi as <-. cbn. rewrite Hx. now apply IH.
Qed.

Lemma find_append_new {A : Type} (P : A -> bool) (p : A) (l : list A) :
  findIndex P l = None -> P p = true -> List.find P (l ++ [p]) = Some p.
Proof.
  induction l as [|x l IH]; intros Hi Hp; cbn.
  - now rewrite Hp.
  - cbn [findIndex] in Hi. destruct (P x); [discriminate|].
    apply IH; [|exact Hp]. now destruct (findIndex P l).
Qed.

Lemma find_map {A B : Type} (P : A -> bool) (Q : B -> bool) (f : A -> B) (l : list A) :
  (forall x, Q (f x) = P x) -> List.find Q (map f l) = f <$> List.find P l.
Proof.
  intros H. induction l as [|x l IH]; [reflexivity|].
  cbn. rewrite H. now destruct (P x).
Qed.

(** After [saveSession], [getAllSessions] sees every session as it is
    read back from the text, and the first one with the saved id is the
    saved session. *)
Lemma find_after_save (storageKey : string) (session : RecordingSession JsDate)
      (localStorage : gmap string StoredText) :
  List.find (fun s => String.eqb (id s) (id session))
            (getAllSessions storageKey (saveSession storageKey session localStorage)) =
  Some (throughText (prepareSessionForStorage session)).
Proof.
  unfold saveSession, getAllSessions at 1. rewrite lookup_insert_eq.
  unfold stringify. rewrite map_map.
  change (fun x => prepareSessionFromStorage (mapDates OfWire (mapDates toJSON x)))
    with throughText.
  rewrite (find_map (fun s => String.eqb (id s) (id session)) _ throughText)
    by reflexivity.
  set (P := fun s : RecordingSession JsDate => String.eqb (id s) (id session)).
  assert (Hp : P (prepareSessionForStorage session) = true)
    by (unfold P; cbn; apply String.eqb_refl).
  destruct (findIndex P (getAllSessions storageKey localStorage)) as [i|] eqn:Hi.
  - now rewrite (find_insert_first P _ _ i Hi Hp).
  - now rewrite (find_append_new P _ _ Hi Hp).
Qed.

Lemma reloadEvent_valid (e : SessionEvent JsDate) (t : Z) :
  timestamp e = ValidDate t -> inRange t = true ->
  timestamp (reloadEvent e) = timestamp e.
Proof.
  intros He Hr. unfold reloadEvent. cbn [timestamp newDate]. rewrite He.
  now apply newDate_toJSON.
Qed.

Lemma reloaded_events (session : RecordingSession JsDate) :
  events (prepareSessionFromStorage
            (mapDates OfDate (throughText (prepareSessionForStorage session)))) =
  map reloadEvent (events session).
Proof.
  unfold throughText.
  unfold prepareSessionFromStorage, prepareSessionForStorage, mapDates.
  cbn [events]. rewrite !map_map. reflexivity.
Qed.

Lemma reloaded_timestamps (evs : list (SessionEvent JsDate)) :
  forallb (fun e => match timestamp e with
                    | ValidDate t => inRange t
                    | InvalidDate => false
                    end) evs = true ->
  map timestamp (map reloadEvent evs) = map timestamp evs.
Proof.
  induction evs as [|e evs IH]; intros H; [reflexivity|].
  cbn [forallb] in H. apply andb_prop in H as [He Hrest].
  cbn [map]. rewrite (IH Hrest). f_equal.
  destruct (timestamp e) as [t|] eqn:Et; [|discriminate].
  rewrite (reloadEvent_valid e t Et He). exact Et.
Qed.

Lemma deltas_cons (x y : SessionEvent JsDate) (l : list (SessionEvent JsDate)) :
  deltas (x :: y :: l) =
  match eventTime y, eventTime x with
  | Some t2, Some t1 => Some (t2 - t1)
  | _, _ => None
  end :: deltas (y :: l).
Proof. reflexivity. Qed.

Lemma deltas_of_timestamps (a b : list (SessionEvent JsDate)) :
  map timestamp a = map timestamp b -> deltas a = deltas b.
Proof.
  revert b. induction a as [|x a IH]; intros [|y b] H; try discriminate; [reflexivity|].
  cbn [map] in H. injection H as Hxy Hab.
  destruct a as [|x' a], b as [|y' b]; try discriminate; [reflexivity|].
  pose proof Hab as Hab'. cbn [map] in Hab'. injection Hab' as Hxy' _.
  rewrite !deltas_cons. unfold eventTime. rewrite Hxy, Hxy'. f_equal. now apply IH.
Qed.

Lemma reloaded_dates (evs : list (SessionEvent JsDate)) :
  forallb (fun e => dateInRange (timestamp e)) evs = true ->
  map timestamp (map reloadEvent evs) = map (fun e => reloadDate (timestamp e)) evs.
Proof.
  induction evs as [|e evs IH]; intros H; [reflexivity|].
  cbn [forallb] in H. apply andb_prop in H as [He Hrest].
  cbn [map]. rewrite (IH Hrest). f_equal.
  unfold reloadEvent. cbn [timestamp].
  destruct (timestamp e) as [t|]; [|reflexivity].
  cbn [toJSON newDate reloadDate]. cbn [dateInRange] in He.
  now rewrite (parseISO_toISOString t He).
Qed.

Lemma validTimes_inRange (s : RecordingSession JsDate) :
  validTimes s = true -> eventsInRange s = true.
Proof.
  unfold validTimes, eventsInRange. rewrite !forallb_forall.
  intros H e He. specialize (H e He). now destruct (timestamp e).
Qed.

(** C2, as the code has it.  A session saved through the adapter and
    read back by its id comes back with the same number of events and
    the same kinds in the same order.  Each timestamp goes through the
    text: a valid date comes back with its time value, an invalid date
    is written as [null] and comes back as the epoch.  Hence a session
    whose events all carry valid dates comes back with the same time
    values and the same difference between every two adjacent events.
    (The hypothesis says that the dates are [Date] objects, whose time
    values never leave the range of [Date].) *)
Theorem save_then_load_preserves_events
        (storageKey : string) (session : RecordingSession JsDate)
        (localStorage : gmap string StoredText) :
  eventsInRange session = true ->
  exists loaded,
    getSession storageKey (id session)
               (saveSession storageKey session localStorage) = Some loaded /\
    length (events loaded) = length (events session) /\
    map type (events loaded) = map type (events session) /\
    map timestamp (events loaded) =
      map (fun e => reloadDate (timestamp e)) (events session) /\
    (validTimes session = true ->
     map timestamp (events loaded) = map timestamp (events session) /\
     deltas (events loaded) = deltas (events session)).
Proof.
  intros Hrange. unfold getSession. rewrite find_after_save.
  eexists. split; [reflexivity|]. rewrite reloaded_events.
  split; [now rewrite length_map|]. split; [|split].
  - rewrite map_map. reflexivity.
  - now apply reloaded_dates.
  - intros Hvalid.
    pose proof (reloaded_timestamps (events session) Hvalid) as Hts.
    split; [exact Hts|]. now apply deltas_of_timestamps.
Qed.

(** C2 on the demo session, saved into an empty storage. *)
Lemma save_then_load_demo_session :
  exists loaded,
    getSession "session_recordings" "s-1"
               (saveSession "session_recordings" demoStored ∅) = Some loaded /\
    length (events loaded) = 3%nat /\
    map type (events loaded) = [NAVIGATION; MOUSE_CLICK; MOUSE_MOVE] /\
    deltas (events loaded) = [Some 500; Some 1000].
Proof.
  destruct (save_then_load_preserves_events "session_recordings" demoStored ∅ eq_refl)
    as (loaded & Hget & Hlen & Hty & _ & Hvalid).
  exists loaded. split; [exact Hget|]. split; [exact Hlen|]. split; [exact Hty|].
  exact (proj2 (Hvalid eq_refl)).
Defined.

(** C2 as the specification states it fails on [demoUndated]: the
    difference between its two events is [NaN] before the session is
    saved, and 1700000000500 ms after it has been read back, the invalid
    date having become the epoch. *)
Lemma invalid_date_comes_back_as_epoch :
  ~ roundTripAsSpecified "session_recordings" demoUndated ∅ /\
  exists loaded,
    getSession "session_recordings" "s-3"
               (saveSession "session_recordings" demoUndated ∅) = Some loaded /\
    deltas (events demoUndated) = [None] /\
    deltas (events loaded) = [Some 1700000000500].
Proof.
  assert (Hget : getSession "session_recordings" (id demoUndated)
                   (saveSession "session_recordings" demoUndated ∅) =
                 Some (prepareSessionFromStorage
                         (mapDates OfDate
                            (throughText (prepareSessionForStorage demoUndated))))).
  { unfold getSession. now rewrite find_after_save. }
  split.
  - intros (loaded & Hl & _ & _ & Hd).
    rewrite Hget in Hl. injection Hl as <-.
    rewrite reloaded_events in Hd. vm_compute in Hd. discriminate.
  - eexists. split; [exact Hget|]. split; [reflexivity|].
    rewrite reloaded_events. vm_compute. reflexivity.
Qed.

(** The text of some dates, as [toISOString] writes them. *)
Example toISOString_epoch : toISOString 0 = "1970-01-01T00:00:00.000Z"%string.
Proof. reflexivity. Qed.

Example toISOString_2023 :
  toISOString 1700000000000 = "2023-11-14T22:13:20.000Z"%string.
Proof. reflexivity. Qed.

Example toISOString_latest :
  toISOString maxTime = "+275760-09-13T00:00:00.000Z"%string.
Proof. reflexivity. Qed.

Example toISOString_earliest :
  toISOString (- maxTime) = "-271821-04-20T00:00:00.000Z"%string.
Proof. reflexivity. Qed.

(** *** Whole sessions through the storage *)

Lemma mapDates_mapDates {A B C : Type} (f : A -> B) (g : B -> C)
      (s : RecordingSession A) :
  mapDates g (mapDates f s) = mapDates (fun d => g (f d)) s.
Proof. unfold mapDates. cbn. now rewrite map_map. Qed.

Lemma mapDates_ext {A B : Type} (f g : A -> B) (s : RecordingSession A) :
  f (startTime s) = g (startTime s) -> f (endTime s) = g (endTime s) ->
  Forall (fun e => f (timestamp e) = g (timestamp e)) (events s) ->
  mapDates f s = mapDates g s.
Proof.
  intros H1 H2 H3. unfold mapDates. rewrite H1, H2. f_equal.
  induction H3 as [|e l He _ IH]; cbn; [reflexivity|]. now rewrite He, IH.
Qed.

Lemma mapDates_id (s : RecordingSession JsDate) : mapDates (fun d => d) s = s.
Proof.
  destruct s as [i st en evs u h]. unfold mapDates. cbn. f_equal.
  induction evs as [|[t ty d] evs IH]; cbn; [reflexivity|]. now rewrite IH.
Qed.

Lemma reload_date (d : JsDate) :
  dateInRange d = true ->
  newDate (OfDate (newDate (OfWire (toJSON d)))) = reloadDate d.
Proof.
  destruct d as [t|]; intros H; [|reflexivity].
  cbn [newDate]. now apply newDate_toJSON.
Qed.

Lemma reload_session (s : RecordingSession JsDate) :
  datesInRange s = true ->
  prepareSessionFromStorage (mapDates OfDate (throughText s)) = mapDates reloadDate s.
Proof.
  unfold datesInRange. intros H.
  apply andb_prop in H as [H Hev]. apply andb_prop in H as [Hst Hen].
  unfold throughText, prepareSessionFromStorage. rewrite !mapDates_mapDates.
  apply mapDates_ext; try now apply reload_date.
  rewrite forallb_forall in Hev. apply List.Forall_forall.
  intros e He. apply reload_date, Hev, He.
Qed.

Lemma reload_valid (s : RecordingSession JsDate) :
  datesValid s = true -> mapDates reloadDate s = s.
Proof.
  unfold datesValid. intros H.
  apply andb_prop in H as [H Hev]. apply andb_prop in H as [Hst Hen].
  rewrite <- (mapDates_id s) at 2.
  apply mapDates_ext.
  - now destruct (startTime s).
  - now destruct (endTime s).
  - rewrite forallb_forall in Hev. apply List.Forall_forall.
    intros e He. specialize (Hev e He). now destruct (timestamp e).
Qed.

Lemma getAllSessions_insert (k : string) (l : list (RecordingSession JsDate))
      (st : gmap string StoredText) :
  getAllSessions k (<[k := stringify l]> st) = map throughText l.
Proof.
  unfold getAllSessions. rewrite lookup_insert_eq. unfold stringify.
  now rewrite map_map.
Qed.

Lemma storedIds_insert (k : string) (l : list (RecordingSession JsDate))
      (st : gmap string StoredText) :
  storedIds k (<[k := stringify l]> st) = map id l.
Proof.
  unfold storedIds. rewrite getAllSessions_insert, map_map. reflexivity.
Qed.

(** *** Lists searched and updated *)

Lemma findIndex_Some {A : Type} (P : A -> bool) (l : list A) (i : nat) :
  findIndex P l = Some i -> exists x, l !! i = Some x /\ P x = true.
Proof.
  revert i. induction l as [|y l IH]; intros i H; [discriminate|].
  cbn [findIndex] in H. destruct (P y) eqn:Hy.
  - injection H as <-. eauto.
  - destruct (findIndex P l) as [j|]; [|discriminate].
    injection H as <-. destruct (IH j eq_refl) as (x & Hx & Hp). eauto.
Qed.

Lemma findIndex_existsb {A : Type} (P : A -> bool) (l : list A) :
  existsb P l = match findIndex P l with Some _ => true | None => false end.
Proof.
  induction l as [|y l IH]; [reflexivity|].
  cbn [existsb findIndex]. destruct (P y); [reflexivity|].
  cbn [orb]. rewrite IH. now destruct (findIndex P l).
Qed.

Lemma find_insert_other {A : Type} (P : A -> bool) (p x : A) (l : list A) (i : nat) :
  l !! i = Some x -> P x = false -> P p = false ->
  List.find P (<[i := p]> l) = List.find P l.
Proof.
  revert i. induction l as [|y l IH]; intros i Hi Hx Hp; [discriminate|].
  destruct i as [|i]; cbn in Hi |- *.
  - injection Hi as ->. now rewrite Hx, Hp.
  - destruct (P y); [reflexivity|]. now apply IH.
Qed.

Lemma find_app_other {A : Type} (P : A -> bool) (p : A) (l : list A) :
  P p = false -> List.find P (l ++ [p]) = List.find P l.
Proof.
  intros Hp. induction l as [|y l IH]; cbn; [now rewrite Hp|].
  now destruct (P y).
Qed.

Lemma find_filter_other {A : Type} (P keep : A -> bool) (l : list A) :
  (forall x, P x = true -> keep x = true) ->
  List.find P (List.filter keep l) = List.find P l.
Proof.
  intros H. induction l as [|y l IH]; [reflexivity|].
  cbn [List.filter List.find]. destruct (P y) eqn:Hy.
  - rewrite (H y Hy). cbn. now rewrite Hy.
  - destruct (keep y); [|exact IH]. cbn. now rewrite Hy.
Qed.

Lemma find_filter_none {A : Type} (P : A -> bool) (l : list A) :
  List.find P (List.filter (fun x => negb (P x)) l) = None.
Proof.
  induction l as [|y l IH]; [reflexivity|].
  cbn [List.filter]. destruct (P y) eqn:Hy; cbn [negb]; [exact IH|].
  cbn [List.find]. now rewrite Hy.
Qed.

Lemma map_id_insert (p x : RecordingSession JsDate)
      (l : list (RecordingSession JsDate)) (i : nat) :
  l !! i = Some x -> id x = id p -> map id (<[i := p]> l) = map id l.
Proof.
  revert i. induction l as [|y l IH]; intros i Hi Hp; [discriminate|].
  destruct i as [|i]; cbn in Hi |- *.
  - injection Hi as ->. now rewrite Hp.
  - f_equal. now apply IH.
Qed.

(** X9.  A session saved through the adapter and read back by its id
    comes back whole: the same id, events, payloads, URL and HTML, and
    every date with its time value, except that an invalid date comes
    back as the epoch ([JSON.stringify] writes it as [null]).  A session
    without invalid dates comes back identical. *)
Theorem save_then_get_returns_the_session
        (storageKey : string) (session : RecordingSession JsDate)
        (localStorage : gmap string StoredText) :
  datesInRange session = true ->
  getSession storageKey (id session) (saveSession storageKey session localStorage) =
    Some (mapDates reloadDate session) /\
  (datesValid session = true ->
   getSession storageKey (id session) (saveSession storageKey session localStorage) =
     Some session).
Proof.
  intros Hr.
  assert (H : getSession storageKey (id session)
                (saveSession storageKey session localStorage) =
              Some (mapDates reloadDate session)).
  { unfold getSession. rewrite find_after_save. f_equal.
    unfold prepareSessionForStorage. rewrite mapDates_id. now apply reload_session. }
  split; [exact H|]. intros Hv. now rewrite H, reload_valid.
Qed.

Lemma save_then_get_demo_sessions :
  getSession "session_recordings" (id demoUnfinished)
             (saveSession "session_recordings" demoUnfinished ∅) =
    Some (mapDates reloadDate demoUnfinished) /\
  getSession "session_recordings" (id demoStored)
             (saveSession "session_recordings" demoStored ∅) = Some demoStored.
Proof.
  split.
  - exact (proj1 (save_then_get_returns_the_session
                    "session_recordings" demoUnfinished ∅ eq_refl)).
  - exact (proj2 (save_then_get_returns_the_session
                    "session_recordings" demoStored ∅ eq_refl) eq_refl).
Defined.

(** X10.  After [deleteSession(id)], [getSession(id)] finds nothing,
    whatever the storage held. *)
Theorem delete_then_get_finds_nothing
        (storageKey sid : string) (localStorage : gmap string StoredText) :
  getSession storageKey sid (deleteSession storageKey sid localStorage) = None.
Proof.
  unfold getSession, deleteSession. rewrite getAllSessions_insert.
  rewrite (find_map (fun s => String.eqb (id s) sid) _ throughText) by reflexivity.
  now rewrite (find_filter_none (fun s => String.eqb (id s) sid)).
Qed.

Lemma getSession_found (storageKey sid : string) (found : RecordingSession JsDate)
      (localStorage : gmap string StoredText) :
  getSession storageKey sid localStorage = Some found ->
  List.find (fun s => String.eqb (id s) sid) (getAllSessions storageKey localStorage)
  = Some found.
Proof.
  unfold getSession.
  destruct (List.find _ (getAllSessions storageKey localStorage)) as [x|];
    [|discriminate].
  intros H. injection H as <-.
  unfold prepareSessionFromStorage. rewrite mapDates_mapDates.
  change (mapDates (fun d => newDate (OfDate d)) x) with (mapDates (fun d => d) x).
  now rewrite mapDates_id.
Qed.

Lemma getSession_rewritten (storageKey sid : string) (found : RecordingSession JsDate)
      (l : list (RecordingSession JsDate)) (localStorage : gmap string StoredText) :
  List.find (fun s => String.eqb (id s) sid) l = Some found ->
  datesInRange found = true ->
  getSession storageKey sid (<[storageKey := stringify l]> localStorage) =
  Some (mapDates reloadDate found).
Proof.
  intros Hf Hr. unfold getSession. rewrite getAllSessions_insert.
  rewrite (find_map (fun s => String.eqb (id s) sid) _ throughText) by reflexivity.
  rewrite Hf. cbn [fmap option_fmap option_map]. f_equal. now apply reload_session.
Qed.

(** X11.  Saving or deleting one session keeps every session stored
    under another id: it is read back as before, an invalid date in it
    coming back as the epoch (every stored session is written out
    again). *)
Theorem other_sessions_survive_save_and_delete
        (storageKey other : string) (found : RecordingSession JsDate)
        (localStorage : gmap string StoredText) :
  getSession storageKey other localStorage = Some found ->
  datesInRange found = true ->
  (forall session, id session <> other ->
     getSession storageKey other (saveSession storageKey session localStorage) =
     Some (mapDates reloadDate found)) /\
  (forall sid, sid <> other ->
     getSession storageKey other (deleteSession storageKey sid localStorage) =
     Some (mapDates reloadDate found)).
Proof.
  intros Hget Hr. apply getSession_found in Hget. split.
  - intros session Hne. unfold saveSession.
    apply getSession_rewritten; [|exact Hr].
    assert (Hp : String.eqb (id (prepareSessionForStorage session)) other = false)
      by (now apply String.eqb_neq).
    destruct (findIndex _ (getAllSessions storageKey localStorage)) as [i|] eqn:Hi.
    + apply findIndex_Some in Hi as (x & Hx & Hid).
      apply String.eqb_eq in Hid.
      rewrite (find_insert_other _ _ x _ i Hx); [exact Hget| |exact Hp].
      apply String.eqb_neq. congruence.
    + now rewrite find_app_other.
  - intros sid Hne. unfold deleteSession.
    apply getSession_rewritten; [|exact Hr].
    rewrite find_filter_other; [exact Hget|].
    intros x Hx. apply String.eqb_eq in Hx. apply negb_true_iff, String.eqb_neq.
    congruence.
Qed.

Lemma demo_session_survives :
  (forall session, id session <> "s-1"%string ->
     getSession "session_recordings" "s-1"
       (saveSession "session_recordings" session
          (saveSession "session_recordings" demoStored ∅)) =
     Some (mapDates reloadDate demoStored)) /\
  (forall sid, sid <> "s-1"%string ->
     getSession "session_recordings" "s-1"
       (deleteSession "session_recordings" sid
          (saveSession "session_recordings" demoStored ∅)) =
     Some (mapDates reloadDate demoStored)).
Proof.
  apply (other_sessions_survive_save_and_delete
           "session_recordings" "s-1" demoStored
           (saveSession "session_recordings" demoStored ∅)).
  - vm_compute. reflexivity.
  - reflexivity.
Defined.

(** *** The ids in the storage *)

Lemma existsb_of_map {A B : Type} (f : B -> bool) (g : A -> B) (l : list A) :
  existsb f (map g l) = existsb (fun x => f (g x)) l.
Proof.
  induction l as [|x l IH]; [reflexivity|]. cbn. now rewrite IH.
Qed.

Lemma storedIds_save (storageKey : string) (session : RecordingSession JsDate)
      (localStorage : gmap string StoredText) :
  storedIds storageKey (saveSession storageKey session localStorage) =
  if existsb (fun i => String.eqb i (id session)) (storedIds storageKey localStorage)
  then storedIds storageKey localStorage
  else storedIds storageKey localStorage ++ [id session].
Proof.
  unfold saveSession. rewrite storedIds_insert.
  unfold storedIds at 1. rewrite existsb_of_map, findIndex_existsb.
  destruct (findIndex _ (getAllSessions storageKey localStorage)) as [i|] eqn:Hi.
  - apply findIndex_Some in Hi as (x & Hx & Hid). apply String.eqb_eq in Hid.
    now apply (map_id_insert _ x).
  - now rewrite map_app.
Qed.

Lemma storedIds_delete (storageKey sid : string)
      (localStorage : gmap string StoredText) :
  storedIds storageKey (deleteSession storageKey sid localStorage) =
  List.filter (fun i => negb (String.eqb i sid)) (storedIds storageKey localStorage).
Proof.
  unfold deleteSession. rewrite storedIds_insert. unfold storedIds.
  induction (getAllSessions storageKey localStorage) as [|x l IH]; [reflexivity|].
  cbn [List.filter map]. destruct (String.eqb (id x) sid); cbn [negb map]; now rewrite IH.
Qed.

Lemma applyStorageOp_NoDup (storageKey : string) (op : StorageOp)
      (localStorage : gmap string StoredText) :
  NoDup (storedIds storageKey localStorage) ->
  NoDup (storedIds storageKey (applyStorageOp storageKey op localStorage)).
Proof.
  intros H. destruct op as [session|sid]; cbn [applyStorageOp].
  - rewrite storedIds_save.
    destruct (existsb _ (storedIds storageKey localStorage)) eqn:E; [exact H|].
    apply NoDup_app. split; [exact H|]. split; [|apply NoDup_singleton].
    intros i Hi Hin. apply list_elem_of_singleton in Hin as ->.
    assert (existsb (fun i => String.eqb i (id session))
                    (storedIds storageKey localStorage) = true); [|congruence].
    apply existsb_exists. exists (id session). split; [|apply String.eqb_refl].
    now apply list_elem_of_In.
  - rewrite storedIds_delete. apply NoDup_ListNoDup, List.NoDup_filter.
    now apply NoDup_ListNoDup.
Qed.

(** X12.  [saveSession] replaces the stored session that has the id of
    the saved one where it stands, or appends the session when the id is
    new: the ids stored, and their order, stay as they were, or gain the
    new id at the end.  [deleteSession] removes every session with the
    id and keeps the others in order. *)
Theorem stored_ids_after_save_and_delete
        (storageKey : string) (session : RecordingSession JsDate) (sid : string)
        (localStorage : gmap string StoredText) :
  storedIds storageKey (saveSession storageKey session localStorage) =
    (if existsb (fun i => String.eqb i (id session)) (storedIds storageKey localStorage)
     then storedIds storageKey localStorage
     else storedIds storageKey localStorage ++ [id session]) /\
  storedIds storageKey (deleteSession storageKey sid localStorage) =
    List.filter (fun i => negb (String.eqb i sid)) (storedIds storageKey localStorage).
Proof.
  split; [apply storedIds_save|apply storedIds_delete].
Qed.

(** X13.  Starting from an empty storage, whatever is saved and
    deleted, no two stored sessions ever have the same id. *)
Theorem stored_ids_stay_distinct (storageKey : string) (ops : list StorageOp) :
  NoDup (storedIds storageKey (runStorage storageKey ops ∅)).
Proof.
  assert (H : forall st, NoDup (storedIds storageKey st) ->
                         NoDup (storedIds storageKey (runStorage storageKey ops st))).
  { induction ops as [|op ops IH]; intros st Hst; [exact Hst|].
    apply IH, applyStorageOp_NoDup, Hst. }
  apply H. unfold storedIds, getAllSessions. rewrite lookup_empty. constructor.
Qed.

(** A session without invalid dates, saved and read back by its id, is
    the session. *)
Lemma save_then_get_valid (storageKey : string) (session : RecordingSession JsDate)
      (localStorage : gmap string StoredText) :
  datesInRange session = true -> datesValid session = true ->
  getSession storageKey (id session) (saveSession storageKey session localStorage) =
  Some session.
Proof.
  intros Hr Hv. unfold getSession. rewrite find_after_save. f_equal.
  unfold prepareSessionForStorage.
  now rewrite mapDates_id, reload_session, reload_valid.
Qed.

End StorageProps.

(* ===================================================================== *)
(** ** Properties of the recorder *)
(* ===================================================================== *)

Module RecorderProps.
Import Artifact Storage Recorder.

(** *** Chronological order *)

Lemma sortedTimes_two (e e' : SessionEvent JsDate) (l : list (SessionEvent JsDate)) :
  Replay.sortedTimes (e :: e' :: l) =
  match eventTime e, eventTime e' with
  | Some t, Some t' => (t <=? t') && Replay.sortedTimes (e' :: l)
  | _, _ => false
  end.
Proof.
  cbn [Replay.sortedTimes]. destruct (eventTime e); [|reflexivity].
  now destruct (eventTime e').
Qed.

Lemma sortedTimes_snoc (lo t : Z) (type : EventType) (data : EventData)
      (evs : list (SessionEvent JsDate)) :
  Replay.sortedTimes evs = true -> eventsWithin lo t evs ->
  Replay.sortedTimes (evs ++ [mkEvent (ValidDate t) type data]) = true.
Proof.
  induction evs as [|e rest IH]; intros Hs Hw; [reflexivity|].
  inversion Hw as [|? ? (te & Hte & Hle) Hw']; subst.
  destruct rest as [|e' rest].
  - cbn [app]. rewrite sortedTimes_two. unfold eventTime at 1 2. rewrite Hte.
    cbn [getTime timestamp]. apply andb_true_intro. split; [apply Z.leb_le; lia|].
    reflexivity.
  - change ((e :: e' :: rest) ++ [mkEvent (ValidDate t) type data])
      with (e :: e' :: (rest ++ [mkEvent (ValidDate t) type data])).
    rewrite sortedTimes_two in Hs |- *.
    destruct (eventTime e); [|discriminate].
    destruct (eventTime e'); [|discriminate].
    apply andb_prop in Hs as [H1 H2]. rewrite H1. cbn [andb].
    now apply IH.
Qed.

Lemma eventsWithin_weaken (lo hi hi' : Z) (evs : list (SessionEvent JsDate)) :
  hi <= hi' -> eventsWithin lo hi evs -> eventsWithin lo hi' evs.
Proof.
  intros Hle H. eapply Forall_impl; [exact H|].
  intros e (t & Ht & Hb). exists t. split; [exact Ht|lia].
Qed.

Lemma chronological_later (T T' : Z) (r : SessionRecorder) :
  T <= T' -> chronological T r -> chronological T' r.
Proof.
  unfold chronological. intros Hle. destruct (currentSession r) as [s|]; [|auto].
  intros (st & en & Hs & He & Hb & Hsort & Hw & Hstop).
  exists st, en. repeat split; try assumption; try lia.
  now apply (eventsWithin_weaken st T T').
Qed.

Lemma recordEvent_chronological (t : Z) (type : EventType) (data : EventData)
      (r : SessionRecorder) :
  chronological t r -> chronological t (recordEvent t type data r).
Proof.
  unfold chronological, recordEvent. destruct (currentSession r) as [s|] eqn:Hc;
    [|now rewrite Hc].
  destruct (isRecording r) eqn:Hrec; [|rewrite Hc, Hrec; auto].
  intros (st & en & Hs & He & Hb & Hsort & Hw & _).
  cbn [withSession currentSession isRecording startTime endTime events].
  exists st, en. repeat split; try assumption; try lia.
  - now apply (sortedTimes_snoc st).
  - apply Forall_app. split; [exact Hw|]. constructor; [|constructor].
    exists t. split; [reflexivity|lia].
  - rewrite Hrec. discriminate.
Qed.

Lemma saveCurrentSession_chronological (T : Z) (r : SessionRecorder) :
  chronological T r -> chronological T (saveCurrentSession r).
Proof.
  unfold chronological, saveCurrentSession.
  destruct (currentSession r) as [s|] eqn:Hc; cbn [currentSession isRecording];
    now rewrite ?Hc.
Qed.

Lemma startRecording_chronological (t : Z) (newId : string) (page : PageInfo)
      (r : SessionRecorder) :
  chronological t r -> chronological t (startRecording t newId page r).
Proof.
  intros H. unfold startRecording. destruct (isRecording r); [exact H|].
  cbv zeta. unfold recordNavigationEvent. apply recordEvent_chronological.
  unfold chronological, startSessionEventCapture, initializeSession, withSession.
  cbn [options]. destruct (captureHtml (options r));
    cbn [currentSession options isRecording startTime endTime events];
    exists t, t; repeat split; try reflexivity; try lia; try constructor;
    discriminate.
Qed.

Lemma stopRecording_chronological (t : Z) (r : SessionRecorder) :
  chronological t r -> chronological t (stopRecording t r).
Proof.
  intros H. unfold stopRecording.
  destruct (currentSession r) as [s|] eqn:Hc; [|exact H].
  destruct (isRecording r) eqn:Hrec; [|exact H].
  cbv zeta. cbn [cleanupSession currentSession]. rewrite Hc.
  apply saveCurrentSession_chronological.
  unfold chronological in H |- *. rewrite Hc in H.
  destruct H as (st & en & Hs & He & Hb & Hsort & Hw & _).
  cbn [withSession currentSession isRecording startTime endTime events].
  exists st, t. repeat split; try assumption; try lia.
  intros _. exact Hw.
Qed.

Lemma htmlCaptured_chronological (T : Z) (html : string) (r : SessionRecorder) :
  chronological T r -> chronological T (htmlCaptured html r).
Proof.
  intros H. unfold htmlCaptured. destruct (htmlPending r); [exact H|].
  unfold chronological in H |- *.
  destruct (currentSession r) as [s|] eqn:Hc; [|now rewrite Hc].
  exact H.
Qed.

Lemma resumeSave_chronological (T : Z) (r : SessionRecorder) :
  chronological T r -> chronological T (resumeSave r).
Proof.
  unfold resumeSave. now destruct (pendingSaves r).
Qed.

Lemma applyRecorderOp_chronological (r : SessionRecorder) (op : Z * RecorderOp) :
  chronological (fst op) r -> chronological (fst op) (applyRecorderOp r op).
Proof.
  destruct op as [t op]. cbn [fst]. intros H. unfold applyRecorderOp. cbn [fst snd].
  destruct op as [newId page| |type data| | | |html|].
  - now apply startRecording_chronological.
  - now apply stopRecording_chronological.
  - now apply recordEvent_chronological.
  - destruct (saveIntervalId r); [now apply saveCurrentSession_chronological|exact H].
  - destruct (sessionTimeout r); [now apply stopRecording_chronological|exact H].
  - destruct (isRecording r); [now apply stopRecording_chronological|exact H].
  - now apply htmlCaptured_chronological.
  - now apply resumeSave_chronological.
Qed.

Lemma runRecorder_chronological (ops : list (Z * RecorderOp)) (T : Z)
      (r : SessionRecorder) :
  clockAscends T (map fst ops) = true -> chronological T r ->
  chronological (finalClock T ops) (runRecorder ops r).
Proof.
  revert T r. induction ops as [|op ops IH]; intros T r Hasc H; [exact H|].
  cbn [map clockAscends] in Hasc. apply andb_prop in Hasc as [Hle Hasc].
  apply Z.leb_le in Hle.
  cbn [runRecorder fold_left]. unfold finalClock. cbn [map fold_left].
  apply (IH (fst op)); [exact Hasc|].
  apply applyRecorderOp_chronological. now apply (chronological_later T).
Qed.

(** X22.  As long as the clock does not run backwards, the session a
    recorder holds is in chronological order after any run of starts,
    stops, recorded events, auto-saves and timeouts: its events carry
    valid dates in non-decreasing order, none before the start of the
    session, and once the recording has stopped none after its end. *)
Theorem recorded_sessions_are_chronological
        (o : Options) (storage : gmap string StoredText)
        (ops : list (Z * RecorderOp)) (t0 : Z) (s : RecordingSession JsDate) :
  clockAscends t0 (map fst ops) = true ->
  currentSession (runRecorder ops (newRecorder o storage)) = Some s ->
  exists st en,
    startTime s = ValidDate st /\ endTime s = ValidDate en /\ st <= en /\
    Replay.sortedTimes (events s) = true /\
    eventsWithin st (finalClock t0 ops) (events s) /\
    (isRecording (runRecorder ops (newRecorder o storage)) = false ->
     eventsWithin st en (events s)).
Proof.
  intros Hasc Hs.
  pose proof (runRecorder_chronological ops t0 (newRecorder o storage) Hasc I) as H.
  unfold chronological in H. rewrite Hs in H.
  destruct H as (st & en & H1 & H2 & H3 & H4 & H5 & H6).
  exists st, en. repeat split; try assumption. lia.
Qed.

Lemma chronological_demo_run :
  exists st en,
    startTime demoRunSession = ValidDate st /\ endTime demoRunSession = ValidDate en /\
    st <= en /\
    Replay.sortedTimes (events demoRunSession) = true /\
    eventsWithin st (finalClock 0 demoRun) (events demoRunSession) /\
    (isRecording (runRecorder demoRun (newRecorder demoOptions ∅)) = false ->
     eventsWithin st en (events demoRunSession)).
Proof.
  apply (recorded_sessions_are_chronological demoOptions ∅ demoRun 0 demoRunSession);
    reflexivity.
Defined.

(** *** From the recorder to the storage *)

Lemma forallb_of_map {A B : Type} (f : B -> bool) (g : A -> B) (l : list A) :
  forallb f (map g l) = forallb (fun x => f (g x)) l.
Proof.
  induction l as [|x l IH]; [reflexivity|]. cbn. now rewrite IH.
Qed.

Lemma recordAll_state (evs : list (Z * (EventType * EventData)))
      (r : SessionRecorder) (s : RecordingSession JsDate) :
  isRecording r = true -> currentSession r = Some s ->
  recordAll evs r =
  withSession (mkSession (id s) (startTime s) (endTime s)
                         (events s ++ asRecorded evs) (pageUrl s) (pageHtml s)) r.
Proof.
  revert r s. induction evs as [|[t [ty d]] evs IH]; intros r s Hrec Hc.
  - cbn [recordAll fold_left asRecorded map]. rewrite app_nil_r.
    destruct r as [o b c i to h st ps]. cbn in Hc |- *. subst c.
    now destruct s.
  - cbn [recordAll fold_left fst snd].
    fold (recordAll evs (recordEvent t ty d r)).
    unfold recordEvent at 1. rewrite Hc, Hrec.
    erewrite IH; [|exact Hrec|reflexivity].
    cbn [withSession id startTime endTime events pageUrl pageHtml options isRecording
         saveIntervalId sessionTimeout htmlPending localStorage pendingSaves
         asRecorded map fst snd].
    now rewrite <- app_assoc.
Qed.

Lemma resumeSaveSession_get (storageKey : string)
      (sessions : list (RecordingSession JsDate)) (session : RecordingSession JsDate)
      (localStorage : gmap string StoredText) :
  datesInRange session = true -> datesValid session = true ->
  getSession storageKey (id session)
             (resumeSaveSession storageKey sessions session localStorage) =
  Some session.
Proof.
  intros Hr Hv. unfold getSession, resumeSaveSession.
  rewrite StorageProps.getAllSessions_insert.
  rewrite (StorageProps.find_map (fun s => String.eqb (id s) (id session)) _ throughText)
    by reflexivity.
  set (P := fun s : RecordingSession JsDate => String.eqb (id s) (id session)).
  assert (Hp : P (prepareSessionForStorage session) = true)
    by (unfold P; cbn; apply String.eqb_refl).
  assert (Hfound :
            List.find P
              (match findIndex P sessions with
               | Some existingIndex =>
                   <[existingIndex := prepareSessionForStorage session]> sessions
               | None => sessions ++ [prepareSessionForStorage session]
               end) = Some (prepareSessionForStorage session)).
  { destruct (findIndex P sessions) as [i|] eqn:Hi.
    - now apply StorageProps.find_insert_first.
    - now apply StorageProps.find_append_new. }
  rewrite Hfound. cbn [option_map]. f_equal.
  unfold prepareSessionForStorage.
  now rewrite StorageProps.mapDates_id, StorageProps.reload_session,
    StorageProps.reload_valid.
Qed.

(** X23.  [stopRecording] starts the save of the session and returns
    without waiting for it: when it returns the storage is as it was,
    and one call of [saveSession] waits to resume.  Once that call has
    resumed, the recording is read back as it was made: [getSession]
    with the id of the session returns the session with the start and
    end times of the two calls, the page URL, and as events the initial
    navigation followed by the recorded events in order, each with the
    time of its recording. *)
Theorem recording_is_read_back_as_recorded
        (o : Options) (storage : gmap string StoredText) (t0 tEnd : Z)
        (newId : string) (page : PageInfo)
        (evs : list (Z * (EventType * EventData))) :
  inRange t0 = true -> inRange tEnd = true ->
  forallb (fun x => inRange (fst x)) evs = true ->
  let r := stopRecording tEnd
             (recordAll evs (startRecording t0 newId page (newRecorder o storage))) in
  isRecording r = false /\
  localStorage r = storage /\
  length (pendingSaves r) = 1%nat /\
  pendingSaves (resumeSave r) = [] /\
  getSession (storageKey o) newId (localStorage (resumeSave r)) =
    Some (mkSession newId (ValidDate t0) (ValidDate tEnd)
                    (navigationEvent t0 page :: asRecorded evs)
                    (Some (href page)) None).
Proof.
  intros H0 HE Hevs.
  set (r1 := startRecording t0 newId page (newRecorder o storage)).
  set (s1 := mkSession newId (ValidDate t0) (ValidDate t0)
                       [navigationEvent t0 page] (Some (href page)) None).
  assert (Hrec1 : isRecording r1 = true) by (unfold r1, startRecording; cbn;
                                             now destruct (captureHtml o)).
  assert (Hc1 : currentSession r1 = Some s1) by (unfold r1, startRecording; cbn;
                                                 now destruct (captureHtml o)).
  assert (Ho1 : options r1 = o) by (unfold r1, startRecording; cbn;
                                    now destruct (captureHtml o)).
  assert (Hst1 : localStorage r1 = storage) by (unfold r1, startRecording; cbn;
                                                now destruct (captureHtml o)).
  assert (Hps1 : pendingSaves r1 = []) by (unfold r1, startRecording; cbn;
                                           now destruct (captureHtml o)).
  rewrite (recordAll_state evs r1 s1 Hrec1 Hc1).
  cbv zeta. unfold stopRecording.
  cbn [withSession currentSession isRecording cleanupSession]. rewrite Hrec1.
  unfold saveCurrentSession, resumeSave, cleanupSession, withSession.
  cbn [currentSession isRecording options localStorage pendingSaves
       id startTime endTime events pageUrl pageHtml s1 savedObject sessionsRead].
  rewrite Ho1, Hst1, Hps1.
  cbn [app length currentSession isRecording options localStorage pendingSaves
       savedObject sessionsRead].
  repeat (split; [reflexivity|]).
  set (s := mkSession newId (ValidDate t0) (ValidDate tEnd)
                      ([navigationEvent t0 page] ++ asRecorded evs)
                      (Some (href page)) None).
  change newId with (id s) at 1.
  apply resumeSaveSession_get.
  - unfold datesInRange, s. cbn [startTime endTime events dateInRange app forallb
                                  navigationEvent timestamp].
    rewrite H0, HE. cbn [andb]. unfold asRecorded. rewrite forallb_of_map. exact Hevs.
  - unfold datesValid, s. cbn [startTime endTime events isValidDate app forallb
                                navigationEvent timestamp andb].
    unfold asRecorded. rewrite forallb_of_map. now apply forallb_forall.
Qed.

Lemma demo_recording_is_read_back :
  let r := stopRecording 1700000002000
             (recordAll demoRecorded
                (startRecording 1700000000000 "s-1" demoPage (newRecorder demoOptions ∅))) in
  isRecording r = false /\
  localStorage r = ∅ /\
  length (pendingSaves r) = 1%nat /\
  pendingSaves (resumeSave r) = [] /\
  getSession (storageKey demoOptions) "s-1" (localStorage (resumeSave r)) =
    Some (mkSession "s-1" (ValidDate 1700000000000) (ValidDate 1700000002000)
                    (navigationEvent 1700000000000 demoPage :: asRecorded demoRecorded)
                    (Some (href demoPage)) None).
Proof.
  apply (recording_is_read_back_as_recorded
           demoOptions ∅ 1700000000000 1700000002000 "s-1" demoPage demoRecorded);
    reflexivity.
Defined.

End RecorderProps.

(* ===================================================================== *)
(** ** Properties of the helpers *)
(* ===================================================================== *)

Module HelpersProps.
Import Helpers.

(** *** generateUniqueId *)

Lemma nibble_range (u : Q) : (0 <= u)%Q -> (u < 1)%Q -> 0 <= nibble u < 16.
Proof.
  intros H0 H1. unfold nibble. split.
  - change 0 with (Qfloor 0). apply Qfloor_resp_le. lra.
  - rewrite Zlt_Qlt. eapply Qle_lt_trans; [apply Qfloor_le|].
    change (inject_Z 16) with 16%Q. lra.
Qed.

Lemma below_16 (P : Z -> bool) (v : Z) :
  forallb (fun n => P (Z.of_nat n)) (seq 0 16) = true -> 0 <= v < 16 -> P v = true.
Proof.
  intros Hall Hv. rewrite forallb_forall in Hall. specialize (Hall (Z.to_nat v)).
  rewrite Z2Nat.id in Hall by lia. apply Hall, in_seq. lia.
Qed.

Lemma replacement_x (u : Q) :
  (0 <= u)%Q -> (u < 1)%Q -> isHex (replacement "x" u) = true.
Proof.
  intros H0 H1. unfold replacement. cbn [Ascii.eqb Bool.eqb]. cbv zeta.
  apply (below_16 (fun v => isHex (hexDigit v))); [vm_compute; reflexivity|].
  now apply nibble_range.
Qed.

Lemma replacement_y (u : Q) :
  (0 <= u)%Q -> (u < 1)%Q -> isVariant (replacement "y" u) = true.
Proof.
  intros H0 H1. unfold replacement. cbn [Ascii.eqb Bool.eqb]. cbv zeta.
  apply (below_16 (fun v => isVariant (hexDigit (Z.lor (Z.land v 3) 8))));
    [vm_compute; reflexivity|].
  now apply nibble_range.
Qed.

(** X24.  Whatever [Math.random] returns, the id generated has the
    shape of a version 4 UUID: 36 characters, hexadecimal digits in
    lower case in five groups of 8, 4, 4, 4 and 12 separated by hyphens,
    the third group starting with 4 and the fourth with 8, 9, a or b. *)
Theorem generated_ids_are_version_4_uuids (random : nat -> Q) :
  (forall i, (0 <= random i)%Q /\ (random i < 1)%Q) ->
  hasShape uuid4Shape (generateUniqueId random) = true /\
  String.length (generateUniqueId random) = 36%nat.
Proof.
  intros H. split; [|reflexivity].
  assert (Hx : forall i, isHex (replacement "x" (random i)) = true)
    by (intros i; apply replacement_x; apply H).
  assert (Hy : forall i, isVariant (replacement "y" (random i)) = true)
    by (intros i; apply replacement_y; apply H).
  unfold generateUniqueId, uuid4Shape.
  cbn -[replacement isHex isVariant].
  rewrite !Hx, Hy. reflexivity.
Qed.

Lemma demo_id_is_a_version_4_uuid :
  hasShape uuid4Shape (generateUniqueId demoRandom) = true /\
  String.length (generateUniqueId demoRandom) = 36%nat.
Proof.
  apply (generated_ids_are_version_4_uuids demoRandom).
  intros i. unfold demoRandom.
  assert (Hm : (0 <= Z.of_nat (i * 7 mod 16) < 16)%Z).
  { pose proof (Nat.mod_upper_bound (i * 7) 16). lia. }
  destruct Hm as [H0 H1]. rewrite Zle_Qle in H0. rewrite Zlt_Qlt in H1.
  change (inject_Z 0) with 0%Q in H0. change (inject_Z 16) with 16%Q in H1.
  split.
  - apply Qle_shift_div_l; [reflexivity|]. lra.
  - apply Qlt_shift_div_r; [reflexivity|]. lra.
Defined.

(** *** throttle *)

Lemma spaced_snoc (delay : Q) (times : list Z) (t : Z) :
  spaced delay times ->
  (forall t0, last times = Some t0 -> (delay <= inject_Z (t - t0))%Q) ->
  spaced delay (times ++ [t]).
Proof.
  induction times as [|t1 rest IH]; intros Hs Hl; [exact I|].
  destruct rest as [|t2 rest].
  - cbn. split; [|exact I]. apply Hl. reflexivity.
  - change ((t1 :: t2 :: rest) ++ [t]) with (t1 :: t2 :: (rest ++ [t])).
    cbn [spaced] in Hs |- *. destruct Hs as [H12 Hs]. split; [exact H12|].
    apply IH; [exact Hs|]. intros t0 H0. apply Hl.
    now rewrite last_cons_cons.
Qed.

Lemma call_invariant {A : Type} (delay : Q) (th : Throttled A) (c : Z * A) :
  spaced delay (map fst (executed th)) ->
  (forall t0, last (map fst (executed th)) = Some t0 -> t0 = lastCall th) ->
  spaced delay (map fst (executed (call delay th c))) /\
  (forall t0, last (map fst (executed (call delay th c))) = Some t0 ->
              t0 = lastCall (call delay th c)).
Proof.
  intros Hs Hl. unfold call. cbv zeta.
  destruct (Qle_bool delay (inject_Z (fst c - lastCall th))) eqn:E; [|now split].
  apply Qle_bool_iff in E. cbn [executed lastCall]. rewrite map_app. cbn [map].
  split.
  - apply spaced_snoc; [exact Hs|]. intros t0 H0. now rewrite (Hl t0 H0).
  - intros t0 H0. rewrite last_snoc in H0. now injection H0 as <-.
Qed.

Lemma callAll_invariant {A : Type} (delay : Q) (calls : list (Z * A))
      (th : Throttled A) :
  spaced delay (map fst (executed th)) ->
  (forall t0, last (map fst (executed th)) = Some t0 -> t0 = lastCall th) ->
  spaced delay (map fst (executed (callAll delay calls th))).
Proof.
  revert th. induction calls as [|c calls IH]; intros th Hs Hl; [exact Hs|].
  cbn [callAll fold_left]. destruct (call_invariant delay th c Hs Hl) as [Hs' Hl'].
  now apply IH.
Qed.

Lemma callAll_executed {A : Type} (delay : Q) (calls : list (Z * A))
      (th : Throttled A) :
  exists more, executed (callAll delay calls th) = executed th ++ more /\
               sublist more calls.
Proof.
  revert th. induction calls as [|c calls IH]; intros th.
  - exists []. cbn. now rewrite app_nil_r.
  - cbn [callAll fold_left]. destruct (IH (call delay th c)) as (more & He & Hsub).
    unfold call in He at 2. cbv zeta in He.
    destruct (Qle_bool delay (inject_Z (fst c - lastCall th))).
    + exists (c :: more). cbn [executed] in He. rewrite <- app_assoc in He.
      split; [exact He|]. now constructor.
    + exists more. split; [exact He|]. now constructor.
Qed.

(** X25.  Of the calls made to a function returned by
    [throttle(func, delay)], those passed on to [func] are passed on in
    order with their arguments, and any two successive ones are at least
    [delay] milliseconds apart by the clock. *)
Theorem throttled_calls_are_spaced {A : Type} (delay : Q) (calls : list (Z * A)) :
  spaced delay (map fst (executed (callAll delay calls throttle))) /\
  sublist (executed (callAll delay calls throttle)) calls.
Proof.
  split.
  - apply callAll_invariant; [exact I|]. discriminate.
  - destruct (callAll_executed delay calls (@throttle A)) as (more & -> & Hsub).
    exact Hsub.
Qed.

End HelpersProps.
